(** * A Chord-style ring DHT with per-machine B-trees

    Shallow embedding of [BTree.h], [DoublyLL.h], [CircularLL.h] and
    [IPFS.h], and the properties of the routing, membership and index
    layers proved over it.

    Conventions of the embedding.
    - A C++ [int] is a [Z].  The only places where the source can leave the
      32-bit range are [1 << bits] and [key + (1 << i)]; there the
      wrap-around is written out with [wrap_int].
    - Array indices and element counts are [nat].
    - Console output is not modelled as text: a function that prints a
      diagnostic returns a value that says which message it printed. *)

From Stdlib Require Import ZArith List Lia Bool Permutation Sorted Arith.
From Stdlib Require String.
Import ListNotations.
Local Open Scope Z_scope.

(** ** Machine integers *)

Definition wrap_int (z : Z) : Z := (z + 2 ^ 31) mod 2 ^ 32 - 2 ^ 31.

(** ** List helpers standing for array slices *)

Section ListOps.
Context {A : Type}.

(** [l] with [x] placed before index [i]. *)
Definition insert_at (i : nat) (x : A) (l : list A) : list A :=
  firstn i l ++ x :: skipn i l.

(** [l] without its element of index [i]. *)
Definition remove_at (i : nat) (l : list A) : list A :=
  firstn i l ++ skipn (S i) l.

(** [l] with its element of index [i] overwritten. *)
Definition set_at (i : nat) (x : A) (l : list A) : list A :=
  match skipn i l with
  | [] => l
  | _ :: tl => firstn i l ++ x :: tl
  end.
End ListOps.

(** Run [f] on the pointee of slot [k] of an array of nullable pointers and
    store the result back; [d] is the answer for a null slot. *)
Definition at_child {A R : Type} (f : A -> R * A) (d : R)
  : list (option A) -> nat -> R * list (option A) :=
  fix go (cs : list (option A)) (k : nat) {struct cs} :=
    match cs, k with
    | [], _ => (d, [])
    | None :: rest, O => (d, None :: rest)
    | Some c :: rest, O => let (r, c') := f c in (r, Some c' :: rest)
    | c :: rest, S k' => let (r, rest') := go rest k' in (r, c :: rest')
    end.

(** Read-only variant of [at_child]. *)
Definition on_child {A R : Type} (f : A -> R) (d : R)
  : list (option A) -> nat -> R :=
  fix go (cs : list (option A)) (k : nat) {struct cs} :=
    match cs, k with
    | [], _ => d
    | None :: _, O => d
    | Some c :: _, O => f c
    | _ :: rest, S k' => go rest k'
    end.

(** ** BTree.h *)

Module FileNode.
Record t : Type := mk { key : Z; path : String.string }.
(** [FileNode()] *)
Definition default : t := mk (-1) String.EmptyString.
End FileNode.

(** A [BTreeNode].  [value] holds the slots [value[1] .. value[count]] and
    [child] the slots [child[0] .. child[count]]; [count] is the length of
    [value].  Slots above [count] are not represented: the code never reads
    them on a tree that has the B-tree shape. *)
#[local] Unset Elimination Schemes.
Inductive BTreeNode : Type :=
  mkBTreeNode (MAX MIN : Z) (value : list FileNode.t)
              (child : list (option BTreeNode)).
#[local] Set Elimination Schemes.

Definition MAX (n : BTreeNode) : Z := let 'mkBTreeNode a _ _ _ := n in a.
Definition MIN (n : BTreeNode) : Z := let 'mkBTreeNode _ b _ _ := n in b.
Definition value (n : BTreeNode) : list FileNode.t :=
  let 'mkBTreeNode _ _ v _ := n in v.
Definition child (n : BTreeNode) : list (option BTreeNode) :=
  let 'mkBTreeNode _ _ _ c := n in c.
Definition count (n : BTreeNode) : nat := length (value n).

Definition with_value (n : BTreeNode) (v : list FileNode.t) : BTreeNode :=
  mkBTreeNode (MAX n) (MIN n) v (child n).
Definition with_child (n : BTreeNode) (c : list (option BTreeNode)) : BTreeNode :=
  mkBTreeNode (MAX n) (MIN n) (value n) c.

(** [n->value[i]]; slot 0 is never written and keeps the constructor's
    record, as does slot 1 of a node without records. *)
Definition value_at (n : BTreeNode) (i : nat) : FileNode.t :=
  match i with
  | O => FileNode.default
  | S j => nth j (value n) FileNode.default
  end.

(** [n->child[i]] *)
Definition child_at (n : BTreeNode) (i : nat) : option BTreeNode :=
  nth i (child n) None.

(** The thresholds computed by [BTreeNode(int order)]. *)
Definition MAX_of_order (order : Z) : Z := order - 1.
Definition MIN_of_order (order : Z) : Z :=
  let m := if Z.rem order 2 =? 0 then Z.quot order 2 else Z.quot order 2 + 1 in
  let m := m - 1 in
  if m <? 1 then 1 else m.

Module BTree.

(** The [while] loop of [searchNode]. *)
Fixpoint scan (key : Z) (n : BTreeNode) (pos : nat) : nat :=
  match pos with
  | O => O
  | S p =>
      if (key <? FileNode.key (value_at n pos)) && (1 <? pos)%nat
      then scan key n p else pos
  end.

(** [searchNode(key, n, &pos)]: the result and the final [*pos]. *)
Definition searchNode (key : Z) (n : BTreeNode) : bool * nat :=
  if key <? FileNode.key (value_at n 1) then (false, O)
  else
    let pos := scan key n (count n) in
    (key =? FileNode.key (value_at n pos), pos).

(** [search(key, node, &pos)] on a non-null node: the node found and the
    slot. *)
Fixpoint search (key : Z) (n : BTreeNode) : option (BTreeNode * nat) :=
  let '(found, pos) := searchNode key n in
  if found then Some (n, pos)
  else
    match n with
    | mkBTreeNode _ _ _ cs => on_child (search key) None cs pos
    end.

Definition fillnode (file : FileNode.t) (c : option BTreeNode)
           (n : BTreeNode) (k : nat) : BTreeNode :=
  mkBTreeNode (MAX n) (MIN n)
              (insert_at k file (value n))
              (insert_at (S k) c (child n)).

(** [split]: the promoted record [*y], the node [*newNode], and [n] after
    the call. *)
Definition split (file : FileNode.t) (c : option BTreeNode)
           (n : BTreeNode) (k : nat) : FileNode.t * BTreeNode * BTreeNode :=
  let mid := Z.to_nat (if Z.of_nat k <=? MIN n then MIN n else MIN n + 1) in
  let top := (Z.to_nat (MAX n) - mid)%nat in
  let newNode :=
    mkBTreeNode (MAX n) (MIN n)
                (firstn top (skipn mid (value n)))
                (None :: firstn top (skipn (S mid) (child n))) in
  let n1 :=
    mkBTreeNode (MAX n) (MIN n)
                (firstn mid (value n)) (firstn (S mid) (child n)) in
  let '(n2, newNode2) :=
    if Z.of_nat k <=? MIN n
    then (fillnode file c n1 k, newNode)
    else (n1, fillnode file c newNode (k - mid)) in
  let y := value_at n2 (count n2) in
  let newNode3 :=
    with_child newNode2 (set_at 0 (child_at n2 (count n2)) (child newNode2)) in
  let n3 :=
    mkBTreeNode (MAX n2) (MIN n2)
                (removelast (value n2)) (removelast (child n2)) in
  (y, newNode3, n3).

(** What a call of [setval] did: printed the duplicate message and
    returned [false]; stored the record below and returned [false]; or
    returned [true] with [*p] and [*c] set. *)
Inductive setval_result : Type :=
| Duplicate
| Stored
| Promote (p : FileNode.t) (c : option BTreeNode).

(** [setval] on a non-null [n]: the result and [n] after the call. *)
Fixpoint setval (file : FileNode.t) (n : BTreeNode)
  : setval_result * BTreeNode :=
  let '(found, k) := searchNode (FileNode.key file) n in
  if found then (Duplicate, n)
  else
    match n with
    | mkBTreeNode _ _ _ cs =>
        let '(r, cs') := at_child (setval file) (Promote file None) cs k in
        let n' := with_child n cs' in
        match r with
        | Promote p c =>
            if Z.of_nat (count n') <? MAX n'
            then (Stored, fillnode p c n' k)
            else let '(y, newNode, n'') := split p c n' k in
                 (Promote y (Some newNode), n'')
        | _ => (r, n')
        end
    end.

(** [setval] on a possibly null pointer. *)
Definition setval_ptr (file : FileNode.t) (n : option BTreeNode)
  : setval_result * option BTreeNode :=
  match n with
  | None => (Promote file None, None)
  | Some n => let (r, n') := setval file n in (r, Some n')
  end.

(** [insert(file, node, ord)]: the new root, and whether the duplicate
    message was printed. *)
Definition insert (file : FileNode.t) (node : option BTreeNode) (ord : Z)
  : option BTreeNode * bool :=
  match setval_ptr file node with
  | (Promote promoted newChild, node') =>
      let '(mx, mn) :=
        match node' with
        | Some n => (MAX n, MIN n)
        | None => (MAX_of_order ord, MIN_of_order ord)
        end in
      (Some (mkBTreeNode mx mn [promoted] [node'; newChild]), false)
  | (Duplicate, node') => (node', true)
  | (Stored, node') => (node', false)
  end.

Definition clear (node : BTreeNode) (k : nat) : BTreeNode :=
  mkBTreeNode (MAX node) (MIN node)
              (remove_at (k - 1) (value node)) (remove_at k (child node)).

(** The descent of [copysucc]. *)
Fixpoint leftmost (n : BTreeNode) : BTreeNode :=
  match n with
  | mkBTreeNode _ _ _ (Some c :: _) => leftmost c
  | _ => n
  end.

(** [copysucc]; a null [child[i]] is a null dereference in the source
    and leaves the node as it is here. *)
Definition copysucc (node : BTreeNode) (i : nat) : BTreeNode :=
  match child_at node i with
  | Some c => with_value node (set_at (i - 1) (value_at (leftmost c) 1) (value node))
  | None => node
  end.

(** The three restoring moves; they dereference [child[k-1]] ([left] in
    the source, [lnode] here) and [child[k]] ([right] or [temp]), and
    leave the node as it is when one of them is null. *)
Definition rightshift (node : BTreeNode) (k : nat) : BTreeNode :=
  match child_at node k, child_at node (k - 1) with
  | Some temp, Some lnode =>
      let temp' :=
        mkBTreeNode (MAX temp) (MIN temp)
                    (value_at node k :: value temp)
                    (child_at lnode (count lnode) :: child temp) in
      let lnode' :=
        mkBTreeNode (MAX lnode) (MIN lnode)
                    (removelast (value lnode)) (removelast (child lnode)) in
      mkBTreeNode (MAX node) (MIN node)
                  (set_at (k - 1) (value_at lnode (count lnode)) (value node))
                  (set_at (k - 1) (Some lnode') (set_at k (Some temp') (child node)))
  | _, _ => node
  end.

Definition leftshift (node : BTreeNode) (k : nat) : BTreeNode :=
  match child_at node (k - 1), child_at node k with
  | Some lnode, Some rnode =>
      let lnode' :=
        mkBTreeNode (MAX lnode) (MIN lnode)
                    (value lnode ++ [value_at node k])
                    (child lnode ++ [child_at rnode 0]) in
      let rnode' :=
        mkBTreeNode (MAX rnode) (MIN rnode)
                    (tl (value rnode)) (tl (child rnode)) in
      mkBTreeNode (MAX node) (MIN node)
                  (set_at (k - 1) (value_at rnode 1) (value node))
                  (set_at (k - 1) (Some lnode') (set_at k (Some rnode') (child node)))
  | _, _ => node
  end.

(** [merge].  When [right->child[0]] is null the slot of [left] keeps its
    content, which is null: then [right] is a leaf, so is [left], and no
    child slot of a leaf is ever written with a node. *)
Definition merge (node : BTreeNode) (k : nat) : BTreeNode :=
  match child_at node k, child_at node (k - 1) with
  | Some rnode, Some lnode =>
      let slot :=
        match child_at rnode 0 with
        | Some c => Some c
        | None => None
        end in
      let lnode' :=
        mkBTreeNode (MAX lnode) (MIN lnode)
                    (value lnode ++ value_at node k :: value rnode)
                    (child lnode ++ slot :: tl (child rnode)) in
      mkBTreeNode (MAX node) (MIN node)
                  (remove_at (k - 1) (value node))
                  (remove_at k (set_at (k - 1) (Some lnode') (child node)))
  | _, _ => node
  end.

(** [node->child[j]->count > node->MIN]; false for a null child. *)
Definition has_spare (node : BTreeNode) (j : nat) : bool :=
  match child_at node j with
  | Some c => MIN node <? Z.of_nat (count c)
  | None => false
  end.

Definition restore (node : BTreeNode) (i : nat) : BTreeNode :=
  if (i =? 0)%nat then
    if has_spare node 1 then leftshift node 1 else merge node 1
  else if (i =? count node)%nat then
    if has_spare node (i - 1) then rightshift node i else merge node i
  else
    if has_spare node (i - 1) then rightshift node i
    else if has_spare node (i + 1) then leftshift node (i + 1)
    else merge node i.

(** The closing test of [delhelp]. *)
Definition restore_if_needed (node : BTreeNode) (i : nat) : BTreeNode :=
  match child_at node i with
  | Some c => if Z.of_nat (count c) <? MIN node then restore node i else node
  | None => node
  end.

(** [delhelp] on a non-null node: the flag and the node after the call. *)
Fixpoint delhelp (file_key : Z) (node : BTreeNode) : bool * BTreeNode :=
  let '(found, i) := searchNode file_key node in
  let '(flag, node1) :=
    if found then
      match child_at node (i - 1) with
      | Some _ =>
          let node' := copysucc node i in
          let k' := FileNode.key (value_at node' i) in
          match node with
          | mkBTreeNode _ _ _ cs =>
              let '(flag, cs') := at_child (delhelp k') false cs i in
              (flag, with_child node' cs')
          end
      | None => (true, clear node i)
      end
    else
      match node with
      | mkBTreeNode _ _ _ cs =>
          let '(flag, cs') := at_child (delhelp file_key) false cs i in
          (flag, with_child node cs')
      end
  in
  (flag, restore_if_needed node1 i).

(** [delhelp] on a possibly null pointer. *)
Definition delhelp_ptr (file_key : Z) (node : option BTreeNode)
  : bool * option BTreeNode :=
  match node with
  | None => (false, None)
  | Some n => let (flag, n') := delhelp file_key n in (flag, Some n')
  end.

(** [del(file_key, node)]: the new root and [delhelp]'s flag ([false]
    means that the not-found message was printed). *)
Definition del (file_key : Z) (node : option BTreeNode)
  : option BTreeNode * bool :=
  match node with
  | None => (None, false)
  | Some n =>
      let '(flag, n') := delhelp file_key n in
      if negb flag then (Some n', false)
      else if (count n' =? 0)%nat then (child_at n' 0, true)
      else (Some n', true)
  end.

(** The breadth-first loop of [getAllFiles], [displayAllFiles] and
    [displayBFT]; [fuel] bounds the number of dequeues. *)
Fixpoint bfs (fuel : nat) (q : list BTreeNode) : list FileNode.t :=
  match fuel, q with
  | S fuel', current :: q' =>
      value current
      ++ bfs fuel' (q' ++ flat_map (fun c => match c with
                                            | Some c' => [c']
                                            | None => []
                                            end) (child current))
  | _, _ => []
  end.

(** Number of nodes below and including [n]. *)
Fixpoint node_count (n : BTreeNode) : nat :=
  match n with
  | mkBTreeNode _ _ _ cs =>
      S (list_sum (map (fun c => match c with
                                 | Some c' => node_count c'
                                 | None => O
                                 end) cs))
  end.

Definition getAllFiles (node : option BTreeNode) : list FileNode.t :=
  match node with
  | None => []
  | Some n => bfs (node_count n) [n]
  end.

Fixpoint countFiles_node (n : BTreeNode) : nat :=
  match n with
  | mkBTreeNode _ _ v cs =>
      (length v + list_sum (map (fun c => match c with
                                          | Some c' => countFiles_node c'
                                          | None => O
                                          end) cs))%nat
  end.

Definition countFiles (node : option BTreeNode) : nat :=
  match node with
  | None => O
  | Some n => countFiles_node n
  end.

(** The class itself: the root pointer and the order given to the
    constructor. *)
Record t : Type := mk { root : option BTreeNode; order : Z }.

(** [BTree(int o)] *)
Definition new (o : Z) : t := mk None o.

Definition insertHelper (b : t) (f : FileNode.t) (ord : Z) : t * bool :=
  let (r, dup) := insert f (root b) ord in (mk r (order b), dup).

Definition deleteHelper (b : t) (file_key : Z) : t * bool :=
  let (r, found) := del file_key (root b) in (mk r (order b), found).

Definition search_ptr (key : Z) (node : option BTreeNode)
  : option (BTreeNode * nat) :=
  match node with
  | None => None
  | Some n => search key n
  end.

Definition searchFile (b : t) (file_key : Z) : bool :=
  match search_ptr file_key (root b) with
  | Some _ => true
  | None => false
  end.

Definition findFile (b : t) (file_key : Z) : option FileNode.t :=
  match search_ptr file_key (root b) with
  | Some (node, pos) => Some (value_at node pos)
  | None => None
  end.

End BTree.

(** ** DoublyLL.h: the routing (finger) table *)

(** A [CircularNode*] is the position of the machine in the ring, counted
    from [head] along [next]; a null pointer is [None]. *)
Definition machine_ptr : Type := option nat.

Module DoublyNode.
Record t : Type := mk { filekey : Z; machinekey : Z; m : machine_ptr }.
(** [DoublyNode(int f, int mk)] *)
Definition new (f mk' : Z) : t := mk f mk' None.
End DoublyNode.

(** A [DoublyLinkedList] is the list of its entries from [head] to [tail];
    the fields [index] and [m_val] are written and never read, and are left
    out. *)
Module DoublyLinkedList.

Definition t : Type := list DoublyNode.t.

(** [static_cast<int>(log2(identifierSpace))], clamped to at least 1.
    The cast is exact on a positive argument and undefined on others,
    where this definition gives 1. *)
Definition numEntries (identifierSpace : Z) : nat :=
  let n := Z.log2 identifierSpace in
  Z.to_nat (if n <? 1 then 1 else n).

(** [initialize]: appends the entries; the sum is a [long long]. *)
Definition initialize (rt : t) (machine_key identifierSpace : Z) : t :=
  rt ++ map (fun i => DoublyNode.new
                        (Z.rem (machine_key + Z.shiftl 1 (Z.of_nat i))
                               identifierSpace) (-1))
            (seq 0 (numEntries identifierSpace)).

Definition clear (rt : t) : t := [].

End DoublyLinkedList.

(** ** CircularLL.h: the ring *)

Module CircularNode.
(** [next] is implicit: the ring is the list of its machines from
    [head]. *)
Record t : Type := mk { key : Z; RT : DoublyLinkedList.t; BTreeroot : BTree.t }.
(** [CircularNode(int v, int btreeOrder)] *)
Definition new (v btreeOrder : Z) : t := mk v [] (BTree.new btreeOrder).
Definition with_RT (n : t) (rt : DoublyLinkedList.t) : t :=
  mk (key n) rt (BTreeroot n).
Definition with_BTree (n : t) (b : BTree.t) : t :=
  mk (key n) (RT n) b.
End CircularNode.

(** How a loop of the model ended: with a value, by exhausting its bound,
    or on a dereference of a dangling pointer (undefined in the source). *)
Inductive result (A : Type) : Type :=
| Ok (a : A)
| OutOfFuel
| Fault.
Arguments Ok {A} a.
Arguments OutOfFuel {A}.
Arguments Fault {A}.

(** The messages of [insertAfter] and [deletekey]. *)
Inductive join_outcome : Type := JoinExists | JoinOutOfRange | JoinAdded.
Inductive leave_outcome : Type := LeaveEmptyRing | LeaveNotFound | LeaveRemoved.

(** The messages of the file operations. *)
Inductive put_outcome : Type :=
| PutEmptyRing
| PutNoSuchMachine
| PutNoRoute
| PutResponsibleNotFound
| PutAlreadyExists (machine : Z)
| PutStored (machine : Z)
| PutStuck.

Module CircularLinkedList.

(** [nodes] is the cycle from [head]; [head == nullptr] is [nodes = []]. *)
Record t : Type := mk {
  nodes : list CircularNode.t;
  identifierSpace : Z;
  bits : Z;
  btreeOrder : Z
}.

(** [CircularLinkedList(int IS, int order)] *)
Definition new (IS order : Z) : t := mk [] IS (Z.log2 IS) order.

Definition with_nodes (r : t) (l : list CircularNode.t) : t :=
  mk l (identifierSpace r) (bits r) (btreeOrder r).

Definition getMachineCount (r : t) : nat := length (nodes r).

(** [p->next] *)
Definition next (r : t) (p : nat) : nat :=
  if (S p <? length (nodes r))%nat then S p else O.

(** [p->key]; the default stands for a dereference that the ring never
    performs: every position handed to it is below the machine count. *)
Definition key_at (r : t) (p : nat) : Z :=
  match nth_error (nodes r) p with
  | Some n => CircularNode.key n
  | None => -1
  end.

(** A [do { if (test) found; current = current->next; } while (current != head)]
    scan: the first position that passes the test. *)
Definition first_pos (r : t) (test : nat -> bool) : option nat :=
  find test (seq 0 (length (nodes r))).

(** The inner walk of [insert], on the machines after [head]. *)
Fixpoint insert_after_head (newNode : CircularNode.t) (rest : list CircularNode.t)
  : list CircularNode.t :=
  match rest with
  | [] => [newNode]
  | x :: rest' =>
      if CircularNode.key x <? CircularNode.key newNode
      then x :: insert_after_head newNode rest'
      else newNode :: x :: rest'
  end.

Definition insert (r : t) (value : Z) : t :=
  let newNode := CircularNode.new value (btreeOrder r) in
  let newNode :=
    CircularNode.with_RT newNode
      (DoublyLinkedList.initialize (CircularNode.RT newNode) value (identifierSpace r)) in
  match nodes r with
  | [] => with_nodes r [newNode]
  | head :: rest =>
      if value <? CircularNode.key head
      then with_nodes r (newNode :: head :: rest)
      else with_nodes r (head :: insert_after_head newNode rest)
  end.

Definition search (r : t) (value : Z) : bool :=
  match first_pos r (fun p => key_at r p =? value) with
  | Some _ => true
  | None => false
  end.

Definition succ (r : t) (value : Z) : machine_ptr :=
  match nodes r with
  | [] => None
  | _ =>
      match first_pos r (fun p => value <=? key_at r p) with
      | Some p => Some p
      | None => Some O
      end
  end.

(** The inner [while] of [updateRT], from entry [i] on. *)
Fixpoint fill_fingers (r : t) (current_key : Z) (i : nat)
         (fingers : list DoublyNode.t) : list DoublyNode.t :=
  match fingers with
  | [] => []
  | _ :: rest =>
      let target :=
        Z.rem (wrap_int (current_key + wrap_int (Z.shiftl 1 (Z.of_nat i))))
              (identifierSpace r) in
      let succNode := succ r target in
      DoublyNode.mk target
                    (match succNode with Some p => key_at r p | None => -1 end)
                    succNode
      :: fill_fingers r current_key (S i) rest
  end.

(** [updateRT]; [succ] reads keys only, which the rebuild leaves alone. *)
Definition updateRT (r : t) : t :=
  with_nodes r
    (map (fun current =>
            let rt := DoublyLinkedList.initialize
                        (DoublyLinkedList.clear (CircularNode.RT current))
                        (CircularNode.key current) (identifierSpace r) in
            CircularNode.with_RT current
              (fill_fingers r (CircularNode.key current) 0 rt))
         (nodes r)).

Definition isBetween (target start end_ : Z) : bool :=
  if start <? end_
  then (start <? target) && (target <=? end_)
  else (start <? target) || (target <=? end_).

Definition findPredecessor (r : t) (machineKey : Z) : machine_ptr :=
  first_pos r (fun p => key_at r (next r p) =? machineKey).

Definition SearchNewMachine (r : t) (machineKey : Z) : machine_ptr :=
  first_pos r (fun p => key_at r (next r p) =? machineKey).

Definition findMachineById (r : t) (id : Z) : machine_ptr :=
  first_pos r (fun p => key_at r p =? id).

(** The test shared by [routeToKey] and [findResponsibleMachine];
    [predKey] already holds the fallback for a null predecessor. *)
Definition responsible_test (r : t) (predKey currentKey key : Z) : bool :=
  if (getMachineCount r =? 1)%nat then true
  else if predKey <? currentKey
       then (predKey <? key) && (key <=? currentKey)
       else (predKey <? key) || (key <=? currentKey).

(** The scan of the finger table in [routeToKey]: the last entry that
    qualifies. *)
Definition best_finger (rt : DoublyLinkedList.t) (currentKey key : Z)
  : machine_ptr :=
  fold_left (fun nextHop finger =>
               match DoublyNode.m finger with
               | Some p =>
                   if isBetween (DoublyNode.machinekey finger) currentKey key
                   then Some p else nextHop
               | None => nextHop
               end) rt None.

Definition RT_at (r : t) (p : nat) : DoublyLinkedList.t :=
  match nth_error (nodes r) p with
  | Some n => CircularNode.RT n
  | None => []
  end.

(** The [while (true)] of [routeToKey]; [visited] is the [set<int>]. *)
Fixpoint route_loop (fuel : nat) (r : t) (key : Z) (current : nat)
         (path visited : list Z) : result (list Z) :=
  match fuel with
  | O => OutOfFuel
  | S fuel' =>
      let pred := findPredecessor r (key_at r current) in
      let predKey := match pred with Some p => key_at r p | None => -1 end in
      if responsible_test r predKey (key_at r current) key then Ok path
      else
        let nextHop :=
          match best_finger (RT_at r current) (key_at r current) key with
          | Some p => p
          | None => next r current
          end in
        match nth_error (nodes r) nextHop with
        | None => Fault
        | Some hop =>
            if existsb (Z.eqb (CircularNode.key hop)) visited then Ok path
            else route_loop fuel' r key nextHop
                            (path ++ [CircularNode.key hop])
                            (CircularNode.key hop :: visited)
        end
  end.

(** [routeToKey] with a bound on the iterations of its main loop. *)
Definition routeToKey_fuel (fuel : nat) (r : t) (startMachineId key : Z)
  : result (list Z) :=
  match nodes r with
  | [] => Ok []
  | _ =>
      let current :=
        match first_pos r (fun p => key_at r p =? startMachineId) with
        | Some p => p
        | None => O
        end in
      if negb (key_at r current =? startMachineId) then Ok []
      else route_loop fuel r key current [key_at r current] [key_at r current]
  end.

(** One iteration for each machine is enough (see [route_terminates]). *)
Definition routeToKey (r : t) (startMachineId key : Z) : result (list Z) :=
  routeToKey_fuel (getMachineCount r) r startMachineId key.

Definition findResponsibleMachine (r : t) (key : Z) : machine_ptr :=
  match nodes r with
  | [] => None
  | _ =>
      match first_pos r (fun current =>
               let pred := findPredecessor r (key_at r current) in
               let predKey := match pred with
                              | Some p => key_at r p
                              | None => identifierSpace r - 1
                              end in
               responsible_test r predKey (key_at r current) key) with
      | Some p => Some p
      | None => Some O
      end
  end.

Definition BTree_at (r : t) (p : nat) : BTree.t :=
  match nth_error (nodes r) p with
  | Some n => CircularNode.BTreeroot n
  | None => BTree.new (btreeOrder r)
  end.

Definition set_BTree (r : t) (p : nat) (b : BTree.t) : t :=
  match nth_error (nodes r) p with
  | Some n => with_nodes r (set_at p (CircularNode.with_BTree n b) (nodes r))
  | None => r
  end.

(** [Traverse_delete(source, destination, order)]: the ring after the
    transfer and the records for which the duplicate message was
    printed. *)
Definition Traverse_delete (r : t) (source destination : nat) (order : Z)
  : t * list FileNode.t :=
  match BTree.root (BTree_at r source) with
  | None => (r, [])
  | Some _ =>
      let files := BTree.getAllFiles (BTree.root (BTree_at r source)) in
      fold_left (fun '(r, rejected) file =>
                   let '(b, dup) := BTree.insertHelper (BTree_at r destination) file order in
                   (set_BTree r destination b,
                    if dup then rejected ++ [file] else rejected))
                files (r, [])
  end.

(** The test of [Traverse_insert] on one record. *)
Definition shouldMove (previousKey newKey fileKey : Z) : bool :=
  if previousKey <? newKey
  then (previousKey <? fileKey) && (fileKey <=? newKey)
  else (previousKey <? fileKey) || (fileKey <=? newKey).

(** [Traverse_insert(previous, order, identifierSpace)] *)
Definition Traverse_insert (r : t) (previous : nat) (order : Z) : t :=
  let newMachine := next r previous in
  let successor := next r newMachine in
  match BTree.root (BTree_at r successor) with
  | None => r
  | Some _ =>
      let files := BTree.getAllFiles (BTree.root (BTree_at r successor)) in
      let toMove := filter (fun file => shouldMove (key_at r previous) (key_at r newMachine)
                                                   (FileNode.key file)) files in
      fold_left (fun r file =>
                   let r1 := set_BTree r newMachine
                               (fst (BTree.insertHelper (BTree_at r newMachine) file order)) in
                   set_BTree r1 successor
                     (fst (BTree.deleteHelper (BTree_at r1 successor) (FileNode.key file))))
                toMove r
  end.

Definition insertAfter (r : t) (value order : Z) : t * join_outcome :=
  if search r value then (r, JoinExists)
  else if (value <? 0) || (identifierSpace r <=? value) then (r, JoinOutOfRange)
  else
    let r1 := updateRT (insert r value) in
    let r2 :=
      match SearchNewMachine r1 value with
      | Some prev =>
          if (1 <? getMachineCount r1)%nat then Traverse_insert r1 prev order else r1
      | None => r1
      end in
    (r2, JoinAdded).

Definition deletekey (r : t) (value order : Z) : t * leave_outcome :=
  match nodes r with
  | [] => (r, LeaveEmptyRing)
  | _ =>
      let current :=
        match first_pos r (fun p => key_at r p =? value) with
        | Some p => p
        | None => O
        end in
      if negb (key_at r current =? value) then (r, LeaveNotFound)
      else
        let successor := next r current in
        let r1 :=
          if negb (successor =? current)%nat
          then fst (Traverse_delete r current successor order)
          else r in
        let r2 := with_nodes r1 (remove_at current (nodes r1)) in
        let r3 := match nodes r2 with [] => r2 | _ => updateRT r2 end in
        (r3, LeaveRemoved)
  end.

Definition InsertFileToTree (r : t) (machineKey fileKey : Z)
           (path : String.string) (order : Z) : t * put_outcome :=
  match nodes r with
  | [] => (r, PutEmptyRing)
  | _ =>
      if negb (search r machineKey) then (r, PutNoSuchMachine)
      else
        let file := FileNode.mk fileKey path in
        match routeToKey r machineKey fileKey with
        | Ok routingPath =>
            match routingPath with
            | [] => (r, PutNoRoute)
            | _ =>
                let responsibleId := last routingPath 0 in
                match findMachineById r responsibleId with
                | None => (r, PutResponsibleNotFound)
                | Some responsible =>
                    if BTree.searchFile (BTree_at r responsible) fileKey
                    then (r, PutAlreadyExists (key_at r responsible))
                    else
                      (set_BTree r responsible
                         (fst (BTree.insertHelper (BTree_at r responsible) file order)),
                       PutStored (key_at r responsible))
                end
            end
        | _ => (r, PutStuck)
        end
  end.

(** [SearchFile_WithMachine]: the machine returned, with the record that
    the function prints. *)
Definition SearchFile_WithMachine (r : t) (machineKey fileKey : Z)
  : option (nat * option FileNode.t) :=
  match nodes r with
  | [] => None
  | _ =>
      match routeToKey r machineKey fileKey with
      | Ok routingPath =>
          match routingPath with
          | [] => None
          | _ =>
              let responsibleId := last routingPath 0 in
              match findMachineById r responsibleId with
              | Some responsible =>
                  if BTree.searchFile (BTree_at r responsible) fileKey
                  then Some (responsible,
                             BTree.findFile (BTree_at r responsible) fileKey)
                  else None
              | None => None
              end
          end
      | _ => None
      end
  end.

Definition DeleteFileFromTree (r : t) (machineKey fileKey : Z) : t * bool :=
  match nodes r with
  | [] => (r, false)
  | _ =>
      match routeToKey r machineKey fileKey with
      | Ok routingPath =>
          match routingPath with
          | [] => (r, false)
          | _ =>
              let responsibleId := last routingPath 0 in
              match findMachineById r responsibleId with
              | None => (r, false)
              | Some responsible =>
                  match BTree.findFile (BTree_at r responsible) fileKey with
                  | None => (r, false)
                  | Some _ =>
                      (set_BTree r responsible
                         (fst (BTree.deleteHelper (BTree_at r responsible) fileKey)),
                       true)
                  end
              end
          end
      | _ => (r, false)
      end
  end.

End CircularLinkedList.

(** ** IPFS.h: the facade *)

Module IPFS.

Record t : Type := mk {
  C : CircularLinkedList.t;
  identifierSpace : Z;
  bits : Z;
  order : Z
}.

(** [IPFS(int numBits, int btreeOrder)] *)
Definition new (numBits btreeOrder : Z) : t :=
  let numBits := if numBits <? 1 then 1 else numBits in
  let numBits := if 31 <? numBits then 31 else numBits in
  let identifierSpace := wrap_int (Z.shiftl 1 numBits) in
  mk (CircularLinkedList.new identifierSpace btreeOrder)
     identifierSpace numBits btreeOrder.

Definition with_C (s : t) (c : CircularLinkedList.t) : t :=
  mk c (identifierSpace s) (bits s) (order s).

Definition isValidMachineId (s : t) (id : Z) : bool :=
  (0 <=? id) && (id <? identifierSpace s).

(** [InsertMachines(arr, num_mac)]; the second component lists the IDs
    for which the out-of-range warning was printed. *)
Definition InsertMachines (s : t) (arr : list Z) : t * list Z :=
  let '(c, skipped) :=
    fold_left (fun '(c, skipped) id =>
                 if isValidMachineId s id
                 then (CircularLinkedList.insert c id, skipped)
                 else (c, skipped ++ [id]))
              arr (C s, []) in
  (with_C s (CircularLinkedList.updateRT c), skipped).

Definition InsertMachine (s : t) (machineKey btreeOrder : Z) : t * join_outcome :=
  if negb (isValidMachineId s machineKey) then (s, JoinOutOfRange)
  else let '(c, o) := CircularLinkedList.insertAfter (C s) machineKey btreeOrder in
       (with_C s c, o).

Definition DeleteMachine (s : t) (machineKey btreeOrder : Z) : t * leave_outcome :=
  let '(c, o) := CircularLinkedList.deletekey (C s) machineKey btreeOrder in
  (with_C s c, o).

Definition insertFile (s : t) (machineKey fileKey : Z) (path : String.string)
           (btreeOrder : Z) : t * put_outcome :=
  let '(c, o) := CircularLinkedList.InsertFileToTree (C s) machineKey fileKey path btreeOrder in
  (with_C s c, o).

Definition DeleteFile (s : t) (machineKey fileKey : Z) : t * bool :=
  let '(c, b) := CircularLinkedList.DeleteFileFromTree (C s) machineKey fileKey in
  (with_C s c, b).

Definition SearchFile (s : t) (machineKey fileKey : Z)
  : option (nat * option FileNode.t) :=
  CircularLinkedList.SearchFile_WithMachine (C s) machineKey fileKey.

End IPFS.

(** ** Vocabulary of the B-tree properties *)

(** In-order interleaving of the records [vals] of a node with the
    contents [subs] of its subtrees. *)
Fixpoint weave {A : Type} (subs : list (list A)) (vals : list A) : list A :=
  match subs with
  | [] => vals
  | s :: subs' =>
      s ++ match vals with
           | [] => weave subs' []
           | v :: vals' => v :: weave subs' vals'
           end
  end.

(** The part of [weave] that follows the first subtree. *)
Definition rweave {A : Type} (vals : list A) (subs : list (list A)) : list A :=
  match vals with
  | [] => weave subs []
  | v :: vals' => v :: weave subs vals'
  end.

(** Subtrees and records in pairs, subtree first. *)
Fixpoint lpairs {A : Type} (subs : list (list A)) (vals : list A) : list A :=
  match subs, vals with
  | s :: subs', v :: vals' => s ++ v :: lpairs subs' vals'
  | _, _ => []
  end.

(** The records below a node, in key order when the node is a search
    tree. *)
Fixpoint elems (n : BTreeNode) : list FileNode.t :=
  match n with
  | mkBTreeNode _ _ v cs =>
      weave (map (fun o => match o with
                           | Some c => elems c
                           | None => []
                           end) cs) v
  end.

Definition elems_ptr (o : option BTreeNode) : list FileNode.t :=
  match o with
  | Some c => elems c
  | None => []
  end.

Definition contents (b : BTree.t) : list FileNode.t := elems_ptr (BTree.root b).

Definition keys (l : list FileNode.t) : list Z := map FileNode.key l.

Definition sorted (l : list FileNode.t) : Prop := StronglySorted Z.lt (keys l).

(** [all_lt a b]: every key of [a] is below every key of [b]. *)
Definition all_lt (a b : list FileNode.t) : Prop :=
  forall x y, In x a -> In y b -> FileNode.key x < FileNode.key y.

(** Every key of [l] is below [k]; every key of [l] is above [k]. *)
Definition above (k : Z) (l : list FileNode.t) : Prop :=
  forall y, In y l -> FileNode.key y < k.
Definition below (k : Z) (l : list FileNode.t) : Prop :=
  forall y, In y l -> k < FileNode.key y.

Definition has_key (k : Z) (f : FileNode.t) : bool := FileNode.key f =? k.

(** [l] without its records of key [k]. *)
Definition drop_key (k : Z) (l : list FileNode.t) : list FileNode.t :=
  filter (fun f => negb (has_key k f)) l.

(** Every node strictly below [n]. *)
Fixpoint descendants (n : BTreeNode) : list BTreeNode :=
  match n with
  | mkBTreeNode _ _ _ cs =>
      flat_map (fun o => match o with
                         | Some c => c :: descendants c
                         | None => []
                         end) cs
  end.

(** The non-null children of a node, in order: what the breadth-first
    loop enqueues. *)
Definition kids (n : BTreeNode) : list BTreeNode :=
  flat_map (fun c => match c with Some c' => [c'] | None => [] end) (child n).

Definition descendants_ptr (o : option BTreeNode) : list BTreeNode :=
  match o with
  | Some n => descendants n
  | None => []
  end.

Section Shape.

Variables MX MN : Z.

(** [shape h n]: [n] is the root of a subtree of uniform height [h] whose
    nodes carry the thresholds [MX] and [MN], have one more child slot
    than records, and whose nodes other than [n] hold between [MN] and
    [MX] records. *)
Fixpoint shape (h : nat) (n : BTreeNode) : Prop :=
  MAX n = MX /\ MIN n = MN /\ length (child n) = S (count n) /\
  Forall (fun o =>
            match h with
            | O => o = None
            | S h' =>
                match o with
                | Some c => shape h' c /\ MN <= Z.of_nat (count c) <= MX
                | None => False
                end
            end) (child n).

(** A child slot of a node of height [h], whose pointee holds at least
    [lo] records. *)
Definition slot (lo : Z) (h : nat) (o : option BTreeNode) : Prop :=
  match h with
  | O => o = None
  | S h' =>
      match o with
      | Some c => shape h' c /\ lo <= Z.of_nat (count c) <= MX
      | None => False
      end
  end.

(** The invariant of a root pointer: the B-tree shape, with at least one
    record in the root, and the search-tree order. *)
Definition btree_inv (o : option BTreeNode) : Prop :=
  (exists h, slot 1 h o) /\ sorted (elems_ptr o).

(** What [setval] owes for a record [file] on a slot [o] of height [h]
    whose pointee holds at least [lo] records. *)
Definition setval_post (lo : Z) (h : nat) (file : FileNode.t)
           (o : option BTreeNode)
           (res : BTree.setval_result * option BTreeNode) : Prop :=
  match res with
  | (BTree.Duplicate, o') =>
      o' = o /\ In (FileNode.key file) (keys (elems_ptr o))
  | (BTree.Stored, o') =>
      slot lo h o' /\ sorted (elems_ptr o') /\
      Permutation (elems_ptr o') (file :: elems_ptr o)
  | (BTree.Promote p c, o') =>
      slot MN h o' /\ slot MN h c /\
      sorted (elems_ptr o' ++ p :: elems_ptr c) /\
      Permutation (elems_ptr o' ++ p :: elems_ptr c) (file :: elems_ptr o)
  end.

(** What [delhelp] owes for a key [k] on a slot [o] of height [h]. *)
Definition delhelp_post (lo : Z) (h : nat) (k : Z) (o : option BTreeNode)
           (res : bool * option BTreeNode) : Prop :=
  let '(flag, o') := res in
  slot (lo - 1) h o' /\
  (flag = false -> o' = o) /\
  flag = existsb (has_key k) (elems_ptr o) /\
  elems_ptr o' = drop_key k (elems_ptr o).

End Shape.

(** The invariant of a [BTree] driven with order [t]. *)
Definition BTree_inv (t : Z) (b : BTree.t) : Prop :=
  btree_inv (MAX_of_order t) (MIN_of_order t) (BTree.root b).

(** The trees that [insertHelper] and [deleteHelper] build with order [t]
    from an empty tree. *)
Inductive built (t : Z) : BTree.t -> Prop :=
| built_new : forall o, built t (BTree.new o)
| built_insert : forall b f,
    built t b -> built t (fst (BTree.insertHelper b f t))
| built_delete : forall b k,
    built t b -> built t (fst (BTree.deleteHelper b k)).

(** ** Vocabulary of the ring properties *)

(** The machine IDs from [head] along [next]. *)
Definition ring_keys (r : CircularLinkedList.t) : list Z :=
  map CircularNode.key (CircularLinkedList.nodes r).

(** [id] is the successor of [x] among the IDs [K]: the smallest ID that is
    at least [x], or the smallest ID of all when [x] exceeds every ID. *)
Definition is_successor (K : list Z) (x id : Z) : Prop :=
  In id K /\
  ((x <= id /\ forall id', In id' K -> x <= id' -> id <= id') \/
   ((forall id', In id' K -> id' < x) /\ forall id', In id' K -> id <= id')).

(** [k] lies in the half-open interval [(p, n]] of the identifier circle. *)
Definition in_interval (p n k : Z) : Prop :=
  if p <? n then p < k <= n else p < k \/ k <= n.

(** Hops left from position [c] to position [R] along [next], in a ring of
    [n] machines. *)
Definition hops_to (n R c : nat) : nat :=
  if (c <=? R)%nat then (R - c)%nat else (R + n - c)%nat.

(** The position of the successor of [key]. *)
Definition succ_pos (r : CircularLinkedList.t) (key : Z) : nat :=
  match CircularLinkedList.succ r key with
  | Some p => p
  | None => O
  end.

(** The finger table that [updateRT] gives to a machine of ID [k]. *)
Definition finger_table (r : CircularLinkedList.t) (k : Z) : DoublyLinkedList.t :=
  CircularLinkedList.fill_fingers r k 0
    (DoublyLinkedList.initialize (DoublyLinkedList.clear [])
                                 k (CircularLinkedList.identifierSpace r)).

(** No finger points outside the ring. *)
Definition fingers_live (r : CircularLinkedList.t) : Prop :=
  Forall (fun n =>
            Forall (fun f => match DoublyNode.m f with
                             | Some p => (p < length (CircularLinkedList.nodes r))%nat
                             | None => True
                             end) (CircularNode.RT n))
         (CircularLinkedList.nodes r).

(** A finger that points to a machine caches that machine's ID. *)
Definition fingers_consistent (r : CircularLinkedList.t) : Prop :=
  Forall (fun n =>
            Forall (fun f => match DoublyNode.m f with
                             | Some p =>
                                 (p < length (CircularLinkedList.nodes r))%nat /\
                                 DoublyNode.machinekey f = CircularLinkedList.key_at r p
                             | None => True
                             end) (CircularNode.RT n))
         (CircularLinkedList.nodes r).

(** Every finger table is the one that [updateRT] builds. *)
Definition fingers_fresh (r : CircularLinkedList.t) : Prop :=
  Forall (fun n => CircularNode.RT n = finger_table r (CircularNode.key n))
         (CircularLinkedList.nodes r).

(** The invariant of the ring: IDs strictly ascending from [head] and
    within the identifier space, finger tables rebuilt, every machine's
    B-tree well formed for the order in use. *)
Record ring_inv (order : Z) (r : CircularLinkedList.t) : Prop := {
  ri_sorted : StronglySorted Z.lt (ring_keys r);
  ri_range : Forall (fun k => 0 <= k < CircularLinkedList.identifierSpace r)
                    (ring_keys r);
  ri_fresh : fingers_fresh r;
  ri_trees : Forall (fun n => BTree_inv order (CircularNode.BTreeroot n))
                    (CircularLinkedList.nodes r)
}.

(** The invariant of the facade. *)
Record ipfs_inv (s : IPFS.t) : Prop := {
  ii_order : 3 <= IPFS.order s <= 100;
  ii_bits : 1 <= IPFS.bits s <= 31;
  ii_space : IPFS.identifierSpace s = wrap_int (2 ^ IPFS.bits s);
  ii_same : CircularLinkedList.identifierSpace (IPFS.C s) = IPFS.identifierSpace s;
  ii_ring : ring_inv (IPFS.order s) (IPFS.C s)
}.

(** The states of the simulator: a fresh facade, populated once by
    [InsertMachines] with distinct IDs (as [main] does), then driven by
    joins, leaves, puts and deletes with the configured B-tree order. *)
Inductive reachable : IPFS.t -> Prop :=
| reach_new : forall numBits btreeOrder,
    3 <= btreeOrder <= 100 ->
    reachable (IPFS.new numBits btreeOrder)
| reach_setup : forall numBits btreeOrder ids,
    3 <= btreeOrder <= 100 -> NoDup ids ->
    reachable (fst (IPFS.InsertMachines (IPFS.new numBits btreeOrder) ids))
| reach_join : forall s id,
    reachable s -> reachable (fst (IPFS.InsertMachine s id (IPFS.order s)))
| reach_leave : forall s id,
    reachable s -> reachable (fst (IPFS.DeleteMachine s id (IPFS.order s)))
| reach_put : forall s start fileKey path,
    reachable s ->
    reachable (fst (IPFS.insertFile s start fileKey path (IPFS.order s)))
| reach_del : forall s start fileKey,
    reachable s -> reachable (fst (IPFS.DeleteFile s start fileKey)).

(** The B-tree of the machine of ID [id]. *)
Definition BTree_of (r : CircularLinkedList.t) (id : Z) : option BTree.t :=
  match CircularLinkedList.findMachineById r id with
  | Some p => Some (CircularLinkedList.BTree_at r p)
  | None => None
  end.

(** Entry [i] of the finger table of the machine of ID [k], in a ring of
    [2 ^ b] identifiers: its target is [(k + 2 ^ i) mod 2 ^ b], and it
    points to and caches the ID of the successor of that target. *)
Definition finger_correct (r : CircularLinkedList.t) (b k : Z) (i : nat)
           (f : DoublyNode.t) : Prop :=
  DoublyNode.filekey f = (k + 2 ^ Z.of_nat i) mod 2 ^ b /\
  exists q,
    DoublyNode.m f = Some q /\
    (q < length (CircularLinkedList.nodes r))%nat /\
    DoublyNode.machinekey f = CircularLinkedList.key_at r q /\
    is_successor (ring_keys r) (DoublyNode.filekey f) (CircularLinkedList.key_at r q).

(** Every machine has [b] fingers, all correct. *)
Definition fingers_correct (r : CircularLinkedList.t) (b : Z) : Prop :=
  Forall (fun n =>
            length (CircularNode.RT n) = Z.to_nat b /\
            forall i, (i < Z.to_nat b)%nat ->
                      exists f, nth_error (CircularNode.RT n) i = Some f /\
                                finger_correct r b (CircularNode.key n) i f)
         (CircularLinkedList.nodes r).

(** The canonical lower bound of a B-tree of order [t]: the ceiling of
    [t / 2], less one. *)
Definition ceil_half (t : Z) : Z := t / 2 + t mod 2.
Definition canonical_min (t : Z) : Z := ceil_half t - 1.

(** ** Sample states *)

(** The ring of the machines 1, 4, 9, 11 and 14 over 16 identifiers, with
    B-trees of order 3. *)
Definition sample_ring : IPFS.t :=
  fst (IPFS.InsertMachines (IPFS.new 4 3) [1; 4; 9; 11; 14]).

(** A tree of order 3 with the keys 1 to 7. *)
Definition sample_tree : BTree.t :=
  fold_left (fun b k =>
               fst (BTree.insertHelper b (FileNode.mk k String.EmptyString) 3))
            [1; 2; 3; 4; 5; 6; 7] (BTree.new 3).

(** Paths for the sample records. *)
Module SamplePaths.
Import String.
Definition a : string := "/files/a.txt"%string.
Definition b : string := "/files/b.txt"%string.
Definition c : string := "/files/c.txt"%string.
End SamplePaths.

(** The sample ring with the records of keys 12, 13 and 14, all held by
    machine 14. *)
Definition sample_store : IPFS.t :=
  let s := sample_ring in
  let s := fst (IPFS.insertFile s 1 12 SamplePaths.a (IPFS.order s)) in
  let s := fst (IPFS.insertFile s 4 13 SamplePaths.b (IPFS.order s)) in
  fst (IPFS.insertFile s 9 14 SamplePaths.c (IPFS.order s)).

(** A state in which two machines hold a record of key 2: machine 5 is set
    up alone and stores key 2; a second bulk set-up (which hands nothing
    off) adds machine 3, which from then on is responsible for the keys 2
    and 3 and stores them. *)
Definition collision_state : IPFS.t :=
  let s := fst (IPFS.InsertMachines (IPFS.new 4 3) [5]) in
  let s := fst (IPFS.insertFile s 5 2 SamplePaths.a 3) in
  let s := fst (IPFS.InsertMachines s [3]) in
  let s := fst (IPFS.insertFile s 5 2 SamplePaths.b 3) in
  fst (IPFS.insertFile s 5 3 SamplePaths.c 3).

(** Where the records are after the join of [id] that takes the ring [r]
    to [r']: with [pp] the predecessor of the new machine after the
    splice, [np] the new machine and [sp] its successor, the new machine
    holds the records of the old tree [bs] of the successor whose keys lie
    in the interval from the predecessor (excluded) to [id] (included),
    the successor holds the other records of [bs], and every other
    machine holds the tree it held. *)
Definition handed_off (r r' : CircularLinkedList.t) (id : Z) : Prop :=
  exists pp,
    let np := CircularLinkedList.next r' pp in
    let sp := CircularLinkedList.next r' np in
    (pp < length (CircularLinkedList.nodes r'))%nat /\
    CircularLinkedList.key_at r' np = id /\
    exists bs,
      BTree_of r (CircularLinkedList.key_at r' sp) = Some bs /\
      (forall f, In f (contents (CircularLinkedList.BTree_at r' np)) <->
                 In f (contents bs) /\
                 in_interval (CircularLinkedList.key_at r' pp) id (FileNode.key f)) /\
      (forall f, In f (contents (CircularLinkedList.BTree_at r' sp)) <->
                 In f (contents bs) /\
                 ~ in_interval (CircularLinkedList.key_at r' pp) id (FileNode.key f)) /\
      (forall q, (q < length (CircularLinkedList.nodes r'))%nat ->
                 q <> np -> q <> sp ->
                 BTree_of r (CircularLinkedList.key_at r' q)
                 = Some (CircularLinkedList.BTree_at r' q)).

(** ** Further vocabulary *)

(** Every leaf of [n] is [h] levels below [n]. *)
Fixpoint leaves_at (h : nat) (n : BTreeNode) : Prop :=
  Forall (fun o =>
            match h with
            | O => o = None
            | S h' =>
                match o with
                | Some c => leaves_at h' c
                | None => False
                end
            end) (child n).

(** A record whose key [sample_tree] lacks, and one that it holds. *)
Definition fresh_record : FileNode.t := FileNode.mk 9 SamplePaths.a.
Definition stored_record : FileNode.t := FileNode.mk 4 String.EmptyString.

(** [p] is the predecessor of [x] among the IDs [K]: the largest ID below
    [x], or the largest ID of all when no ID is below [x]. *)
Definition is_predecessor (K : list Z) (x p : Z) : Prop :=
  In p K /\
  ((p < x /\ forall y, In y K -> y < x -> y <= p) \/
   ((forall y, In y K -> x <= y) /\ forall y, In y K -> y <= p)).

(** The record [f] is stored on a machine of the ring. *)
Definition stored (r : CircularLinkedList.t) (f : FileNode.t) : Prop :=
  exists node, In node (CircularLinkedList.nodes r) /\
               In f (contents (CircularNode.BTreeroot node)).

(** Every record is on the machine responsible for its key: the successor
    of the key among the machine IDs. *)
Definition placed (r : CircularLinkedList.t) : Prop :=
  forall node f,
    In node (CircularLinkedList.nodes r) ->
    In f (contents (CircularNode.BTreeroot node)) ->
    is_successor (ring_keys r) (FileNode.key f) (CircularNode.key node).

(** ** IPFS.h: the queries of the facade *)

Module IPFSQueries.

(** [getMachineCount]; [C] is never null once the constructor has run. *)
Definition getMachineCount (s : IPFS.t) : nat :=
  CircularLinkedList.getMachineCount (IPFS.C s).

Definition machineExists (s : IPFS.t) (machineKey : Z) : bool :=
  CircularLinkedList.search (IPFS.C s) machineKey.

End IPFSQueries.

(** ** CircularLL.h: the header that [printBTree] prints *)

(** The three forms of the line "Responsible for ...". *)
Inductive range_msg : Type :=
| RangeAll (last : Z)
| RangeOne (first last : Z)
| RangeTwo (first last last' : Z).

(** The IDs that a line names; the second interval of [RangeTwo] starts
    at the literal 0. *)
Definition in_range (m : range_msg) (k : Z) : Prop :=
  match m with
  | RangeAll last => 0 <= k <= last
  | RangeOne first last => first <= k <= last
  | RangeTwo first last last' => first <= k <= last \/ 0 <= k <= last'
  end.

Module CircularLinkedListPrint.

Definition isEmpty (r : CircularLinkedList.t) : bool :=
  match CircularLinkedList.nodes r with
  | [] => true
  | _ => false
  end.

(** [printBTree(machineKey)]: the range line and the "Total Files"
    line, or [None] for the error message. *)
Definition printBTree (r : CircularLinkedList.t) (machineKey : Z)
  : option (range_msg * nat) :=
  match CircularLinkedList.findMachineById r machineKey with
  | None => None
  | Some machine =>
      let pred := CircularLinkedList.findPredecessor r machineKey in
      let rangeStart :=
        match pred with
        | Some p =>
            Z.rem (wrap_int (CircularLinkedList.key_at r p + 1))
                  (CircularLinkedList.identifierSpace r)
        | None => 0
        end in
      let rangeEnd := machineKey in
      let fileCount :=
        BTree.countFiles (BTree.root (CircularLinkedList.BTree_at r machine)) in
      Some (if (CircularLinkedList.getMachineCount r =? 1)%nat
            then RangeAll (CircularLinkedList.identifierSpace r - 1)
            else if rangeStart <=? rangeEnd
                 then RangeOne rangeStart rangeEnd
                 else RangeTwo rangeStart
                               (CircularLinkedList.identifierSpace r - 1) rangeEnd,
            fileCount)
  end.

End CircularLinkedListPrint.

(** ** DoublyLL.h: the other operations of the finger table *)

Module DoublyLinkedListOps.

Definition isEmpty (rt : DoublyLinkedList.t) : bool :=
  match rt with
  | [] => true
  | _ => false
  end.

(** [search(n)]: is [n] the target of an entry? *)
Fixpoint search (rt : DoublyLinkedList.t) (n : Z) : bool :=
  match rt with
  | [] => false
  | current :: rest =>
      if DoublyNode.filekey current =? n then true else search rest n
  end.

(** [update(old_file, new_file)]: retargets the first entry of target
    [old_file]. *)
Fixpoint update (rt : DoublyLinkedList.t) (old_file new_file : Z)
  : DoublyLinkedList.t :=
  match rt with
  | [] => []
  | current :: rest =>
      if DoublyNode.filekey current =? old_file
      then DoublyNode.mk new_file (DoublyNode.machinekey current)
                         (DoublyNode.m current) :: rest
      else current :: update rest old_file new_file
  end.

End DoublyLinkedListOps.

(** ** Queue.h *)

Module Queue.

(** The nodes from [front] to [rear], and the field [count]. *)
Record t (T : Type) : Type := mk { items : list T; count : nat }.
Arguments mk {T} _ _.
Arguments items {T} _.
Arguments count {T} _.

(** [Queue()] *)
Definition new {T : Type} : t T := mk [] 0.

Definition is_empty {T : Type} (q : t T) : bool := (count q =? 0)%nat.

Definition size {T : Type} (q : t T) : nat := count q.

(** [enqueue(item)]; on an empty queue [front] and [rear] are both set
    to the new node. *)
Definition enqueue {T : Type} (item : T) (q : t T) : t T :=
  if is_empty q then mk [item] (S (count q))
  else mk (items q ++ [item]) (S (count q)).

(** [dequeue()]: the value returned and the queue left; [d] is [T()],
    returned with the error message on an empty queue.  [Fault] is the
    dereference of a null [front]. *)
Definition dequeue {T : Type} (d : T) (q : t T) : result (T * t T) :=
  if is_empty q then Ok (d, q)
  else match items q with
       | data :: rest => Ok (data, mk rest (count q - 1))
       | [] => Fault
       end.

Definition peek {T : Type} (d : T) (q : t T) : result T :=
  if is_empty q then Ok d
  else match items q with
       | data :: _ => Ok data
       | [] => Fault
       end.

(** [clear()]: dequeues until [is_empty]. *)
Fixpoint clear_loop {T : Type} (fuel : nat) (d : T) (q : t T) : result (t T) :=
  if is_empty q then Ok q
  else match fuel with
       | O => OutOfFuel
       | S fuel' =>
           match dequeue d q with
           | Ok (_, q') => clear_loop fuel' d q'
           | OutOfFuel => OutOfFuel
           | Fault => Fault
           end
       end.

Definition clear {T : Type} (d : T) (q : t T) : result (t T) :=
  clear_loop (count q) d q.

(** [Queue(const Queue& other)]: enqueues the data of [other] from its
    [front]. *)
Definition copy {T : Type} (other : t T) : t T :=
  fold_left (fun q data => enqueue data q) (items other) new.

(** The queues that the operations build. *)
Definition wf {T : Type} (q : t T) : Prop := count q = length (items q).

End Queue.

(** ** main.cpp: the hash-based assignment of the set-up *)

Module Main.

(** The collision loop of [initializeSystem]: from the hash of a name,
    [id] steps round the identifier circle while it is among
    [machineIds].  The flag says whether the message "No more unique IDs
    available!" was printed. *)
Fixpoint probe (fuel : nat) (machineIds : list Z)
         (identifierSpace originalId id : Z) : result (Z * bool) :=
  match fuel with
  | O => OutOfFuel
  | S fuel' =>
      if existsb (Z.eqb id) machineIds
      then
        let id := Z.rem (wrap_int (id + 1)) identifierSpace in
        if id =? originalId then Ok (id, true)
        else probe fuel' machineIds identifierSpace originalId id
      else Ok (id, false)
  end.

(** The loop over the machine names.  [generateHashInSpace] is declared
    in SHA1.h; [hashes] are its results for the names entered, in the
    order of the names. *)
Fixpoint assign_hashed (fuel : nat) (identifierSpace : Z)
         (machineIds hashes : list Z) : result (list Z * bool) :=
  match hashes with
  | [] => Ok (machineIds, false)
  | hash :: rest =>
      match probe fuel machineIds identifierSpace hash hash with
      | Ok (id, msg) =>
          match assign_hashed fuel identifierSpace (machineIds ++ [id]) rest with
          | Ok (ids, msg') => Ok (ids, msg || msg')
          | OutOfFuel => OutOfFuel
          | Fault => Fault
          end
      | OutOfFuel => OutOfFuel
      | Fault => Fault
      end
  end.

End Main.

(** * Proofs *)

(** ** Array slices *)

Section ListFacts.
Context {A : Type}.
Implicit Types (l : list A) (x y : A) (k m : nat).

Lemma split_at l k :
  (k <= length l)%nat -> exists l1 l2, l = l1 ++ l2 /\ length l1 = k.
Proof.
  intros H. exists (firstn k l), (skipn k l). split.
  - symmetry. apply firstn_skipn.
  - rewrite length_firstn. lia.
Qed.

Lemma split_at_elem l k :
  (k < length l)%nat -> exists l1 y l2, l = l1 ++ y :: l2 /\ length l1 = k.
Proof.
  intros H. destruct (split_at l k) as (l1 & l2 & -> & Hk); [lia|].
  destruct l2 as [|y l2].
  - rewrite app_nil_r in H. lia.
  - eauto.
Qed.

Lemma firstn_app_exact l1 l2 k : length l1 = k -> firstn k (l1 ++ l2) = l1.
Proof.
  intros <-. rewrite firstn_app, Nat.sub_diag, firstn_all. simpl.
  apply app_nil_r.
Qed.

Lemma skipn_app_exact l1 l2 k : length l1 = k -> skipn k (l1 ++ l2) = l2.
Proof.
  intros <-. rewrite skipn_app, Nat.sub_diag, skipn_all. reflexivity.
Qed.

Lemma firstn_app_snoc l1 l2 y k :
  length l1 = k -> firstn (S k) (l1 ++ y :: l2) = l1 ++ [y].
Proof.
  intros H. replace (l1 ++ y :: l2) with ((l1 ++ [y]) ++ l2) by now rewrite <- app_assoc.
  apply firstn_app_exact. rewrite length_app. simpl. lia.
Qed.

Lemma skipn_app_snoc l1 l2 y k :
  length l1 = k -> skipn (S k) (l1 ++ y :: l2) = l2.
Proof.
  intros H. replace (l1 ++ y :: l2) with ((l1 ++ [y]) ++ l2) by now rewrite <- app_assoc.
  apply skipn_app_exact. rewrite length_app. simpl. lia.
Qed.

Lemma insert_at_app l1 l2 x k :
  length l1 = k -> insert_at k x (l1 ++ l2) = l1 ++ x :: l2.
Proof.
  intros H. unfold insert_at.
  now rewrite firstn_app_exact, skipn_app_exact.
Qed.

Lemma remove_at_app l1 l2 y k :
  length l1 = k -> remove_at k (l1 ++ y :: l2) = l1 ++ l2.
Proof.
  intros H. unfold remove_at.
  now rewrite firstn_app_exact, skipn_app_snoc.
Qed.

Lemma set_at_app l1 l2 x y k :
  length l1 = k -> set_at k x (l1 ++ y :: l2) = l1 ++ x :: l2.
Proof.
  intros H. unfold set_at.
  now rewrite skipn_app_exact, firstn_app_exact.
Qed.

Lemma set_at_same l k d :
  set_at k (nth k l d) l = l.
Proof.
  unfold set_at. destruct (skipn k l) as [|y tl] eqn:E; [reflexivity|].
  rewrite <- (firstn_skipn k l) at 3. rewrite E. f_equal. f_equal.
  rewrite <- (firstn_skipn k l). rewrite E.
  assert (Hk : length (firstn k l) = k).
  { rewrite length_firstn. apply Nat.min_l.
    destruct (Nat.le_gt_cases k (length l)) as [?|Hgt]; [assumption|].
    rewrite skipn_all2 in E by lia. discriminate. }
  rewrite app_nth2 by lia. rewrite Hk, Nat.sub_diag. reflexivity.
Qed.

Lemma nth_app_exact l1 l2 y d k :
  length l1 = k -> nth k (l1 ++ y :: l2) d = y.
Proof.
  intros <-. rewrite app_nth2 by lia. now rewrite Nat.sub_diag.
Qed.

Lemma length_insert_at l x k : length (insert_at k x l) = S (length l).
Proof.
  unfold insert_at. rewrite length_app. simpl.
  rewrite length_firstn, length_skipn. lia.
Qed.

Lemma firstn_insert_at_le l x k m :
  (m <= k)%nat -> (k <= length l)%nat ->
  firstn m (insert_at k x l) = firstn m l.
Proof.
  intros Hm Hk. destruct (split_at l k Hk) as (l1 & l2 & -> & Hl).
  rewrite insert_at_app by assumption.
  rewrite !firstn_app. replace (m - length l1)%nat with O by lia.
  reflexivity.
Qed.

Lemma firstn_insert_at_gt l x k m :
  (k <= m)%nat -> (m <= length l)%nat ->
  firstn (S m) (insert_at k x l) = insert_at k x (firstn m l).
Proof.
  intros Hk Hm. destruct (split_at l k) as (l1 & l2 & -> & Hl); [lia|].
  rewrite insert_at_app by assumption.
  rewrite !firstn_app, Hl.
  rewrite (firstn_all2 (n := S m) l1) by lia.
  rewrite (firstn_all2 (n := m) l1) by lia.
  rewrite insert_at_app by assumption.
  replace (S m - k)%nat with (S (m - k)) by lia. reflexivity.
Qed.

Lemma skipn_insert_at_le l x k m :
  (k <= m)%nat -> (m <= length l)%nat ->
  skipn (S m) (insert_at k x l) = skipn m l.
Proof.
  intros Hk Hm. destruct (split_at l k) as (l1 & l2 & -> & Hl); [lia|].
  rewrite insert_at_app by assumption.
  rewrite !skipn_app, Hl.
  rewrite (skipn_all2 (n := S m) l1) by lia.
  rewrite (skipn_all2 (n := m) l1) by lia.
  replace (S m - k)%nat with (S (m - k)) by lia. reflexivity.
Qed.

Lemma skipn_insert_at_gt l x k m :
  (m <= k)%nat -> (k <= length l)%nat ->
  skipn m (insert_at k x l) = insert_at (k - m) x (skipn m l).
Proof.
  intros Hm Hk. destruct (split_at l k Hk) as (l1 & l2 & -> & Hl).
  rewrite insert_at_app by assumption.
  rewrite !skipn_app. replace (m - length l1)%nat with O by lia.
  simpl skipn at 2 4.
  rewrite insert_at_app; [reflexivity|].
  rewrite length_skipn. lia.
Qed.

Lemma nth_removelast_last l d :
  l <> [] -> removelast l ++ [nth (length l - 1) l d] = l.
Proof.
  intros H. destruct (exists_last H) as (l' & a & ->).
  rewrite removelast_last, length_app. simpl.
  rewrite app_nth2 by lia.
  replace (length l' + 1 - 1 - length l')%nat with O by lia. reflexivity.
Qed.

Lemma snoc_cases l : l = [] \/ exists l' a, l = l' ++ [a].
Proof.
  destruct l as [|x l]; [now left|right].
  destruct (@exists_last _ (x :: l)) as (l' & a & E); [discriminate|]. eauto.
Qed.

End ListFacts.

(** ** Interleaving *)

Section WeaveFacts.
Context {A : Type}.
Implicit Types (subs sl sr : list (list A)) (vals vl vr s a b : list A) (v d : A).

Lemma weave_cons s sr vr : weave (s :: sr) vr = s ++ rweave vr sr.
Proof. reflexivity. Qed.

Lemma weave_app sl sr vl vr :
  length sl = length vl ->
  weave (sl ++ sr) (vl ++ vr) = lpairs sl vl ++ weave sr vr.
Proof.
  revert vl. induction sl as [|s sl IH]; intros [|v vl] H; try discriminate.
  - reflexivity.
  - simpl. rewrite IH by (simpl in H; lia).
    rewrite <- !app_assoc. reflexivity.
Qed.

Lemma lpairs_app sl sr vl vr :
  length sl = length vl ->
  lpairs (sl ++ sr) (vl ++ vr) = lpairs sl vl ++ lpairs sr vr.
Proof.
  revert vl. induction sl as [|s sl IH]; intros [|v vl] H; try discriminate.
  - reflexivity.
  - simpl. rewrite IH by (simpl in H; lia).
    rewrite <- !app_assoc. reflexivity.
Qed.

(** The contents around the subtree of position [length sl]. *)
Lemma weave_at sl s sr vl vr :
  length sl = length vl ->
  weave (sl ++ s :: sr) (vl ++ vr) = lpairs sl vl ++ s ++ rweave vr sr.
Proof. intros H. now rewrite weave_app. Qed.

(** The contents around the record of position [length vl] and its two
    subtrees. *)
Lemma weave_at2 sl a b sr vl v vr :
  length sl = length vl ->
  weave (sl ++ a :: b :: sr) (vl ++ v :: vr)
  = lpairs sl vl ++ a ++ v :: b ++ rweave vr sr.
Proof. intros H. now rewrite weave_app. Qed.

Lemma weave_single s : weave [s] [] = s.
Proof. simpl. apply app_nil_r. Qed.

Lemma weave_snoc subs vals s v :
  length subs = S (length vals) ->
  weave (subs ++ [s]) (vals ++ [v]) = weave subs vals ++ v :: s.
Proof.
  revert vals. induction subs as [|s0 subs IH]; intros vals H; [discriminate|].
  destruct vals as [|v0 vals].
  - destruct subs; [|discriminate]. simpl.
    rewrite !app_nil_r. reflexivity.
  - simpl. rewrite IH by (simpl in H; lia).
    rewrite <- !app_assoc. reflexivity.
Qed.

Lemma weave_leaf subs vals :
  Forall (fun s => s = []) subs -> weave subs vals = vals.
Proof.
  intros H. revert vals. induction H as [|s subs -> _ IH]; intros vals.
  - reflexivity.
  - simpl. destruct vals; [apply IH|]. now rewrite IH.
Qed.

(** Cutting a node at its record of position [j]. *)
Lemma weave_split subs vals j d :
  (j < length vals)%nat -> length subs = S (length vals) ->
  weave subs vals
  = weave (firstn (S j) subs) (firstn j vals)
    ++ nth j vals d :: weave (skipn (S j) subs) (skipn (S j) vals).
Proof.
  intros Hj Hl.
  destruct (split_at_elem vals j Hj) as (vl & v & vr & -> & Hvl).
  destruct (split_at_elem subs j) as (sl & s & sr & -> & Hsl); [lia|].
  rewrite nth_app_exact by assumption.
  rewrite firstn_app_snoc, skipn_app_snoc by assumption.
  rewrite firstn_app_exact, skipn_app_snoc by assumption.
  rewrite weave_app by lia.
  rewrite <- (app_nil_r vl) at 2. rewrite weave_app by lia.
  simpl. rewrite app_nil_r, <- !app_assoc. reflexivity.
Qed.

Lemma weave_perm subs vals :
  Permutation (weave subs vals) (vals ++ concat subs).
Proof.
  revert vals. induction subs as [|s subs IH]; intros vals.
  - simpl. now rewrite app_nil_r.
  - simpl. destruct vals as [|v vals].
    + simpl. apply Permutation_app_head. apply (IH []).
    + apply Permutation_trans with (s ++ v :: vals ++ concat subs).
      * apply Permutation_app_head. constructor. apply IH.
      * apply Permutation_trans with ((v :: vals ++ concat subs) ++ s).
        { apply Permutation_app_comm. }
        simpl. constructor. rewrite <- app_assoc.
        apply Permutation_app_head. apply Permutation_app_comm.
Qed.

End WeaveFacts.

Section ListFacts2.
Context {A : Type}.
Implicit Types (l : list A) (x y d : A) (k m i j : nat).

Lemma nth_firstn_lt l i j d : (i < j)%nat -> nth i (firstn j l) d = nth i l d.
Proof.
  revert i j. induction l as [|a l IH]; intros i j H.
  - rewrite firstn_nil. reflexivity.
  - destruct j as [|j]; [lia|]. destruct i as [|i]; [reflexivity|].
    simpl. apply IH. lia.
Qed.

Lemma skipn_cons_nth l i d :
  (i < length l)%nat -> skipn i l = nth i l d :: skipn (S i) l.
Proof.
  intros H. destruct (split_at_elem l i H) as (l1 & y & l2 & -> & Hl).
  now rewrite skipn_app_exact, nth_app_exact, skipn_app_snoc.
Qed.

Lemma insert_at_cons a l x k : insert_at (S k) x (a :: l) = a :: insert_at k x l.
Proof. reflexivity. Qed.

Lemma set_at_0 a l x : set_at 0 x (a :: l) = x :: l.
Proof. reflexivity. Qed.

Lemma removelast_firstn_len l k :
  (k < length l)%nat -> removelast (firstn (S k) l) = firstn k l.
Proof. apply removelast_firstn. Qed.

Lemma length_remove_at l k :
  (k < length l)%nat -> length (remove_at k l) = (length l - 1)%nat.
Proof.
  intros H. destruct (split_at_elem l k H) as (l1 & y & l2 & -> & Hl).
  rewrite remove_at_app by assumption. rewrite !length_app. simpl. lia.
Qed.

End ListFacts2.

Lemma app_inv_len {A : Type} (l1 l2 l1' l2' : list A) :
  l1 ++ l2 = l1' ++ l2' -> length l1 = length l1' -> l1 = l1' /\ l2 = l2'.
Proof.
  revert l1'. induction l1 as [|x l1 IH]; intros [|x' l1'] E H; try discriminate.
  - auto.
  - simpl in E. injection E as -> E. destruct (IH l1' E) as [-> ->]; auto.
Qed.

Lemma Forall_firstn' {A : Type} (P : A -> Prop) (l : list A) k :
  Forall P l -> Forall P (firstn k l).
Proof.
  intros H. rewrite Forall_forall in *. intros x Hx. apply H.
  rewrite <- (firstn_skipn k l). apply in_or_app. now left.
Qed.

Lemma Forall_skipn' {A : Type} (P : A -> Prop) (l : list A) k :
  Forall P l -> Forall P (skipn k l).
Proof.
  intros H. rewrite Forall_forall in *. intros x Hx. apply H.
  rewrite <- (firstn_skipn k l). apply in_or_app. now right.
Qed.

Lemma remove_at_app2 {A : Type} (l1 l2 : list A) x y k :
  length l1 = k -> remove_at (S k) (l1 ++ x :: y :: l2) = l1 ++ x :: l2.
Proof.
  intros H. replace (l1 ++ x :: y :: l2) with ((l1 ++ [x]) ++ y :: l2)
    by now rewrite <- app_assoc.
  rewrite remove_at_app by (rewrite length_app; simpl; lia).
  now rewrite <- app_assoc.
Qed.

Lemma app_mid_eq {A : Type} (x y x' y' r : list A) v v' :
  x ++ v :: y = x' ++ v' :: y' -> x ++ v :: y ++ r = x' ++ v' :: y' ++ r.
Proof.
  intros H. change (x ++ (v :: y) ++ r = x' ++ (v' :: y') ++ r).
  rewrite !app_assoc. now rewrite H.
Qed.

Section SetAt.
Context {A : Type}.
Implicit Types (l : list A) (x : A) (p q : nat).

Lemma length_set_at l p x : length (set_at p x l) = length l.
Proof.
  unfold set_at. destruct (skipn p l) as [|y tl] eqn:E; [reflexivity|].
  rewrite <- (firstn_skipn p l) at 2. rewrite E, !length_app. reflexivity.
Qed.

Lemma set_at_split l p x :
  (p < length l)%nat ->
  exists l1 y l2, l = l1 ++ y :: l2 /\ length l1 = p /\ set_at p x l = l1 ++ x :: l2.
Proof.
  intros Hp. destruct (split_at_elem l p Hp) as (l1 & y & l2 & -> & Hl).
  exists l1, y, l2. repeat split; auto. now apply set_at_app.
Qed.

Lemma nth_error_set_at_eq l p x :
  (p < length l)%nat -> nth_error (set_at p x l) p = Some x.
Proof.
  intros Hp. destruct (set_at_split l p x Hp) as (l1 & y & l2 & -> & Hl & ->).
  rewrite nth_error_app2 by lia. now replace (p - length l1)%nat with O by lia.
Qed.

Lemma nth_error_set_at_neq l p q x :
  q <> p -> nth_error (set_at p x l) q = nth_error l q.
Proof.
  intros Hq. destruct (Nat.lt_ge_cases p (length l)) as [Hp|Hp].
  - destruct (set_at_split l p x Hp) as (l1 & y & l2 & -> & Hl & ->).
    destruct (Nat.lt_ge_cases q (length l1)).
    + now rewrite !nth_error_app1 by lia.
    + rewrite !nth_error_app2 by lia.
      destruct (q - length l1)%nat eqn:E; [lia|reflexivity].
  - unfold set_at. now rewrite skipn_all2 by lia.
Qed.

Lemma In_set_at l p x y :
  In y (set_at p x l) -> y = x \/ In y l.
Proof.
  destruct (Nat.lt_ge_cases p (length l)) as [Hp|Hp].
  - destruct (set_at_split l p x Hp) as (l1 & z & l2 & -> & Hl & ->).
    rewrite !in_app_iff. simpl. intuition.
  - unfold set_at. rewrite skipn_all2 by lia. auto.
Qed.

Lemma Forall_set_at (P : A -> Prop) l p x :
  Forall P l -> P x -> Forall P (set_at p x l).
Proof.
  intros Hl Hx. rewrite Forall_forall in *. intros y Hy.
  apply In_set_at in Hy. destruct Hy as [->|Hy]; auto.
Qed.

End SetAt.

Lemma map_set_at_same {A B : Type} (f : A -> B) (l : list A) p x y :
  nth_error l p = Some y -> f x = f y -> map f (set_at p x l) = map f l.
Proof.
  intros Hy Hf.
  assert (Hp : (p < length l)%nat) by (apply nth_error_Some; congruence).
  destruct (set_at_split l p x Hp) as (l1 & z & l2 & -> & Hl & ->).
  rewrite nth_error_app2 in Hy by lia.
  replace (p - length l1)%nat with O in Hy by lia. injection Hy as ->.
  rewrite !map_app. simpl. now rewrite Hf.
Qed.

Lemma StronglySorted_remove_at {A : Type} (R : A -> A -> Prop) (l : list A) i :
  StronglySorted R l -> StronglySorted R (remove_at i l).
Proof.
  intros H. revert i. induction H as [|x l Hs IH Hf]; intros i.
  - unfold remove_at. rewrite firstn_nil, skipn_nil. constructor.
  - destruct i as [|i].
    + unfold remove_at. simpl. assumption.
    + unfold remove_at in *. simpl. constructor; [apply IH|].
      rewrite Forall_forall in *. intros y Hy. apply Hf.
      apply in_app_or in Hy. destruct Hy as [Hy|Hy].
      * rewrite <- (firstn_skipn i l). apply in_or_app. now left.
      * rewrite <- (firstn_skipn (S i) l). apply in_or_app. now right.
Qed.

Lemma Forall_remove_at {A : Type} (P : A -> Prop) (l : list A) i :
  Forall P l -> Forall P (remove_at i l).
Proof.
  intros H. unfold remove_at. apply Forall_app. split.
  - now apply Forall_firstn'.
  - now apply Forall_skipn'.
Qed.

Lemma map_remove_at {A B : Type} (f : A -> B) (l : list A) i :
  map f (remove_at i l) = remove_at i (map f l).
Proof. unfold remove_at. now rewrite map_app, firstn_map, skipn_map. Qed.

(** ** Key order *)

Section OrderFacts.
Implicit Types (l a b : list FileNode.t) (x y : FileNode.t) (k : Z).

Lemma above_nil k : above k [] <-> True.
Proof. split; [trivial|]. intros _ y []. Qed.

Lemma above_cons k x l : above k (x :: l) <-> FileNode.key x < k /\ above k l.
Proof.
  unfold above. split.
  - intros H. split; [apply H; now left|]. intros y Hy. apply H. now right.
  - intros [H1 H2] y [<-|Hy]; auto.
Qed.

Lemma above_app k a b : above k (a ++ b) <-> above k a /\ above k b.
Proof.
  unfold above. split.
  - intros H. split; intros y Hy; apply H, in_or_app; auto.
  - intros [H1 H2] y Hy. apply in_app_or in Hy. destruct Hy; auto.
Qed.

Lemma below_nil k : below k [] <-> True.
Proof. split; [trivial|]. intros _ y []. Qed.

Lemma below_cons k x l : below k (x :: l) <-> k < FileNode.key x /\ below k l.
Proof.
  unfold below. split.
  - intros H. split; [apply H; now left|]. intros y Hy. apply H. now right.
  - intros [H1 H2] y [<-|Hy]; auto.
Qed.

Lemma below_app k a b : below k (a ++ b) <-> below k a /\ below k b.
Proof.
  unfold below. split.
  - intros H. split; intros y Hy; apply H, in_or_app; auto.
  - intros [H1 H2] y Hy. apply in_app_or in Hy. destruct Hy; auto.
Qed.

Lemma all_lt_nil_l b : all_lt [] b <-> True.
Proof. split; [trivial|]. intros _ x y []. Qed.

Lemma all_lt_nil_r a : all_lt a [] <-> True.
Proof. split; [trivial|]. intros _ x y _ []. Qed.

Lemma all_lt_cons_l x a b :
  all_lt (x :: a) b <-> below (FileNode.key x) b /\ all_lt a b.
Proof.
  unfold all_lt, below. split.
  - intros H. split; intros; apply H; simpl; auto.
  - intros [H1 H2] x' y [<-|Hx] Hy; auto.
Qed.

Lemma all_lt_cons_r a y b :
  all_lt a (y :: b) <-> above (FileNode.key y) a /\ all_lt a b.
Proof.
  unfold all_lt, above. split.
  - intros H. split; intros; apply H; simpl; auto.
  - intros [H1 H2] x y' Hx [<-|Hy]; auto.
Qed.

Lemma all_lt_app_l a1 a2 b :
  all_lt (a1 ++ a2) b <-> all_lt a1 b /\ all_lt a2 b.
Proof.
  unfold all_lt. split.
  - intros H. split; intros x y Hx Hy; apply H; auto using in_or_app.
  - intros [H1 H2] x y Hx Hy. apply in_app_or in Hx. destruct Hx; auto.
Qed.

Lemma all_lt_app_r a b1 b2 :
  all_lt a (b1 ++ b2) <-> all_lt a b1 /\ all_lt a b2.
Proof.
  unfold all_lt. split.
  - intros H. split; intros x y Hx Hy; apply H; auto using in_or_app.
  - intros [H1 H2] x y Hx Hy. apply in_app_or in Hy. destruct Hy; auto.
Qed.

Lemma sorted_nil : sorted [] <-> True.
Proof. split; [trivial|]. intros _. constructor. Qed.

Lemma sorted_cons x l : sorted (x :: l) <-> below (FileNode.key x) l /\ sorted l.
Proof.
  unfold sorted, below, keys. simpl. split.
  - intros H. apply StronglySorted_inv in H. destruct H as [Hs Hf].
    split; [|assumption]. intros y Hy.
    rewrite Forall_forall in Hf. apply Hf. now apply in_map.
  - intros [Hb Hs]. constructor; [assumption|].
    rewrite Forall_forall. intros k Hk.
    apply in_map_iff in Hk. destruct Hk as (y & <- & Hy). auto.
Qed.

Lemma sorted_app a b : sorted (a ++ b) <-> sorted a /\ sorted b /\ all_lt a b.
Proof.
  induction a as [|x a IH].
  - simpl. rewrite sorted_nil, all_lt_nil_l. tauto.
  - simpl. rewrite !sorted_cons, IH, below_app, all_lt_cons_l. tauto.
Qed.

Lemma above_le k k' l : above k l -> k <= k' -> above k' l.
Proof. intros H Hk y Hy. specialize (H y Hy). lia. Qed.

Lemma below_le k k' l : below k l -> k' <= k -> below k' l.
Proof. intros H Hk y Hy. specialize (H y Hy). lia. Qed.

Lemma all_lt_through k a b : above k a -> below k b -> all_lt a b.
Proof. intros Ha Hb x y Hx Hy. specialize (Ha x Hx). specialize (Hb y Hy). lia. Qed.

Lemma above_incl k a b : (forall y, In y a -> In y b) -> above k b -> above k a.
Proof. intros H Hb y Hy. auto. Qed.

Lemma below_incl k a b : (forall y, In y a -> In y b) -> below k b -> below k a.
Proof. intros H Hb y Hy. auto. Qed.

Lemma drop_key_app k a b : drop_key k (a ++ b) = drop_key k a ++ drop_key k b.
Proof. apply filter_app. Qed.

Lemma drop_key_above k l : above k l -> drop_key k l = l.
Proof.
  intros H. induction l as [|x l IH]; [reflexivity|].
  apply above_cons in H. destruct H as [Hx Hl].
  simpl. unfold has_key at 1. destruct (Z.eqb_spec (FileNode.key x) k); [lia|].
  simpl. now rewrite IH.
Qed.

Lemma drop_key_below k l : below k l -> drop_key k l = l.
Proof.
  intros H. induction l as [|x l IH]; [reflexivity|].
  apply below_cons in H. destruct H as [Hx Hl].
  simpl. unfold has_key at 1. destruct (Z.eqb_spec (FileNode.key x) k); [lia|].
  simpl. now rewrite IH.
Qed.

Lemma drop_key_head x l :
  drop_key (FileNode.key x) (x :: l) = drop_key (FileNode.key x) l.
Proof. simpl. unfold has_key at 1. now rewrite Z.eqb_refl. Qed.

Lemma existsb_above k l : above k l -> existsb (has_key k) l = false.
Proof.
  intros H. induction l as [|x l IH]; [reflexivity|].
  apply above_cons in H. destruct H as [Hx Hl].
  simpl. unfold has_key at 1. destruct (Z.eqb_spec (FileNode.key x) k); [lia|].
  simpl. auto.
Qed.

Lemma existsb_below k l : below k l -> existsb (has_key k) l = false.
Proof.
  intros H. induction l as [|x l IH]; [reflexivity|].
  apply below_cons in H. destruct H as [Hx Hl].
  simpl. unfold has_key at 1. destruct (Z.eqb_spec (FileNode.key x) k); [lia|].
  simpl. auto.
Qed.

Lemma In_drop_key k y l :
  In y (drop_key k l) <-> In y l /\ FileNode.key y <> k.
Proof.
  unfold drop_key. rewrite filter_In. unfold has_key.
  destruct (Z.eqb_spec (FileNode.key y) k); simpl; intuition congruence.
Qed.

Lemma sorted_drop_key k l : sorted l -> sorted (drop_key k l).
Proof.
  induction l as [|x l IH]; [trivial|].
  rewrite sorted_cons. intros [Hb Hs]. simpl.
  destruct (negb (has_key k x)); [|auto].
  rewrite sorted_cons. split; [|auto].
  intros y Hy. apply In_drop_key in Hy. apply Hb. tauto.
Qed.

Lemma existsb_has_key k l :
  existsb (has_key k) l = true <-> In k (keys l).
Proof.
  rewrite existsb_exists. unfold keys. rewrite in_map_iff. unfold has_key.
  split; intros (x & H1 & H2); exists x.
  - apply Z.eqb_eq in H2. tauto.
  - rewrite Z.eqb_eq. tauto.
Qed.

(** Two records of a sorted list with the same key are the same record. *)
Lemma sorted_key_inj l x y :
  sorted l -> In x l -> In y l -> FileNode.key x = FileNode.key y -> x = y.
Proof.
  induction l as [|z l IH]; [intros _ []|].
  rewrite sorted_cons. intros [Hb Hs] [->|Hx] [->|Hy] E; auto.
  - specialize (Hb y Hy). lia.
  - specialize (Hb x Hx). lia.
Qed.

Lemma sorted_perm_eq_keys l x :
  sorted l -> In x l -> forall y, In y l -> FileNode.key y = FileNode.key x -> y = x.
Proof. intros Hs Hx y Hy E. eapply sorted_key_inj; eauto. Qed.

End OrderFacts.

Create Rewrite HintDb order.
#[export] Hint Rewrite above_nil above_cons above_app below_nil below_cons below_app
  all_lt_nil_l all_lt_nil_r all_lt_cons_l all_lt_cons_r all_lt_app_l all_lt_app_r
  sorted_nil sorted_cons sorted_app : order.

(** Normalises order facts over concatenations into facts on their parts. *)
Ltac order_norm := autorewrite with order in *.

(** ** Nodes: slots, search within a node, contents *)

Lemma at_child_app {A R : Type} (f : A -> R * A) (d : R) cl ck cr k :
  length cl = k ->
  at_child f d (cl ++ ck :: cr) k
  = match ck with
    | Some c => (fst (f c), cl ++ Some (snd (f c)) :: cr)
    | None => (d, cl ++ None :: cr)
    end.
Proof.
  intros <-. induction cl as [|c0 cl IH]; simpl.
  - destruct ck as [c|]; [|reflexivity]. now destruct (f c).
  - rewrite IH. destruct c0, ck; reflexivity.
Qed.

Lemma on_child_app {A R : Type} (f : A -> R) (d : R) cl ck cr k :
  length cl = k ->
  on_child f d (cl ++ ck :: cr) k
  = match ck with
    | Some c => f c
    | None => d
    end.
Proof.
  intros <-. induction cl as [|c0 cl IH]; simpl.
  - destruct ck; reflexivity.
  - rewrite IH. destruct c0; reflexivity.
Qed.

Lemma elems_unfold n : elems n = weave (map elems_ptr (child n)) (value n).
Proof. destruct n. reflexivity. Qed.

Lemma value_at_S n j : value_at n (S j) = nth j (value n) FileNode.default.
Proof. reflexivity. Qed.

Lemma In_weave_vals {A : Type} (subs : list (list A)) vals x :
  In x vals -> In x (weave subs vals).
Proof.
  intros H. eapply Permutation_in; [symmetry; apply weave_perm|].
  apply in_or_app. now left.
Qed.

Lemma In_weave_sub {A : Type} (subs : list (list A)) vals s x :
  In s subs -> In x s -> In x (weave subs vals).
Proof.
  intros Hs H. eapply Permutation_in; [symmetry; apply weave_perm|].
  apply in_or_app. right. apply in_concat. eauto.
Qed.

Lemma sorted_weave_vals subs vals : sorted (weave subs vals) -> sorted vals.
Proof.
  revert vals. induction subs as [|s subs IH]; intros vals H; [assumption|].
  simpl in H. destruct vals as [|v vals]; [now apply sorted_nil|].
  order_norm. destruct H as (_ & (Hb & Hs) & _). split; [|auto].
  eapply below_incl; [|exact Hb]. intros y. apply In_weave_vals.
Qed.

Lemma sorted_elems_value n : sorted (elems n) -> sorted (value n).
Proof. rewrite elems_unfold. apply sorted_weave_vals. Qed.

Lemma In_value_elems n x : In x (value n) -> In x (elems n).
Proof. rewrite elems_unfold. apply In_weave_vals. Qed.

(** Everything on the left of a position is below a key that bounds the
    records on its left. *)
Lemma lpairs_above k sl vl :
  sorted (lpairs sl vl) -> length sl = length vl -> above k vl ->
  above k (lpairs sl vl).
Proof.
  revert vl. induction sl as [|s sl IH]; intros [|v vl] Hs Hl Hk; try discriminate.
  - now apply above_nil.
  - simpl in *. order_norm.
    destruct Hs as (Hs1 & (Hb & Hs2) & Ha & Hlt). destruct Hk as [Hv Hk].
    repeat split; auto.
    eapply above_le; [exact Ha|lia].
Qed.

Lemma rweave_below k vr sr :
  sorted (rweave vr sr) -> length sr = length vr -> below k vr ->
  below k (rweave vr sr).
Proof.
  revert sr. induction vr as [|v vr IH]; intros [|s sr] Hs Hl Hk; try discriminate.
  - simpl. now apply below_nil.
  - simpl in *. order_norm.
    destruct Hk as [Hv Hk]. destruct Hs as ((Hb1 & Hb2) & Hs1 & Hs2 & Hlt).
    repeat split; auto.
    + eapply below_le; [exact Hb1|lia].
    + apply IH; auto.
Qed.

Section SearchNode.

Lemma scan_spec key n pos :
  (1 <= pos)%nat ->
  (1 <= BTree.scan key n pos <= pos)%nat /\
  (forall i, (BTree.scan key n pos <= i < pos)%nat ->
             key < FileNode.key (nth i (value n) FileNode.default)) /\
  (BTree.scan key n pos = 1%nat \/
   FileNode.key (nth (BTree.scan key n pos - 1) (value n) FileNode.default) <= key).
Proof.
  induction pos as [|q IH]; [lia|]. intros _.
  cbn [BTree.scan]. rewrite value_at_S.
  destruct (key <? FileNode.key (nth q (value n) FileNode.default)) eqn:E1;
    destruct (1 <? S q)%nat eqn:E2; simpl andb; cbv iota.
  - apply Nat.ltb_lt in E2. apply Z.ltb_lt in E1.
    destruct IH as (H1 & H2 & H3); [lia|].
    split; [lia|]. split; [|assumption].
    intros i Hi. destruct (Nat.eq_dec i q) as [->|]; [assumption|].
    apply H2. lia.
  - apply Nat.ltb_ge in E2. split; [lia|]. split; [intros; lia|]. left. lia.
  - apply Z.ltb_ge in E1. split; [lia|]. split; [intros; lia|]. right.
    now replace (S q - 1)%nat with q by lia.
  - apply Z.ltb_ge in E1. split; [lia|]. split; [intros; lia|]. right.
    now replace (S q - 1)%nat with q by lia.
Qed.

(** [searchNode] on a sorted, non-empty node cuts its records at the
    returned position. *)
Lemma searchNode_spec key n :
  sorted (value n) -> (1 <= count n)%nat ->
  exists vl vr,
    value n = vl ++ vr /\ length vl = snd (BTree.searchNode key n) /\
    below key vr /\
    if fst (BTree.searchNode key n)
    then exists vl' v, vl = vl' ++ [v] /\ FileNode.key v = key /\
                       value_at n (snd (BTree.searchNode key n)) = v /\
                       above key vl'
    else above key vl.
Proof.
  intros Hs Hc. unfold BTree.searchNode.
  destruct (key <? FileNode.key (value_at n 1)) eqn:E1.
  - apply Z.ltb_lt in E1. exists [], (value n). simpl.
    repeat split; [|now apply above_nil].
    unfold count in Hc. rewrite value_at_S in E1.
    destruct (value n) as [|v1 rest]; [simpl in Hc; lia|]. simpl in E1.
    order_norm. destruct Hs as [Hb _]. split; [assumption|].
    eapply below_le; [exact Hb|lia].
  - apply Z.ltb_ge in E1. simpl.
    destruct (scan_spec key n (count n) Hc) as (Hp & Hr & Hl).
    set (p := BTree.scan key n (count n)) in *.
    assert (Hle : FileNode.key (nth (p - 1) (value n) FileNode.default) <= key).
    { destruct Hl as [->|Hl]; [|assumption]. now rewrite value_at_S in E1. }
    unfold count in *.
    destruct (split_at_elem (value n) (p - 1)) as (vl' & v & vr & E & Hvl); [lia|].
    assert (Hv : nth (p - 1) (value n) FileNode.default = v).
    { rewrite E. now apply nth_app_exact. }
    assert (Hva : value_at n p = v).
    { destruct p as [|p']; [lia|]. rewrite value_at_S.
      now replace (S p' - 1)%nat with p' in Hv by lia. }
    rewrite Hv in Hle. rewrite Hva.
    exists (vl' ++ [v]), vr. rewrite <- app_assoc. simpl.
    split; [assumption|]. split; [rewrite length_app; simpl; lia|].
    rewrite E in Hs. order_norm. destruct Hs as (Hs1 & (Hb & Hs2) & Ha & Hlt).
    split.
    + intros y Hy. destruct (In_nth _ _ FileNode.default Hy) as (i & Hi & <-).
      specialize (Hr (length (vl' ++ [v]) + i)%nat).
      rewrite E in Hr.
      replace (vl' ++ v :: vr) with ((vl' ++ [v]) ++ vr) in Hr
        by now rewrite <- app_assoc.
      rewrite app_nth2_plus in Hr. apply Hr.
      rewrite !length_app. simpl. lia.
    + destruct (Z.eqb_spec key (FileNode.key v)) as [Ek|Ek].
      * exists vl', v. repeat split; auto. now rewrite Ek.
      * order_norm. split.
        -- eapply above_le; [exact Ha|lia].
        -- split; [lia|trivial].
Qed.

End SearchNode.

(** ** Insertion *)

(** [split] cuts the overfull node that [fillnode] would have produced at
    its record of position [MIN]. *)
Lemma split_spec file c mx mn vals cs k :
  1 <= mn -> 2 * mn <= mx ->
  length vals = Z.to_nat mx -> length cs = S (length vals) ->
  (k <= length vals)%nat ->
  BTree.split file c (mkBTreeNode mx mn vals cs) k
  = (nth (Z.to_nat mn) (insert_at k file vals) FileNode.default,
     mkBTreeNode mx mn (skipn (S (Z.to_nat mn)) (insert_at k file vals))
                 (skipn (S (Z.to_nat mn)) (insert_at (S k) c cs)),
     mkBTreeNode mx mn (firstn (Z.to_nat mn) (insert_at k file vals))
                 (firstn (S (Z.to_nat mn)) (insert_at (S k) c cs))).
Proof.
  intros Hmn Hmx Hv Hc Hk.
  unfold BTree.split. cbn [MAX MIN value child].
  set (fv := insert_at k file vals). set (fc := insert_at (S k) c cs).
  assert (Hfv : length fv = S (length vals)) by apply length_insert_at.
  assert (Hfc : length fc = S (length cs)) by apply length_insert_at.
  destruct (Z.leb_spec (Z.of_nat k) mn) as [Hle|Hgt].
  - set (j := Z.to_nat mn). assert (Hj : (k <= j /\ S j <= length vals)%nat) by lia.
    assert (E1 : firstn (Z.to_nat mx - j) (skipn j vals) = skipn (S j) fv).
    { rewrite firstn_all2 by (rewrite length_skipn; lia).
      unfold fv. rewrite skipn_insert_at_le by lia. reflexivity. }
    assert (E2 : firstn (Z.to_nat mx - j) (skipn (S j) cs) = skipn (S (S j)) fc).
    { rewrite firstn_all2 by (rewrite length_skipn; lia).
      unfold fc. rewrite skipn_insert_at_le by lia. reflexivity. }
    rewrite E1, E2. unfold BTree.fillnode. cbn [MAX MIN value child count].
    assert (E3 : insert_at k file (firstn j vals) = firstn (S j) fv).
    { unfold fv. rewrite firstn_insert_at_gt by lia. reflexivity. }
    assert (E4 : insert_at (S k) c (firstn (S j) cs) = firstn (S (S j)) fc).
    { unfold fc. rewrite firstn_insert_at_gt by lia. reflexivity. }
    rewrite E3, E4. unfold with_child, child_at, count.
    cbn [MAX MIN value child].
    rewrite length_firstn, Nat.min_l by lia.
    rewrite value_at_S. cbn [value].
    rewrite !nth_firstn_lt by lia.
    rewrite set_at_0.
    rewrite !removelast_firstn_len by lia.
    rewrite <- skipn_cons_nth by lia. reflexivity.
  - replace (Z.to_nat (mn + 1)) with (S (Z.to_nat mn)) by lia.
    set (j := Z.to_nat mn). assert (Hj : (S j <= k /\ S j <= length vals)%nat) by lia.
    unfold BTree.fillnode. cbn [MAX MIN value child count].
    unfold with_child, child_at, count. cbn [MAX MIN value child].
    rewrite (firstn_all2 (n := (Z.to_nat mx - S j)%nat) (skipn (S j) vals))
      by (rewrite length_skipn; lia).
    rewrite (firstn_all2 (n := (Z.to_nat mx - S j)%nat) (skipn (S (S j)) cs))
      by (rewrite length_skipn; lia).
    rewrite length_firstn, Nat.min_l by lia.
    rewrite value_at_S. cbn [value].
    rewrite !nth_firstn_lt by lia.
    rewrite !removelast_firstn_len by lia.
    replace (S (k - S j)) with (S k - S j)%nat by lia.
    replace (S k - S j)%nat with (S (S k - S (S j))) at 1 by lia.
    rewrite insert_at_cons, set_at_0.
    rewrite <- !skipn_insert_at_gt by lia.
    fold fv fc.
    assert (E5 : nth j vals FileNode.default = nth j fv FileNode.default).
    { rewrite <- (nth_firstn_lt vals j (S j)) by lia.
      rewrite <- (nth_firstn_lt fv j (S j)) by lia.
      unfold fv. rewrite firstn_insert_at_le by lia. reflexivity. }
    assert (E6 : nth (S j) cs None = nth (S j) fc None).
    { rewrite <- (nth_firstn_lt cs (S j) (S (S j))) by lia.
      rewrite <- (nth_firstn_lt fc (S j) (S (S j))) by lia.
      unfold fc. rewrite firstn_insert_at_le by lia. reflexivity. }
    rewrite E5, E6.
    rewrite <- skipn_cons_nth by lia.
    unfold fv, fc. rewrite !firstn_insert_at_le by lia. reflexivity.
Qed.

Lemma sorted_replace_mid L B B' R x :
  sorted (L ++ B ++ R) -> sorted B' ->
  (forall y, In y B' -> y = x \/ In y B) ->
  above (FileNode.key x) L -> below (FileNode.key x) R ->
  sorted (L ++ B' ++ R).
Proof.
  intros H HB' Hin Ha Hb. order_norm.
  destruct H as (HL & (HB & HR & HBR) & HLB & HLR).
  repeat split; auto.
  - intros a b Hx Hy. destruct (Hin a Hx) as [->|Hx']; [now apply Hb|now apply HBR].
  - intros a b Hx Hy. destruct (Hin b Hy) as [->|Hy']; [now apply Ha|now apply HLB].
Qed.

Lemma perm_replace_mid (L B B' R : list FileNode.t) x :
  Permutation B' (x :: B) -> Permutation (L ++ B' ++ R) (x :: L ++ B ++ R).
Proof.
  intros H. rewrite H. simpl. symmetry. apply Permutation_middle.
Qed.

Lemma perm_In_cons (B B' : list FileNode.t) x :
  Permutation B' (x :: B) -> forall y, In y B' -> y = x \/ In y B.
Proof.
  intros H y Hy. eapply Permutation_in in Hy; [|exact H].
  destruct Hy; auto.
Qed.

Section Shapes.

Variables MX MN : Z.

Lemma shape_unfold h n :
  shape MX MN h n <->
  MAX n = MX /\ MIN n = MN /\ length (child n) = S (count n) /\
  Forall (slot MX MN MN h) (child n).
Proof. destruct h; reflexivity. Qed.

Lemma shape_intro h vals cs :
  length cs = S (length vals) -> Forall (slot MX MN MN h) cs ->
  shape MX MN h (mkBTreeNode MX MN vals cs).
Proof. intros H1 H2. apply shape_unfold. simpl. auto. Qed.

(** A node of the right shape, laid out around its child of position
    [k]. *)
Lemma node_at h n k :
  shape MX MN h n -> (k <= count n)%nat ->
  exists vl vr cl ck cr,
    n = mkBTreeNode MX MN (vl ++ vr) (cl ++ ck :: cr) /\
    length vl = k /\ length cl = k /\ length cr = length vr /\
    Forall (slot MX MN MN h) cl /\ slot MX MN MN h ck /\
    Forall (slot MX MN MN h) cr.
Proof.
  intros Hs Hk. apply shape_unfold in Hs. destruct n as [mx mn vals cs].
  simpl in Hs. unfold count in *. simpl in *.
  destruct Hs as (-> & -> & Hl & Hf).
  destruct (split_at vals k Hk) as (vl & vr & -> & Hvl).
  destruct (split_at_elem cs k) as (cl & ck & cr & -> & Hcl); [lia|].
  apply Forall_app in Hf. destruct Hf as [Hf1 Hf2].
  apply Forall_cons_iff in Hf2. destruct Hf2 as [Hf2 Hf3].
  exists vl, vr, cl, ck, cr. repeat split; auto.
  rewrite !length_app in Hl. simpl in Hl. lia.
Qed.

Lemma elems_at mx mn vl vr cl ck cr :
  length cl = length vl ->
  elems (mkBTreeNode mx mn (vl ++ vr) (cl ++ ck :: cr))
  = lpairs (map elems_ptr cl) vl ++ elems_ptr ck
    ++ rweave vr (map elems_ptr cr).
Proof.
  intros H. rewrite elems_unfold. simpl. rewrite map_app. simpl.
  apply weave_at. now rewrite length_map.
Qed.

Lemma slot_weaken lo lo' h o : lo' <= lo -> slot MX MN lo h o -> slot MX MN lo' h o.
Proof.
  intros Hl. destruct h; simpl; [trivial|]. destruct o; [|trivial].
  intros [H1 H2]. split; [assumption|lia].
Qed.

Lemma fillnode_at mx mn vl vr cl ck cr p c k :
  length vl = k -> length cl = k ->
  BTree.fillnode p c (mkBTreeNode mx mn (vl ++ vr) (cl ++ ck :: cr)) k
  = mkBTreeNode mx mn (vl ++ p :: vr) (cl ++ ck :: c :: cr).
Proof.
  intros Hv Hc. unfold BTree.fillnode. cbn [MAX MIN value child].
  rewrite insert_at_app by assumption.
  replace (cl ++ ck :: cr) with ((cl ++ [ck]) ++ cr) by now rewrite <- app_assoc.
  rewrite insert_at_app by (rewrite length_app; simpl; lia).
  now rewrite <- app_assoc.
Qed.

Lemma elems_at2 mx mn vl v vr cl a b cr :
  length cl = length vl ->
  elems (mkBTreeNode mx mn (vl ++ v :: vr) (cl ++ a :: b :: cr))
  = lpairs (map elems_ptr cl) vl ++ elems_ptr a
    ++ v :: elems_ptr b ++ rweave vr (map elems_ptr cr).
Proof.
  intros H. rewrite elems_unfold. simpl. rewrite map_app. simpl.
  apply weave_at2. now rewrite length_map.
Qed.

(** Cutting a node at its record of position [j] keeps the contents. *)
Lemma elems_cut mx mn fv fc j :
  (j < length fv)%nat -> length fc = S (length fv) ->
  elems (mkBTreeNode mx mn (firstn j fv) (firstn (S j) fc))
  ++ nth j fv FileNode.default
     :: elems (mkBTreeNode mx mn (skipn (S j) fv) (skipn (S j) fc))
  = elems (mkBTreeNode mx mn fv fc).
Proof.
  intros Hj Hl. rewrite !elems_unfold. cbn [value child].
  rewrite <- firstn_map, <- skipn_map. symmetry.
  apply weave_split; [assumption|]. now rewrite length_map.
Qed.

Lemma shape_cut_left h fv fc j :
  (j < length fv)%nat -> length fc = S (length fv) ->
  Forall (slot MX MN MN h) fc ->
  shape MX MN h (mkBTreeNode MX MN (firstn j fv) (firstn (S j) fc)).
Proof.
  intros Hj Hl Hf. apply shape_intro.
  - rewrite !length_firstn. lia.
  - now apply Forall_firstn'.
Qed.

Lemma shape_cut_right h fv fc j :
  (j < length fv)%nat -> length fc = S (length fv) ->
  Forall (slot MX MN MN h) fc ->
  shape MX MN h (mkBTreeNode MX MN (skipn (S j) fv) (skipn (S j) fc)).
Proof.
  intros Hj Hl Hf. apply shape_intro.
  - rewrite !length_skipn. lia.
  - now apply Forall_skipn'.
Qed.

End Shapes.

Lemma setval_unfold file n :
  BTree.setval file n =
  let '(found, k) := BTree.searchNode (FileNode.key file) n in
  if found then (BTree.Duplicate, n)
  else
    let '(r, cs') := at_child (BTree.setval file) (BTree.Promote file None)
                              (child n) k in
    let n' := with_child n cs' in
    match r with
    | BTree.Promote p c =>
        if Z.of_nat (count n') <? MAX n'
        then (BTree.Stored, BTree.fillnode p c n' k)
        else let '(y, newNode, n'') := BTree.split p c n' k in
             (BTree.Promote y (Some newNode), n'')
    | _ => (r, n')
    end.
Proof. destruct n; reflexivity. Qed.

Lemma at_child_setval file cl ck cr k :
  length cl = k ->
  at_child (BTree.setval file) (BTree.Promote file None) (cl ++ ck :: cr) k
  = (fst (BTree.setval_ptr file ck), cl ++ snd (BTree.setval_ptr file ck) :: cr).
Proof.
  intros H. rewrite at_child_app by assumption.
  destruct ck as [c|]; simpl; [destruct (BTree.setval file c)|]; reflexivity.
Qed.

Section Setval.

Variables MX MN : Z.
Hypothesis HMN : 1 <= MN.
Hypothesis HMX : 2 * MN <= MX.

Lemma setval_ptr_spec file h :
  forall lo o,
    1 <= lo <= MN -> slot MX MN lo h o -> sorted (elems_ptr o) ->
    setval_post MX MN lo h file o (BTree.setval_ptr file o).
Proof.
  induction h as [|h IH]; intros lo o Hlo Hs Hsort.
  - simpl in Hs. subst o. simpl. repeat split; auto.
    order_norm. tauto.
  - destruct o as [n|]; [|contradiction]. destruct Hs as [Hsh Hcnt].
    simpl elems_ptr in *. unfold BTree.setval_ptr. rewrite setval_unfold.
    assert (Hsv : sorted (value n)) by now apply sorted_elems_value.
    destruct (searchNode_spec (FileNode.key file) n Hsv) as
      (vl0 & vr0 & Ev & Hk & Hbelow & Hfound); [lia|].
    destruct (BTree.searchNode (FileNode.key file) n) as [found k].
    simpl in Hk, Hfound.
    destruct found.
    + destruct Hfound as (vl' & v & -> & Hkey & _).
      simpl. split; [reflexivity|].
      unfold keys. rewrite <- Hkey. apply in_map. apply In_value_elems.
      rewrite Ev. rewrite in_app_iff. left. rewrite in_app_iff. right. now left.
    + destruct (node_at MX MN h n k Hsh) as
        (vl & vr & cl & ck & cr & -> & Hvl & Hcl & Hcr & Hfl & Hfk & Hfr).
      { unfold count. rewrite Ev, length_app. lia. }
      simpl in Ev. destruct (app_inv_len _ _ _ _ Ev) as [<- <-]; [lia|].
      cbn [child]. rewrite at_child_setval by assumption.
      rewrite elems_at in Hsort by lia.
      set (L := lpairs (map elems_ptr cl) vl) in *.
      set (R := rweave vr (map elems_ptr cr)) in *.
      assert (HaL : above (FileNode.key file) L).
      { apply lpairs_above; auto.
        - unfold L in Hsort. order_norm. tauto.
        - rewrite length_map. lia. }
      assert (HbR : below (FileNode.key file) R).
      { apply rweave_below; auto.
        - unfold R in Hsort. order_norm. tauto.
        - rewrite length_map. lia. }
      assert (HsB : sorted (elems_ptr ck)) by (order_norm; tauto).
      assert (Hlo' : 1 <= MN <= MN) by lia.
      specialize (IH MN ck Hlo' Hfk HsB).
      destruct (BTree.setval_ptr file ck) as [r ck']. cbn [fst snd].
      unfold with_child. cbn [MAX MIN value child].
      destruct r as [| |p c]; cbn [setval_post] in IH |- *;
        change (elems_ptr (Some ?x)) with (elems x).
      * destruct IH as [-> Hin]. split; [reflexivity|].
        rewrite elems_at by lia. fold L R. unfold keys in *.
        rewrite !map_app, !in_app_iff. auto.
      * destruct IH as (Hs' & Hsort' & Hperm).
        split; [|split].
        -- split.
           ++ apply shape_intro.
              ** rewrite !length_app in *. simpl. lia.
              ** apply Forall_app. split; [assumption|]. now constructor.
           ++ unfold count in *. simpl in *. lia.
        -- rewrite elems_at by lia. fold L R.
           eapply sorted_replace_mid; eauto using perm_In_cons.
        -- rewrite !elems_at by lia. fold L R.
           now apply perm_replace_mid.
      * destruct IH as (Hs' & Hsc & Hsort' & Hperm).
        assert (Hlen : length (cl ++ ck' :: cr) = S (length (vl ++ vr))).
        { rewrite !length_app. simpl. lia. }
        pose proof (fillnode_at MX MN vl vr cl ck' cr p c k Hvl Hcl) as HF.
        unfold count in *. cbn [value] in *.
        set (n' := mkBTreeNode MX MN (vl ++ vr) (cl ++ ck' :: cr)) in *.
        set (F := mkBTreeNode MX MN (vl ++ p :: vr) (cl ++ ck' :: c :: cr)) in *.
        assert (HFe : elems F = L ++ (elems_ptr ck' ++ p :: elems_ptr c) ++ R).
        { unfold F. rewrite elems_at2 by lia. fold L R.
          now rewrite <- !app_assoc. }
        assert (HFs : sorted (elems F)).
        { rewrite HFe. eapply sorted_replace_mid; eauto using perm_In_cons. }
        assert (HFp : Permutation (elems F)
                        (file :: L ++ elems_ptr ck ++ R)).
        { rewrite HFe. now apply perm_replace_mid. }
        assert (HFf : Forall (slot MX MN MN h) (cl ++ ck' :: c :: cr)).
        { apply Forall_app. split; [assumption|]. repeat constructor; assumption. }
        assert (HFl : length (cl ++ ck' :: c :: cr) = S (length (vl ++ p :: vr))).
        { rewrite !length_app in *. simpl in *. lia. }
        unfold count in *. cbn [value] in *.
        change (value n') with (vl ++ vr).
        destruct (Z.ltb_spec (Z.of_nat (length (vl ++ vr))) MX) as [Hlt|Hge].
        -- rewrite HF. cbn [setval_post].
           change (elems_ptr (Some ?x)) with (elems x).
           split; [|split; [assumption|]].
           ++ split; [now apply shape_intro|].
              unfold count, F. cbn [value].
              rewrite !length_app in *. simpl in *. lia.
           ++ now rewrite elems_at by lia.
        -- assert (Hfull : length (vl ++ vr) = Z.to_nat MX).
           { clear - Hcnt Hge. lia. }
           unfold n'.
           rewrite split_spec;
             [|assumption|assumption|assumption|assumption
              |rewrite length_app; lia].
           cbn [setval_post].
           change (elems_ptr (Some ?x)) with (elems x).
           pose proof (fillnode_at MX MN vl vr cl ck' cr p c k Hvl Hcl) as HF'.
           unfold BTree.fillnode in HF'. cbn [MAX MIN value child] in HF'.
           injection HF' as HF1 HF2. rewrite HF1, HF2.
           set (j := Z.to_nat MN).
           assert (Hj : (j < length (vl ++ p :: vr))%nat).
           { unfold j. rewrite length_app in *. cbn [length] in *.
             clear - Hfull HMN HMX. lia. }
           split; [|split; [|split]].
           ++ split; [now apply shape_cut_left|].
              unfold count. cbn [value]. rewrite length_firstn.
              unfold j in *. clear - Hj HMN HMX Hfull. lia.
           ++ split; [now apply shape_cut_right|].
              unfold count. cbn [value]. rewrite length_skipn.
              unfold j in *. rewrite length_app in *. cbn [length] in *.
              clear - Hj HMN HMX Hfull. lia.
           ++ rewrite elems_cut by assumption. exact HFs.
           ++ rewrite elems_cut by assumption. fold F.
              rewrite elems_at by lia. fold L R. exact HFp.
Qed.

End Setval.

(** ** The thresholds *)

Lemma MIN_of_order_canonical t :
  3 <= t -> MIN_of_order t = (t + 1) / 2 - 1.
Proof.
  intros H. unfold MIN_of_order.
  rewrite Z.rem_mod_nonneg, Z.quot_div_nonneg by lia.
  destruct (Z.eqb_spec (t mod 2) 0) as [E|E];
    destruct (Z.ltb_spec (t / 2 - 1) 1); destruct (Z.ltb_spec (t / 2 + 1 - 1) 1);
    try (Z.div_mod_to_equations; lia).
Qed.

Lemma order_thresholds t :
  3 <= t -> 1 <= MIN_of_order t /\ 2 * MIN_of_order t <= MAX_of_order t.
Proof.
  intros H. rewrite MIN_of_order_canonical by assumption. unfold MAX_of_order.
  Z.div_mod_to_equations. lia.
Qed.

(** ** [insert] at the root *)

Section InsertRoot.

Variable ord : Z.
Hypothesis Hord : 3 <= ord.

Local Abbreviation MX := (MAX_of_order ord).
Local Abbreviation MN := (MIN_of_order ord).

Lemma insert_spec file o :
  btree_inv MX MN o ->
  btree_inv MX MN (fst (BTree.insert file o ord)) /\
  (snd (BTree.insert file o ord) = true ->
   fst (BTree.insert file o ord) = o /\
   In (FileNode.key file) (keys (elems_ptr o))) /\
  (snd (BTree.insert file o ord) = false ->
   Permutation (elems_ptr (fst (BTree.insert file o ord)))
               (file :: elems_ptr o)).
Proof.
  destruct (order_thresholds ord Hord) as [HMN HMX].
  intros [[h Hs] Hsort].
  pose proof (setval_ptr_spec MX MN HMN HMX file h 1 o) as H.
  specialize (H ltac:(lia) Hs Hsort).
  unfold BTree.insert.
  destruct (BTree.setval_ptr file o) as [[| |p c] o']; cbn [setval_post] in H;
    cbn [fst snd].
  - destruct H as [-> Hin]. repeat split; auto; try discriminate. now exists h.
  - destruct H as (Hs' & Hsort' & Hperm).
    repeat split; auto; try discriminate. now exists h.
  - destruct H as (Hs' & Hsc & Hsort' & Hperm).
    assert (E : (let '(mx, mn) :=
                   match o' with
                   | Some n => (MAX n, MIN n)
                   | None => (MAX_of_order ord, MIN_of_order ord)
                   end in
                 (Some (mkBTreeNode mx mn [p] [o'; c]), false))
                = (Some (mkBTreeNode MX MN [p] [o'; c]), false)).
    { destruct o' as [n'|]; [|reflexivity].
      destruct h; [discriminate|]. destruct Hs' as [Hsh _].
      apply shape_unfold in Hsh. destruct Hsh as (-> & -> & _). reflexivity. }
    rewrite E. cbn [fst snd].
    assert (Ee : elems (mkBTreeNode MX MN [p] [o'; c])
                 = elems_ptr o' ++ p :: elems_ptr c).
    { rewrite elems_unfold. simpl. now rewrite !app_nil_r. }
    repeat split; try discriminate.
    + exists (S h). split.
      * apply shape_intro; [reflexivity|]. repeat constructor; assumption.
      * unfold count. simpl. lia.
    + cbn [elems_ptr]. now rewrite Ee.
    + intros _. cbn [elems_ptr]. now rewrite Ee.
Qed.

End InsertRoot.

(** ** Restoring after a removal *)

Lemma weave_join {A : Type} (sa sb : list (list A)) va v vb :
  length sa = S (length va) ->
  weave (sa ++ sb) (va ++ v :: vb) = weave sa va ++ v :: weave sb vb.
Proof.
  intros H. destruct (snoc_cases sa) as [->|(sa' & s & ->)]; [discriminate|].
  rewrite length_app in H. simpl in H.
  rewrite <- app_assoc. simpl.
  rewrite weave_app by lia.
  rewrite <- (app_nil_r va) at 2. rewrite weave_app by lia.
  simpl. rewrite app_nil_r, <- !app_assoc. reflexivity.
Qed.

Section Moves.

Variables MX MN : Z.

(** A node with a record, laid out around its last record and child. *)
Lemma node_snoc h n :
  shape MX MN h n -> (1 <= count n)%nat ->
  exists va la ca lc,
    n = mkBTreeNode MX MN (va ++ [la]) (ca ++ [lc]) /\
    length ca = S (length va) /\
    Forall (slot MX MN MN h) ca /\ slot MX MN MN h lc.
Proof.
  intros Hs Hc. apply shape_unfold in Hs. destruct n as [mx mn vals cs].
  unfold count in *. simpl in *. destruct Hs as (-> & -> & Hl & Hf).
  destruct (snoc_cases vals) as [->|(va & la & ->)]; [simpl in Hc; lia|].
  destruct (snoc_cases cs) as [->|(ca & lc & ->)]; [discriminate|].
  apply Forall_app in Hf. destruct Hf as [Hf1 Hf2].
  apply Forall_cons_iff in Hf2. destruct Hf2 as [Hf2 _].
  exists va, la, ca, lc. repeat split; auto.
  rewrite !length_app in Hl. simpl in Hl. lia.
Qed.

(** The same around its first record and child. *)
Lemma node_cons h n :
  shape MX MN h n -> (1 <= count n)%nat ->
  exists fa va fc ca,
    n = mkBTreeNode MX MN (fa :: va) (fc :: ca) /\
    length ca = S (length va) /\
    slot MX MN MN h fc /\ Forall (slot MX MN MN h) ca.
Proof.
  intros Hs Hc. apply shape_unfold in Hs. destruct n as [mx mn vals cs].
  unfold count in *. simpl in *. destruct Hs as (-> & -> & Hl & Hf).
  destruct vals as [|fa va]; [simpl in Hc; lia|].
  destruct cs as [|fc ca]; [discriminate|].
  apply Forall_cons_iff in Hf. destruct Hf as [Hf1 Hf2].
  exists fa, va, fc, ca. repeat split; auto; simpl in Hl; lia.
Qed.

Lemma rightshift_at mx mn vl v vr cl a b cr j :
  length vl = j -> length cl = j ->
  BTree.rightshift (mkBTreeNode mx mn (vl ++ v :: vr)
                                (cl ++ Some a :: Some b :: cr)) (S j)
  = mkBTreeNode mx mn (vl ++ value_at a (count a) :: vr)
      (cl ++ Some (mkBTreeNode (MAX a) (MIN a) (removelast (value a))
                               (removelast (child a)))
          :: Some (mkBTreeNode (MAX b) (MIN b) (v :: value b)
                               (child_at a (count a) :: child b))
          :: cr).
Proof.
  intros Hv Hc. unfold BTree.rightshift, child_at.
  cbn [MAX MIN value child]. rewrite value_at_S. cbn [value].
  replace (S j - 1)%nat with j by lia.
  replace (cl ++ Some a :: Some b :: cr) with ((cl ++ [Some a]) ++ Some b :: cr)
    by now rewrite <- app_assoc.
  rewrite (nth_app_exact (cl ++ [Some a]) cr (Some b) None (S j))
    by (rewrite length_app; simpl; lia).
  rewrite <- app_assoc. cbn [app].
  rewrite nth_app_exact by assumption.
  rewrite nth_app_exact by assumption.
  rewrite set_at_app by assumption.
  replace (cl ++ Some a :: Some b :: cr) with ((cl ++ [Some a]) ++ Some b :: cr)
    by now rewrite <- app_assoc.
  rewrite (set_at_app (cl ++ [Some a])) by (rewrite length_app; simpl; lia).
  rewrite <- app_assoc. cbn [app].
  rewrite set_at_app by assumption. reflexivity.
Qed.

Lemma leftshift_at mx mn vl v vr cl a b cr j :
  length vl = j -> length cl = j ->
  BTree.leftshift (mkBTreeNode mx mn (vl ++ v :: vr)
                               (cl ++ Some a :: Some b :: cr)) (S j)
  = mkBTreeNode mx mn (vl ++ value_at b 1 :: vr)
      (cl ++ Some (mkBTreeNode (MAX a) (MIN a) (value a ++ [v])
                               (child a ++ [child_at b 0]))
          :: Some (mkBTreeNode (MAX b) (MIN b) (tl (value b)) (tl (child b)))
          :: cr).
Proof.
  intros Hv Hc. unfold BTree.leftshift, child_at.
  cbn [MAX MIN value child]. rewrite value_at_S. cbn [value].
  replace (S j - 1)%nat with j by lia.
  replace (cl ++ Some a :: Some b :: cr) with ((cl ++ [Some a]) ++ Some b :: cr)
    by now rewrite <- app_assoc.
  rewrite (nth_app_exact (cl ++ [Some a]) cr (Some b) None (S j))
    by (rewrite length_app; simpl; lia).
  rewrite <- app_assoc. cbn [app].
  rewrite nth_app_exact by assumption.
  rewrite nth_app_exact by assumption.
  rewrite set_at_app by assumption.
  replace (cl ++ Some a :: Some b :: cr) with ((cl ++ [Some a]) ++ Some b :: cr)
    by now rewrite <- app_assoc.
  rewrite (set_at_app (cl ++ [Some a])) by (rewrite length_app; simpl; lia).
  rewrite <- app_assoc. cbn [app].
  rewrite set_at_app by assumption. reflexivity.
Qed.

Lemma merge_at mx mn vl v vr cl a b cr j :
  length vl = j -> length cl = j ->
  BTree.merge (mkBTreeNode mx mn (vl ++ v :: vr)
                           (cl ++ Some a :: Some b :: cr)) (S j)
  = mkBTreeNode mx mn (vl ++ vr)
      (cl ++ Some (mkBTreeNode (MAX a) (MIN a) (value a ++ v :: value b)
                               (child a ++ child_at b 0 :: tl (child b)))
          :: cr).
Proof.
  intros Hv Hc. unfold BTree.merge, child_at.
  cbn [MAX MIN value child]. rewrite value_at_S. cbn [value].
  replace (S j - 1)%nat with j by lia.
  replace (cl ++ Some a :: Some b :: cr) with ((cl ++ [Some a]) ++ Some b :: cr)
    by now rewrite <- app_assoc.
  rewrite (nth_app_exact (cl ++ [Some a]) cr (Some b) None (S j))
    by (rewrite length_app; simpl; lia).
  rewrite <- app_assoc. cbn [app].
  rewrite nth_app_exact by assumption.
  rewrite nth_app_exact by assumption.
  rewrite remove_at_app by assumption.
  rewrite set_at_app by assumption.
  rewrite remove_at_app2 by assumption.
  destruct (nth 0 (child b) None); reflexivity.
Qed.

Lemma rightshift_ok h mx mn vl v vr cl a b cr j :
  length vl = j -> length cl = j ->
  shape MX MN h a -> shape MX MN h b -> (1 <= count a)%nat ->
  exists a' b' v',
    BTree.rightshift (mkBTreeNode mx mn (vl ++ v :: vr)
                                  (cl ++ Some a :: Some b :: cr)) (S j)
    = mkBTreeNode mx mn (vl ++ v' :: vr) (cl ++ Some a' :: Some b' :: cr) /\
    shape MX MN h a' /\ shape MX MN h b' /\
    S (count a') = count a /\ count b' = S (count b) /\
    elems a' ++ v' :: elems b' = elems a ++ v :: elems b.
Proof.
  intros Hv Hc Ha Hb Hca.
  rewrite rightshift_at by assumption.
  destruct (node_snoc h a Ha Hca) as (va & la & ca & lc & -> & Hl & Hfa & Hlc).
  apply shape_unfold in Hb. destruct b as [mxb mnb vb cb].
  cbn [MAX MIN value child] in *. destruct Hb as (-> & -> & Hlb & Hfb).
  unfold count, child_at in *. cbn [MAX MIN value child] in *.
  rewrite !removelast_last. rewrite length_app. cbn [length].
  rewrite Nat.add_1_r, value_at_S. cbn [value].
  rewrite nth_app_exact by reflexivity.
  rewrite nth_app_exact by assumption.
  eexists _, _, _. split; [reflexivity|].
  split; [now apply shape_intro|].
  split; [apply shape_intro; [simpl; lia|now constructor]|].
  split; [reflexivity|]. split; [reflexivity|].
  rewrite !elems_unfold. cbn [value child].
  rewrite map_app. cbn [map].
  rewrite weave_snoc by (rewrite length_map; assumption).
  simpl. rewrite <- !app_assoc. reflexivity.
Qed.

Lemma leftshift_ok h mx mn vl v vr cl a b cr j :
  length vl = j -> length cl = j ->
  shape MX MN h a -> shape MX MN h b -> (1 <= count b)%nat ->
  exists a' b' v',
    BTree.leftshift (mkBTreeNode mx mn (vl ++ v :: vr)
                                 (cl ++ Some a :: Some b :: cr)) (S j)
    = mkBTreeNode mx mn (vl ++ v' :: vr) (cl ++ Some a' :: Some b' :: cr) /\
    shape MX MN h a' /\ shape MX MN h b' /\
    count a' = S (count a) /\ S (count b') = count b /\
    elems a' ++ v' :: elems b' = elems a ++ v :: elems b.
Proof.
  intros Hv Hc Ha Hb Hcb.
  rewrite leftshift_at by assumption.
  destruct (node_cons h b Hb Hcb) as (fb & vb & fc & cb & -> & Hl & Hfc & Hfb).
  apply shape_unfold in Ha. destruct a as [mxa mna va ca].
  cbn [MAX MIN value child] in *. destruct Ha as (-> & -> & Hla & Hfa).
  unfold count, child_at in *. cbn [MAX MIN value child tl nth] in *.
  rewrite value_at_S. cbn [value nth].
  eexists _, _, _. split; [reflexivity|].
  split.
  { apply shape_intro.
    - rewrite !length_app. simpl. lia.
    - apply Forall_app. split; [assumption|]. now constructor. }
  split; [now apply shape_intro|].
  split; [cbn [value]; rewrite length_app; simpl; lia|]. split; [reflexivity|].
  rewrite !elems_unfold. cbn [value child].
  rewrite map_app. cbn [map].
  rewrite weave_snoc by (rewrite length_map; assumption).
  simpl. rewrite <- !app_assoc. reflexivity.
Qed.

Lemma merge_ok h mx mn vl v vr cl a b cr j :
  length vl = j -> length cl = j ->
  shape MX MN h a -> shape MX MN h b ->
  exists ab,
    BTree.merge (mkBTreeNode mx mn (vl ++ v :: vr)
                             (cl ++ Some a :: Some b :: cr)) (S j)
    = mkBTreeNode mx mn (vl ++ vr) (cl ++ Some ab :: cr) /\
    shape MX MN h ab /\
    count ab = (count a + 1 + count b)%nat /\
    elems ab = elems a ++ v :: elems b.
Proof.
  intros Hv Hc Ha Hb.
  rewrite merge_at by assumption.
  apply shape_unfold in Ha, Hb.
  destruct a as [mxa mna va ca]. destruct b as [mxb mnb vb cb].
  cbn [MAX MIN value child] in *.
  destruct Ha as (-> & -> & Hla & Hfa). destruct Hb as (-> & -> & Hlb & Hfb).
  unfold count in *. cbn [value] in *.
  destruct cb as [|fc cb]; [discriminate|].
  unfold count, child_at in *. cbn [MAX MIN value child tl nth] in *.
  eexists. split; [reflexivity|].
  split.
  { apply shape_intro.
    - rewrite !length_app. simpl in *. lia.
    - apply Forall_app. split; assumption. }
  split; [cbn [value]; rewrite length_app; simpl; lia|].
  rewrite !elems_unfold. cbn [value child].
  rewrite map_app.
  apply weave_join. now rewrite length_map.
Qed.

End Moves.

Section Restore.

Variables MX MN : Z.
Hypothesis HMN : 1 <= MN.
Hypothesis HMX : 2 * MN <= MX.

Lemma shape_two h vl v vr cl a b cr :
  length vl = length cl -> length vr = length cr ->
  Forall (slot MX MN MN (S h)) cl -> Forall (slot MX MN MN (S h)) cr ->
  shape MX MN h a -> MN <= Z.of_nat (count a) <= MX ->
  shape MX MN h b -> MN <= Z.of_nat (count b) <= MX ->
  shape MX MN (S h) (mkBTreeNode MX MN (vl ++ v :: vr)
                                 (cl ++ Some a :: Some b :: cr)).
Proof.
  intros H1 H2 Hl Hr Ha Hca Hb Hcb. apply shape_intro.
  - rewrite !length_app. simpl. lia.
  - apply Forall_app. split; [assumption|].
    constructor; [now split|]. constructor; [now split|assumption].
Qed.

Lemma shape_one h vl vr cl a cr :
  length vl = length cl -> length vr = length cr ->
  Forall (slot MX MN MN (S h)) cl -> Forall (slot MX MN MN (S h)) cr ->
  shape MX MN h a -> MN <= Z.of_nat (count a) <= MX ->
  shape MX MN (S h) (mkBTreeNode MX MN (vl ++ vr) (cl ++ Some a :: cr)).
Proof.
  intros H1 H2 Hl Hr Ha Hca. apply shape_intro.
  - rewrite !length_app. simpl. lia.
  - apply Forall_app. split; [assumption|]. constructor; [now split|assumption].
Qed.

(** The three moves on a node one of whose two children lacks one
    record. *)
Lemma rightshift_node h vl v vr cl a b cr j :
  length vl = j -> length cl = j -> length vr = length cr ->
  Forall (slot MX MN MN (S h)) cl -> Forall (slot MX MN MN (S h)) cr ->
  shape MX MN h a -> MN < Z.of_nat (count a) <= MX ->
  shape MX MN h b -> Z.of_nat (count b) = MN - 1 ->
  let node := mkBTreeNode MX MN (vl ++ v :: vr) (cl ++ Some a :: Some b :: cr) in
  shape MX MN (S h) (BTree.rightshift node (S j)) /\
  elems (BTree.rightshift node (S j)) = elems node /\
  count (BTree.rightshift node (S j)) = count node.
Proof.
  intros Hv Hc Hr Hfl Hfr Ha Hca Hb Hcb node. unfold node.
  destruct (rightshift_ok MX MN h MX MN vl v vr cl a b cr j Hv Hc Ha Hb)
    as (a' & b' & v' & -> & Ha' & Hb' & Hca' & Hcb' & He); [lia|].
  split; [apply shape_two; auto; lia|]. split.
  - rewrite !elems_at2 by lia. cbn [elems_ptr].
    f_equal. now apply app_mid_eq.
  - unfold count. cbn [value]. rewrite !length_app. reflexivity.
Qed.

Lemma leftshift_node h vl v vr cl a b cr j :
  length vl = j -> length cl = j -> length vr = length cr ->
  Forall (slot MX MN MN (S h)) cl -> Forall (slot MX MN MN (S h)) cr ->
  shape MX MN h a -> Z.of_nat (count a) = MN - 1 ->
  shape MX MN h b -> MN < Z.of_nat (count b) <= MX ->
  let node := mkBTreeNode MX MN (vl ++ v :: vr) (cl ++ Some a :: Some b :: cr) in
  shape MX MN (S h) (BTree.leftshift node (S j)) /\
  elems (BTree.leftshift node (S j)) = elems node /\
  count (BTree.leftshift node (S j)) = count node.
Proof.
  intros Hv Hc Hr Hfl Hfr Ha Hca Hb Hcb node. unfold node.
  destruct (leftshift_ok MX MN h MX MN vl v vr cl a b cr j Hv Hc Ha Hb)
    as (a' & b' & v' & -> & Ha' & Hb' & Hca' & Hcb' & He); [lia|].
  split; [apply shape_two; auto; lia|]. split.
  - rewrite !elems_at2 by lia. cbn [elems_ptr].
    f_equal. now apply app_mid_eq.
  - unfold count. cbn [value]. rewrite !length_app. reflexivity.
Qed.

Lemma merge_node h vl v vr cl a b cr j :
  length vl = j -> length cl = j -> length vr = length cr ->
  Forall (slot MX MN MN (S h)) cl -> Forall (slot MX MN MN (S h)) cr ->
  shape MX MN h a -> shape MX MN h b ->
  Z.of_nat (count a) + Z.of_nat (count b) = 2 * MN - 1 ->
  let node := mkBTreeNode MX MN (vl ++ v :: vr) (cl ++ Some a :: Some b :: cr) in
  shape MX MN (S h) (BTree.merge node (S j)) /\
  elems (BTree.merge node (S j)) = elems node /\
  S (count (BTree.merge node (S j))) = count node.
Proof.
  intros Hv Hc Hr Hfl Hfr Ha Hb Hcab node. unfold node.
  destruct (merge_ok MX MN h MX MN vl v vr cl a b cr j Hv Hc Ha Hb)
    as (ab & -> & Hab & Hcnt & He).
  split; [apply shape_one; auto; lia|]. split.
  - rewrite elems_at2, elems_at by lia. cbn [elems_ptr].
    rewrite He, <- !app_assoc. reflexivity.
  - unfold count. cbn [value]. rewrite !length_app. simpl. lia.
Qed.

Lemma slot_last_some h (cl : list (option BTreeNode)) lo :
  Forall (slot MX MN lo (S h)) cl -> cl <> [] ->
  exists cl' l, cl = cl' ++ [Some l] /\ Forall (slot MX MN lo (S h)) cl' /\
                shape MX MN h l /\ lo <= Z.of_nat (count l) <= MX.
Proof.
  intros Hf Hne. destruct (snoc_cases cl) as [->|(cl' & o & ->)]; [congruence|].
  apply Forall_app in Hf. destruct Hf as [Hf1 Hf2].
  apply Forall_cons_iff in Hf2. destruct Hf2 as [Hf2 _].
  destruct o as [l|]; [|contradiction]. destruct Hf2.
  exists cl', l. auto.
Qed.

Lemma slot_head_some h (cr : list (option BTreeNode)) lo :
  Forall (slot MX MN lo (S h)) cr -> cr <> [] ->
  exists r cr', cr = Some r :: cr' /\ Forall (slot MX MN lo (S h)) cr' /\
                shape MX MN h r /\ lo <= Z.of_nat (count r) <= MX.
Proof.
  intros Hf Hne. destruct cr as [|o cr']; [congruence|].
  apply Forall_cons_iff in Hf. destruct Hf as [Hf1 Hf2].
  destruct o as [r|]; [|contradiction]. destruct Hf1.
  exists r, cr'. auto.
Qed.

(** The closing test of [delhelp] repairs a node whose child of position
    [i] may lack one record. *)
Lemma restore_if_needed_ok h vals cl ck cr i :
  length cl = i -> length vals = (length cl + length cr)%nat ->
  Forall (slot MX MN MN h) cl -> slot MX MN (MN - 1) h ck ->
  Forall (slot MX MN MN h) cr ->
  (h <> O -> (1 <= length vals)%nat) ->
  let node := mkBTreeNode MX MN vals (cl ++ ck :: cr) in
  shape MX MN h (BTree.restore_if_needed node i) /\
  elems (BTree.restore_if_needed node i) = elems node /\
  (count (BTree.restore_if_needed node i) <= count node
   <= S (count (BTree.restore_if_needed node i)))%nat.
Proof.
  intros Hi Hlen Hfl Hck Hfr Hne node. unfold node.
  unfold BTree.restore_if_needed, child_at. cbn [child MIN].
  rewrite nth_app_exact by assumption.
  destruct h as [|h].
  - simpl in Hck. subst ck. split; [|split; [reflexivity|lia]].
    apply shape_intro.
    + rewrite length_app. simpl. lia.
    + apply Forall_app. split; [assumption|]. now constructor.
  - destruct ck as [c|]; [|contradiction]. destruct Hck as [Hc Hcc].
    specialize (Hne ltac:(discriminate)).
    destruct (Z.ltb_spec (Z.of_nat (count c)) MN) as [Hlt|Hge].
    + unfold BTree.restore, BTree.has_spare, child_at.
      cbn [child MIN].
      change (count (mkBTreeNode MX MN vals (cl ++ Some c :: cr)))
        with (length vals).
      destruct (Nat.eqb_spec i 0) as [E0|E0].
      * subst i. apply length_zero_iff_nil in E0. subst cl. cbn [app length] in *.
        destruct (slot_head_some h cr MN Hfr) as (r & cr' & -> & Hfr' & Hr & Hcr).
        { intros ->. simpl in Hlen. lia. }
        destruct vals as [|v vr]; [simpl in Hne; lia|].
        cbn [nth]. simpl in Hlen.
        destruct (Z.ltb_spec MN (Z.of_nat (count r))) as [Hsp|Hsp].
        -- destruct (leftshift_node h [] v vr [] c r cr' 0)
             as (X1 & X2 & X3); auto; try lia;
             cbn [app] in *; (split; [exact X1|split; [exact X2|unfold count in *; cbn [value] in *; lia]]).
        -- destruct (merge_node h [] v vr [] c r cr' 0)
             as (X1 & X2 & X3); auto; try lia;
             cbn [app] in *; (split; [exact X1|split; [exact X2|unfold count in *; cbn [value] in *; lia]]).
      * destruct (slot_last_some h cl MN Hfl) as (cl' & l & -> & Hfl' & Hl & Hcl).
        { intros ->. simpl in Hi. lia. }
        rewrite length_app in Hi, Hlen. cbn [length] in Hi, Hlen.
        assert (Ei : i = S (length cl')) by lia. clear E0.
        rewrite <- app_assoc. cbn [app].
        destruct (split_at_elem vals (length cl')) as (vl & v & vr & -> & Hvl);
          [lia|].
        rewrite length_app in Hlen. cbn [length] in Hlen.
        rewrite Ei. replace (S (length cl') - 1)%nat with (length cl') by lia.
        rewrite nth_app_exact by reflexivity.
        destruct (Nat.eqb_spec (S (length cl')) (length (vl ++ v :: vr))) as [Ec|Ec].
        -- assert (cr = []) as ->.
           { apply length_zero_iff_nil. rewrite length_app in Ec. simpl in Ec. lia. }
           assert (vr = []) as ->.
           { apply length_zero_iff_nil. rewrite length_app in Ec. simpl in Ec. lia. }
           destruct (Z.ltb_spec MN (Z.of_nat (count l))) as [Hsp|Hsp].
           ++ destruct (rightshift_node h vl v [] cl' l c [] (length cl'))
                as (X1 & X2 & X3); auto; try lia;
                (split; [exact X1|split; [exact X2|unfold count in *; cbn [value] in *; lia]]).
           ++ destruct (merge_node h vl v [] cl' l c [] (length cl'))
                as (X1 & X2 & X3); auto; try lia;
                (split; [exact X1|split; [exact X2|unfold count in *; cbn [value] in *; lia]]).
        -- assert (Hcrne : cr <> []).
           { intros ->. rewrite length_app in Ec. simpl in *. lia. }
           destruct (slot_head_some h cr MN Hfr Hcrne)
             as (r & cr' & -> & Hfr' & Hr & Hcr).
           destruct vr as [|v2 vr]; [simpl in Hlen; lia|].
           simpl in Hlen.
           destruct (Z.ltb_spec MN (Z.of_nat (count l))) as [Hsp|Hsp].
           ++ destruct (rightshift_node h vl v (v2 :: vr) cl' l c (Some r :: cr')
                                        (length cl'))
                as (X1 & X2 & X3); auto; cbn [length]; try lia;
                (split; [exact X1|split; [exact X2|unfold count in *; cbn [value] in *; lia]]).
           ++ replace (S (length cl') + 1)%nat with (S (S (length cl'))) by lia.
              assert (En : nth (S (S (length cl')))
                               (cl' ++ Some l :: Some c :: Some r :: cr') None
                           = Some r).
              { replace (cl' ++ Some l :: Some c :: Some r :: cr')
                  with ((cl' ++ [Some l; Some c]) ++ Some r :: cr')
                  by now rewrite <- app_assoc.
                apply nth_app_exact. rewrite length_app. simpl. lia. }
              rewrite En.
              assert (Hfl2 : Forall (slot MX MN MN (S h)) (cl' ++ [Some l])).
              { apply Forall_app. split; [assumption|].
                constructor; [now split|constructor]. }
              destruct (Z.ltb_spec MN (Z.of_nat (count r))) as [Hsr|Hsr].
              ** destruct (leftshift_node h (vl ++ [v]) v2 vr (cl' ++ [Some l])
                                          c r cr' (S (length cl')))
                   as (X1 & X2 & X3); auto;
                   try (rewrite length_app; simpl; lia); try lia.
                 rewrite <- !app_assoc in X1, X2, X3. cbn [app] in X1, X2, X3.
                 (split; [exact X1|split; [exact X2|unfold count in *; cbn [value] in *; lia]]).
              ** destruct (merge_node h vl v (v2 :: vr) cl' l c (Some r :: cr')
                                      (length cl'))
                   as (X1 & X2 & X3); auto; cbn [length]; try lia;
                   (split; [exact X1|split; [exact X2|unfold count in *; cbn [value] in *; lia]]).
    + split; [|split; [reflexivity|lia]].
      apply shape_intro.
      * rewrite length_app. simpl. lia.
      * apply Forall_app. split; [assumption|].
        constructor; [|assumption]. split; [assumption|lia].
Qed.

End Restore.

(** ** Deletion *)

Lemma delhelp_unfold key n :
  BTree.delhelp key n =
  let '(found, i) := BTree.searchNode key n in
  let '(flag, node1) :=
    if found then
      match child_at n (i - 1) with
      | Some _ =>
          let node' := BTree.copysucc n i in
          let k' := FileNode.key (value_at node' i) in
          let '(flag, cs') := at_child (BTree.delhelp k') false (child n) i in
          (flag, with_child node' cs')
      | None => (true, BTree.clear n i)
      end
    else
      let '(flag, cs') := at_child (BTree.delhelp key) false (child n) i in
      (flag, with_child n cs')
  in
  (flag, BTree.restore_if_needed node1 i).
Proof. destruct n; reflexivity. Qed.

Lemma at_child_delhelp key cl ck cr k :
  length cl = k ->
  at_child (BTree.delhelp key) false (cl ++ ck :: cr) k
  = (fst (BTree.delhelp_ptr key ck), cl ++ snd (BTree.delhelp_ptr key ck) :: cr).
Proof.
  intros H. rewrite at_child_app by assumption.
  destruct ck as [c|]; simpl; [destruct (BTree.delhelp key c)|]; reflexivity.
Qed.

Lemma drop_mid L B R key :
  above key L -> below key R ->
  drop_key key (L ++ B ++ R) = L ++ drop_key key B ++ R /\
  existsb (has_key key) (L ++ B ++ R) = existsb (has_key key) B.
Proof.
  intros Ha Hb. rewrite !drop_key_app, !existsb_app.
  rewrite (drop_key_above key L), (drop_key_below key R) by assumption.
  rewrite (existsb_above key L), (existsb_below key R) by assumption.
  split; [reflexivity|]. simpl. apply orb_false_r.
Qed.

Lemma drop_found L B v key :
  sorted (L ++ v :: B) -> FileNode.key v = key ->
  drop_key key (L ++ v :: B) = L ++ B /\
  existsb (has_key key) (L ++ v :: B) = true.
Proof.
  intros Hs <-. order_norm. destruct Hs as (HL & (Hb & HB) & Ha & _).
  rewrite drop_key_app, existsb_app, drop_key_head.
  rewrite (drop_key_above _ L), (drop_key_below _ B) by assumption.
  split; [reflexivity|]. simpl. unfold has_key at 2. rewrite Z.eqb_refl.
  simpl. apply orb_true_r.
Qed.

Section Delete.

Variables MX MN : Z.
Hypothesis HMN : 1 <= MN.
Hypothesis HMX : 2 * MN <= MX.

(** A node laid out around its record of position [j] (from 0) and the
    two children next to it. *)
Lemma node_at2 h n j :
  shape MX MN h n -> (S j <= count n)%nat ->
  exists vl v vr cl a b cr,
    n = mkBTreeNode MX MN (vl ++ v :: vr) (cl ++ a :: b :: cr) /\
    length vl = j /\ length cl = j /\ length cr = length vr /\
    Forall (slot MX MN MN h) cl /\ slot MX MN MN h a /\
    slot MX MN MN h b /\ Forall (slot MX MN MN h) cr.
Proof.
  intros Hs Hk.
  destruct (node_at MX MN h n j Hs) as
    (vl & vr & cl & a & cr & -> & Hvl & Hcl & Hcr & Hfl & Hfa & Hfr); [lia|].
  unfold count in Hk. simpl in Hk. rewrite length_app in Hk.
  destruct vr as [|v vr]; [simpl in Hk; lia|].
  destruct cr as [|b cr]; [discriminate|].
  apply Forall_cons_iff in Hfr. destruct Hfr as [Hfb Hfr].
  exists vl, v, vr, cl, a, b, cr. repeat split; auto.
Qed.

(** The first record below a node is the one [copysucc] picks. *)
Lemma leftmost_head h :
  forall c, shape MX MN h c -> (1 <= count c)%nat ->
            exists rest, elems c = value_at (BTree.leftmost c) 1 :: rest.
Proof.
  induction h as [|h IH]; intros c Hs Hc.
  - destruct (node_cons MX MN 0 c Hs Hc) as (fa & va & fc & ca & -> & Hl & Hfc & Hfa).
    simpl in Hfc. subst fc. simpl. eauto.
  - destruct (node_cons MX MN (S h) c Hs Hc) as (fa & va & fc & ca & -> & Hl & Hfc & Hfa).
    destruct fc as [c0|]; [|contradiction]. destruct Hfc as [Hs0 Hc0].
    destruct (IH c0 Hs0) as (rest & E); [lia|].
    simpl. change (BTree.leftmost c0) with (BTree.leftmost c0).
    rewrite E. simpl. eauto.
Qed.

Lemma copysucc_at mx mn vl v vr cl a b cr j :
  length vl = j -> length cl = j ->
  BTree.copysucc (mkBTreeNode mx mn (vl ++ v :: vr) (cl ++ a :: Some b :: cr)) (S j)
  = mkBTreeNode mx mn (vl ++ value_at (BTree.leftmost b) 1 :: vr)
                (cl ++ a :: Some b :: cr).
Proof.
  intros Hv Hc. unfold BTree.copysucc, child_at, with_value.
  cbn [MAX MIN value child].
  replace (cl ++ a :: Some b :: cr) with ((cl ++ [a]) ++ Some b :: cr) at 1
    by now rewrite <- app_assoc.
  rewrite nth_app_exact by (rewrite length_app; simpl; lia).
  replace (S j - 1)%nat with j by lia.
  now rewrite set_at_app.
Qed.

Lemma clear_at mx mn vl v vr cs j :
  length vl = j ->
  BTree.clear (mkBTreeNode mx mn (vl ++ v :: vr) cs) (S j)
  = mkBTreeNode mx mn (vl ++ vr) (remove_at (S j) cs).
Proof.
  intros Hv. unfold BTree.clear. cbn [MAX MIN value child].
  replace (S j - 1)%nat with j by lia.
  now rewrite remove_at_app.
Qed.

Lemma restore_if_needed_id h n i :
  shape MX MN h n -> BTree.restore_if_needed n i = n.
Proof.
  intros Hs. apply shape_unfold in Hs. destruct Hs as (_ & Hmn & _ & Hf).
  unfold BTree.restore_if_needed, child_at.
  destruct (Nat.lt_ge_cases i (length (child n))) as [Hi|Hi].
  - rewrite Forall_forall in Hf.
    specialize (Hf (nth i (child n) None) (nth_In _ _ Hi)).
    destruct (nth i (child n) None) as [c|]; [|reflexivity].
    destruct h; [discriminate|]. destruct Hf as [_ Hc].
    rewrite Hmn. destruct (Z.ltb_spec (Z.of_nat (count c)) MN); [lia|reflexivity].
  - now rewrite nth_overflow.
Qed.

End Delete.

Section Delhelp.

Variables MX MN : Z.
Hypothesis HMN : 1 <= MN.
Hypothesis HMX : 2 * MN <= MX.

Lemma delhelp_ptr_spec h :
  forall lo o key,
    1 <= lo <= MN -> slot MX MN lo h o -> sorted (elems_ptr o) ->
    delhelp_post MX MN lo h key o (BTree.delhelp_ptr key o).
Proof.
  induction h as [|h IH]; intros lo o key Hlo Hs Hsort.
  - simpl in Hs. subst o. simpl. auto.
  - destruct o as [n|]; [|contradiction]. destruct Hs as [Hsh Hcnt].
    cbn [elems_ptr] in Hsort. unfold BTree.delhelp_ptr.
    rewrite delhelp_unfold.
    assert (Hsv : sorted (value n)) by now apply sorted_elems_value.
    destruct (searchNode_spec key n Hsv) as
      (vl0 & vr0 & Ev & Hk & Hbelow & Hfound); [lia|].
    destruct (BTree.searchNode key n) as [found i].
    cbn [fst snd] in Hk, Hfound.
    destruct found.
    + (* the key is in this node *)
      destruct Hfound as (vl' & v & -> & Hkey & _ & Habove).
      rewrite length_app in Hk. cbn [length] in Hk.
      assert (Ei : i = S (length vl')) by lia. clear Hk. subst i.
      destruct (node_at2 MX MN h n (length vl') Hsh) as
        (vl & v1 & vr & cl & a & b & cr & -> & Hvl & Hcl & Hcr & Hfl & Hfa & Hfb & Hfr).
      { unfold count. rewrite Ev, !length_app. simpl. lia. }
      cbn [value] in Ev. rewrite <- app_assoc in Ev. cbn [app] in Ev.
      destruct (app_inv_len _ _ _ _ Ev) as [<- Ev2]; [lia|].
      injection Ev2 as <- <-. clear Ev.
      unfold child_at at 1. cbn [child].
      replace (S (length vl) - 1)%nat with (length vl) by lia.
      rewrite nth_app_exact by assumption.
      rewrite elems_at2 in Hsort by lia.
      set (L := lpairs (map elems_ptr cl) vl) in *.
      set (R := rweave vr (map elems_ptr cr)) in *.
      destruct h as [|h].
      * (* a leaf *)
        simpl in Hfa, Hfb. subst a b.
        rewrite clear_at by reflexivity.
        rewrite remove_at_app2 by assumption.
        assert (Hn1 : shape MX MN 0 (mkBTreeNode MX MN (vl ++ vr) (cl ++ None :: cr))).
        { apply shape_intro.
          - rewrite !length_app. simpl. lia.
          - apply Forall_app. split; [assumption|]. now constructor. }
        rewrite (restore_if_needed_id MX MN 0) by assumption.
        cbn [delhelp_post elems_ptr].
        split; [|split; [discriminate|]].
        { split; [assumption|]. unfold count in *. cbn [value] in *.
          rewrite !length_app in *. cbn [length] in *. lia. }
        rewrite elems_at2, elems_at by lia. fold L R. cbn [elems_ptr app].
        cbn [elems_ptr app] in Hsort.
        destruct (drop_found L R v1 key Hsort Hkey) as [E1 E2].
        now rewrite E1, E2.
      * (* an internal node *)
        destruct a as [ca|]; [|contradiction]. destruct b as [cb|]; [|contradiction].
        destruct Hfa as [Hsa Hca]. destruct Hfb as [Hsb Hcb].
        rewrite copysucc_at by assumption.
        rewrite value_at_S. cbn [value child].
        rewrite nth_app_exact by assumption.
        destruct (leftmost_head MX MN HMN h cb Hsb) as (rest & Erest); [lia|].
        set (s := value_at (BTree.leftmost cb) 1) in *.
        replace (cl ++ Some ca :: Some cb :: cr)
          with ((cl ++ [Some ca]) ++ Some cb :: cr) by now rewrite <- app_assoc.
        rewrite at_child_delhelp by (rewrite length_app; simpl; lia).
        assert (Hsb' : sorted (elems_ptr (Some cb))).
        { cbn [elems_ptr] in *. order_norm. tauto. }
        pose proof (IH MN (Some cb) (FileNode.key s) ltac:(lia)
                       (conj Hsb Hcb) Hsb') as IHb.
        destruct (BTree.delhelp_ptr (FileNode.key s) (Some cb)) as [flag b'].
        cbn [fst snd]. unfold with_child. cbn [MAX MIN value child].
        cbn [delhelp_post] in IHb. destruct IHb as (Hsb2 & _ & Hflag & Eb').
        cbn [elems_ptr] in Hflag, Eb', Hsort. rewrite Erest in Hflag, Eb', Hsort.
        assert (Hrest : below (FileNode.key s) rest).
        { clear - Hsort. order_norm. tauto. }
        rewrite drop_key_head, drop_key_below in Eb' by assumption.
        assert (Hflag' : flag = true).
        { rewrite Hflag. simpl. unfold has_key at 1. now rewrite Z.eqb_refl. }
        clear Hflag. subst flag.
        assert (Hfl2 : Forall (slot MX MN MN (S h)) (cl ++ [Some ca])).
        { apply Forall_app. split; [assumption|].
          constructor; [now split|constructor]. }
        destruct (restore_if_needed_ok MX MN HMX (S h) (vl ++ s :: vr)
                    (cl ++ [Some ca]) b' cr (S (length vl)))
          as (X1 & X2 & X3); auto.
        { rewrite length_app. simpl. lia. }
        { rewrite !length_app. simpl. lia. }
        { intros _. rewrite length_app. simpl. lia. }
        cbn [delhelp_post elems_ptr].
        split; [|split; [discriminate|]].
        { split; [assumption|]. unfold count in *. cbn [value] in *.
          rewrite !length_app in *. cbn [length] in *. lia. }
        rewrite X2. rewrite <- !app_assoc. cbn [app].
        rewrite !elems_at2 by lia. fold L R. cbn [elems_ptr]. rewrite Eb', Erest.
        assert (Hs2 : sorted ((L ++ elems ca) ++ v1 :: (s :: rest) ++ R)).
        { now rewrite <- app_assoc. }
        destruct (drop_found (L ++ elems ca) ((s :: rest) ++ R) v1 key Hs2 Hkey)
          as [E1 E2].
        rewrite <- app_assoc in E1, E2. cbn [app] in E1, E2.
        cbn [app]. rewrite E1, E2, <- app_assoc. split; reflexivity.
    + (* the key is below child [i] *)
      destruct (node_at MX MN h n i Hsh) as
        (vl & vr & cl & ck & cr & -> & Hvl & Hcl & Hcr & Hfl & Hfk & Hfr).
      { unfold count. rewrite Ev, length_app. lia. }
      cbn [value] in Ev. destruct (app_inv_len _ _ _ _ Ev) as [<- <-]; [lia|].
      cbn [child]. rewrite at_child_delhelp by assumption.
      rewrite elems_at in Hsort by lia.
      set (L := lpairs (map elems_ptr cl) vl) in *.
      set (R := rweave vr (map elems_ptr cr)) in *.
      assert (HaL : above key L).
      { apply lpairs_above; auto.
        - unfold L in Hsort. order_norm. tauto.
        - rewrite length_map. lia. }
      assert (HbR : below key R).
      { apply rweave_below; auto.
        - unfold R in Hsort. order_norm. tauto.
        - rewrite length_map. lia. }
      assert (HsB : sorted (elems_ptr ck)) by (order_norm; tauto).
      pose proof (IH MN ck key ltac:(lia) Hfk HsB) as IHk.
      destruct (BTree.delhelp_ptr key ck) as [flag ck'].
      cbn [fst snd]. unfold with_child. cbn [MAX MIN value child].
      cbn [delhelp_post] in IHk. destruct IHk as (Hsk & Hid & Hflag & Ek').
      destruct (restore_if_needed_ok MX MN HMX h (vl ++ vr) cl ck' cr i)
        as (X1 & X2 & X3); auto.
      { rewrite length_app. lia. }
      { intros _. unfold count in Hcnt. cbn [value] in Hcnt. lia. }
      destruct (drop_mid L (elems_ptr ck) R key HaL HbR) as [E1 E2].
      cbn [delhelp_post elems_ptr].
      split; [|split; [|split]].
      * split; [assumption|]. unfold count in *. cbn [value] in *. lia.
      * intros Hf. rewrite (Hid Hf).
        now rewrite (restore_if_needed_id MX MN h).
      * rewrite elems_at by lia. fold L R. now rewrite E2.
      * rewrite X2, !elems_at by lia. fold L R. now rewrite E1, Ek'.
Qed.

End Delhelp.

(** ** [del], [search] and the enumeration at the root *)

Lemma search_unfold key n :
  BTree.search key n =
  let '(found, pos) := BTree.searchNode key n in
  if found then Some (n, pos)
  else on_child (BTree.search key) None (child n) pos.
Proof. destruct n; reflexivity. Qed.

Section Root.

Variable ord : Z.
Hypothesis Hord : 3 <= ord.

Local Abbreviation MX := (MAX_of_order ord).
Local Abbreviation MN := (MIN_of_order ord).

Lemma del_spec key o :
  btree_inv MX MN o ->
  btree_inv MX MN (fst (BTree.del key o)) /\
  snd (BTree.del key o) = existsb (has_key key) (elems_ptr o) /\
  elems_ptr (fst (BTree.del key o)) = drop_key key (elems_ptr o).
Proof.
  destruct (order_thresholds ord Hord) as [HMN HMX].
  intros [[h Hs] Hsort].
  pose proof (delhelp_ptr_spec MX MN HMN HMX h 1 o key ltac:(lia) Hs Hsort) as H.
  destruct o as [n|]; [|simpl; repeat split; auto; now exists h].
  unfold BTree.delhelp_ptr in H. unfold BTree.del.
  destruct (BTree.delhelp key n) as [flag n'].
  cbn [delhelp_post elems_ptr] in H. destruct H as (Hs' & Hid & Hflag & He).
  destruct h as [|h]; [discriminate|]. destruct Hs' as [Hsh Hcnt].
  cbn [elems_ptr] in *.
  destruct flag; cbn [negb fst snd].
  - destruct (Nat.eqb_spec (count n') 0) as [E0|E0]; cbn [fst snd elems_ptr].
    + split; [|split; [assumption|]].
      * apply shape_unfold in Hsh. destruct n' as [mx mn vals cs].
        unfold count, child_at in *. cbn [MAX MIN value child] in *.
        destruct Hsh as (_ & _ & Hl & Hf).
        apply length_zero_iff_nil in E0. subst vals.
        destruct cs as [|c0 [|]]; try discriminate.
        apply Forall_cons_iff in Hf. destruct Hf as [Hf _].
        assert (Ee : elems_ptr c0 = elems (mkBTreeNode mx mn [] [c0])).
        { simpl. now rewrite app_nil_r. }
        cbn [nth]. split.
        -- exists h. eapply slot_weaken; [|exact Hf]. lia.
        -- rewrite Ee, He. now apply sorted_drop_key.
      * apply shape_unfold in Hsh. destruct n' as [mx mn vals cs].
        unfold count, child_at in *. cbn [MAX MIN value child] in *.
        destruct Hsh as (_ & _ & Hl & Hf).
        apply length_zero_iff_nil in E0. subst vals.
        destruct cs as [|c0 [|]]; try discriminate.
        cbn [nth]. rewrite <- He. simpl. now rewrite app_nil_r.
    + split; [|split; assumption].
      split; [|cbn [elems_ptr]; rewrite He; now apply sorted_drop_key].
      exists (S h). split; [assumption|]. lia.
  - specialize (Hid eq_refl). injection Hid as ->.
    split; [|split; assumption].
    split; [|assumption]. exists (S h). assumption.
Qed.

Lemma search_ptr_spec h :
  forall lo o key,
    1 <= lo -> slot MX MN lo h o -> sorted (elems_ptr o) ->
    match BTree.search_ptr key o with
    | Some (node, pos) =>
        In (value_at node pos) (elems_ptr o) /\
        FileNode.key (value_at node pos) = key
    | None => existsb (has_key key) (elems_ptr o) = false
    end.
Proof.
  induction h as [|h IH]; intros lo o key Hlo Hs Hsort.
  - simpl in Hs. subst o. reflexivity.
  - destruct o as [n|]; [|contradiction]. destruct Hs as [Hsh Hcnt].
    cbn [elems_ptr BTree.search_ptr] in *. rewrite search_unfold.
    assert (Hsv : sorted (value n)) by now apply sorted_elems_value.
    destruct (searchNode_spec key n Hsv) as
      (vl0 & vr0 & Ev & Hk & Hbelow & Hfound); [lia|].
    destruct (BTree.searchNode key n) as [found i].
    cbn [fst snd] in Hk, Hfound.
    destruct found.
    + destruct Hfound as (vl' & v & -> & Hkey & Hva & _).
      rewrite Hva. split; [|assumption].
      apply In_value_elems. rewrite Ev, !in_app_iff. simpl. auto.
    + destruct (node_at MX MN h n i Hsh) as
        (vl & vr & cl & ck & cr & -> & Hvl & Hcl & Hcr & Hfl & Hfk & Hfr).
      { unfold count. rewrite Ev, length_app. lia. }
      cbn [value] in Ev. destruct (app_inv_len _ _ _ _ Ev) as [<- <-]; [lia|].
      cbn [child]. rewrite on_child_app by assumption.
      rewrite elems_at in * by lia.
      set (L := lpairs (map elems_ptr cl) vl) in *.
      set (R := rweave vr (map elems_ptr cr)) in *.
      assert (HaL : above key L).
      { apply lpairs_above; auto.
        - unfold L in Hsort. order_norm. tauto.
        - rewrite length_map. lia. }
      assert (HbR : below key R).
      { apply rweave_below; auto.
        - unfold R in Hsort. order_norm. tauto.
        - rewrite length_map. lia. }
      assert (HsB : sorted (elems_ptr ck)) by (order_norm; tauto).
      destruct (order_thresholds ord Hord) as [HMN HMX].
      pose proof (IH MN ck key HMN Hfk HsB) as IHk.
      destruct (drop_mid L (elems_ptr ck) R key HaL HbR) as [_ E2].
      destruct ck as [c|]; cbn [BTree.search_ptr] in IHk.
      * destruct (BTree.search key c) as [[node pos]|].
        -- destruct IHk as [Hin Hkey]. split; [|assumption].
           rewrite !in_app_iff. auto.
        -- now rewrite E2.
      * now rewrite E2.
Qed.

(** Every node below the root is within the bounds. *)
Lemma shape_descendants h :
  forall n, shape MX MN h n ->
            Forall (fun c => MN <= Z.of_nat (count c) <= MX) (descendants n).
Proof.
  induction h as [|h IH]; intros n Hs; apply shape_unfold in Hs;
    destruct n as [mx mn vals cs]; cbn [MAX MIN value child] in Hs;
    destruct Hs as (_ & _ & _ & Hf); cbn [descendants];
    rewrite Forall_forall in *; intros c Hc;
    apply in_flat_map in Hc; destruct Hc as (o & Ho & Hc);
    specialize (Hf o Ho).
  - simpl in Hf. subst o. destruct Hc.
  - destruct o as [c0|]; [|contradiction]. destruct Hf as [Hs0 Hc0].
    destruct Hc as [<-|Hc]; [assumption|].
    specialize (IH c0 Hs0). rewrite Forall_forall in IH. auto.
Qed.

End Root.

(** The breadth-first enumeration lists the records of the tree. *)

Lemma node_count_unfold n :
  BTree.node_count n = S (list_sum (map BTree.node_count (kids n))).
Proof.
  destruct n as [mx mn vals cs]. unfold kids. cbn [BTree.node_count child].
  f_equal. induction cs as [|[c|] cs IH]; simpl; auto.
Qed.

Lemma elems_kids_perm n :
  Permutation (elems n) (value n ++ flat_map elems (kids n)).
Proof.
  rewrite elems_unfold, weave_perm. apply Permutation_app_head.
  unfold kids. induction (child n) as [|[c|] cs IH]; simpl; auto.
  now apply Permutation_app_head.
Qed.

Lemma bfs_perm fuel :
  forall q, (list_sum (map BTree.node_count q) <= fuel)%nat ->
            Permutation (BTree.bfs fuel q) (flat_map elems q).
Proof.
  induction fuel as [|fuel IH]; intros q Hq.
  - destruct q as [|c q]; [reflexivity|].
    simpl in Hq. rewrite node_count_unfold in Hq. lia.
  - destruct q as [|c q]; [reflexivity|].
    cbn [BTree.bfs flat_map]. fold (kids c).
    rewrite IH.
    + rewrite flat_map_app, elems_kids_perm.
      rewrite <- !app_assoc. apply Permutation_app_head.
      apply Permutation_app_comm.
    + rewrite map_app, list_sum_app. simpl in Hq.
      rewrite node_count_unfold in Hq. lia.
Qed.

Lemma getAllFiles_perm o : Permutation (BTree.getAllFiles o) (elems_ptr o).
Proof.
  destruct o as [n|]; [|reflexivity]. unfold BTree.getAllFiles.
  rewrite bfs_perm by (simpl; lia). simpl. now rewrite app_nil_r.
Qed.

(** ** The operations of the [BTree] class *)

Section BTreeClass.

Variable t : Z.
Hypothesis Ht : 3 <= t.

Lemma BTree_inv_new o : BTree_inv t (BTree.new o).
Proof.
  split; [exists O; reflexivity|]. simpl. now apply sorted_nil.
Qed.

Lemma BTree_inv_sorted b : BTree_inv t b -> sorted (contents b).
Proof. intros [_ H]. exact H. Qed.

Lemma searchFile_spec b k :
  BTree_inv t b -> BTree.searchFile b k = existsb (has_key k) (contents b).
Proof.
  intros [[h Hs] Hsort]. unfold BTree.searchFile, contents.
  pose proof (search_ptr_spec t Ht h 1 (BTree.root b) k ltac:(lia) Hs Hsort) as H.
  destruct (BTree.search_ptr k (BTree.root b)) as [[node pos]|].
  - destruct H as [Hin Hk]. symmetry. apply existsb_exists.
    exists (value_at node pos). split; [assumption|].
    unfold has_key. now apply Z.eqb_eq.
  - now rewrite H.
Qed.

Lemma findFile_spec b k :
  BTree_inv t b ->
  match BTree.findFile b k with
  | Some r => In r (contents b) /\ FileNode.key r = k
  | None => existsb (has_key k) (contents b) = false
  end.
Proof.
  intros [[h Hs] Hsort]. unfold BTree.findFile, contents.
  pose proof (search_ptr_spec t Ht h 1 (BTree.root b) k ltac:(lia) Hs Hsort) as H.
  destruct (BTree.search_ptr k (BTree.root b)) as [[node pos]|]; assumption.
Qed.

Lemma insertHelper_inv b f :
  BTree_inv t b -> BTree_inv t (fst (BTree.insertHelper b f t)).
Proof.
  intros H. unfold BTree.insertHelper, BTree_inv.
  pose proof (insert_spec t Ht f (BTree.root b) H) as (H1 & _).
  destruct (BTree.insert f (BTree.root b) t). exact H1.
Qed.

(** A record whose key is present is rejected and the tree is the same
    tree. *)
Lemma insertHelper_dup b f :
  BTree_inv t b -> existsb (has_key (FileNode.key f)) (contents b) = true ->
  BTree.insertHelper b f t = (b, true).
Proof.
  intros H Hex. unfold BTree.insertHelper.
  pose proof (insert_spec t Ht f (BTree.root b) H) as (H1 & H2 & H3).
  destruct (BTree.insert f (BTree.root b) t) as [r dup]. cbn [fst snd] in *.
  destruct dup.
  - destruct (H2 eq_refl) as [-> _]. now destruct b.
  - exfalso. specialize (H3 eq_refl). destruct H1 as [_ Hs].
    apply existsb_exists in Hex. destruct Hex as (x & Hx & Hk).
    unfold has_key in Hk. apply Z.eqb_eq in Hk.
    assert (Hf : In f (elems_ptr r)).
    { eapply Permutation_in; [symmetry; exact H3|]. now left. }
    assert (Hx' : In x (elems_ptr r)).
    { eapply Permutation_in; [symmetry; exact H3|]. now right. }
    assert (E : x = f) by (eapply sorted_key_inj; eauto). subst x.
    assert (Hnd : NoDup (f :: contents b)).
    { eapply Permutation_NoDup; [exact H3|].
      clear - Hs. induction (elems_ptr r) as [|y l IH]; [constructor|].
      apply sorted_cons in Hs. destruct Hs as [Hb Hs]. constructor; auto.
      intros Hy. specialize (Hb y Hy). lia. }
    inversion Hnd. contradiction.
Qed.

(** A record whose key is absent is added, and nothing else changes. *)
Lemma insertHelper_new b f :
  BTree_inv t b -> existsb (has_key (FileNode.key f)) (contents b) = false ->
  snd (BTree.insertHelper b f t) = false /\
  Permutation (contents (fst (BTree.insertHelper b f t))) (f :: contents b).
Proof.
  intros H Hex. unfold BTree.insertHelper.
  pose proof (insert_spec t Ht f (BTree.root b) H) as (H1 & H2 & H3).
  destruct (BTree.insert f (BTree.root b) t) as [r dup]. cbn [fst snd] in *.
  destruct dup.
  - destruct (H2 eq_refl) as [_ Hin]. apply existsb_has_key in Hin.
    unfold contents in Hex. congruence.
  - split; [reflexivity|]. now apply H3.
Qed.

Lemma deleteHelper_inv b k :
  BTree_inv t b -> BTree_inv t (fst (BTree.deleteHelper b k)).
Proof.
  intros H. unfold BTree.deleteHelper, BTree_inv.
  pose proof (del_spec t Ht k (BTree.root b) H) as (H1 & _).
  destruct (BTree.del k (BTree.root b)). exact H1.
Qed.

Lemma deleteHelper_spec b k :
  BTree_inv t b ->
  contents (fst (BTree.deleteHelper b k)) = drop_key k (contents b) /\
  snd (BTree.deleteHelper b k) = existsb (has_key k) (contents b).
Proof.
  intros H. unfold BTree.deleteHelper, contents.
  pose proof (del_spec t Ht k (BTree.root b) H) as (_ & H2 & H3).
  destruct (BTree.del k (BTree.root b)). cbn [fst snd BTree.root] in *. auto.
Qed.

Lemma built_inv b : built t b -> BTree_inv t b.
Proof.
  induction 1.
  - apply BTree_inv_new.
  - now apply insertHelper_inv.
  - now apply deleteHelper_inv.
Qed.

Lemma getAllFiles_contents b :
  Permutation (BTree.getAllFiles (BTree.root b)) (contents b).
Proof. apply getAllFiles_perm. Qed.

End BTreeClass.

(** ** Scans of the ring *)

Lemma find_seq_some (f : nat -> bool) a n p :
  find f (seq a n) = Some p ->
  (a <= p < a + n)%nat /\ f p = true /\
  forall q, (a <= q < p)%nat -> f q = false.
Proof.
  revert a. induction n as [|n IH]; simpl; intros a H; [discriminate|].
  destruct (f a) eqn:E.
  - injection H as <-. split; [lia|]. split; [assumption|]. intros; lia.
  - apply IH in H. destruct H as (H1 & H2 & H3).
    split; [lia|]. split; [assumption|]. intros q Hq.
    destruct (Nat.eq_dec q a) as [->|]; [assumption|]. apply H3. lia.
Qed.

Lemma find_seq_none (f : nat -> bool) a n :
  find f (seq a n) = None -> forall q, (a <= q < a + n)%nat -> f q = false.
Proof.
  revert a. induction n as [|n IH]; simpl; intros a H q Hq; [lia|].
  destruct (f a) eqn:E; [discriminate|].
  destruct (Nat.eq_dec q a) as [->|]; [assumption|]. apply (IH (S a)); [assumption|lia].
Qed.

Lemma find_seq_first (f : nat -> bool) a n p :
  (a <= p < a + n)%nat -> f p = true ->
  (forall q, (a <= q < p)%nat -> f q = false) ->
  find f (seq a n) = Some p.
Proof.
  intros Hp Hf Hq. destruct (find f (seq a n)) as [p'|] eqn:E.
  - apply find_seq_some in E. destruct E as (H1 & H2 & H3).
    destruct (Nat.lt_trichotomy p p') as [Hlt|[->|Hgt]]; [|reflexivity|].
    + rewrite H3 in Hf by lia. discriminate.
    + rewrite Hq in H2 by lia. discriminate.
  - rewrite (find_seq_none f a n E p Hp) in Hf. discriminate.
Qed.

Lemma sorted_nth_lt (K : list Z) d :
  StronglySorted Z.lt K ->
  forall i j, (i < j < length K)%nat -> nth i K d < nth j K d.
Proof.
  induction 1 as [|x K Hs IH Hf]; intros i j Hij; [simpl in Hij; lia|].
  destruct j as [|j]; [lia|]. simpl in Hij. destruct i as [|i].
  - simpl. rewrite Forall_forall in Hf. apply Hf. apply nth_In. lia.
  - simpl. apply IH. lia.
Qed.

Lemma sorted_nth_lt_iff (K : list Z) d :
  StronglySorted Z.lt K ->
  forall i j, (i < length K)%nat -> (j < length K)%nat ->
              (nth i K d < nth j K d <-> (i < j)%nat).
Proof.
  intros Hs i j Hi Hj. split.
  - intros H. destruct (Nat.lt_trichotomy i j) as [?|[->|Hgt]]; [assumption|lia|].
    pose proof (sorted_nth_lt K d Hs j i ltac:(lia)). lia.
  - intros H. apply sorted_nth_lt; auto.
Qed.

Lemma sorted_nth_inj (K : list Z) d :
  StronglySorted Z.lt K ->
  forall i j, (i < length K)%nat -> (j < length K)%nat ->
              nth i K d = nth j K d -> i = j.
Proof.
  intros Hs i j Hi Hj E.
  destruct (Nat.lt_trichotomy i j) as [Hlt|[?|Hgt]]; [|assumption|].
  - pose proof (sorted_nth_lt K d Hs i j ltac:(lia)). lia.
  - pose proof (sorted_nth_lt K d Hs j i ltac:(lia)). lia.
Qed.

Lemma sorted_nth_le_iff (K : list Z) d :
  StronglySorted Z.lt K ->
  forall i j, (i < length K)%nat -> (j < length K)%nat ->
              (nth i K d <= nth j K d <-> (i <= j)%nat).
Proof.
  intros Hs i j Hi Hj.
  pose proof (sorted_nth_lt_iff K d Hs j i Hj Hi). lia.
Qed.

(** ** Positions and keys *)

Section Ring.

Variable r : CircularLinkedList.t.

Local Abbreviation n := (length (CircularLinkedList.nodes r)).
Local Abbreviation K := (ring_keys r).
Local Abbreviation key_at := (CircularLinkedList.key_at r).
Local Abbreviation next := (CircularLinkedList.next r).

Lemma length_ring_keys : length K = n.
Proof. apply length_map. Qed.

Lemma key_at_nth p d : (p < n)%nat -> key_at p = nth p K d.
Proof.
  intros Hp. unfold CircularLinkedList.key_at, ring_keys.
  destruct (nth_error (CircularLinkedList.nodes r) p) as [x|] eqn:E.
  - erewrite nth_error_nth; [reflexivity|]. now rewrite nth_error_map, E.
  - apply nth_error_None in E. lia.
Qed.

Lemma key_at_In p : (p < n)%nat -> In (key_at p) K.
Proof.
  intros Hp. rewrite (key_at_nth p 0 Hp). apply nth_In.
  now rewrite length_ring_keys.
Qed.

Lemma In_key_at k : In k K -> exists p, (p < n)%nat /\ key_at p = k.
Proof.
  intros H. destruct (In_nth _ _ 0 H) as (p & Hp & E).
  rewrite length_ring_keys in Hp. exists p. split; [assumption|].
  now rewrite (key_at_nth p 0 Hp).
Qed.

Lemma next_lt p : (p < n)%nat -> (next p < n)%nat.
Proof.
  intros Hp. unfold CircularLinkedList.next.
  destruct (Nat.ltb_spec (S p) n); lia.
Qed.

Lemma first_pos_some test p :
  CircularLinkedList.first_pos r test = Some p ->
  (p < n)%nat /\ test p = true /\ forall q, (q < p)%nat -> test q = false.
Proof.
  intros H. apply find_seq_some in H. destruct H as (H1 & H2 & H3).
  split; [lia|]. split; [assumption|]. intros q Hq. apply H3. lia.
Qed.

Lemma first_pos_none test :
  CircularLinkedList.first_pos r test = None ->
  forall q, (q < n)%nat -> test q = false.
Proof. intros H q Hq. apply (find_seq_none _ _ _ H). lia. Qed.

Lemma first_pos_first test p :
  (p < n)%nat -> test p = true -> (forall q, (q < p)%nat -> test q = false) ->
  CircularLinkedList.first_pos r test = Some p.
Proof.
  intros Hp Ht Hq. apply find_seq_first; [lia|assumption|].
  intros q Hq'. apply Hq. lia.
Qed.

Lemma search_true_iff v : CircularLinkedList.search r v = true <-> In v K.
Proof.
  unfold CircularLinkedList.search.
  destruct (CircularLinkedList.first_pos r _) as [p|] eqn:E.
  - apply first_pos_some in E. destruct E as (Hp & Ht & _).
    apply Z.eqb_eq in Ht. split; [|reflexivity]. intros _. rewrite <- Ht.
    now apply key_at_In.
  - split; [discriminate|]. intros H.
    destruct (In_key_at v H) as (p & Hp & Hk).
    pose proof (first_pos_none _ E p Hp) as Hf. simpl in Hf.
    rewrite Hk, Z.eqb_refl in Hf. discriminate.
Qed.

Section Sorted.

Hypothesis Hsorted : StronglySorted Z.lt K.

Lemma key_at_lt_iff i j :
  (i < n)%nat -> (j < n)%nat -> (key_at i < key_at j <-> (i < j)%nat).
Proof.
  intros Hi Hj. rewrite (key_at_nth i 0 Hi), (key_at_nth j 0 Hj).
  apply sorted_nth_lt_iff; auto; now rewrite length_ring_keys.
Qed.

Lemma key_at_le_iff i j :
  (i < n)%nat -> (j < n)%nat -> (key_at i <= key_at j <-> (i <= j)%nat).
Proof.
  intros Hi Hj. rewrite (key_at_nth i 0 Hi), (key_at_nth j 0 Hj).
  apply sorted_nth_le_iff; auto; now rewrite length_ring_keys.
Qed.

Lemma key_at_inj i j :
  (i < n)%nat -> (j < n)%nat -> key_at i = key_at j -> i = j.
Proof.
  intros Hi Hj. rewrite (key_at_nth i 0 Hi), (key_at_nth j 0 Hj).
  apply sorted_nth_inj; auto; now rewrite length_ring_keys.
Qed.

(** The machine found by ID is the machine. *)
Lemma findMachineById_key_at p :
  (p < n)%nat -> CircularLinkedList.findMachineById r (key_at p) = Some p.
Proof.
  intros Hp. apply first_pos_first; [assumption|apply Z.eqb_refl|].
  intros q Hq. apply Z.eqb_neq. intros E.
  apply key_at_inj in E; lia.
Qed.

(** The predecessor of a machine is the machine before it along the
    ring. *)
Lemma findPredecessor_key_at c :
  (c < n)%nat ->
  CircularLinkedList.findPredecessor r (key_at c)
  = Some (if (c =? 0)%nat then (n - 1)%nat else (c - 1)%nat).
Proof.
  intros Hc. unfold CircularLinkedList.findPredecessor.
  assert (Hnext : forall q, (q < n)%nat ->
            (key_at (next q) =? key_at c) = true <->
            q = if (c =? 0)%nat then (n - 1)%nat else (c - 1)%nat).
  { intros q Hq. rewrite Z.eqb_eq. split.
    - intros E. apply key_at_inj in E; auto using next_lt.
      unfold CircularLinkedList.next in E.
      destruct (Nat.ltb_spec (S q) n); destruct (Nat.eqb_spec c 0); lia.
    - intros ->. f_equal. unfold CircularLinkedList.next.
      destruct (Nat.eqb_spec c 0);
        match goal with |- context [(?a <? ?b)%nat] =>
          destruct (Nat.ltb_spec a b) end; lia. }
  apply first_pos_first.
  - destruct (Nat.eqb_spec c 0); lia.
  - apply Hnext; [destruct (Nat.eqb_spec c 0); lia|reflexivity].
  - intros q Hq. destruct (key_at (next q) =? key_at c) eqn:E; [|reflexivity].
    apply Hnext in E; [|destruct (Nat.eqb_spec c 0); lia]. lia.
Qed.

End Sorted.

End Ring.

(** ** Routing *)

Lemma best_finger_some rt cur key p :
  CircularLinkedList.best_finger rt cur key = Some p ->
  exists finger,
    In finger rt /\ DoublyNode.m finger = Some p /\
    CircularLinkedList.isBetween (DoublyNode.machinekey finger) cur key = true.
Proof.
  unfold CircularLinkedList.best_finger.
  assert (G : forall acc,
             fold_left (fun nextHop finger =>
                          match DoublyNode.m finger with
                          | Some p =>
                              if CircularLinkedList.isBetween
                                   (DoublyNode.machinekey finger) cur key
                              then Some p else nextHop
                          | None => nextHop
                          end) rt acc = Some p ->
             acc = Some p \/
             exists finger,
               In finger rt /\ DoublyNode.m finger = Some p /\
               CircularLinkedList.isBetween (DoublyNode.machinekey finger) cur key
               = true).
  { induction rt as [|f rt IH]; intros acc H; [now left|].
    simpl in H. apply IH in H. destruct H as [H|(g & Hg & H)].
    - destruct (DoublyNode.m f) as [q|] eqn:Em; [|now left].
      destruct (CircularLinkedList.isBetween _ cur key) eqn:Eb; [|now left].
      right. exists f. split; [now left|]. split; congruence.
    - right. exists g. split; [now right|assumption]. }
  intros H. destruct (G None H) as [?|?]; [discriminate|assumption].
Qed.

Section Route.

Variable r : CircularLinkedList.t.

Local Abbreviation n := (length (CircularLinkedList.nodes r)).
Local Abbreviation K := (ring_keys r).
Local Abbreviation key_at := (CircularLinkedList.key_at r).
Local Abbreviation next := (CircularLinkedList.next r).

Hypothesis Hsorted : StronglySorted Z.lt K.
Hypothesis Hn : (1 <= n)%nat.

Lemma nodes_nonempty : CircularLinkedList.nodes r <> [].
Proof. intros E. rewrite E in Hn. simpl in Hn. lia. Qed.

Lemma succ_pos_spec key :
  (succ_pos r key < n)%nat /\
  ((key <= key_at (succ_pos r key) /\
    forall q, (q < succ_pos r key)%nat -> key_at q < key) \/
   (succ_pos r key = O /\ forall q, (q < n)%nat -> key_at q < key)).
Proof.
  unfold succ_pos, CircularLinkedList.succ.
  destruct (CircularLinkedList.nodes r) as [|x l] eqn:En; [simpl in Hn; lia|].
  rewrite <- En in Hn |- *.
  destruct (CircularLinkedList.first_pos r _) as [p|] eqn:E.
  - apply first_pos_some in E. destruct E as (Hp & Ht & Hq).
    split; [assumption|]. left. split; [now apply Z.leb_le|].
    intros q Hlt. specialize (Hq q Hlt). apply Z.leb_gt in Hq. lia.
  - split; [lia|]. right. split; [reflexivity|].
    intros q Hq. pose proof (first_pos_none r _ E q Hq) as H.
    apply Z.leb_gt in H. lia.
Qed.

Lemma succ_some key : CircularLinkedList.succ r key = Some (succ_pos r key).
Proof.
  unfold succ_pos, CircularLinkedList.succ.
  destruct (CircularLinkedList.nodes r) as [|x l] eqn:En; [simpl in Hn; lia|].
  destruct (CircularLinkedList.first_pos r _); reflexivity.
Qed.

(** [succ] returns the successor in the sense of the identifier
    circle. *)
Lemma succ_is_successor key :
  is_successor K key (key_at (succ_pos r key)).
Proof.
  destruct (succ_pos_spec key) as [HR [[H1 H2]|[H1 H2]]].
  - split; [now apply key_at_In|]. left. split; [assumption|].
    intros id' Hin Hle. destruct (In_key_at r id' Hin) as (q & Hq & <-).
    apply key_at_le_iff; auto.
    destruct (Nat.le_gt_cases (succ_pos r key) q) as [?|Hlt]; [assumption|].
    specialize (H2 q Hlt). lia.
  - split; [now apply key_at_In|]. right. split.
    + intros id' Hin. destruct (In_key_at r id' Hin) as (q & Hq & <-). auto.
    + intros id' Hin. destruct (In_key_at r id' Hin) as (q & Hq & <-).
      apply key_at_le_iff; auto. lia.
Qed.

Lemma is_successor_unique key a b :
  is_successor K key a -> is_successor K key b -> a = b.
Proof.
  intros [Ha [[Ha1 Ha2]|[Ha1 Ha2]]] [Hb [[Hb1 Hb2]|[Hb1 Hb2]]].
  - specialize (Ha2 b Hb Hb1). specialize (Hb2 a Ha Ha1). lia.
  - specialize (Hb1 a Ha). lia.
  - specialize (Ha1 b Hb). lia.
  - specialize (Ha2 b Hb). specialize (Hb2 a Ha). lia.
Qed.

(** The test of [routeToKey] and [findResponsibleMachine] holds at the
    successor of the key and nowhere else. *)
Lemma responsible_iff key c :
  (c < n)%nat ->
  CircularLinkedList.responsible_test r
    (key_at (if (c =? 0)%nat then (n - 1)%nat else (c - 1)%nat))
    (key_at c) key = true
  <-> c = succ_pos r key.
Proof.
  intros Hc. unfold CircularLinkedList.responsible_test, CircularLinkedList.getMachineCount.
  destruct (succ_pos_spec key) as [HR HRs].
  destruct (Nat.eqb_spec n 1) as [E1|E1]; [split; [lia|reflexivity]|].
  destruct (Nat.eqb_spec c 0) as [->|Hc0].
  - assert (Hlast : key_at 0 < key_at (n - 1)) by (apply key_at_lt_iff; auto; lia).
    destruct (Z.ltb_spec (key_at (n - 1)) (key_at 0)) as [?|_]; [lia|].
    rewrite orb_true_iff, Z.ltb_lt, Z.leb_le. split.
    + intros H. destruct HRs as [[H1 H2]|[H1 H2]]; [|lia].
      destruct (Nat.eq_dec (succ_pos r key) 0) as [E|E]; [lia|].
      specialize (H2 0%nat ltac:(lia)).
      assert (key_at (succ_pos r key) <= key_at (n - 1))
        by (apply key_at_le_iff; auto; lia).
      lia.
    + intros E. rewrite <- E in HRs. destruct HRs as [[H1 H2]|[H1 H2]].
      * now right.
      * left. apply H2. lia.
  - assert (Hprev : key_at (c - 1) < key_at c) by (apply key_at_lt_iff; auto; lia).
    destruct (Z.ltb_spec (key_at (c - 1)) (key_at c)) as [_|?]; [|lia].
    rewrite andb_true_iff, Z.ltb_lt, Z.leb_le. split.
    + intros [H1 H2]. destruct HRs as [[H3 H4]|[H3 H4]].
      * destruct (Nat.lt_trichotomy c (succ_pos r key)) as [Hlt|[?|Hgt]];
          [|assumption|].
        -- specialize (H4 c Hlt). lia.
        -- assert (key_at (succ_pos r key) <= key_at (c - 1))
             by (apply key_at_le_iff; auto; lia).
           lia.
      * specialize (H4 c Hc). lia.
    + intros E. rewrite <- E in HRs. destruct HRs as [[H1 H2]|[H1 H2]]; [|lia].
      split; [apply H2; lia|assumption].
Qed.

(** A step along [next] gets closer to the successor of the key. *)
Lemma next_closer R c :
  (R < n)%nat -> (c < n)%nat -> c <> R ->
  (hops_to n R (next c) < hops_to n R c)%nat.
Proof.
  intros HR Hc Hne. unfold hops_to, CircularLinkedList.next.
  destruct (Nat.ltb_spec (S c) n);
    repeat match goal with |- context [(?a <=? ?b)%nat] =>
             destruct (Nat.leb_spec a b) end; lia.
Qed.

(** So does a hop to a finger that lies between the current machine and
    the key. *)
Lemma finger_closer key c p :
  (c < n)%nat -> (p < n)%nat -> c <> succ_pos r key ->
  CircularLinkedList.isBetween (key_at p) (key_at c) key = true ->
  (hops_to n (succ_pos r key) p < hops_to n (succ_pos r key) c)%nat.
Proof.
  intros Hc Hp Hne Hb. destruct (succ_pos_spec key) as [HR HRs].
  set (R := succ_pos r key) in *.
  unfold CircularLinkedList.isBetween in Hb. unfold hops_to.
  pose proof (key_at_lt_iff r Hsorted c p Hc Hp) as Hcp.
  pose proof (key_at_le_iff r Hsorted p R Hp HR) as HpR.
  pose proof (key_at_le_iff r Hsorted R c HR Hc) as HRc.
  destruct (Z.ltb_spec (key_at c) key) as [Hlt|Hge].
  - apply andb_true_iff in Hb. destruct Hb as [Hb1 Hb2].
    apply Z.ltb_lt in Hb1. apply Z.leb_le in Hb2.
    destruct HRs as [[H1 H2]|[H1 H2]].
    + assert (c < R)%nat.
      { destruct (Nat.lt_ge_cases c R); [assumption|]. lia. }
      repeat match goal with |- context [(?a <=? ?b)%nat] =>
               destruct (Nat.leb_spec a b) end; lia.
    + repeat match goal with |- context [(?a <=? ?b)%nat] =>
               destruct (Nat.leb_spec a b) end; lia.
  - destruct HRs as [[H1 H2]|[H1 H2]]; [|specialize (H2 c Hc); lia].
    assert (R < c)%nat.
    { destruct (Nat.lt_trichotomy R c) as [?|[?|Hgt]]; [assumption|lia|].
      specialize (H2 c Hgt). lia. }
    apply orb_true_iff in Hb. rewrite Z.ltb_lt, Z.leb_le in Hb.
    repeat match goal with |- context [(?a <=? ?b)%nat] =>
             destruct (Nat.leb_spec a b) end; lia.
Qed.

End Route.

Lemma fingers_consistent_live r : fingers_consistent r -> fingers_live r.
Proof.
  unfold fingers_consistent, fingers_live. intros H.
  eapply Forall_impl; [|exact H]. intros a Ha.
  eapply Forall_impl; [|exact Ha]. intros f Hf. cbv beta in *.
  destruct (DoublyNode.m f); tauto.
Qed.

Lemma hops_to_lt n R c : (R < n)%nat -> (c < n)%nat -> (hops_to n R c < n)%nat.
Proof.
  intros HR Hc. unfold hops_to. destruct (Nat.leb_spec c R); lia.
Qed.

Lemma existsb_Zeqb k l : existsb (Z.eqb k) l = true <-> In k l.
Proof.
  rewrite existsb_exists. split.
  - intros (x & Hx & E). apply Z.eqb_eq in E. now subst.
  - intros H. exists k. split; [assumption|apply Z.eqb_refl].
Qed.

Section Termination.

Variable r : CircularLinkedList.t.

Local Abbreviation n := (length (CircularLinkedList.nodes r)).
Local Abbreviation K := (ring_keys r).
Local Abbreviation key_at := (CircularLinkedList.key_at r).
Local Abbreviation next := (CircularLinkedList.next r).

Lemma RT_at_In c finger :
  In finger (CircularLinkedList.RT_at r c) ->
  exists node, In node (CircularLinkedList.nodes r) /\
               In finger (CircularNode.RT node).
Proof.
  unfold CircularLinkedList.RT_at.
  destruct (nth_error (CircularLinkedList.nodes r) c) as [node|] eqn:E; [|intros []].
  intros H. exists node. split; [|assumption]. eapply nth_error_In; eauto.
Qed.

Lemma nth_error_key_at p hop :
  nth_error (CircularLinkedList.nodes r) p = Some hop ->
  CircularNode.key hop = key_at p.
Proof. intros H. unfold CircularLinkedList.key_at. now rewrite H. Qed.

Hypothesis Hlive : fingers_live r.

(** The next hop chosen by [routeToKey] is a machine of the ring. *)
Lemma nextHop_lt key c :
  (c < n)%nat ->
  (match CircularLinkedList.best_finger (CircularLinkedList.RT_at r c) (key_at c) key with
   | Some p => p
   | None => next c
   end < n)%nat.
Proof.
  intros Hc.
  destruct (CircularLinkedList.best_finger _ _ _) as [p|] eqn:E;
    [|now apply next_lt].
  apply best_finger_some in E. destruct E as (f & Hf & Hm & _).
  apply RT_at_In in Hf. destruct Hf as (node & Hnode & Hf).
  unfold fingers_live in Hlive. rewrite Forall_forall in Hlive.
  specialize (Hlive node Hnode). rewrite Forall_forall in Hlive.
  specialize (Hlive f Hf). now rewrite Hm in Hlive.
Qed.

Lemma route_loop_terminates fuel :
  forall key c path visited,
    (c < n)%nat -> NoDup path -> incl path K ->
    (forall k, In k visited <-> In k path) ->
    (n + 1 <= fuel + length path)%nat ->
    exists path',
      CircularLinkedList.route_loop fuel r key c path visited = Ok path' /\
      NoDup path' /\ incl path' K.
Proof.
  induction fuel as [|fuel IH]; intros key c path visited Hc Hnd Hincl Hvis Hfuel.
  - pose proof (NoDup_incl_length Hnd Hincl) as Hlen.
    rewrite length_ring_keys in Hlen. lia.
  - cbn [CircularLinkedList.route_loop].
    destruct (CircularLinkedList.responsible_test _ _ _ _); [eauto|].
    pose proof (nextHop_lt key c Hc) as Hp.
    set (p := match CircularLinkedList.best_finger _ _ _ with
              | Some p => p
              | None => next c
              end) in *.
    destruct (nth_error (CircularLinkedList.nodes r) p) as [hop|] eqn:Ehop.
    2:{ apply nth_error_None in Ehop. lia. }
    destruct (existsb (Z.eqb (CircularNode.key hop)) visited) eqn:Ev; [eauto|].
    assert (Hnew : ~ In (CircularNode.key hop) path).
    { intros Hin. apply Hvis in Hin. apply existsb_Zeqb in Hin. congruence. }
    apply IH; auto.
    + apply NoDup_app; auto.
      * repeat constructor. intros [].
      * intros x Hx [<-|[]]. contradiction.
    + intros x Hx. apply in_app_or in Hx. destruct Hx as [Hx|[<-|[]]]; auto.
      rewrite (nth_error_key_at p hop Ehop). now apply key_at_In.
    + intros k. simpl. rewrite in_app_iff, Hvis. simpl. tauto.
    + rewrite length_app. simpl. lia.
Qed.

(** More fuel does not change the answer. *)
Lemma route_loop_mono fuel :
  forall key c path visited path' fuel',
    CircularLinkedList.route_loop fuel r key c path visited = Ok path' ->
    (fuel <= fuel')%nat ->
    CircularLinkedList.route_loop fuel' r key c path visited = Ok path'.
Proof.
  induction fuel as [|fuel IH]; intros key c path visited path' fuel' H Hle;
    [discriminate|].
  destruct fuel' as [|fuel']; [lia|].
  cbn [CircularLinkedList.route_loop] in *.
  destruct (CircularLinkedList.responsible_test _ _ _ _); [assumption|].
  destruct (nth_error _ _) as [hop|]; [|discriminate].
  destruct (existsb _ visited); [assumption|].
  apply IH; [assumption|lia].
Qed.

Lemma routeToKey_fuel_terminates fuel startMachineId key :
  (n <= fuel)%nat ->
  exists path,
    CircularLinkedList.routeToKey_fuel fuel r startMachineId key = Ok path /\
    NoDup path /\ incl path K.
Proof.
  intros Hfuel. unfold CircularLinkedList.routeToKey_fuel.
  destruct (CircularLinkedList.nodes r) as [|x l] eqn:En.
  { exists []. repeat split; [constructor|intros ? []]. }
  rewrite <- En in *.
  assert (Hn : (1 <= n)%nat) by (rewrite En; simpl; lia).
  set (current := match CircularLinkedList.first_pos r _ with
                  | Some p => p
                  | None => O
                  end).
  assert (Hcur : (current < n)%nat).
  { unfold current.
    destruct (CircularLinkedList.first_pos r _) as [p|] eqn:E; [|lia].
    now apply first_pos_some in E. }
  destruct (negb (key_at current =? startMachineId)).
  { exists []. repeat split; [constructor|intros ? []]. }
  apply route_loop_terminates; auto.
  - repeat constructor. intros [].
  - intros k [<-|[]]. now apply key_at_In.
  - tauto.
  - simpl. lia.
Qed.

End Termination.

Section Soundness.

Variable r : CircularLinkedList.t.

Local Abbreviation n := (length (CircularLinkedList.nodes r)).
Local Abbreviation K := (ring_keys r).
Local Abbreviation key_at := (CircularLinkedList.key_at r).
Local Abbreviation next := (CircularLinkedList.next r).

Hypothesis Hsorted : StronglySorted Z.lt K.
Hypothesis Hcons : fingers_consistent r.

(** Every hop gets closer to the successor of the key. *)
Lemma nextHop_closer key c :
  (c < n)%nat -> c <> succ_pos r key ->
  let p := match CircularLinkedList.best_finger (CircularLinkedList.RT_at r c)
                                                (key_at c) key with
           | Some p => p
           | None => next c
           end in
  (p < n)%nat /\
  (hops_to n (succ_pos r key) p < hops_to n (succ_pos r key) c)%nat.
Proof.
  intros Hc Hne p. assert (Hn : (1 <= n)%nat) by lia.
  destruct (succ_pos_spec r Hn key) as [HR _].
  split; [apply nextHop_lt; auto using fingers_consistent_live|].
  unfold p. destruct (CircularLinkedList.best_finger _ _ _) as [q|] eqn:E.
  - apply best_finger_some in E. destruct E as (f & Hf & Hm & Hb).
    apply RT_at_In in Hf. destruct Hf as (node & Hnode & Hf).
    unfold fingers_consistent in Hcons. rewrite Forall_forall in Hcons.
    specialize (Hcons node Hnode). rewrite Forall_forall in Hcons.
    specialize (Hcons f Hf). rewrite Hm in Hcons. destruct Hcons as [Hq Hk].
    rewrite Hk in Hb. now apply finger_closer.
  - now apply next_closer.
Qed.

Lemma route_loop_sound fuel :
  forall key c path visited,
    (c < n)%nat -> (hops_to n (succ_pos r key) c < fuel)%nat ->
    path <> [] -> last path 0 = key_at c ->
    (forall v, In v visited ->
               exists q, (q < n)%nat /\ key_at q = v /\
                         (hops_to n (succ_pos r key) c
                          <= hops_to n (succ_pos r key) q)%nat) ->
    exists path',
      CircularLinkedList.route_loop fuel r key c path visited = Ok path' /\
      path' <> [] /\ last path' 0 = key_at (succ_pos r key).
Proof.
  induction fuel as [|fuel IH]; intros key c path visited Hc Hfuel Hne Hlast Hvis;
    [lia|].
  assert (Hn : (1 <= n)%nat) by lia.
  cbn [CircularLinkedList.route_loop].
  rewrite (findPredecessor_key_at r Hsorted c Hc).
  destruct (CircularLinkedList.responsible_test _ _ _ _) eqn:Et.
  - apply (responsible_iff r Hsorted Hn key c Hc) in Et.
    exists path. rewrite <- Et. auto.
  - assert (HcR : c <> succ_pos r key).
    { intros E. apply (responsible_iff r Hsorted Hn key c Hc) in E. congruence. }
    destruct (nextHop_closer key c Hc HcR) as [Hp Hcloser].
    set (p := match CircularLinkedList.best_finger _ _ _ with
              | Some p => p
              | None => next c
              end) in *.
    destruct (nth_error (CircularLinkedList.nodes r) p) as [hop|] eqn:Ehop.
    2:{ apply nth_error_None in Ehop. lia. }
    rewrite (nth_error_key_at r p hop Ehop).
    destruct (existsb (Z.eqb (key_at p)) visited) eqn:Ev.
    + exfalso. apply existsb_Zeqb in Ev.
      destruct (Hvis _ Ev) as (q & Hq & Hk & Hh).
      apply key_at_inj in Hk; auto. subst q. lia.
    + apply IH; auto.
      * lia.
      * intros E. apply app_eq_nil in E. destruct E. discriminate.
      * apply last_last.
      * intros v [<-|Hv].
        -- exists p. auto.
        -- destruct (Hvis v Hv) as (q & Hq & Hk & Hh).
           exists q. repeat split; auto. lia.
Qed.

Lemma findResponsibleMachine_succ key :
  (1 <= n)%nat ->
  CircularLinkedList.findResponsibleMachine r key = Some (succ_pos r key).
Proof.
  intros Hn. unfold CircularLinkedList.findResponsibleMachine.
  destruct (CircularLinkedList.nodes r) as [|x l] eqn:En; [simpl in Hn; lia|].
  rewrite <- En in *.
  destruct (succ_pos_spec r Hn key) as [HR _].
  rewrite (first_pos_first r _ (succ_pos r key)); auto.
  - rewrite (findPredecessor_key_at r Hsorted _ HR).
    now apply (responsible_iff r Hsorted Hn).
  - intros q Hq. rewrite (findPredecessor_key_at r Hsorted q) by lia.
    destruct (CircularLinkedList.responsible_test _ _ _ _) eqn:Et; [|reflexivity].
    apply (responsible_iff r Hsorted Hn key q) in Et; lia.
Qed.

(** From a live start, [routeToKey] ends on the successor of the key. *)
Lemma routeToKey_fuel_sound fuel startMachineId key :
  (n <= fuel)%nat -> In startMachineId K ->
  exists path,
    CircularLinkedList.routeToKey_fuel fuel r startMachineId key = Ok path /\
    path <> [] /\ last path 0 = key_at (succ_pos r key).
Proof.
  intros Hfuel Hin. unfold CircularLinkedList.routeToKey_fuel.
  destruct (In_key_at r _ Hin) as (p0 & Hp0 & Hk0).
  destruct (CircularLinkedList.nodes r) as [|x l] eqn:En; [simpl in Hp0; lia|].
  rewrite <- En in *.
  assert (Hn : (1 <= n)%nat) by lia.
  destruct (succ_pos_spec r Hn key) as [HR _].
  rewrite <- Hk0. rewrite (first_pos_first r _ p0); auto.
  - rewrite Z.eqb_refl. cbn [negb].
    apply route_loop_sound; auto.
    + pose proof (hops_to_lt n (succ_pos r key) p0 HR Hp0). lia.
    + discriminate.
    + intros v [<-|[]]. exists p0. auto.
  - apply Z.eqb_refl.
  - intros q Hq. apply Z.eqb_neq. intros E. apply key_at_inj in E; auto; lia.
Qed.

End Soundness.

(** ** Rebuilding the finger tables *)

Lemma key_at_keys r p :
  CircularLinkedList.key_at r p = nth p (ring_keys r) (-1).
Proof.
  unfold CircularLinkedList.key_at, ring_keys.
  destruct (nth_error (CircularLinkedList.nodes r) p) as [x|] eqn:E.
  - erewrite nth_error_nth; [reflexivity|]. now rewrite nth_error_map, E.
  - apply nth_error_None in E. rewrite nth_overflow; [reflexivity|].
    now rewrite length_map.
Qed.

Section SameKeys.

Variables r r' : CircularLinkedList.t.
Hypothesis Hkeys : ring_keys r' = ring_keys r.
Hypothesis Hspace :
  CircularLinkedList.identifierSpace r' = CircularLinkedList.identifierSpace r.

Lemma same_length :
  length (CircularLinkedList.nodes r') = length (CircularLinkedList.nodes r).
Proof.
  rewrite <- (length_ring_keys r'), <- (length_ring_keys r). now rewrite Hkeys.
Qed.

Lemma same_key_at p : CircularLinkedList.key_at r' p = CircularLinkedList.key_at r p.
Proof. now rewrite !key_at_keys, Hkeys. Qed.

Lemma same_next p : CircularLinkedList.next r' p = CircularLinkedList.next r p.
Proof. unfold CircularLinkedList.next. now rewrite same_length. Qed.

Lemma same_first_pos test test' :
  (forall p, test' p = test p) ->
  CircularLinkedList.first_pos r' test' = CircularLinkedList.first_pos r test.
Proof.
  intros H. unfold CircularLinkedList.first_pos. rewrite same_length.
  induction (seq 0 (length (CircularLinkedList.nodes r))) as [|a l IH];
    [reflexivity|].
  simpl. rewrite H, IH. reflexivity.
Qed.

Lemma same_nil :
  CircularLinkedList.nodes r' = [] <-> CircularLinkedList.nodes r = [].
Proof.
  rewrite <- !length_zero_iff_nil. now rewrite same_length.
Qed.

Lemma same_succ v : CircularLinkedList.succ r' v = CircularLinkedList.succ r v.
Proof.
  unfold CircularLinkedList.succ.
  rewrite (same_first_pos (fun p => v <=? CircularLinkedList.key_at r p)
                          (fun p => v <=? CircularLinkedList.key_at r' p))
    by (intros; now rewrite same_key_at).
  pose proof same_nil as Hnil.
  destruct (CircularLinkedList.nodes r') as [|x l];
    destruct (CircularLinkedList.nodes r) as [|y l']; try reflexivity.
  - destruct Hnil as [Hnil _]. specialize (Hnil eq_refl). discriminate.
  - destruct Hnil as [_ Hnil]. specialize (Hnil eq_refl). discriminate.
Qed.

Lemma same_search v : CircularLinkedList.search r' v = CircularLinkedList.search r v.
Proof.
  unfold CircularLinkedList.search.
  now rewrite (same_first_pos (fun p => CircularLinkedList.key_at r p =? v)
                              (fun p => CircularLinkedList.key_at r' p =? v))
    by (intros; now rewrite same_key_at).
Qed.

Lemma same_findMachineById v :
  CircularLinkedList.findMachineById r' v = CircularLinkedList.findMachineById r v.
Proof.
  unfold CircularLinkedList.findMachineById.
  apply same_first_pos. intros. now rewrite same_key_at.
Qed.

Lemma same_findPredecessor v :
  CircularLinkedList.findPredecessor r' v = CircularLinkedList.findPredecessor r v.
Proof.
  unfold CircularLinkedList.findPredecessor.
  apply same_first_pos. intros. now rewrite same_key_at, same_next.
Qed.

Lemma same_fill_fingers k fingers :
  forall i, CircularLinkedList.fill_fingers r' k i fingers
            = CircularLinkedList.fill_fingers r k i fingers.
Proof.
  induction fingers as [|f fingers IH]; intros i; [reflexivity|].
  cbn [CircularLinkedList.fill_fingers].
  rewrite Hspace, same_succ, IH.
  destruct (CircularLinkedList.succ r _); [rewrite same_key_at|]; reflexivity.
Qed.

Lemma same_finger_table k : finger_table r' k = finger_table r k.
Proof. unfold finger_table. now rewrite Hspace, same_fill_fingers. Qed.

End SameKeys.

Lemma ring_keys_with_nodes r l :
  ring_keys (CircularLinkedList.with_nodes r l) = map CircularNode.key l.
Proof. reflexivity. Qed.

Lemma ring_keys_updateRT r :
  ring_keys (CircularLinkedList.updateRT r) = ring_keys r.
Proof.
  unfold CircularLinkedList.updateRT, ring_keys. cbn [CircularLinkedList.nodes
    CircularLinkedList.with_nodes].
  rewrite map_map. reflexivity.
Qed.

Lemma identifierSpace_updateRT r :
  CircularLinkedList.identifierSpace (CircularLinkedList.updateRT r)
  = CircularLinkedList.identifierSpace r.
Proof. reflexivity. Qed.

Lemma fingers_fresh_updateRT r : fingers_fresh (CircularLinkedList.updateRT r).
Proof.
  unfold fingers_fresh. rewrite Forall_forall. intros x Hx.
  rewrite (same_finger_table r _ (ring_keys_updateRT r) (identifierSpace_updateRT r)).
  unfold CircularLinkedList.updateRT in Hx.
  cbn [CircularLinkedList.nodes CircularLinkedList.with_nodes] in Hx.
  apply in_map_iff in Hx. destruct Hx as (y & <- & Hy). reflexivity.
Qed.

Lemma BTreeroot_updateRT r :
  map CircularNode.BTreeroot (CircularLinkedList.nodes (CircularLinkedList.updateRT r))
  = map CircularNode.BTreeroot (CircularLinkedList.nodes r).
Proof.
  unfold CircularLinkedList.updateRT.
  cbn [CircularLinkedList.nodes CircularLinkedList.with_nodes].
  now rewrite map_map.
Qed.

(** The entries that the inner loop of [updateRT] writes. *)
Lemma fill_fingers_nth r k fingers :
  forall i j,
    (j < length fingers)%nat ->
    nth_error (CircularLinkedList.fill_fingers r k i fingers) j
    = Some (let target :=
              Z.rem (wrap_int (k + wrap_int (Z.shiftl 1 (Z.of_nat (i + j)))))
                    (CircularLinkedList.identifierSpace r) in
            DoublyNode.mk target
              (match CircularLinkedList.succ r target with
               | Some p => CircularLinkedList.key_at r p
               | None => -1
               end)
              (CircularLinkedList.succ r target)).
Proof.
  induction fingers as [|f fingers IH]; intros i j Hj; [simpl in Hj; lia|].
  destruct j as [|j].
  - simpl. now rewrite Nat.add_0_r.
  - cbn [CircularLinkedList.fill_fingers nth_error].
    rewrite IH by (simpl in Hj; lia).
    now replace (S i + j)%nat with (i + S j)%nat by lia.
Qed.

Lemma length_fill_fingers r k fingers :
  forall i, length (CircularLinkedList.fill_fingers r k i fingers) = length fingers.
Proof.
  induction fingers as [|f fingers IH]; intros i; [reflexivity|].
  simpl. now rewrite IH.
Qed.

Lemma length_finger_table r k :
  length (finger_table r k)
  = DoublyLinkedList.numEntries (CircularLinkedList.identifierSpace r).
Proof.
  unfold finger_table. rewrite length_fill_fingers.
  unfold DoublyLinkedList.initialize, DoublyLinkedList.clear.
  cbn [app]. now rewrite length_map, length_seq.
Qed.

Lemma finger_table_nth r k j :
  (j < DoublyLinkedList.numEntries (CircularLinkedList.identifierSpace r))%nat ->
  nth_error (finger_table r k) j
  = Some (let target :=
            Z.rem (wrap_int (k + wrap_int (Z.shiftl 1 (Z.of_nat j))))
                  (CircularLinkedList.identifierSpace r) in
          DoublyNode.mk target
            (match CircularLinkedList.succ r target with
             | Some p => CircularLinkedList.key_at r p
             | None => -1
             end)
            (CircularLinkedList.succ r target)).
Proof.
  intros Hj. unfold finger_table. rewrite fill_fingers_nth; [reflexivity|].
  unfold DoublyLinkedList.initialize, DoublyLinkedList.clear.
  cbn [app]. now rewrite length_map, length_seq.
Qed.

(** Rebuilt finger tables point into the ring and cache the right IDs. *)
Lemma fingers_fresh_consistent r :
  fingers_fresh r -> fingers_consistent r.
Proof.
  unfold fingers_fresh, fingers_consistent. intros H.
  eapply Forall_impl; [|exact H]. intros x Hx. cbv beta in *. rewrite Hx.
  rewrite Forall_forall. intros f Hf.
  destruct (In_nth_error _ _ Hf) as (j & Hj).
  assert (Hlt : (j < length (finger_table r (CircularNode.key x)))%nat).
  { apply nth_error_Some. congruence. }
  rewrite length_finger_table in Hlt.
  rewrite finger_table_nth in Hj by assumption. injection Hj as <-.
  cbn [DoublyNode.m DoublyNode.machinekey].
  destruct (CircularLinkedList.succ r _) as [p|] eqn:E; [|trivial].
  split; [|reflexivity].
  unfold CircularLinkedList.succ in E.
  destruct (CircularLinkedList.nodes r) as [|y l] eqn:En; [discriminate|].
  rewrite <- En in *.
  destruct (CircularLinkedList.first_pos r _) as [q|] eqn:Eq.
  - injection E as <-. now apply first_pos_some in Eq.
  - injection E as <-. rewrite En. simpl. lia.
Qed.

(** ** The ring operations keep the invariant *)

Lemma with_nodes_same r : CircularLinkedList.with_nodes r (CircularLinkedList.nodes r) = r.
Proof. now destruct r. Qed.

Lemma insert_nodes_perm r v :
  exists newNode,
    CircularNode.key newNode = v /\
    CircularNode.BTreeroot newNode = BTree.new (CircularLinkedList.btreeOrder r) /\
    Permutation (CircularLinkedList.nodes (CircularLinkedList.insert r v))
                (newNode :: CircularLinkedList.nodes r).
Proof.
  unfold CircularLinkedList.insert.
  set (newNode := CircularNode.with_RT _ _).
  exists newNode. split; [reflexivity|]. split; [reflexivity|].
  destruct (CircularLinkedList.nodes r) as [|h rest]; [reflexivity|].
  destruct (v <? CircularNode.key h); [reflexivity|].
  cbn [CircularLinkedList.nodes CircularLinkedList.with_nodes].
  apply Permutation_trans with (h :: newNode :: rest); [|apply perm_swap].
  apply perm_skip.
  induction rest as [|x rest IH]; [reflexivity|].
  cbn [CircularLinkedList.insert_after_head].
  destruct (CircularNode.key x <? CircularNode.key newNode).
  - apply Permutation_trans with (x :: newNode :: rest); [|apply perm_swap].
    now apply perm_skip.
  - reflexivity.
Qed.

Lemma insert_after_head_sorted newNode rest lo :
  StronglySorted Z.lt (map CircularNode.key rest) ->
  Forall (fun k => lo < k) (map CircularNode.key rest) ->
  lo < CircularNode.key newNode ->
  ~ In (CircularNode.key newNode) (map CircularNode.key rest) ->
  StronglySorted Z.lt
    (map CircularNode.key (CircularLinkedList.insert_after_head newNode rest)) /\
  Forall (fun k => lo < k)
    (map CircularNode.key (CircularLinkedList.insert_after_head newNode rest)).
Proof.
  revert lo. induction rest as [|x rest IH]; intros lo Hs Hf Hlo Hnin.
  - simpl. repeat constructor. assumption.
  - simpl in *. apply StronglySorted_inv in Hs. destruct Hs as [Hs Hx].
    apply Forall_cons_iff in Hf. destruct Hf as [Hlx Hf].
    destruct (Z.ltb_spec (CircularNode.key x) (CircularNode.key newNode)) as [Hlt|Hge].
    + destruct (IH (CircularNode.key x) Hs Hx Hlt) as [H1 H2]; [tauto|].
      simpl. split; constructor; auto.
      eapply Forall_impl; [|exact H2]. intros a Ha. cbv beta in *. lia.
    + assert (CircularNode.key newNode < CircularNode.key x) by lia.
      simpl. split.
      * constructor; [constructor; assumption|].
        constructor; [assumption|].
        eapply Forall_impl; [|exact Hx]. intros a Ha. cbv beta in *. lia.
      * constructor; [assumption|]. constructor; assumption.
Qed.

Lemma insert_sorted r v :
  StronglySorted Z.lt (ring_keys r) -> ~ In v (ring_keys r) ->
  StronglySorted Z.lt (ring_keys (CircularLinkedList.insert r v)).
Proof.
  unfold ring_keys, CircularLinkedList.insert.
  set (newNode := CircularNode.with_RT _ _).
  destruct (CircularLinkedList.nodes r) as [|h rest]; intros Hs Hnin.
  - simpl. repeat constructor.
  - simpl in Hs, Hnin. apply StronglySorted_inv in Hs. destruct Hs as [Hs Hh].
    destruct (Z.ltb_spec v (CircularNode.key h)) as [Hlt|Hge];
      cbn [CircularLinkedList.nodes CircularLinkedList.with_nodes map].
    + change (CircularNode.key newNode) with v.
      constructor; [constructor; assumption|].
      constructor; [assumption|].
      eapply Forall_impl; [|exact Hh]. intros a Ha. cbv beta in *. lia.
    + assert (Hv : CircularNode.key newNode = v) by reflexivity.
      destruct (insert_after_head_sorted newNode rest (CircularNode.key h))
        as [H1 H2]; [exact Hs|exact Hh|lia|rewrite Hv; tauto|].
      constructor; assumption.
Qed.

Section SetBTree.

Variable r : CircularLinkedList.t.
Variable p : nat.
Variable b : BTree.t.

Lemma ring_keys_set_BTree :
  ring_keys (CircularLinkedList.set_BTree r p b) = ring_keys r.
Proof.
  unfold CircularLinkedList.set_BTree, ring_keys.
  destruct (nth_error (CircularLinkedList.nodes r) p) as [x|] eqn:E; [|reflexivity].
  cbn [CircularLinkedList.nodes CircularLinkedList.with_nodes].
  now apply map_set_at_same with (y := x).
Qed.

Lemma RT_set_BTree :
  map CircularNode.RT (CircularLinkedList.nodes (CircularLinkedList.set_BTree r p b))
  = map CircularNode.RT (CircularLinkedList.nodes r).
Proof.
  unfold CircularLinkedList.set_BTree.
  destruct (nth_error (CircularLinkedList.nodes r) p) as [x|] eqn:E; [|reflexivity].
  cbn [CircularLinkedList.nodes CircularLinkedList.with_nodes].
  now apply map_set_at_same with (y := x).
Qed.

Lemma identifierSpace_set_BTree :
  CircularLinkedList.identifierSpace (CircularLinkedList.set_BTree r p b)
  = CircularLinkedList.identifierSpace r.
Proof.
  unfold CircularLinkedList.set_BTree.
  destruct (nth_error (CircularLinkedList.nodes r) p); reflexivity.
Qed.

Lemma btreeOrder_set_BTree :
  CircularLinkedList.btreeOrder (CircularLinkedList.set_BTree r p b)
  = CircularLinkedList.btreeOrder r.
Proof.
  unfold CircularLinkedList.set_BTree.
  destruct (nth_error (CircularLinkedList.nodes r) p); reflexivity.
Qed.

Lemma length_set_BTree :
  length (CircularLinkedList.nodes (CircularLinkedList.set_BTree r p b))
  = length (CircularLinkedList.nodes r).
Proof.
  unfold CircularLinkedList.set_BTree.
  destruct (nth_error (CircularLinkedList.nodes r) p); [|reflexivity].
  apply length_set_at.
Qed.

Lemma BTree_at_set_BTree_eq :
  (p < length (CircularLinkedList.nodes r))%nat ->
  CircularLinkedList.BTree_at (CircularLinkedList.set_BTree r p b) p = b.
Proof.
  intros Hp. unfold CircularLinkedList.set_BTree, CircularLinkedList.BTree_at.
  destruct (nth_error (CircularLinkedList.nodes r) p) as [x|] eqn:E.
  - cbn [CircularLinkedList.nodes CircularLinkedList.with_nodes].
    now rewrite nth_error_set_at_eq.
  - apply nth_error_None in E. lia.
Qed.

Lemma BTree_at_set_BTree_neq q :
  q <> p ->
  CircularLinkedList.BTree_at (CircularLinkedList.set_BTree r p b) q
  = CircularLinkedList.BTree_at r q.
Proof.
  intros Hq. unfold CircularLinkedList.set_BTree, CircularLinkedList.BTree_at.
  destruct (nth_error (CircularLinkedList.nodes r) p) as [x|] eqn:E; [|reflexivity].
  cbn [CircularLinkedList.nodes CircularLinkedList.with_nodes
       CircularLinkedList.btreeOrder].
  now rewrite nth_error_set_at_neq.
Qed.

Lemma fingers_fresh_set_BTree :
  fingers_fresh r -> fingers_fresh (CircularLinkedList.set_BTree r p b).
Proof.
  unfold fingers_fresh. intros H.
  pose proof ring_keys_set_BTree as Hk. pose proof identifierSpace_set_BTree as Hi.
  unfold CircularLinkedList.set_BTree in *.
  destruct (nth_error (CircularLinkedList.nodes r) p) as [x|] eqn:E; [|assumption].
  cbn [CircularLinkedList.nodes CircularLinkedList.with_nodes] in *.
  rewrite Forall_forall in *. intros y Hy.
  rewrite (same_finger_table r _ Hk Hi).
  apply In_set_at in Hy. destruct Hy as [->|Hy]; [|auto].
  cbn [CircularNode.with_BTree CircularNode.RT CircularNode.key].
  apply H. eapply nth_error_In; eauto.
Qed.

Lemma ring_inv_set_BTree order :
  ring_inv order r -> BTree_inv order b ->
  ring_inv order (CircularLinkedList.set_BTree r p b).
Proof.
  intros [H1 H2 H3 H4] Hb. split.
  - now rewrite ring_keys_set_BTree.
  - now rewrite ring_keys_set_BTree, identifierSpace_set_BTree.
  - now apply fingers_fresh_set_BTree.
  - unfold CircularLinkedList.set_BTree.
    destruct (nth_error (CircularLinkedList.nodes r) p) as [x|] eqn:E; [|assumption].
    cbn [CircularLinkedList.nodes CircularLinkedList.with_nodes].
    apply Forall_set_at; assumption.
Qed.

End SetBTree.

Lemma BTree_at_inv order r p :
  3 <= order -> ring_inv order r -> BTree_inv order (CircularLinkedList.BTree_at r p).
Proof.
  intros Ho [_ _ _ H]. unfold CircularLinkedList.BTree_at.
  destruct (nth_error (CircularLinkedList.nodes r) p) as [x|] eqn:E.
  - rewrite Forall_forall in H. apply H. eapply nth_error_In; eauto.
  - now apply BTree_inv_new.
Qed.

Lemma fold_left_inv {A B : Type} (P : A -> Prop) (f : A -> B -> A) l :
  (forall a x, P a -> P (f a x)) -> forall a, P a -> P (fold_left f l a).
Proof.
  intros Hf. induction l as [|x l IH]; intros a Ha; [assumption|].
  simpl. apply IH. now apply Hf.
Qed.

Lemma ring_inv_updateRT order r :
  StronglySorted Z.lt (ring_keys r) ->
  Forall (fun k => 0 <= k < CircularLinkedList.identifierSpace r) (ring_keys r) ->
  Forall (fun n => BTree_inv order (CircularNode.BTreeroot n))
         (CircularLinkedList.nodes r) ->
  ring_inv order (CircularLinkedList.updateRT r).
Proof.
  intros H1 H2 H3. split.
  - now rewrite ring_keys_updateRT.
  - now rewrite ring_keys_updateRT.
  - apply fingers_fresh_updateRT.
  - rewrite <- Forall_map with (f := CircularNode.BTreeroot)
                               (P := BTree_inv order) in *.
    now rewrite BTreeroot_updateRT.
Qed.

Lemma identifierSpace_insert r v :
  CircularLinkedList.identifierSpace (CircularLinkedList.insert r v)
  = CircularLinkedList.identifierSpace r.
Proof.
  unfold CircularLinkedList.insert.
  destruct (CircularLinkedList.nodes r) as [|h rest]; [reflexivity|].
  destruct (v <? CircularNode.key h); reflexivity.
Qed.

Lemma ring_keys_insert_perm r v :
  Permutation (ring_keys (CircularLinkedList.insert r v)) (v :: ring_keys r).
Proof.
  destruct (insert_nodes_perm r v) as (x & Hk & _ & Hp).
  unfold ring_keys. rewrite Hp. simpl. now rewrite Hk.
Qed.

Section Ops.

Variable order : Z.
Hypothesis Horder : 3 <= order.

Lemma insert_pre r v :
  ring_inv order r -> ~ In v (ring_keys r) ->
  0 <= v < CircularLinkedList.identifierSpace r ->
  ring_inv order (CircularLinkedList.updateRT (CircularLinkedList.insert r v)).
Proof.
  intros [H1 H2 H3 H4] Hnin Hv. apply ring_inv_updateRT.
  - now apply insert_sorted.
  - rewrite identifierSpace_insert.
    eapply Permutation_Forall; [symmetry; apply ring_keys_insert_perm|].
    now constructor.
  - destruct (insert_nodes_perm r v) as (x & _ & Hb & Hp).
    eapply Permutation_Forall; [symmetry; exact Hp|].
    constructor; [|assumption]. rewrite Hb. now apply BTree_inv_new.
Qed.

Lemma Traverse_insert_inv r prev :
  ring_inv order r ->
  ring_inv order (CircularLinkedList.Traverse_insert r prev order).
Proof.
  intros H. unfold CircularLinkedList.Traverse_insert.
  destruct (BTree.root _) as [rootnode|]; [|assumption].
  apply fold_left_inv; [|assumption].
  intros a x Ha. apply ring_inv_set_BTree.
  - apply ring_inv_set_BTree; [assumption|].
    apply insertHelper_inv; [assumption|]. now apply BTree_at_inv.
  - apply deleteHelper_inv; [assumption|]. apply BTree_at_inv; [assumption|].
    apply ring_inv_set_BTree; [assumption|].
    apply insertHelper_inv; [assumption|]. now apply BTree_at_inv.
Qed.

Lemma Traverse_delete_inv r source destination :
  ring_inv order r ->
  ring_inv order (fst (CircularLinkedList.Traverse_delete r source destination order)).
Proof.
  intros H. unfold CircularLinkedList.Traverse_delete.
  destruct (BTree.root _) as [rootnode|]; [|assumption].
  apply (fold_left_inv (fun st => ring_inv order (fst st))); [|assumption].
  intros [a rej] x Ha. cbn [fst] in *.
  destruct (BTree.insertHelper _ x order) as [b dup] eqn:E. cbn [fst].
  apply ring_inv_set_BTree; [assumption|].
  replace b with (fst (BTree.insertHelper (CircularLinkedList.BTree_at a destination)
                                          x order)) by now rewrite E.
  apply insertHelper_inv; [assumption|]. now apply BTree_at_inv.
Qed.

Lemma insertAfter_inv r v :
  ring_inv order r ->
  ring_inv order (fst (CircularLinkedList.insertAfter r v order)).
Proof.
  intros H. unfold CircularLinkedList.insertAfter.
  destruct (CircularLinkedList.search r v) eqn:Es; [assumption|].
  destruct ((v <? 0) || (CircularLinkedList.identifierSpace r <=? v)) eqn:Er;
    [assumption|].
  apply orb_false_iff in Er. destruct Er as [Er1 Er2].
  apply Z.ltb_ge in Er1. apply Z.leb_gt in Er2. cbn [fst].
  assert (Hnin : ~ In v (ring_keys r)).
  { intros Hin. apply search_true_iff in Hin. congruence. }
  pose proof (insert_pre r v H Hnin ltac:(lia)) as H1.
  destruct (CircularLinkedList.SearchNewMachine _ v); [|assumption].
  destruct (1 <? _)%nat; [|assumption].
  now apply Traverse_insert_inv.
Qed.

Lemma deletekey_inv r v :
  ring_inv order r ->
  ring_inv order (fst (CircularLinkedList.deletekey r v order)).
Proof.
  intros H. unfold CircularLinkedList.deletekey.
  destruct (CircularLinkedList.nodes r) as [|x l] eqn:En; [assumption|].
  clear En x l.
  set (current := match CircularLinkedList.first_pos r _ with
                  | Some p => p
                  | None => O
                  end).
  destruct (negb (CircularLinkedList.key_at r current =? v)); [assumption|].
  cbn [fst].
  set (r1 := if negb _ then _ else r).
  assert (H1 : ring_inv order r1).
  { unfold r1. destruct (negb _); [|assumption]. now apply Traverse_delete_inv. }
  destruct H1 as [S1 S2 S3 S4].
  set (r2 := CircularLinkedList.with_nodes r1 _).
  assert (K2 : ring_keys r2 = remove_at current (ring_keys r1)).
  { unfold r2, ring_keys. cbn [CircularLinkedList.nodes CircularLinkedList.with_nodes].
    apply map_remove_at. }
  assert (T1 : StronglySorted Z.lt (ring_keys r2)).
  { rewrite K2. now apply StronglySorted_remove_at. }
  assert (T2 : Forall (fun k => 0 <= k < CircularLinkedList.identifierSpace r2)
                      (ring_keys r2)).
  { rewrite K2. now apply Forall_remove_at. }
  assert (T4 : Forall (fun n => BTree_inv order (CircularNode.BTreeroot n))
                      (CircularLinkedList.nodes r2)).
  { unfold r2. cbn [CircularLinkedList.nodes CircularLinkedList.with_nodes].
    now apply Forall_remove_at. }
  destruct (CircularLinkedList.nodes r2) eqn:E2.
  - split; [exact T1|exact T2| |]; try unfold fingers_fresh;
      rewrite E2; constructor.
  - rewrite <- E2 in T4. now apply ring_inv_updateRT.
Qed.

Lemma InsertFileToTree_inv r machineKey fileKey path :
  ring_inv order r ->
  ring_inv order
    (fst (CircularLinkedList.InsertFileToTree r machineKey fileKey path order)).
Proof.
  intros H. unfold CircularLinkedList.InsertFileToTree.
  destruct (CircularLinkedList.nodes r); [assumption|].
  destruct (negb _); [assumption|].
  destruct (CircularLinkedList.routeToKey r machineKey fileKey) as [p| |];
    try assumption.
  destruct p; [assumption|].
  destruct (CircularLinkedList.findMachineById _ _); [|assumption].
  destruct (BTree.searchFile _ _); [assumption|].
  cbn [fst]. apply ring_inv_set_BTree; [assumption|].
  apply insertHelper_inv; [assumption|]. now apply BTree_at_inv.
Qed.

Lemma DeleteFileFromTree_inv r machineKey fileKey :
  ring_inv order r ->
  ring_inv order (fst (CircularLinkedList.DeleteFileFromTree r machineKey fileKey)).
Proof.
  intros H. unfold CircularLinkedList.DeleteFileFromTree.
  destruct (CircularLinkedList.nodes r); [assumption|].
  destruct (CircularLinkedList.routeToKey r machineKey fileKey) as [p| |];
    try assumption.
  destruct p; [assumption|].
  destruct (CircularLinkedList.findMachineById _ _); [|assumption].
  destruct (BTree.findFile _ _); [|assumption].
  cbn [fst]. apply ring_inv_set_BTree; [assumption|].
  apply deleteHelper_inv; [assumption|]. now apply BTree_at_inv.
Qed.

End Ops.

(** ** The facade keeps the invariant *)

Lemma ipfs_inv_new numBits btreeOrder :
  3 <= btreeOrder <= 100 -> ipfs_inv (IPFS.new numBits btreeOrder).
Proof.
  intros Ho. unfold IPFS.new.
  set (b1 := if numBits <? 1 then 1 else numBits).
  set (b2 := if 31 <? b1 then 31 else b1).
  assert (Hb : 1 <= b2 <= 31).
  { unfold b2, b1. destruct (Z.ltb_spec numBits 1);
      match goal with |- context [31 <? ?x] => destruct (Z.ltb_spec 31 x) end; lia. }
  split; cbn [IPFS.order IPFS.bits IPFS.identifierSpace IPFS.C]; auto.
  - now rewrite Z.shiftl_1_l.
  - split; cbn; constructor.
Qed.

Lemma ipfs_inv_with_C s c :
  ipfs_inv s ->
  CircularLinkedList.identifierSpace c = IPFS.identifierSpace s ->
  ring_inv (IPFS.order s) c ->
  ipfs_inv (IPFS.with_C s c).
Proof.
  intros [H1 H2 H3 H4 H5] Hc Hr. split; assumption.
Qed.

Lemma identifierSpace_Traverse_insert r prev order :
  CircularLinkedList.identifierSpace (CircularLinkedList.Traverse_insert r prev order)
  = CircularLinkedList.identifierSpace r.
Proof.
  unfold CircularLinkedList.Traverse_insert.
  destruct (BTree.root _); [|reflexivity].
  apply (fold_left_inv (fun a => CircularLinkedList.identifierSpace a
                                 = CircularLinkedList.identifierSpace r));
    [|reflexivity].
  intros a x Ha. now rewrite !identifierSpace_set_BTree.
Qed.

Lemma identifierSpace_Traverse_delete r s d order :
  CircularLinkedList.identifierSpace
    (fst (CircularLinkedList.Traverse_delete r s d order))
  = CircularLinkedList.identifierSpace r.
Proof.
  unfold CircularLinkedList.Traverse_delete.
  destruct (BTree.root _); [|reflexivity].
  apply (fold_left_inv (fun a => CircularLinkedList.identifierSpace (fst a)
                                 = CircularLinkedList.identifierSpace r));
    [|reflexivity].
  intros [a rej] x Ha. destruct (BTree.insertHelper _ x order). cbn [fst] in *.
  now rewrite identifierSpace_set_BTree.
Qed.

Lemma identifierSpace_insertAfter r v order :
  CircularLinkedList.identifierSpace (fst (CircularLinkedList.insertAfter r v order))
  = CircularLinkedList.identifierSpace r.
Proof.
  unfold CircularLinkedList.insertAfter.
  destruct (CircularLinkedList.search r v); [reflexivity|].
  destruct (_ || _); [reflexivity|]. cbn [fst].
  destruct (CircularLinkedList.SearchNewMachine _ v);
    [destruct (1 <? _)%nat; [rewrite identifierSpace_Traverse_insert|]|];
    now rewrite identifierSpace_updateRT, identifierSpace_insert.
Qed.

Lemma identifierSpace_deletekey r v order :
  CircularLinkedList.identifierSpace (fst (CircularLinkedList.deletekey r v order))
  = CircularLinkedList.identifierSpace r.
Proof.
  unfold CircularLinkedList.deletekey.
  destruct (CircularLinkedList.nodes r); [reflexivity|].
  destruct (negb (_ =? v)); [reflexivity|]. cbn [fst].
  match goal with |- context [CircularLinkedList.with_nodes ?a ?b] =>
    set (r2 := CircularLinkedList.with_nodes a b) end.
  assert (E : CircularLinkedList.identifierSpace r2
              = CircularLinkedList.identifierSpace r).
  { unfold r2. cbn. destruct (negb _); [|reflexivity].
    apply identifierSpace_Traverse_delete. }
  destruct (CircularLinkedList.nodes r2); [assumption|].
  now rewrite identifierSpace_updateRT.
Qed.

Lemma identifierSpace_InsertFileToTree r m k p order :
  CircularLinkedList.identifierSpace
    (fst (CircularLinkedList.InsertFileToTree r m k p order))
  = CircularLinkedList.identifierSpace r.
Proof.
  unfold CircularLinkedList.InsertFileToTree.
  destruct (CircularLinkedList.nodes r); [reflexivity|].
  destruct (negb _); [reflexivity|].
  destruct (CircularLinkedList.routeToKey r m k) as [path| |]; try reflexivity.
  destruct path; [reflexivity|].
  destruct (CircularLinkedList.findMachineById _ _); [|reflexivity].
  destruct (BTree.searchFile _ _); [reflexivity|].
  cbn [fst]. apply identifierSpace_set_BTree.
Qed.

Lemma identifierSpace_DeleteFileFromTree r m k :
  CircularLinkedList.identifierSpace
    (fst (CircularLinkedList.DeleteFileFromTree r m k))
  = CircularLinkedList.identifierSpace r.
Proof.
  unfold CircularLinkedList.DeleteFileFromTree.
  destruct (CircularLinkedList.nodes r); [reflexivity|].
  destruct (CircularLinkedList.routeToKey r m k) as [path| |]; try reflexivity.
  destruct path; [reflexivity|].
  destruct (CircularLinkedList.findMachineById _ _); [|reflexivity].
  destruct (BTree.findFile _ _); [|reflexivity].
  cbn [fst]. apply identifierSpace_set_BTree.
Qed.

Lemma InsertMachine_inv s id :
  ipfs_inv s -> ipfs_inv (fst (IPFS.InsertMachine s id (IPFS.order s))).
Proof.
  intros H. unfold IPFS.InsertMachine.
  destruct (negb _); [assumption|].
  destruct (CircularLinkedList.insertAfter _ _ _) as [c o] eqn:E. cbn [fst].
  assert (Ec : c = fst (CircularLinkedList.insertAfter (IPFS.C s) id (IPFS.order s)))
    by now rewrite E.
  subst c. apply ipfs_inv_with_C; [assumption| |].
  - rewrite identifierSpace_insertAfter. apply H.
  - apply insertAfter_inv; apply H.
Qed.

Lemma DeleteMachine_inv s id :
  ipfs_inv s -> ipfs_inv (fst (IPFS.DeleteMachine s id (IPFS.order s))).
Proof.
  intros H. unfold IPFS.DeleteMachine.
  destruct (CircularLinkedList.deletekey _ _ _) as [c o] eqn:E. cbn [fst].
  assert (Ec : c = fst (CircularLinkedList.deletekey (IPFS.C s) id (IPFS.order s)))
    by now rewrite E.
  subst c. apply ipfs_inv_with_C; [assumption| |].
  - rewrite identifierSpace_deletekey. apply H.
  - apply deletekey_inv; apply H.
Qed.

Lemma insertFile_inv s m k p :
  ipfs_inv s -> ipfs_inv (fst (IPFS.insertFile s m k p (IPFS.order s))).
Proof.
  intros H. unfold IPFS.insertFile.
  destruct (CircularLinkedList.InsertFileToTree _ _ _ _ _) as [c o] eqn:E. cbn [fst].
  assert (Ec : c = fst (CircularLinkedList.InsertFileToTree (IPFS.C s) m k p
                                                            (IPFS.order s)))
    by now rewrite E.
  subst c. apply ipfs_inv_with_C; [assumption| |].
  - rewrite identifierSpace_InsertFileToTree. apply H.
  - apply InsertFileToTree_inv; apply H.
Qed.

Lemma DeleteFile_inv s m k :
  ipfs_inv s -> ipfs_inv (fst (IPFS.DeleteFile s m k)).
Proof.
  intros H. unfold IPFS.DeleteFile.
  destruct (CircularLinkedList.DeleteFileFromTree _ _ _) as [c o] eqn:E. cbn [fst].
  assert (Ec : c = fst (CircularLinkedList.DeleteFileFromTree (IPFS.C s) m k))
    by now rewrite E.
  subst c. apply ipfs_inv_with_C; [assumption| |].
  - rewrite identifierSpace_DeleteFileFromTree. apply H.
  - apply DeleteFileFromTree_inv; apply H.
Qed.

(** The bulk set-up, on distinct IDs none of which is in the ring. *)
Lemma InsertMachines_fold s order ids :
  forall c skipped,
    NoDup ids -> (forall id, In id ids -> ~ In id (ring_keys c)) ->
    CircularLinkedList.identifierSpace c = IPFS.identifierSpace s ->
    StronglySorted Z.lt (ring_keys c) ->
    Forall (fun k => 0 <= k < CircularLinkedList.identifierSpace c) (ring_keys c) ->
    Forall (fun n => BTree_inv order (CircularNode.BTreeroot n))
           (CircularLinkedList.nodes c) ->
    let c' := fst (fold_left (fun '(c, skipped) id =>
                                if IPFS.isValidMachineId s id
                                then (CircularLinkedList.insert c id, skipped)
                                else (c, skipped ++ [id]))
                             ids (c, skipped)) in
    CircularLinkedList.identifierSpace c' = IPFS.identifierSpace s /\
    StronglySorted Z.lt (ring_keys c') /\
    Forall (fun k => 0 <= k < CircularLinkedList.identifierSpace c') (ring_keys c') /\
    Forall (fun n => BTree_inv order (CircularNode.BTreeroot n))
           (CircularLinkedList.nodes c').
Proof.
  induction ids as [|id ids IH]; intros c skipped Hnd Hnin Hs H1 H2 H3; [simpl; auto|].
  cbn [fold_left]. inversion Hnd as [|? ? Hid Hnd']; subst.
  destruct (IPFS.isValidMachineId s id) eqn:Ev.
  - apply IH; auto.
    + intros id' Hin Hk.
      eapply Permutation_in in Hk; [|apply ring_keys_insert_perm].
      destruct Hk as [<-|Hk]; [contradiction|].
      apply (Hnin id'); [now right|assumption].
    + now rewrite identifierSpace_insert.
    + apply insert_sorted; [assumption|]. apply Hnin. now left.
    + rewrite identifierSpace_insert.
      eapply Permutation_Forall; [symmetry; apply ring_keys_insert_perm|].
      constructor; [|assumption].
      unfold IPFS.isValidMachineId in Ev. apply andb_true_iff in Ev.
      rewrite Z.leb_le, Z.ltb_lt in Ev. lia.
    + destruct (insert_nodes_perm c id) as (x & _ & Hb & Hp).
      eapply Permutation_Forall; [symmetry; exact Hp|].
      constructor; [|assumption]. rewrite Hb. split; [exists O; reflexivity|].
      simpl. now apply sorted_nil.
  - apply IH; auto. intros id' Hin. apply Hnin. now right.
Qed.

Lemma InsertMachines_new_inv numBits btreeOrder ids :
  3 <= btreeOrder <= 100 -> NoDup ids ->
  ipfs_inv (fst (IPFS.InsertMachines (IPFS.new numBits btreeOrder) ids)).
Proof.
  intros Ho Hnd. pose proof (ipfs_inv_new numBits btreeOrder Ho) as H.
  set (s := IPFS.new numBits btreeOrder) in *.
  unfold IPFS.InsertMachines.
  pose proof (InsertMachines_fold s (IPFS.order s) ids (IPFS.C s) [] Hnd) as F.
  destruct (fold_left _ ids (IPFS.C s, [])) as [c skipped]. cbn [fst] in *.
  destruct F as (F1 & F2 & F3 & F4).
  - intros id _ [].
  - apply H.
  - constructor.
  - constructor.
  - constructor.
  - apply ipfs_inv_with_C; [assumption| |].
    + now rewrite identifierSpace_updateRT.
    + now apply ring_inv_updateRT.
Qed.

Lemma reachable_inv s : reachable s -> ipfs_inv s.
Proof.
  induction 1.
  - now apply ipfs_inv_new.
  - now apply InsertMachines_new_inv.
  - now apply InsertMachine_inv.
  - now apply DeleteMachine_inv.
  - now apply insertFile_inv.
  - now apply DeleteFile_inv.
Qed.

(** ** The arithmetic of the identifier space *)

Lemma wrap_int_small z : - 2 ^ 31 <= z < 2 ^ 31 -> wrap_int z = z.
Proof.
  intros H. unfold wrap_int. rewrite Z.mod_small; lia.
Qed.

Lemma pow2_le_30 b : 0 <= b <= 30 -> 1 <= 2 ^ b <= 2 ^ 30.
Proof.
  intros H. split.
  - pose proof (Z.pow_pos_nonneg 2 b). lia.
  - apply Z.pow_le_mono_r; lia.
Qed.

(** A positive identifier space is [2 ^ bits], with at most 30 bits. *)
Lemma space_positive b :
  1 <= b <= 31 -> 0 < wrap_int (2 ^ b) -> b <= 30 /\ wrap_int (2 ^ b) = 2 ^ b.
Proof.
  intros Hb Hpos. destruct (Z.eq_dec b 31) as [->|Hne].
  - exfalso. vm_compute in Hpos. discriminate.
  - split; [lia|]. apply wrap_int_small.
    pose proof (pow2_le_30 b ltac:(lia)). lia.
Qed.

Lemma numEntries_pow2 b :
  1 <= b -> DoublyLinkedList.numEntries (2 ^ b) = Z.to_nat b.
Proof.
  intros Hb. unfold DoublyLinkedList.numEntries.
  rewrite Z.log2_pow2 by lia. destruct (Z.ltb_spec b 1); [lia|reflexivity].
Qed.

(** The target that [updateRT] computes for entry [i]. *)
Lemma finger_target b k i :
  1 <= b <= 30 -> 0 <= k < 2 ^ b -> (i < Z.to_nat b)%nat ->
  Z.rem (wrap_int (k + wrap_int (Z.shiftl 1 (Z.of_nat i)))) (2 ^ b)
  = (k + 2 ^ Z.of_nat i) mod 2 ^ b.
Proof.
  intros Hb Hk Hi. rewrite Z.shiftl_1_l.
  pose proof (pow2_le_30 b ltac:(lia)) as Hpb.
  pose proof (pow2_le_30 (Z.of_nat i) ltac:(lia)) as Hpi.
  rewrite (wrap_int_small (2 ^ Z.of_nat i)) by lia.
  rewrite wrap_int_small by lia.
  apply Z.rem_mod_nonneg; lia.
Qed.

(** ** Rebuilt finger tables are correct *)

Lemma fingers_fresh_correct r b :
  1 <= b <= 30 -> CircularLinkedList.identifierSpace r = 2 ^ b ->
  StronglySorted Z.lt (ring_keys r) ->
  Forall (fun k => 0 <= k < CircularLinkedList.identifierSpace r) (ring_keys r) ->
  fingers_fresh r -> fingers_correct r b.
Proof.
  intros Hb Hspace Hsorted Hrange Hfresh.
  unfold fingers_correct, fingers_fresh in *. rewrite Forall_forall in *.
  intros x Hx. rewrite (Hfresh x Hx).
  assert (Hn : (1 <= length (CircularLinkedList.nodes r))%nat).
  { destruct (CircularLinkedList.nodes r); [destruct Hx|simpl; lia]. }
  assert (Hk : 0 <= CircularNode.key x < 2 ^ b).
  { rewrite <- Hspace. apply Hrange. unfold ring_keys. now apply in_map. }
  rewrite length_finger_table, Hspace, numEntries_pow2 by lia.
  split; [reflexivity|]. intros i Hi.
  rewrite finger_table_nth by (rewrite Hspace, numEntries_pow2; lia).
  eexists. split; [reflexivity|]. cbv zeta.
  rewrite Hspace, finger_target by assumption.
  split; [reflexivity|]. cbn [DoublyNode.m DoublyNode.machinekey DoublyNode.filekey].
  rewrite (succ_some r Hn).
  exists (succ_pos r ((CircularNode.key x + 2 ^ Z.of_nat i) mod 2 ^ b)).
  destruct (succ_pos_spec r Hn ((CircularNode.key x + 2 ^ Z.of_nat i) mod 2 ^ b))
    as [HR _].
  repeat split; auto. now apply succ_is_successor. now apply succ_is_successor.
Qed.

Lemma ipfs_inv_space s :
  ipfs_inv s -> CircularLinkedList.nodes (IPFS.C s) <> [] ->
  1 <= IPFS.bits s <= 30 /\
  CircularLinkedList.identifierSpace (IPFS.C s) = 2 ^ IPFS.bits s.
Proof.
  intros [H1 H2 H3 H4 H5] Hne.
  assert (Hpos : 0 < IPFS.identifierSpace s).
  { destruct H5 as [_ Hr _ _]. unfold ring_keys in Hr.
    destruct (CircularLinkedList.nodes (IPFS.C s)) as [|x l]; [congruence|].
    inversion Hr; subst. lia. }
  rewrite H3 in Hpos. destruct (space_positive _ H2 Hpos) as [Hb E].
  split; [lia|]. now rewrite H4, H3.
Qed.

Lemma ipfs_inv_fingers s : ipfs_inv s -> fingers_correct (IPFS.C s) (IPFS.bits s).
Proof.
  intros H.
  destruct (CircularLinkedList.nodes (IPFS.C s)) as [|x l] eqn:En.
  { unfold fingers_correct. rewrite En. constructor. }
  destruct (ipfs_inv_space s H) as [Hb Hs]; [congruence|].
  apply fingers_fresh_correct; auto; apply H.
Qed.

(** ** Routing on a ring that satisfies the invariant *)

Lemma ring_inv_nonempty order r k :
  ring_inv order r -> In k (ring_keys r) ->
  (1 <= length (CircularLinkedList.nodes r))%nat.
Proof.
  intros _ Hin. rewrite <- (length_ring_keys r).
  destruct (ring_keys r); [destruct Hin|simpl; lia].
Qed.

Lemma routeToKey_sound order r start key :
  ring_inv order r -> In start (ring_keys r) ->
  exists path,
    CircularLinkedList.routeToKey r start key = Ok path /\
    path <> [] /\
    last path 0 = CircularLinkedList.key_at r (succ_pos r key).
Proof.
  intros H Hin. unfold CircularLinkedList.routeToKey.
  apply routeToKey_fuel_sound; auto.
  - apply H.
  - apply fingers_fresh_consistent, H.
Qed.

Lemma routeToKey_fuel_mono r start key fuel fuel' path :
  CircularLinkedList.routeToKey_fuel fuel r start key = Ok path ->
  (fuel <= fuel')%nat ->
  CircularLinkedList.routeToKey_fuel fuel' r start key = Ok path.
Proof.
  unfold CircularLinkedList.routeToKey_fuel. intros H Hle.
  destruct (CircularLinkedList.nodes r); [assumption|].
  destruct (negb _); [assumption|].
  eapply route_loop_mono; eauto.
Qed.

(** Every operation that changes the membership ends with [updateRT], and
    rebuilt fingers point into the ring, whatever the IDs are. *)
Lemma fingers_live_updateRT r : fingers_live (CircularLinkedList.updateRT r).
Proof.
  apply fingers_consistent_live, fingers_fresh_consistent, fingers_fresh_updateRT.
Qed.

Lemma reachable_fingers_live s : reachable s -> fingers_live (IPFS.C s).
Proof.
  intros Hr. apply fingers_consistent_live, fingers_fresh_consistent.
  apply (reachable_inv s Hr).
Qed.

(** ** The shape of a tree, node by node *)

Lemma shape_descendants_full MX MN h :
  forall n, shape MX MN h n ->
            Forall (fun c => MAX c = MX /\ MIN c = MN /\
                             length (child c) = S (count c) /\
                             MN <= Z.of_nat (count c) <= MX) (descendants n).
Proof.
  induction h as [|h IH]; intros n Hs; apply shape_unfold in Hs;
    destruct n as [mx mn vals cs]; cbn [MAX MIN value child] in Hs;
    destruct Hs as (_ & _ & _ & Hf); cbn [descendants];
    rewrite Forall_forall in *; intros c Hc;
    apply in_flat_map in Hc; destruct Hc as (o & Ho & Hc);
    specialize (Hf o Ho).
  - simpl in Hf. subst o. destruct Hc.
  - destruct o as [c0|]; [|contradiction]. destruct Hf as [Hs0 Hc0].
    destruct Hc as [<-|Hc].
    + pose proof Hs0 as Hs1. apply shape_unfold in Hs1. tauto.
    + specialize (IH c0 Hs0). rewrite Forall_forall in IH. auto.
Qed.

Lemma canonical_min_spec t : 3 <= t -> MIN_of_order t = canonical_min t.
Proof.
  intros Ht. rewrite MIN_of_order_canonical by assumption.
  unfold canonical_min, ceil_half. f_equal.
  pose proof (Z.div_mod t 2 ltac:(lia)). pose proof (Z.mod_pos_bound t 2 ltac:(lia)).
  pose proof (Z.div_mod (t + 1) 2 ltac:(lia)).
  pose proof (Z.mod_pos_bound (t + 1) 2 ltac:(lia)). lia.
Qed.

Lemma MAX_of_order_spec t : MAX_of_order t = t - 1.
Proof. reflexivity. Qed.

(** ** The bulk set-up, ID by ID *)

Lemma InsertMachines_fold_spec s ids :
  forall c skipped,
    let res := fold_left (fun '(c, skipped) id =>
                            if IPFS.isValidMachineId s id
                            then (CircularLinkedList.insert c id, skipped)
                            else (c, skipped ++ [id]))
                         ids (c, skipped) in
    snd res = skipped ++ filter (fun id => negb (IPFS.isValidMachineId s id)) ids /\
    Permutation (ring_keys (fst res))
                (filter (IPFS.isValidMachineId s) ids ++ ring_keys c).
Proof.
  induction ids as [|id ids IH]; intros c skipped; cbn [fold_left filter].
  - cbn [fst snd]. now rewrite app_nil_r.
  - destruct (IPFS.isValidMachineId s id) eqn:Ev; cbn [negb].
    + destruct (IH (CircularLinkedList.insert c id) skipped) as [H1 H2].
      split; [assumption|]. rewrite H2, ring_keys_insert_perm.
      cbn [app]. symmetry. apply Permutation_middle.
    + destruct (IH c (skipped ++ [id])) as [H1 H2].
      split; [|assumption]. now rewrite H1, <- app_assoc.
Qed.

Lemma with_C_same s : IPFS.with_C s (IPFS.C s) = s.
Proof. now destruct s. Qed.

(** ** Records on the move *)

Lemma sorted_NoDup_keys l : sorted l -> NoDup (keys l).
Proof.
  unfold sorted. generalize (keys l). intros K H.
  induction H as [|x K Hs IH Hf]; constructor; [|assumption].
  intros Hin. rewrite Forall_forall in Hf. specialize (Hf x Hin). lia.
Qed.

Lemma existsb_has_key_perm k l l' :
  Permutation l l' -> existsb (has_key k) l = existsb (has_key k) l'.
Proof.
  intros Hp. apply eq_true_iff_eq. rewrite !existsb_has_key. unfold keys.
  split; apply Permutation_in; [|symmetry]; now apply Permutation_map.
Qed.

Lemma existsb_has_key_cons k x l :
  existsb (has_key k) (x :: l) = (FileNode.key x =? k) || existsb (has_key k) l.
Proof. reflexivity. Qed.

Section Transfers.

Variable order : Z.
Hypothesis Horder : 3 <= order.

(** *** A put, then a get *)

Lemma put_get r start start' k path m :
  ring_inv order r -> In start' (ring_keys r) ->
  snd (CircularLinkedList.InsertFileToTree r start k path order) = PutStored m ->
  exists p,
    CircularLinkedList.SearchFile_WithMachine
      (fst (CircularLinkedList.InsertFileToTree r start k path order)) start' k
    = Some (p, Some (FileNode.mk k path)) /\
    CircularLinkedList.key_at
      (fst (CircularLinkedList.InsertFileToTree r start k path order)) p = m /\
    is_successor (ring_keys r) k m.
Proof.
  intros Hinv Hin'. pose proof (ring_inv_nonempty _ _ _ Hinv Hin') as Hn.
  pose proof Hinv as [Hsorted _ _ _].
  destruct (succ_pos_spec r Hn k) as [HR _].
  set (R := succ_pos r k) in *.
  unfold CircularLinkedList.InsertFileToTree.
  destruct (CircularLinkedList.nodes r) as [|x0 l0] eqn:En; [discriminate|].
  rewrite <- En in *. clear En x0 l0.
  destruct (CircularLinkedList.search r start) eqn:Es; [|discriminate].
  apply search_true_iff in Es. cbn [negb].
  destruct (routeToKey_sound order r start k Hinv Es) as (rp & E1 & E2 & E3).
  rewrite E1. destruct rp as [|a rp]; [congruence|]. rewrite E3. fold R.
  rewrite (findMachineById_key_at r Hsorted R HR).
  destruct (BTree.searchFile (CircularLinkedList.BTree_at r R) k) eqn:Esf;
    [discriminate|].
  cbn [fst snd]. intros Em. injection Em as <-.
  set (b := CircularLinkedList.BTree_at r R) in *.
  set (b' := fst (BTree.insertHelper b (FileNode.mk k path) order)).
  set (r' := CircularLinkedList.set_BTree r R b').
  assert (Hb : BTree_inv order b) by now apply BTree_at_inv.
  assert (Hb' : BTree_inv order b') by now apply insertHelper_inv.
  assert (Hinv' : ring_inv order r') by now apply ring_inv_set_BTree.
  assert (Hk : ring_keys r' = ring_keys r) by apply ring_keys_set_BTree.
  assert (Hs : CircularLinkedList.identifierSpace r'
               = CircularLinkedList.identifierSpace r)
    by apply identifierSpace_set_BTree.
  assert (Hka : forall p, CircularLinkedList.key_at r' p
                          = CircularLinkedList.key_at r p)
    by (intros p; now apply same_key_at).
  assert (HR' : succ_pos r' k = R).
  { unfold succ_pos. now rewrite (same_succ r r' Hk). }
  assert (Hlen : length (CircularLinkedList.nodes r')
                 = length (CircularLinkedList.nodes r))
    by apply length_set_BTree.
  exists R. split; [|split; [apply Hka|now apply succ_is_successor]].
  unfold CircularLinkedList.SearchFile_WithMachine.
  destruct (CircularLinkedList.nodes r') as [|x0 l0] eqn:En';
    [simpl in Hlen; lia|].
  rewrite <- En' in *. clear En' x0 l0.
  assert (Hin'' : In start' (ring_keys r')) by now rewrite Hk.
  destruct (routeToKey_sound order r' start' k Hinv' Hin'') as (rp' & F1 & F2 & F3).
  rewrite F1. destruct rp' as [|a' rp']; [congruence|]. rewrite F3, HR'.
  destruct Hinv' as [Hsorted' _ _ _].
  rewrite (findMachineById_key_at r' Hsorted' R) by lia.
  assert (Eb : CircularLinkedList.BTree_at r' R = b')
    by now apply BTree_at_set_BTree_eq.
  rewrite Eb.
  rewrite (searchFile_spec order Horder b k Hb) in Esf.
  destruct (insertHelper_new order Horder b (FileNode.mk k path) Hb Esf)
    as [_ Hperm].
  fold b' in Hperm.
  rewrite (searchFile_spec order Horder b' k Hb').
  rewrite (existsb_has_key_perm k _ _ Hperm), existsb_has_key_cons.
  cbn [FileNode.key]. rewrite Z.eqb_refl. cbn [orb].
  pose proof (findFile_spec order Horder b' k Hb') as Hf.
  destruct (BTree.findFile b' k) as [f|].
  - destruct Hf as [Hfin Hfk]. do 3 f_equal.
    apply (sorted_key_inj (contents b')); auto.
    + now apply (BTree_inv_sorted order).
    + eapply Permutation_in; [symmetry; exact Hperm|]. now left.
  - rewrite (existsb_has_key_perm k _ _ Hperm), existsb_has_key_cons in Hf.
    cbn [FileNode.key] in Hf. rewrite Z.eqb_refl in Hf. discriminate.
Qed.

(** *** The hand-off of a leave *)

(** [Traverse_delete], record by record: a record whose key the
    destination holds is skipped with the duplicate message and the walk
    goes on with the next one. *)
Lemma Traverse_delete_fold destination files :
  forall r rejected,
    NoDup (keys files) -> ring_inv order r ->
    (destination < length (CircularLinkedList.nodes r))%nat ->
    let held f := existsb (has_key (FileNode.key f))
                          (contents (CircularLinkedList.BTree_at r destination)) in
    let res := fold_left
                 (fun '(r, rejected) file =>
                    let '(b, dup) :=
                      BTree.insertHelper (CircularLinkedList.BTree_at r destination)
                                         file order in
                    (CircularLinkedList.set_BTree r destination b,
                     if dup then rejected ++ [file] else rejected))
                 files (r, rejected) in
    snd res = rejected ++ filter held files /\
    Permutation (contents (CircularLinkedList.BTree_at (fst res) destination))
                (filter (fun f => negb (held f)) files
                 ++ contents (CircularLinkedList.BTree_at r destination)) /\
    (forall q, q <> destination ->
               CircularLinkedList.BTree_at (fst res) q
               = CircularLinkedList.BTree_at r q) /\
    ring_keys (fst res) = ring_keys r.
Proof.
  induction files as [|x files IH]; intros r rejected Hnd Hinv Hd held res.
  - subst res. cbn [fold_left fst snd filter app]. rewrite app_nil_r. auto.
  - subst res. cbn [fold_left].
    set (b := CircularLinkedList.BTree_at r destination) in *.
    assert (Hb : BTree_inv order b) by now apply BTree_at_inv.
    inversion Hnd as [|? ? Hx Hnd']; subst.
    cbn [filter]. destruct (held x) eqn:Eh; cbn [negb].
    + unfold held in Eh. rewrite (insertHelper_dup order Horder b x Hb Eh).
      set (r1 := CircularLinkedList.set_BTree r destination b).
      assert (E1 : CircularLinkedList.BTree_at r1 destination = b)
        by now apply BTree_at_set_BTree_eq.
      specialize (IH r1 (rejected ++ [x]) Hnd').
      cbv zeta in IH. rewrite E1 in IH.
      destruct IH as (I1 & I2 & I3 & I4).
      * now apply ring_inv_set_BTree.
      * unfold r1. now rewrite length_set_BTree.
      * split; [now rewrite I1, <- app_assoc|]. split; [exact I2|]. split.
        -- intros q Hq. rewrite I3 by assumption.
           now apply BTree_at_set_BTree_neq.
        -- rewrite I4. apply ring_keys_set_BTree.
    + unfold held in Eh.
      destruct (insertHelper_new order Horder b x Hb Eh) as [Hdup Hperm].
      pose proof (insertHelper_inv order Horder b x Hb) as Hb1.
      destruct (BTree.insertHelper b x order) as [b1 dup]. cbn [fst snd] in *.
      subst dup.
      set (r1 := CircularLinkedList.set_BTree r destination b1).
      assert (E1 : CircularLinkedList.BTree_at r1 destination = b1)
        by now apply BTree_at_set_BTree_eq.
      specialize (IH r1 rejected Hnd').
      cbv zeta in IH. rewrite E1 in IH.
      destruct IH as (I1 & I2 & I3 & I4).
      * now apply ring_inv_set_BTree.
      * unfold r1. now rewrite length_set_BTree.
      * assert (Hext : forall f, In f files ->
                                 existsb (has_key (FileNode.key f)) (contents b1)
                                 = held f).
        { intros f Hf. unfold held.
          rewrite (existsb_has_key_perm _ _ _ Hperm), existsb_has_key_cons.
          destruct (Z.eqb_spec (FileNode.key x) (FileNode.key f)) as [E|E];
            [|reflexivity].
          exfalso. apply Hx. rewrite E. unfold keys. now apply in_map. }
        rewrite (filter_ext_in _ held files Hext) in I1.
        rewrite (filter_ext_in _ (fun f => negb (held f)) files) in I2
          by (intros f Hf; now rewrite Hext).
        split; [exact I1|]. split; [|split].
        -- rewrite I2, Hperm. cbn [app]. symmetry. apply Permutation_middle.
        -- intros q Hq. rewrite I3 by assumption.
           now apply BTree_at_set_BTree_neq.
        -- rewrite I4. apply ring_keys_set_BTree.
Qed.

End Transfers.

(** The leave of a live machine is carried out. *)
Lemma deletekey_outcome r id order :
  In id (ring_keys r) ->
  snd (CircularLinkedList.deletekey r id order) = LeaveRemoved.
Proof.
  intros Hin. unfold CircularLinkedList.deletekey.
  destruct (In_key_at r id Hin) as (p & Hp & Ek).
  destruct (CircularLinkedList.nodes r) as [|x l] eqn:En; [simpl in Hp; lia|].
  rewrite <- En in *. clear En x l.
  destruct (CircularLinkedList.first_pos r _) as [q|] eqn:E.
  - apply first_pos_some in E. destruct E as (_ & Ht & _). rewrite Ht. reflexivity.
  - pose proof (first_pos_none r _ E p Hp) as Hf. cbv beta in Hf.
    rewrite Ek, Z.eqb_refl in Hf. discriminate.
Qed.

(** ** The hand-off of a join *)

Lemma shouldMove_iff p n k :
  CircularLinkedList.shouldMove p n k = true <-> in_interval p n k.
Proof.
  unfold CircularLinkedList.shouldMove, in_interval.
  destruct (p <? n); rewrite ?andb_true_iff, ?orb_true_iff, Z.ltb_lt, Z.leb_le;
    reflexivity.
Qed.

Lemma BTree_at_nth_error r p node :
  nth_error (CircularLinkedList.nodes r) p = Some node ->
  CircularLinkedList.BTree_at r p = CircularNode.BTreeroot node.
Proof. intros H. unfold CircularLinkedList.BTree_at. now rewrite H. Qed.

(** The tree of a machine, found by its ID. *)
Lemma BTree_of_In r node :
  StronglySorted Z.lt (ring_keys r) ->
  In node (CircularLinkedList.nodes r) ->
  BTree_of r (CircularNode.key node) = Some (CircularNode.BTreeroot node).
Proof.
  intros Hs Hin. destruct (In_nth_error _ _ Hin) as (p & Hp).
  assert (Hlt : (p < length (CircularLinkedList.nodes r))%nat).
  { apply nth_error_Some. congruence. }
  unfold BTree_of. rewrite (nth_error_key_at r p node Hp).
  rewrite (findMachineById_key_at r Hs p Hlt).
  now rewrite (BTree_at_nth_error r p node Hp).
Qed.

(** The machines after [insert] and [updateRT]: the new one, with an empty
    tree, and the old ones with their trees. *)
Lemma updateRT_insert_node r id q node1 :
  nth_error (CircularLinkedList.nodes
               (CircularLinkedList.updateRT (CircularLinkedList.insert r id))) q
  = Some node1 ->
  (CircularNode.key node1 = id /\
   CircularNode.BTreeroot node1 = BTree.new (CircularLinkedList.btreeOrder r)) \/
  (exists node0, In node0 (CircularLinkedList.nodes r) /\
                 CircularNode.key node0 = CircularNode.key node1 /\
                 CircularNode.BTreeroot node0 = CircularNode.BTreeroot node1).
Proof.
  intros H. apply nth_error_In in H. unfold CircularLinkedList.updateRT in H.
  cbn [CircularLinkedList.nodes CircularLinkedList.with_nodes] in H.
  apply in_map_iff in H. destruct H as (node0 & <- & Hin).
  destruct (insert_nodes_perm r id) as (newNode & Hk & Hb & Hp).
  eapply Permutation_in in Hin; [|exact Hp].
  destruct Hin as [<-|Hin]; [left|right; exists node0]; auto.
Qed.

Section Join.

Variable order : Z.
Hypothesis Horder : 3 <= order.

(** [Traverse_insert], record by record. *)
Lemma Traverse_insert_fold np sp toMove :
  forall r,
    ring_inv order r -> np <> sp ->
    (np < length (CircularLinkedList.nodes r))%nat ->
    (sp < length (CircularLinkedList.nodes r))%nat ->
    NoDup (keys toMove) ->
    (forall f, In f toMove ->
               In f (contents (CircularLinkedList.BTree_at r sp))) ->
    (forall f, In f toMove ->
               ~ In (FileNode.key f)
                    (keys (contents (CircularLinkedList.BTree_at r np)))) ->
    let r' := fold_left
                (fun r file =>
                   let r1 := CircularLinkedList.set_BTree r np
                               (fst (BTree.insertHelper
                                       (CircularLinkedList.BTree_at r np) file order)) in
                   CircularLinkedList.set_BTree r1 sp
                     (fst (BTree.deleteHelper (CircularLinkedList.BTree_at r1 sp)
                                              (FileNode.key file))))
                toMove r in
    ring_keys r' = ring_keys r /\
    (forall f, In f (contents (CircularLinkedList.BTree_at r' np)) <->
               In f toMove \/ In f (contents (CircularLinkedList.BTree_at r np))) /\
    (forall f, In f (contents (CircularLinkedList.BTree_at r' sp)) <->
               In f (contents (CircularLinkedList.BTree_at r sp)) /\
               ~ In (FileNode.key f) (keys toMove)) /\
    (forall q, q <> np -> q <> sp ->
               CircularLinkedList.BTree_at r' q = CircularLinkedList.BTree_at r q).
Proof.
  induction toMove as [|x toMove IH]; intros r Hinv Hne Hnp Hsp Hnd Hfrom Hnew r'.
  - subst r'. cbn [fold_left]. split; [reflexivity|]. split; [|split].
    + intros f. simpl. tauto.
    + intros f. simpl. tauto.
    + reflexivity.
  - subst r'. cbn [fold_left].
    set (bn := CircularLinkedList.BTree_at r np) in *.
    set (bs := CircularLinkedList.BTree_at r sp) in *.
    assert (Hbn : BTree_inv order bn) by now apply BTree_at_inv.
    assert (Hbs : BTree_inv order bs) by now apply BTree_at_inv.
    set (bn1 := fst (BTree.insertHelper bn x order)).
    set (r1 := CircularLinkedList.set_BTree r np bn1).
    assert (Hbn1 : BTree_inv order bn1) by now apply insertHelper_inv.
    assert (Hinv1 : ring_inv order r1) by now apply ring_inv_set_BTree.
    assert (E1 : CircularLinkedList.BTree_at r1 sp = bs).
    { unfold r1. rewrite BTree_at_set_BTree_neq; [reflexivity|congruence]. }
    rewrite E1.
    set (bs1 := fst (BTree.deleteHelper bs (FileNode.key x))).
    set (r2 := CircularLinkedList.set_BTree r1 sp bs1).
    assert (Hbs1 : BTree_inv order bs1) by now apply deleteHelper_inv.
    assert (Hinv2 : ring_inv order r2) by now apply ring_inv_set_BTree.
    assert (Hl1 : length (CircularLinkedList.nodes r1)
                  = length (CircularLinkedList.nodes r))
      by apply length_set_BTree.
    assert (Hl2 : length (CircularLinkedList.nodes r2)
                  = length (CircularLinkedList.nodes r))
      by (unfold r2; now rewrite length_set_BTree).
    assert (En : CircularLinkedList.BTree_at r2 np = bn1).
    { unfold r2. rewrite BTree_at_set_BTree_neq by assumption.
      now apply BTree_at_set_BTree_eq. }
    assert (Es : CircularLinkedList.BTree_at r2 sp = bs1).
    { unfold r2. apply BTree_at_set_BTree_eq. lia. }
    inversion Hnd as [|? ? Hx Hnd']; subst.
    assert (Hxn : existsb (has_key (FileNode.key x)) (contents bn) = false).
    { destruct (existsb _ _) eqn:E; [|reflexivity].
      apply existsb_has_key in E. exfalso. apply (Hnew x); [now left|assumption]. }
    destruct (insertHelper_new order Horder bn x Hbn Hxn) as [_ Hpn]. fold bn1 in Hpn.
    destruct (deleteHelper_spec order Horder bs (FileNode.key x) Hbs) as [Hds _].
    fold bs1 in Hds.
    assert (Hkx : forall f, In f toMove -> FileNode.key f <> FileNode.key x).
    { intros f Hf E. apply Hx. rewrite <- E. unfold keys. now apply in_map. }
    specialize (IH r2 Hinv2 Hne ltac:(lia) ltac:(lia) Hnd').
    cbv zeta in IH. rewrite En, Es in IH.
    destruct IH as (I1 & I2 & I3 & I4).
    + intros f Hf. rewrite Hds. apply In_drop_key. split; [|now apply Hkx].
      apply Hfrom. now right.
    + intros f Hf Hin. unfold keys in Hin. apply in_map_iff in Hin.
      destruct Hin as (g & Hg & Hin).
      eapply Permutation_in in Hin; [|exact Hpn].
      destruct Hin as [<-|Hin].
      * now apply (Hkx f).
      * apply (Hnew f); [now right|]. rewrite <- Hg. unfold keys. now apply in_map.
    + split; [|split; [|split]].
      * rewrite I1. unfold r2, r1. now rewrite !ring_keys_set_BTree.
      * intros f. rewrite I2. split.
        -- intros [H|H]; [left; now right|].
           eapply Permutation_in in H; [|exact Hpn].
           destruct H as [<-|H]; [left; now left|now right].
        -- intros [[<-|H]|H].
           ++ right. eapply Permutation_in; [symmetry; exact Hpn|]. now left.
           ++ now left.
           ++ right. eapply Permutation_in; [symmetry; exact Hpn|]. now right.
      * intros f. rewrite I3, Hds, In_drop_key. cbn [keys map]. fold (keys toMove).
        simpl. intuition congruence.
      * intros q Hq1 Hq2. rewrite I4 by assumption. unfold r2, r1.
        now rewrite !BTree_at_set_BTree_neq by assumption.
Qed.

Lemma Traverse_insert_spec r pp :
  ring_inv order r ->
  let np := CircularLinkedList.next r pp in
  let sp := CircularLinkedList.next r np in
  np <> sp ->
  (np < length (CircularLinkedList.nodes r))%nat ->
  (sp < length (CircularLinkedList.nodes r))%nat ->
  contents (CircularLinkedList.BTree_at r np) = [] ->
  let r' := CircularLinkedList.Traverse_insert r pp order in
  ring_keys r' = ring_keys r /\
  (forall f, In f (contents (CircularLinkedList.BTree_at r' np)) <->
             In f (contents (CircularLinkedList.BTree_at r sp)) /\
             in_interval (CircularLinkedList.key_at r pp)
                         (CircularLinkedList.key_at r np) (FileNode.key f)) /\
  (forall f, In f (contents (CircularLinkedList.BTree_at r' sp)) <->
             In f (contents (CircularLinkedList.BTree_at r sp)) /\
             ~ in_interval (CircularLinkedList.key_at r pp)
                           (CircularLinkedList.key_at r np) (FileNode.key f)) /\
  (forall q, q <> np -> q <> sp ->
             CircularLinkedList.BTree_at r' q = CircularLinkedList.BTree_at r q).
Proof.
  intros Hinv np sp Hne Hnp Hsp Hempty r'. subst r'.
  unfold CircularLinkedList.Traverse_insert. fold np. fold sp.
  set (bs := CircularLinkedList.BTree_at r sp) in *.
  assert (Hbs : BTree_inv order bs) by now apply BTree_at_inv.
  destruct (BTree.root bs) as [rootNode|] eqn:Eroot.
  2:{ assert (Ec : contents bs = []) by (unfold contents; now rewrite Eroot).
      split; [reflexivity|]. fold bs. rewrite Hempty, Ec. simpl.
      split; [intros f; tauto|]. split; [intros f; tauto|reflexivity]. }
  rewrite <- Eroot.
  set (test := fun file => CircularLinkedList.shouldMove
                             (CircularLinkedList.key_at r pp)
                             (CircularLinkedList.key_at r np) (FileNode.key file)).
  set (files := BTree.getAllFiles (BTree.root bs)).
  assert (Hperm : Permutation files (contents bs)) by apply getAllFiles_contents.
  assert (Hsort : sorted (contents bs)) by now apply (BTree_inv_sorted order).
  assert (Hndf : NoDup (keys files)).
  { eapply Permutation_NoDup; [|apply sorted_NoDup_keys; exact Hsort].
    unfold keys. apply Permutation_map. now symmetry. }
  assert (Hnd : NoDup (keys (filter test files))).
  { clear - Hndf. induction files as [|x l IH]; [constructor|].
    inversion Hndf as [|? ? Hx Hl]; subst. simpl.
    destruct (test x); [|auto]. simpl. constructor; [|auto].
    intros Hin. apply Hx. unfold keys in *. apply in_map_iff in Hin.
    destruct Hin as (y & Hy & Hin). apply filter_In in Hin.
    rewrite <- Hy. apply in_map. tauto. }
  pose proof (Traverse_insert_fold np sp (filter test files) r Hinv Hne Hnp Hsp Hnd)
    as H.
  cbv zeta in H. fold bs in H. rewrite Hempty in H.
  destruct H as (H1 & H2 & H3 & H4).
  - intros f Hf. apply filter_In in Hf. eapply Permutation_in; [exact Hperm|tauto].
  - intros f _ [].
  - split; [exact H1|]. split; [|split; [|exact H4]].
    + intros f. rewrite H2, filter_In. unfold test. rewrite shouldMove_iff.
      split.
      * intros [[Hf Hi]|[]]. split; [|assumption].
        eapply Permutation_in; [exact Hperm|assumption].
      * intros [Hf Hi]. left. split; [|assumption].
        eapply Permutation_in; [symmetry; exact Hperm|assumption].
    + intros f. rewrite H3. rewrite <- shouldMove_iff.
      split; intros [Hf Hi]; (split; [assumption|]).
      * intros Hm. apply Hi. unfold keys. apply in_map. apply filter_In.
        split; [|exact Hm]. eapply Permutation_in; [symmetry; exact Hperm|assumption].
      * intros Hin. unfold keys in Hin. apply in_map_iff in Hin.
        destruct Hin as (g & Hg & Hin). apply filter_In in Hin.
        destruct Hin as [Hgin Hgt]. apply Hi.
        assert (g = f).
        { apply (sorted_key_inj (contents bs)); auto.
          eapply Permutation_in; [exact Hperm|assumption]. }
        subst g. exact Hgt.
Qed.

End Join.

Section JoinTop.

Variable order : Z.
Hypothesis Horder : 3 <= order.

(** A successful join: the IDs, and where the records are afterwards. *)
Lemma insertAfter_handoff r id :
  ring_inv order r -> CircularLinkedList.nodes r <> [] ->
  0 <= id < CircularLinkedList.identifierSpace r -> ~ In id (ring_keys r) ->
  let r' := fst (CircularLinkedList.insertAfter r id order) in
  snd (CircularLinkedList.insertAfter r id order) = JoinAdded /\
  Permutation (ring_keys r') (id :: ring_keys r) /\
  handed_off r r' id.
Proof.
  intros Hinv Hne Hid Hnin. unfold CircularLinkedList.insertAfter.
  destruct (CircularLinkedList.search r id) eqn:Es.
  { apply search_true_iff in Es. contradiction. }
  destruct (Z.ltb_spec id 0) as [?|_]; [lia|].
  destruct (Z.leb_spec (CircularLinkedList.identifierSpace r) id) as [?|_]; [lia|].
  cbn [orb fst snd].
  set (r1 := CircularLinkedList.updateRT (CircularLinkedList.insert r id)).
  assert (H1 : ring_inv order r1) by now apply insert_pre.
  pose proof H1 as [Hs1 _ _ _]. pose proof Hinv as [Hs0 _ _ _].
  assert (Hk1 : Permutation (ring_keys r1) (id :: ring_keys r)).
  { unfold r1. rewrite ring_keys_updateRT. apply ring_keys_insert_perm. }
  assert (Hn0 : (1 <= length (CircularLinkedList.nodes r))%nat).
  { destruct (CircularLinkedList.nodes r); [congruence|simpl; lia]. }
  assert (Hn1 : length (CircularLinkedList.nodes r1)
                = S (length (CircularLinkedList.nodes r))).
  { rewrite <- (length_ring_keys r1), <- (length_ring_keys r).
    now rewrite (Permutation_length Hk1). }
  assert (Hin : In id (ring_keys r1)).
  { eapply Permutation_in; [symmetry; exact Hk1|]. now left. }
  destruct (In_key_at r1 id Hin) as (np & Hnp & Enp).
  set (pp := if (np =? 0)%nat
             then (length (CircularLinkedList.nodes r1) - 1)%nat
             else (np - 1)%nat).
  assert (Epp : CircularLinkedList.SearchNewMachine r1 id = Some pp).
  { rewrite <- Enp. apply (findPredecessor_key_at r1 Hs1 np Hnp). }
  rewrite Epp. unfold CircularLinkedList.getMachineCount. rewrite Hn1.
  destruct (Nat.ltb_spec 1 (S (length (CircularLinkedList.nodes r)))) as [_|?];
    [|lia].
  assert (Hpp : (pp < length (CircularLinkedList.nodes r1))%nat).
  { unfold pp. destruct (Nat.eqb_spec np 0); lia. }
  assert (Enext : CircularLinkedList.next r1 pp = np).
  { unfold CircularLinkedList.next, pp.
    destruct (Nat.eqb_spec np 0);
      match goal with |- context [(?a <? ?b)%nat] =>
        destruct (Nat.ltb_spec a b) end; lia. }
  set (sp := CircularLinkedList.next r1 np).
  assert (Hsp : (sp < length (CircularLinkedList.nodes r1))%nat)
    by now apply next_lt.
  assert (Hnsp : np <> sp).
  { unfold sp, CircularLinkedList.next.
    destruct (Nat.ltb_spec (S np) (length (CircularLinkedList.nodes r1))); lia. }
  (* the trees of [r1] *)
  assert (Hnew : contents (CircularLinkedList.BTree_at r1 np) = []).
  { destruct (nth_error (CircularLinkedList.nodes r1) np) as [node1|] eqn:E.
    2:{ apply nth_error_None in E. lia. }
    rewrite (BTree_at_nth_error r1 np node1 E).
    destruct (updateRT_insert_node r id np node1 E)
      as [[_ ->]|(node0 & Hin0 & Hk0 & _)]; [reflexivity|].
    exfalso. apply Hnin. rewrite <- Enp, <- (nth_error_key_at r1 np node1 E), <- Hk0.
    unfold ring_keys. now apply in_map. }
  assert (Hold : forall q, (q < length (CircularLinkedList.nodes r1))%nat ->
                           q <> np ->
                           BTree_of r (CircularLinkedList.key_at r1 q)
                           = Some (CircularLinkedList.BTree_at r1 q)).
  { intros q Hq Hqn.
    destruct (nth_error (CircularLinkedList.nodes r1) q) as [node1|] eqn:E.
    2:{ apply nth_error_None in E. lia. }
    rewrite (BTree_at_nth_error r1 q node1 E).
    rewrite <- (nth_error_key_at r1 q node1 E).
    destruct (updateRT_insert_node r id q node1 E)
      as [[Hk _]|(node0 & Hin0 & Hk0 & Hb0)].
    - exfalso. apply Hqn. apply (key_at_inj r1 Hs1); auto.
      now rewrite Enp, <- (nth_error_key_at r1 q node1 E).
    - rewrite <- Hk0, <- Hb0. now apply BTree_of_In. }
  pose proof (Traverse_insert_spec order Horder r1 pp H1) as HT.
  cbv zeta in HT. rewrite Enext in HT. fold sp in HT.
  specialize (HT Hnsp Hnp Hsp Hnew).
  set (r' := CircularLinkedList.Traverse_insert r1 pp order) in *.
  destruct HT as (Hk' & Hcn & Hcs & Hco).
  assert (Hsame : CircularLinkedList.identifierSpace r'
                  = CircularLinkedList.identifierSpace r1)
    by apply identifierSpace_Traverse_insert.
  assert (Hka : forall p, CircularLinkedList.key_at r' p
                          = CircularLinkedList.key_at r1 p)
    by (intros p; now apply same_key_at).
  assert (Hnx : forall p, CircularLinkedList.next r' p
                          = CircularLinkedList.next r1 p)
    by (intros p; now apply same_next).
  assert (Hlen : length (CircularLinkedList.nodes r')
                 = length (CircularLinkedList.nodes r1))
    by exact (same_length r1 r' Hk').
  split; [reflexivity|]. split; [now rewrite Hk'|].
  unfold handed_off. exists pp. cbv zeta. rewrite !Hnx, Enext. fold sp. rewrite !Hka, Hlen, Enp.
  split; [assumption|]. split; [reflexivity|].
  exists (CircularLinkedList.BTree_at r1 sp).
  split; [apply Hold; auto|]. rewrite Enp in Hcn, Hcs.
  split; [exact Hcn|]. split; [exact Hcs|].
  intros q Hq Hq1 Hq2. rewrite Hka, Hco by assumption. now apply Hold.
Qed.

End JoinTop.

(** * The properties of the specification *)

(** C1 (router soundness).  In every reachable state, from every live
    start machine and for every key, [routeToKey] returns a non-empty path
    whose last ID is the successor of the key among the live IDs, which is
    also the machine that [findResponsibleMachine] returns.  A live start
    makes the ring non-empty, so the path is empty on an empty ring
    only. *)
Theorem route_sound s start key :
  reachable s -> In start (ring_keys (IPFS.C s)) ->
  exists path,
    CircularLinkedList.routeToKey (IPFS.C s) start key = Ok path /\
    path <> [] /\
    is_successor (ring_keys (IPFS.C s)) key (last path 0) /\
    exists p,
      CircularLinkedList.findResponsibleMachine (IPFS.C s) key = Some p /\
      CircularLinkedList.key_at (IPFS.C s) p = last path 0.
Proof.
  intros Hr Hin. pose proof (reachable_inv s Hr) as [_ _ _ _ Hring].
  pose proof (ring_inv_nonempty _ _ _ Hring Hin) as Hn.
  destruct (routeToKey_sound _ _ start key Hring Hin) as (path & H1 & H2 & H3).
  exists path. split; [assumption|]. split; [assumption|].
  rewrite H3. split.
  - apply succ_is_successor; [apply Hring|assumption].
  - exists (succ_pos (IPFS.C s) key). split; [|reflexivity].
    apply findResponsibleMachine_succ; [apply Hring|assumption].
Qed.

Lemma route_sound_witness :
  reachable sample_ring /\ In 14 (ring_keys (IPFS.C sample_ring)) /\
  exists path,
    CircularLinkedList.routeToKey (IPFS.C sample_ring) 14 3 = Ok path /\
    path <> [] /\
    is_successor (ring_keys (IPFS.C sample_ring)) 3 (last path 0) /\
    exists p,
      CircularLinkedList.findResponsibleMachine (IPFS.C sample_ring) 3 = Some p /\
      CircularLinkedList.key_at (IPFS.C sample_ring) p = last path 0.
Proof.
  assert (Hr : reachable sample_ring).
  { apply reach_setup; [lia|]. repeat (constructor; [simpl; lia|]). constructor. }
  assert (Hin : In 14 (ring_keys (IPFS.C sample_ring))) by (vm_compute; lia).
  split; [exact Hr|]. split; [exact Hin|].
  exact (route_sound sample_ring 14 3 Hr Hin).
Defined.

(** C2 (finger correctness after rebuild).  In every reachable state, and
    again after a further [updateRT], every machine has [bits] fingers;
    finger [i] of the machine of ID [n] has the target
    [(n + 2 ^ i) mod 2 ^ bits], and its pointer and cached ID are those of
    the successor of the target: the smallest live ID at or above it, or
    the smallest live ID when the target exceeds them all. *)
Theorem fingers_correct_after_rebuild s :
  reachable s ->
  fingers_correct (IPFS.C s) (IPFS.bits s) /\
  fingers_correct (CircularLinkedList.updateRT (IPFS.C s)) (IPFS.bits s).
Proof.
  intros Hr. pose proof (reachable_inv s Hr) as Hinv.
  split; [now apply ipfs_inv_fingers|].
  change (IPFS.bits s)
    with (IPFS.bits (IPFS.with_C s (CircularLinkedList.updateRT (IPFS.C s)))).
  change (CircularLinkedList.updateRT (IPFS.C s))
    with (IPFS.C (IPFS.with_C s (CircularLinkedList.updateRT (IPFS.C s)))) at 1.
  apply ipfs_inv_fingers. apply ipfs_inv_with_C; [assumption|apply Hinv|].
  destruct Hinv as [_ _ _ _ [H1 H2 H3 H4]]. now apply ring_inv_updateRT.
Qed.

Lemma fingers_correct_after_rebuild_witness :
  reachable sample_ring /\
  fingers_correct (IPFS.C sample_ring) (IPFS.bits sample_ring) /\
  fingers_correct (CircularLinkedList.updateRT (IPFS.C sample_ring))
                  (IPFS.bits sample_ring).
Proof.
  assert (Hr : reachable sample_ring).
  { apply reach_setup; [lia|]. repeat (constructor; [simpl; lia|]). constructor. }
  split; [exact Hr|]. exact (fingers_correct_after_rebuild sample_ring Hr).
Defined.

(** C4 (occupancy).  The threshold [MIN] that the code computes for an
    order [t] in [3, 100] is the canonical [ceil (t / 2) - 1].  In a tree
    built with that order from the empty tree by [insertHelper] and
    [deleteHelper], the root holds between 1 and [t - 1] records, and every
    other node holds between [ceil (t / 2) - 1] and [t - 1] records, stores
    these two thresholds, and has one more child slot than records. *)
Theorem occupancy t b :
  3 <= t <= 100 -> built t b ->
  MIN_of_order t = canonical_min t /\
  forall rootNode,
    BTree.root b = Some rootNode ->
    1 <= Z.of_nat (count rootNode) <= t - 1 /\
    Forall (fun n => canonical_min t <= Z.of_nat (count n) <= t - 1 /\
                     MIN n = canonical_min t /\ MAX n = t - 1 /\
                     length (child n) = S (count n))
           (descendants rootNode).
Proof.
  intros Ht Hb. assert (Ht3 : 3 <= t) by lia.
  pose proof (canonical_min_spec t Ht3) as Hmin.
  split; [assumption|]. intros rootNode Eroot.
  destruct (built_inv t Ht3 b Hb) as [[h Hs] _]. rewrite Eroot in Hs.
  destruct h as [|h]; [discriminate|]. destruct Hs as [Hsh Hc].
  rewrite MAX_of_order_spec in Hc. split; [assumption|].
  eapply Forall_impl; [|exact (shape_descendants_full _ _ h rootNode Hsh)].
  intros n. cbv beta. rewrite <- Hmin, MAX_of_order_spec. tauto.
Qed.

Lemma occupancy_witness :
  3 <= 3 <= 100 /\ built 3 sample_tree /\
  MIN_of_order 3 = canonical_min 3 /\
  forall rootNode,
    BTree.root sample_tree = Some rootNode ->
    1 <= Z.of_nat (count rootNode) <= 3 - 1 /\
    Forall (fun n => canonical_min 3 <= Z.of_nat (count n) <= 3 - 1 /\
                     MIN n = canonical_min 3 /\ MAX n = 3 - 1 /\
                     length (child n) = S (count n))
           (descendants rootNode).
Proof.
  assert (Ht : 3 <= 3 <= 100) by lia.
  assert (Hb : built 3 sample_tree).
  { unfold sample_tree. cbn [fold_left]. repeat apply built_insert. apply built_new. }
  split; [exact Ht|]. split; [exact Hb|]. exact (occupancy 3 sample_tree Ht Hb).
Defined.

(** C5 (membership validation is atomic).  A join of an ID that is out of
    the range [0, N) or that a live machine holds, and a leave of an ID
    that no live machine holds, return the state they were given (ring
    membership and order, finger tables and B-trees alike) together with a
    validation message; so do [insertAfter] and [deletekey], and so do
    [InsertMachine] and [DeleteMachine] of the facade. *)
Theorem membership_validation_atomic :
  (forall r id order,
      id < 0 \/ CircularLinkedList.identifierSpace r <= id \/ In id (ring_keys r) ->
      exists o, CircularLinkedList.insertAfter r id order = (r, o) /\
                (o = JoinOutOfRange \/ o = JoinExists)) /\
  (forall r id order,
      ~ In id (ring_keys r) ->
      exists o, CircularLinkedList.deletekey r id order = (r, o) /\
                (o = LeaveEmptyRing \/ o = LeaveNotFound)) /\
  (forall s id order,
      id < 0 \/ IPFS.identifierSpace s <= id \/ In id (ring_keys (IPFS.C s)) ->
      exists o, IPFS.InsertMachine s id order = (s, o) /\
                (o = JoinOutOfRange \/ o = JoinExists)) /\
  (forall s id order,
      ~ In id (ring_keys (IPFS.C s)) ->
      exists o, IPFS.DeleteMachine s id order = (s, o) /\
                (o = LeaveEmptyRing \/ o = LeaveNotFound)).
Proof.
  assert (J : forall r id order,
             id < 0 \/ CircularLinkedList.identifierSpace r <= id
             \/ In id (ring_keys r) ->
             exists o, CircularLinkedList.insertAfter r id order = (r, o) /\
                       (o = JoinOutOfRange \/ o = JoinExists)).
  { intros r id order H. unfold CircularLinkedList.insertAfter.
    destruct (CircularLinkedList.search r id) eqn:Es; [eauto|].
    destruct (Z.ltb_spec id 0); cbn [orb]; [eauto|].
    destruct (Z.leb_spec (CircularLinkedList.identifierSpace r) id); [eauto|].
    destruct H as [H|[H|H]]; [lia|lia|].
    apply search_true_iff in H. congruence. }
  assert (L : forall r id order,
             ~ In id (ring_keys r) ->
             exists o, CircularLinkedList.deletekey r id order = (r, o) /\
                       (o = LeaveEmptyRing \/ o = LeaveNotFound)).
  { intros r id order Hnin. unfold CircularLinkedList.deletekey.
    destruct (CircularLinkedList.nodes r) as [|x l] eqn:En; [eauto|].
    set (current := match CircularLinkedList.first_pos _ _ with
                    | Some p => p
                    | None => O
                    end).
    assert (Hcur : (current < length (CircularLinkedList.nodes r))%nat).
    { unfold current.
      destruct (CircularLinkedList.first_pos _ _) as [p|] eqn:E.
      - now apply first_pos_some in E.
      - rewrite En. simpl. lia. }
    destruct (Z.eqb_spec (CircularLinkedList.key_at r current) id) as [E|E].
    - exfalso. apply Hnin. rewrite <- E. now apply key_at_In.
    - cbn [negb]. eauto. }
  split; [exact J|]. split; [exact L|]. split.
  - intros s id order H. unfold IPFS.InsertMachine, IPFS.isValidMachineId.
    destruct (Z.leb_spec 0 id) as [H0|H0]; cbn [andb negb]; [|eauto].
    destruct (Z.ltb_spec id (IPFS.identifierSpace s)) as [H1|H1]; cbn [negb]; [|eauto].
    destruct H as [H|[H|H]]; [lia|lia|].
    destruct (J (IPFS.C s) id order) as (o & -> & Ho); [auto|].
    rewrite with_C_same. eauto.
  - intros s id order Hnin. unfold IPFS.DeleteMachine.
    destruct (L (IPFS.C s) id order Hnin) as (o & -> & Ho).
    rewrite with_C_same. eauto.
Qed.

(** C6 (duplicate insert).  On a tree built with order [t], [insertHelper]
    of a record whose key is in the tree reports the duplicate and returns
    the tree it was given: same nodes, same records, same structure. *)
Theorem duplicate_insert_rejected t b r :
  3 <= t -> built t b -> In (FileNode.key r) (keys (contents b)) ->
  BTree.insertHelper b r t = (b, true).
Proof.
  intros Ht Hb Hin. apply (insertHelper_dup t Ht).
  - now apply built_inv.
  - now apply existsb_has_key.
Qed.

Lemma duplicate_insert_rejected_witness :
  3 <= 3 /\ built 3 sample_tree /\
  In (FileNode.key (FileNode.mk 4 SamplePaths.b)) (keys (contents sample_tree)) /\
  BTree.insertHelper sample_tree (FileNode.mk 4 SamplePaths.b) 3
  = (sample_tree, true).
Proof.
  assert (Ht : 3 <= 3) by lia.
  assert (Hb : built 3 sample_tree).
  { unfold sample_tree. cbn [fold_left]. repeat apply built_insert. apply built_new. }
  assert (Hin : In (FileNode.key (FileNode.mk 4 SamplePaths.b))
                   (keys (contents sample_tree))) by (vm_compute; lia).
  split; [exact Ht|]. split; [exact Hb|]. split; [exact Hin|].
  exact (duplicate_insert_rejected 3 sample_tree _ Ht Hb Hin).
Defined.

(** C8 (routing terminates).  On every ring whose finger pointers are null
    or point to machines of the ring, from every start ID and for every
    key, the loop of [routeToKey] stops within as many iterations as there
    are machines, whatever larger bound it is given; the IDs on the path it
    returns are pairwise distinct and at most as many as the machines. *)
Theorem route_terminates r start key :
  fingers_live r ->
  exists path,
    CircularLinkedList.routeToKey r start key = Ok path /\
    NoDup path /\
    (length path <= CircularLinkedList.getMachineCount r)%nat /\
    forall fuel,
      (CircularLinkedList.getMachineCount r <= fuel)%nat ->
      CircularLinkedList.routeToKey_fuel fuel r start key = Ok path.
Proof.
  intros Hlive. unfold CircularLinkedList.routeToKey, CircularLinkedList.getMachineCount.
  destruct (routeToKey_fuel_terminates r Hlive _ start key (Nat.le_refl _))
    as (path & H1 & H2 & H3).
  exists path. split; [assumption|]. split; [assumption|]. split.
  - rewrite <- (length_ring_keys r). now apply NoDup_incl_length.
  - intros fuel Hfuel. eapply routeToKey_fuel_mono; eauto.
Qed.

Lemma route_terminates_witness :
  fingers_live (IPFS.C sample_ring) /\
  exists path,
    CircularLinkedList.routeToKey (IPFS.C sample_ring) 5 0 = Ok path /\
    NoDup path /\
    (length path <= CircularLinkedList.getMachineCount (IPFS.C sample_ring))%nat /\
    forall fuel,
      (CircularLinkedList.getMachineCount (IPFS.C sample_ring) <= fuel)%nat ->
      CircularLinkedList.routeToKey_fuel fuel (IPFS.C sample_ring) 5 0 = Ok path.
Proof.
  assert (Hlive : fingers_live (IPFS.C sample_ring)).
  { vm_compute. repeat constructor. }
  split; [exact Hlive|]. exact (route_terminates (IPFS.C sample_ring) 5 0 Hlive).
Defined.

(** C10 (the bulk set-up checks the range only).  [InsertMachines] skips
    exactly the IDs outside [0, N) and splices one machine for each other
    ID of its input, repeated or already live ones included: given the ID
    5 twice it builds a ring with two machines of ID 5, where the join of
    a single machine refuses the second one. *)
Theorem InsertMachines_range_check_only :
  (forall s ids,
      snd (IPFS.InsertMachines s ids)
      = filter (fun id => negb (IPFS.isValidMachineId s id)) ids /\
      Permutation (ring_keys (IPFS.C (fst (IPFS.InsertMachines s ids))))
                  (filter (IPFS.isValidMachineId s) ids ++ ring_keys (IPFS.C s))) /\
  (forall s id,
      IPFS.isValidMachineId s id = true <-> 0 <= id < IPFS.identifierSpace s) /\
  ring_keys (IPFS.C (fst (IPFS.InsertMachines (IPFS.new 4 3) [5; 5]))) = [5; 5] /\
  snd (IPFS.InsertMachine (fst (IPFS.InsertMachines (IPFS.new 4 3) [5])) 5 3)
  = JoinExists.
Proof.
  split; [|split; [|split; reflexivity]].
  - intros s ids. unfold IPFS.InsertMachines.
    pose proof (InsertMachines_fold_spec s ids (IPFS.C s) []) as H.
    cbv zeta in H. destruct (fold_left _ ids (IPFS.C s, [])) as [c skipped].
    cbn [fst snd IPFS.C IPFS.with_C] in *. now rewrite ring_keys_updateRT.
  - intros s id. unfold IPFS.isValidMachineId.
    rewrite andb_true_iff, Z.leb_le, Z.ltb_lt. reflexivity.
Qed.

(** C3 (key hand-off on join).  In a reachable state with at least one
    machine, the join of an ID of the range [0, N) that no machine holds
    is carried out and adds that ID to the ring.  With [p] the
    predecessor of the new machine after the splice and [s] its
    successor, the tree of the new machine then holds exactly the records
    that the tree of [s] held with a key in the circular interval from
    [p]'s ID (excluded) to the new ID (included), the tree of [s] holds
    exactly its other records, and every other machine has the tree it
    had. *)
Theorem join_handoff s id :
  reachable s -> CircularLinkedList.nodes (IPFS.C s) <> [] ->
  0 <= id < IPFS.identifierSpace s -> ~ In id (ring_keys (IPFS.C s)) ->
  snd (IPFS.InsertMachine s id (IPFS.order s)) = JoinAdded /\
  Permutation (ring_keys (IPFS.C (fst (IPFS.InsertMachine s id (IPFS.order s)))))
              (id :: ring_keys (IPFS.C s)) /\
  handed_off (IPFS.C s) (IPFS.C (fst (IPFS.InsertMachine s id (IPFS.order s)))) id.
Proof.
  intros Hr Hne Hid Hnin. pose proof (reachable_inv s Hr) as [Ho _ _ Hsame Hring].
  unfold IPFS.InsertMachine, IPFS.isValidMachineId.
  destruct (Z.leb_spec 0 id); [|lia].
  destruct (Z.ltb_spec id (IPFS.identifierSpace s)); [|lia]. cbn [andb negb].
  pose proof (insertAfter_handoff (IPFS.order s) ltac:(lia) (IPFS.C s) id Hring Hne
                                  ltac:(lia) Hnin) as Hjoin.
  cbv zeta in Hjoin.
  destruct (CircularLinkedList.insertAfter (IPFS.C s) id (IPFS.order s)) as [c o].
  exact Hjoin.
Qed.

Lemma join_handoff_witness :
  reachable sample_store /\ CircularLinkedList.nodes (IPFS.C sample_store) <> [] /\
  0 <= 12 < IPFS.identifierSpace sample_store /\
  ~ In 12 (ring_keys (IPFS.C sample_store)) /\
  snd (IPFS.InsertMachine sample_store 12 (IPFS.order sample_store)) = JoinAdded /\
  Permutation
    (ring_keys (IPFS.C (fst (IPFS.InsertMachine sample_store 12
                                                (IPFS.order sample_store)))))
    (12 :: ring_keys (IPFS.C sample_store)) /\
  handed_off (IPFS.C sample_store)
             (IPFS.C (fst (IPFS.InsertMachine sample_store 12
                                              (IPFS.order sample_store)))) 12.
Proof.
  assert (Hr : reachable sample_store).
  { unfold sample_store. cbv zeta.
    do 3 apply reach_put. unfold sample_ring.
    apply reach_setup; [lia|]. repeat (constructor; [simpl; lia|]). constructor. }
  assert (Hne : CircularLinkedList.nodes (IPFS.C sample_store) <> [])
    by (vm_compute; discriminate).
  assert (Hid : 0 <= 12 < IPFS.identifierSpace sample_store).
  { replace (IPFS.identifierSpace sample_store) with 16 by (vm_compute; reflexivity).
    lia. }
  assert (Hnin : ~ In 12 (ring_keys (IPFS.C sample_store))) by (vm_compute; lia).
  split; [exact Hr|]. split; [exact Hne|]. split; [exact Hid|]. split; [exact Hnin|].
  exact (join_handoff sample_store 12 Hr Hne Hid Hnin).
Defined.

(** C7 (put/get round trip).  In a reachable state, when a put of a record
    from any start machine reports that the record was stored on machine
    [m], then [m] is the machine responsible for the key, and a get of the
    key from any live start machine finds on [m] the record with that key
    and that path. *)
Theorem put_get_round_trip s start start' fileKey path m :
  reachable s -> In start' (ring_keys (IPFS.C s)) ->
  snd (IPFS.insertFile s start fileKey path (IPFS.order s)) = PutStored m ->
  exists p,
    IPFS.SearchFile (fst (IPFS.insertFile s start fileKey path (IPFS.order s)))
                    start' fileKey
    = Some (p, Some (FileNode.mk fileKey path)) /\
    CircularLinkedList.key_at
      (IPFS.C (fst (IPFS.insertFile s start fileKey path (IPFS.order s)))) p = m /\
    is_successor (ring_keys (IPFS.C s)) fileKey m.
Proof.
  intros Hr Hin. pose proof (reachable_inv s Hr) as [Ho _ _ _ Hring].
  unfold IPFS.insertFile, IPFS.SearchFile.
  pose proof (put_get (IPFS.order s) ltac:(lia) (IPFS.C s) start start' fileKey
                      path m Hring Hin) as H.
  destruct (CircularLinkedList.InsertFileToTree (IPFS.C s) start fileKey path
                                                (IPFS.order s)) as [c o].
  exact H.
Qed.

Lemma put_get_round_trip_witness :
  reachable sample_ring /\ In 4 (ring_keys (IPFS.C sample_ring)) /\
  snd (IPFS.insertFile sample_ring 14 3 SamplePaths.a (IPFS.order sample_ring))
  = PutStored 4 /\
  exists p,
    IPFS.SearchFile
      (fst (IPFS.insertFile sample_ring 14 3 SamplePaths.a (IPFS.order sample_ring)))
      4 3
    = Some (p, Some (FileNode.mk 3 SamplePaths.a)) /\
    CircularLinkedList.key_at
      (IPFS.C (fst (IPFS.insertFile sample_ring 14 3 SamplePaths.a
                                    (IPFS.order sample_ring)))) p = 4 /\
    is_successor (ring_keys (IPFS.C sample_ring)) 3 4.
Proof.
  assert (Hr : reachable sample_ring).
  { apply reach_setup; [lia|]. repeat (constructor; [simpl; lia|]). constructor. }
  assert (Hin : In 4 (ring_keys (IPFS.C sample_ring))) by (vm_compute; lia).
  assert (Hput : snd (IPFS.insertFile sample_ring 14 3 SamplePaths.a
                                      (IPFS.order sample_ring)) = PutStored 4)
    by (vm_compute; reflexivity).
  split; [exact Hr|]. split; [exact Hin|]. split; [exact Hput|].
  exact (put_get_round_trip sample_ring 14 4 3 SamplePaths.a 4 Hr Hin Hput).
Defined.

(** C9, as the code has it (hand-off collision).  There is no fatal path:
    in the hand-off of a leave, a record whose key the successor holds is
    rejected by the duplicate check of the B-tree, with its message, and
    is not transferred; the walk goes on with the next record.  The
    rejected records are exactly those whose key the successor held, the
    successor ends with its records and the others of the departing
    machine, no other tree changes, and the leave of a live machine is
    carried out. *)
Theorem handoff_collision_skipped order r source destination :
  3 <= order -> ring_inv order r ->
  (destination < length (CircularLinkedList.nodes r))%nat ->
  let files := BTree.getAllFiles (BTree.root (CircularLinkedList.BTree_at r source)) in
  let held f := existsb (has_key (FileNode.key f))
                        (contents (CircularLinkedList.BTree_at r destination)) in
  let res := CircularLinkedList.Traverse_delete r source destination order in
  snd res = filter held files /\
  Permutation (contents (CircularLinkedList.BTree_at (fst res) destination))
              (filter (fun f => negb (held f)) files
               ++ contents (CircularLinkedList.BTree_at r destination)) /\
  (forall q, q <> destination ->
             CircularLinkedList.BTree_at (fst res) q = CircularLinkedList.BTree_at r q) /\
  ring_keys (fst res) = ring_keys r /\
  (forall id, In id (ring_keys r) ->
              snd (CircularLinkedList.deletekey r id order) = LeaveRemoved).
Proof.
  intros Ho Hinv Hd files held res.
  assert (G : snd res = filter held files /\
              Permutation (contents (CircularLinkedList.BTree_at (fst res) destination))
                          (filter (fun f => negb (held f)) files
                           ++ contents (CircularLinkedList.BTree_at r destination)) /\
              (forall q, q <> destination ->
                         CircularLinkedList.BTree_at (fst res) q
                         = CircularLinkedList.BTree_at r q) /\
              ring_keys (fst res) = ring_keys r).
  { subst res. unfold CircularLinkedList.Traverse_delete.
    set (bsrc := CircularLinkedList.BTree_at r source) in *.
    assert (Hb : BTree_inv order bsrc) by now apply BTree_at_inv.
    assert (Hnd : NoDup (keys files)).
    { eapply Permutation_NoDup;
        [|apply sorted_NoDup_keys; exact (BTree_inv_sorted order bsrc Hb)].
      unfold keys. apply Permutation_map. symmetry.
      exact (getAllFiles_contents bsrc). }
    pose proof (Traverse_delete_fold order Ho destination files r [] Hnd Hinv Hd)
      as F.
    cbv zeta in F. fold held in F. unfold files in *.
    destruct (BTree.root bsrc) as [rootNode|]; [exact F|].
    cbn [BTree.getAllFiles filter fst snd app]. auto. }
  destruct G as (G1 & G2 & G3 & G4).
  split; [exact G1|]. split; [exact G2|]. split; [exact G3|]. split; [exact G4|].
  intros id Hin. now apply deletekey_outcome.
Qed.

Lemma handoff_collision_skipped_witness :
  3 <= 3 /\ ring_inv 3 (IPFS.C collision_state) /\
  (1 < length (CircularLinkedList.nodes (IPFS.C collision_state)))%nat /\
  let r := IPFS.C collision_state in
  let files := BTree.getAllFiles (BTree.root (CircularLinkedList.BTree_at r 0)) in
  let held f := existsb (has_key (FileNode.key f))
                        (contents (CircularLinkedList.BTree_at r 1)) in
  let res := CircularLinkedList.Traverse_delete r 0 1 3 in
  snd res = filter held files /\
  Permutation (contents (CircularLinkedList.BTree_at (fst res) 1))
              (filter (fun f => negb (held f)) files
               ++ contents (CircularLinkedList.BTree_at r 1)) /\
  (forall q, q <> 1%nat ->
             CircularLinkedList.BTree_at (fst res) q = CircularLinkedList.BTree_at r q) /\
  ring_keys (fst res) = ring_keys r /\
  (forall id, In id (ring_keys r) ->
              snd (CircularLinkedList.deletekey r id 3) = LeaveRemoved).
Proof.
  assert (Ho : 3 <= 3) by lia.
  assert (Hinv : ring_inv 3 (IPFS.C collision_state)).
  { split.
    - vm_compute. repeat constructor.
    - vm_compute. repeat constructor; discriminate.
    - unfold fingers_fresh. apply Forall_forall. intros n Hn. vm_compute in Hn.
      destruct Hn as [<-|[<-|[]]]; vm_compute; reflexivity.
    - apply Forall_forall. intros n Hn. vm_compute in Hn.
      destruct Hn as [<-|[<-|[]]];
        (split; [exists 1%nat; vm_compute; repeat split;
                 try discriminate; repeat constructor
                |vm_compute; repeat constructor]). }
  assert (Hd : (1 < length (CircularLinkedList.nodes (IPFS.C collision_state)))%nat)
    by (vm_compute; lia).
  split; [exact Ho|]. split; [exact Hinv|]. split; [exact Hd|].
  exact (handoff_collision_skipped 3 (IPFS.C collision_state) 0 1 Ho Hinv Hd).
Defined.

(** C9, as stated, fails.  In [collision_state] the machines 3 and 5 both
    hold a record of key 2.  The leave of machine 3 hands its records
    (2, b) and (3, c) to machine 5: the first collides and is rejected
    with the duplicate message, the walk goes on and transfers the
    second, and the leave is carried out: machine 5 is alone in the ring
    with (2, a) and (3, c), and (2, b) is gone. *)
Lemma handoff_collision_not_fatal :
  let r := IPFS.C collision_state in
  let left := IPFS.DeleteMachine collision_state 3 3 in
  ring_keys r = [3; 5] /\
  contents (CircularLinkedList.BTree_at r 0)
  = [FileNode.mk 2 SamplePaths.b; FileNode.mk 3 SamplePaths.c] /\
  contents (CircularLinkedList.BTree_at r 1) = [FileNode.mk 2 SamplePaths.a] /\
  snd (CircularLinkedList.Traverse_delete r 0 1 3) = [FileNode.mk 2 SamplePaths.b] /\
  snd left = LeaveRemoved /\
  ring_keys (IPFS.C (fst left)) = [5] /\
  contents (CircularLinkedList.BTree_at (IPFS.C (fst left)) 0)
  = [FileNode.mk 2 SamplePaths.a; FileNode.mk 3 SamplePaths.c].
Proof. vm_compute. repeat split. Qed.

(** * Further properties of the B-tree *)

(** Induction on the nodes of a tree. *)
Lemma BTreeNode_induction (P : BTreeNode -> Prop) :
  (forall mx mn v cs,
      Forall (fun o => match o with Some c => P c | None => True end) cs ->
      P (mkBTreeNode mx mn v cs)) ->
  forall n, P n.
Proof.
  intros H. fix IH 1. intros [mx mn v cs]. apply H.
  induction cs as [|[c|] cs IHcs]; constructor; auto.
Qed.

Lemma length_weave {A : Type} (subs : list (list A)) :
  forall vals, length (weave subs vals) = (length vals + length (concat subs))%nat.
Proof.
  induction subs as [|s subs IH]; intros vals; simpl; [lia|].
  rewrite !length_app. destruct vals as [|v vals]; simpl; rewrite IH; simpl; lia.
Qed.

(** [countFiles] counts the records of the tree. *)
Lemma countFiles_node_elems n : BTree.countFiles_node n = length (elems n).
Proof.
  induction n as [mx mn v cs IH] using BTreeNode_induction.
  cbn [BTree.countFiles_node elems]. rewrite length_weave. f_equal.
  induction IH as [|o cs Ho Hcs IHcs]; [reflexivity|].
  simpl. rewrite length_app, IHcs. f_equal.
  destruct o as [c|]; [exact Ho|reflexivity].
Qed.

Lemma countFiles_contents b : BTree.countFiles (BTree.root b) = length (contents b).
Proof.
  unfold contents. destruct (BTree.root b) as [n|]; [|reflexivity].
  apply countFiles_node_elems.
Qed.

(** The shape gives the depth of the leaves. *)
Lemma shape_leaves_at MX MN h : forall n, shape MX MN h n -> leaves_at h n.
Proof.
  induction h as [|h IH]; intros n Hs; apply shape_unfold in Hs;
    destruct Hs as (_ & _ & _ & Hf).
  - destruct n as [mx mn v cs]. exact Hf.
  - destruct n as [mx mn v cs]. cbn [leaves_at child] in *.
    eapply Forall_impl; [|exact Hf]. intros [c|]; [|trivial].
    intros [Hc _]. now apply IH.
Qed.

(** Strictly sorted lists with the same records are the same list. *)
Lemma sorted_perm_eq l :
  forall l', sorted l -> sorted l' -> Permutation l l' -> l = l'.
Proof.
  induction l as [|x l IH]; intros l' Hs Hs' Hp.
  - apply Permutation_nil in Hp. now subst.
  - destruct l' as [|y l']; [apply Permutation_sym, Permutation_nil in Hp; discriminate|].
    apply sorted_cons in Hs. destruct Hs as [Hb Hs].
    apply sorted_cons in Hs'. destruct Hs' as [Hb' Hs'].
    assert (Hxy : x = y).
    { assert (Hx : In x (y :: l')) by (eapply Permutation_in; [exact Hp|now left]).
      assert (Hy : In y (x :: l))
        by (eapply Permutation_in; [symmetry; exact Hp|now left]).
      destruct Hx as [->|Hx]; [reflexivity|].
      destruct Hy as [->|Hy]; [reflexivity|].
      specialize (Hb y Hy). specialize (Hb' x Hx). lia. }
    subst y. f_equal. apply IH; auto. eapply Permutation_cons_inv. exact Hp.
Qed.

Lemma drop_key_absent k l :
  existsb (has_key k) l = false -> drop_key k l = l.
Proof.
  induction l as [|x l IH]; [reflexivity|]. simpl. intros H.
  apply orb_false_iff in H. destruct H as [H1 H2]. rewrite H1. simpl.
  now rewrite IH.
Qed.

Section BTreeMore.

Variable t : Z.
Hypothesis Ht : 3 <= t.

(** [findFile] returns the record of the key. *)
Lemma findFile_find b k :
  BTree_inv t b -> BTree.findFile b k = find (has_key k) (contents b).
Proof.
  intros Hb. pose proof (findFile_spec t Ht b k Hb) as H.
  pose proof (BTree_inv_sorted t b Hb) as Hs.
  destruct (BTree.findFile b k) as [r|].
  - destruct H as [Hin Hk].
    destruct (find (has_key k) (contents b)) as [r'|] eqn:E.
    + apply find_some in E. destruct E as [Hin' Hk'].
      unfold has_key in Hk'. apply Z.eqb_eq in Hk'.
      f_equal. apply (sorted_key_inj (contents b)); auto. congruence.
    + exfalso. apply (find_none _ _ E) in Hin. unfold has_key in Hin.
      apply Z.eqb_neq in Hin. contradiction.
  - destruct (find (has_key k) (contents b)) as [r'|] eqn:E; [|reflexivity].
    apply find_some in E. destruct E as [Hin' Hk'].
    assert (existsb (has_key k) (contents b) = true)
      by (apply existsb_exists; eauto).
    congruence.
Qed.

(** Lookups depend on the records of the tree only. *)
Lemma find_sorted_perm k l l' :
  sorted l -> sorted l' ->
  (forall r, FileNode.key r = k -> (In r l <-> In r l')) ->
  find (has_key k) l = find (has_key k) l'.
Proof.
  intros Hs Hs' Hiff.
  destruct (find (has_key k) l) as [r|] eqn:E;
    destruct (find (has_key k) l') as [r'|] eqn:E'; auto.
  - apply find_some in E, E'. destruct E as [Hin Hk], E' as [Hin' Hk'].
    unfold has_key in *. apply Z.eqb_eq in Hk, Hk'.
    f_equal. apply (sorted_key_inj l'); auto; [|congruence]. now apply Hiff.
  - apply find_some in E. destruct E as [Hin Hk].
    unfold has_key in Hk. pose proof Hk as Hk2. apply Z.eqb_eq in Hk2.
    apply Hiff in Hin; [|assumption].
    apply (find_none _ _ E') in Hin. unfold has_key in Hin. congruence.
  - apply find_some in E'. destruct E' as [Hin Hk].
    unfold has_key in Hk. pose proof Hk as Hk2. apply Z.eqb_eq in Hk2.
    apply Hiff in Hin; [|assumption].
    apply (find_none _ _ E) in Hin. unfold has_key in Hin. congruence.
Qed.

Lemma existsb_find k l :
  existsb (has_key k) l = match find (has_key k) l with
                          | Some _ => true
                          | None => false
                          end.
Proof.
  induction l as [|x l IH]; [reflexivity|]. simpl.
  destruct (has_key k x); [reflexivity|exact IH].
Qed.


End BTreeMore.

Section BTreeOps.

Variable t : Z.
Hypothesis Ht : 3 <= t.

Lemma insertHelper_lookup b f :
  BTree_inv t b -> existsb (has_key (FileNode.key f)) (contents b) = false ->
  let b' := fst (BTree.insertHelper b f t) in
  BTree.searchFile b' (FileNode.key f) = true /\
  BTree.findFile b' (FileNode.key f) = Some f /\
  (forall k, k <> FileNode.key f ->
             BTree.searchFile b' k = BTree.searchFile b k /\
             BTree.findFile b' k = BTree.findFile b k) /\
  BTree.countFiles (BTree.root b') = S (BTree.countFiles (BTree.root b)).
Proof.
  intros Hb Hex b'.
  destruct (insertHelper_new t Ht b f Hb Hex) as [_ Hperm]. fold b' in Hperm.
  assert (Hb' : BTree_inv t b') by now apply insertHelper_inv.
  pose proof (BTree_inv_sorted t b Hb) as Hs.
  pose proof (BTree_inv_sorted t b' Hb') as Hs'.
  assert (Hfind : BTree.findFile b' (FileNode.key f) = Some f).
  { rewrite (findFile_find t Ht b' _ Hb').
    destruct (find _ (contents b')) as [r|] eqn:E.
    - apply find_some in E. destruct E as [Hin Hk]. unfold has_key in Hk.
      apply Z.eqb_eq in Hk. f_equal. apply (sorted_key_inj (contents b')); auto.
      eapply Permutation_in; [symmetry; exact Hperm|now left].
    - assert (Hin : In f (contents b'))
        by (eapply Permutation_in; [symmetry; exact Hperm|now left]).
      apply (find_none _ _ E) in Hin. unfold has_key in Hin.
      rewrite Z.eqb_refl in Hin. discriminate. }
  split; [|split; [exact Hfind|split]].
  - rewrite (searchFile_spec t Ht b' _ Hb'), (existsb_has_key_perm _ _ _ Hperm).
    rewrite existsb_has_key_cons, Z.eqb_refl. reflexivity.
  - intros k Hk. split.
    + rewrite (searchFile_spec t Ht b' _ Hb'), (searchFile_spec t Ht b _ Hb).
      rewrite (existsb_has_key_perm _ _ _ Hperm), existsb_has_key_cons.
      destruct (Z.eqb_spec (FileNode.key f) k); [congruence|reflexivity].
    + rewrite (findFile_find t Ht b' _ Hb'), (findFile_find t Ht b _ Hb).
      apply find_sorted_perm; auto. intros r Hr. split; intros Hin.
      * eapply Permutation_in in Hin; [|exact Hperm].
        destruct Hin as [<-|Hin]; [congruence|assumption].
      * eapply Permutation_in; [symmetry; exact Hperm|now right].
  - rewrite !countFiles_contents. now rewrite (Permutation_length Hperm).
Qed.

Lemma In_drop_key_iff k r l :
  In r (drop_key k l) <-> In r l /\ FileNode.key r <> k.
Proof. apply In_drop_key. Qed.


Lemma insert_delete_contents b f :
  BTree_inv t b -> existsb (has_key (FileNode.key f)) (contents b) = false ->
  contents (fst (BTree.deleteHelper (fst (BTree.insertHelper b f t))
                                    (FileNode.key f)))
  = contents b.
Proof.
  intros Hb Hex.
  destruct (insertHelper_new t Ht b f Hb Hex) as [_ Hperm].
  set (b' := fst (BTree.insertHelper b f t)) in *.
  assert (Hb' : BTree_inv t b') by now apply insertHelper_inv.
  destruct (deleteHelper_spec t Ht b' (FileNode.key f) Hb') as [Hc _].
  rewrite Hc. apply sorted_perm_eq.
  - apply sorted_drop_key. now apply (BTree_inv_sorted t).
  - now apply (BTree_inv_sorted t).
  - apply NoDup_Permutation.
    + apply (NoDup_map_inv FileNode.key). fold (keys (drop_key (FileNode.key f)
                                                             (contents b'))).
      apply sorted_NoDup_keys, sorted_drop_key. now apply (BTree_inv_sorted t).
    + apply (NoDup_map_inv FileNode.key). fold (keys (contents b)).
      apply sorted_NoDup_keys. now apply (BTree_inv_sorted t).
    + intros r. rewrite In_drop_key. split.
      * intros [Hin Hk]. eapply Permutation_in in Hin; [|exact Hperm].
        destruct Hin as [<-|Hin]; [congruence|assumption].
      * intros Hin. split.
        -- eapply Permutation_in; [symmetry; exact Hperm|now right].
        -- intros E. rewrite <- E in Hex.
           assert (existsb (has_key (FileNode.key r)) (contents b) = true).
           { apply existsb_exists. exists r. split; [assumption|].
             unfold has_key. apply Z.eqb_refl. }
           congruence.
Qed.

Lemma delete_insert_contents b r :
  BTree_inv t b -> In r (contents b) ->
  contents (fst (BTree.insertHelper (fst (BTree.deleteHelper b (FileNode.key r)))
                                    r t))
  = contents b.
Proof.
  intros Hb Hin.
  destruct (deleteHelper_spec t Ht b (FileNode.key r) Hb) as [Hc _].
  set (b' := fst (BTree.deleteHelper b (FileNode.key r))) in *.
  assert (Hb' : BTree_inv t b') by now apply deleteHelper_inv.
  assert (Hex : existsb (has_key (FileNode.key r)) (contents b') = false).
  { destruct (existsb (has_key (FileNode.key r)) (contents b')) eqn:E;
      [|reflexivity].
    apply existsb_exists in E. destruct E as (x & Hx & Hk).
    rewrite Hc in Hx. apply In_drop_key in Hx. unfold has_key in Hk.
    apply Z.eqb_eq in Hk. tauto. }
  destruct (insertHelper_new t Ht b' r Hb' Hex) as [_ Hperm].
  pose proof (BTree_inv_sorted t b Hb) as Hs.
  apply sorted_perm_eq; auto.
  - apply (BTree_inv_sorted t). now apply insertHelper_inv.
  - rewrite Hperm. apply NoDup_Permutation.
    + constructor.
      * rewrite Hc, In_drop_key. tauto.
      * apply (NoDup_map_inv FileNode.key). fold (keys (contents b')).
        apply sorted_NoDup_keys. now apply (BTree_inv_sorted t).
    + apply (NoDup_map_inv FileNode.key). fold (keys (contents b)).
      now apply sorted_NoDup_keys.
    + intros x. simpl. rewrite Hc, In_drop_key. split.
      * intros [<-|[Hx _]]; assumption.
      * intros Hx. destruct (Z.eq_dec (FileNode.key x) (FileNode.key r)) as [E|E].
        -- left. symmetry. apply (sorted_key_inj (contents b)); auto.
        -- right. tauto.
Qed.

End BTreeOps.

(** * Further properties of the ring *)

(** ** The path of a lookup *)

Lemma route_loop_prefix fuel r key :
  forall c path visited path',
    CircularLinkedList.route_loop fuel r key c path visited = Ok path' ->
    exists more, path' = path ++ more.
Proof.
  induction fuel as [|fuel IH]; intros c path visited path' H; [discriminate|].
  cbn [CircularLinkedList.route_loop] in H.
  destruct (CircularLinkedList.responsible_test _ _ _ _).
  { injection H as <-. exists []. now rewrite app_nil_r. }
  destruct (nth_error _ _) as [hop|]; [|discriminate].
  destruct (existsb _ visited).
  { injection H as <-. exists []. now rewrite app_nil_r. }
  apply IH in H. destruct H as (more & ->).
  exists (CircularNode.key hop :: more). now rewrite <- app_assoc.
Qed.

Lemma first_pos_key r v :
  In v (ring_keys r) ->
  exists p, CircularLinkedList.first_pos r (fun p => CircularLinkedList.key_at r p =? v)
            = Some p /\
            (p < length (CircularLinkedList.nodes r))%nat /\
            CircularLinkedList.key_at r p = v.
Proof.
  intros Hin. destruct (In_key_at r v Hin) as (q & Hq & Ek).
  destruct (CircularLinkedList.first_pos r _) as [p|] eqn:E.
  - exists p. split; [reflexivity|]. apply first_pos_some in E.
    destruct E as (Hp & Ht & _). split; [assumption|now apply Z.eqb_eq].
  - pose proof (first_pos_none r _ E q Hq) as Hf. cbv beta in Hf.
    rewrite Ek, Z.eqb_refl in Hf. discriminate.
Qed.

Lemma routeToKey_start r start key path :
  CircularLinkedList.routeToKey r start key = Ok path ->
  (In start (ring_keys r) -> hd_error path = Some start) /\
  (~ In start (ring_keys r) -> path = []).
Proof.
  unfold CircularLinkedList.routeToKey, CircularLinkedList.routeToKey_fuel.
  intros H. split.
  - intros Hin. destruct (first_pos_key r start Hin) as (p & E & Hp & Ek).
    destruct (CircularLinkedList.nodes r) as [|x l] eqn:En; [simpl in Hp; lia|].
    rewrite E, Ek, Z.eqb_refl in H. cbn [negb] in H.
    apply route_loop_prefix in H. destruct H as (more & ->). reflexivity.
  - intros Hnin.
    destruct (CircularLinkedList.nodes r) as [|x l] eqn:En; [congruence|].
    set (current := match CircularLinkedList.first_pos r _ with
                    | Some p => p
                    | None => O
                    end) in *.
    assert (Hcur : (current < length (CircularLinkedList.nodes r))%nat).
    { unfold current.
      destruct (CircularLinkedList.first_pos r _) as [p|] eqn:E.
      - now apply first_pos_some in E.
      - rewrite En. simpl. lia. }
    destruct (Z.eqb_spec (CircularLinkedList.key_at r current) start) as [E|E].
    + exfalso. apply Hnin. rewrite <- E. now apply key_at_In.
    + cbn [negb] in H. congruence.
Qed.

(** ** The tree of a machine, by ID *)

Lemma BTree_of_key_at r p :
  StronglySorted Z.lt (ring_keys r) ->
  (p < length (CircularLinkedList.nodes r))%nat ->
  BTree_of r (CircularLinkedList.key_at r p) = Some (CircularLinkedList.BTree_at r p).
Proof.
  intros Hs Hp. unfold BTree_of. now rewrite (findMachineById_key_at r Hs p Hp).
Qed.

Lemma BTree_of_set_BTree r p b id :
  StronglySorted Z.lt (ring_keys r) ->
  (p < length (CircularLinkedList.nodes r))%nat ->
  BTree_of (CircularLinkedList.set_BTree r p b) id
  = if id =? CircularLinkedList.key_at r p then Some b else BTree_of r id.
Proof.
  intros Hs Hp. unfold BTree_of.
  rewrite (same_findMachineById r _ (ring_keys_set_BTree r p b)).
  destruct (Z.eqb_spec id (CircularLinkedList.key_at r p)) as [->|Hne].
  - rewrite (findMachineById_key_at r Hs p Hp).
    now rewrite BTree_at_set_BTree_eq.
  - destruct (CircularLinkedList.findMachineById r id) as [q|] eqn:E; [|reflexivity].
    rewrite BTree_at_set_BTree_neq; [reflexivity|].
    intros ->. apply first_pos_some in E. destruct E as (_ & Ht & _).
    apply Z.eqb_eq in Ht. congruence.
Qed.

Lemma BTree_of_Some r id b :
  BTree_of r id = Some b ->
  exists p, (p < length (CircularLinkedList.nodes r))%nat /\
            CircularLinkedList.key_at r p = id /\
            CircularLinkedList.BTree_at r p = b.
Proof.
  unfold BTree_of. destruct (CircularLinkedList.findMachineById r id) as [p|] eqn:E;
    [|discriminate].
  intros H. injection H as <-. apply first_pos_some in E.
  destruct E as (Hp & Ht & _). apply Z.eqb_eq in Ht. eauto.
Qed.

Section FileOps.

Variable order : Z.
Hypothesis Horder : 3 <= order.

(** ** What a get answers *)

Lemma SearchFile_spec r start k :
  ring_inv order r -> In start (ring_keys r) ->
  CircularLinkedList.SearchFile_WithMachine r start k
  = match find (has_key k)
               (contents (CircularLinkedList.BTree_at r (succ_pos r k))) with
    | Some f => Some (succ_pos r k, Some f)
    | None => None
    end.
Proof.
  intros Hinv Hin. pose proof (ring_inv_nonempty _ _ _ Hinv Hin) as Hn.
  pose proof Hinv as [Hsorted _ _ _].
  destruct (succ_pos_spec r Hn k) as [HR _].
  unfold CircularLinkedList.SearchFile_WithMachine.
  destruct (CircularLinkedList.nodes r) as [|x0 l0] eqn:En; [simpl in Hn; lia|].
  rewrite <- En in *. clear En x0 l0.
  destruct (routeToKey_sound order r start k Hinv Hin) as (rp & E1 & E2 & E3).
  rewrite E1. destruct rp as [|a rp]; [congruence|]. rewrite E3.
  rewrite (findMachineById_key_at r Hsorted _ HR).
  set (b := CircularLinkedList.BTree_at r (succ_pos r k)).
  assert (Hb : BTree_inv order b) by now apply BTree_at_inv.
  rewrite (searchFile_spec order Horder b k Hb), existsb_find.
  rewrite (findFile_find order Horder b k Hb).
  destruct (find (has_key k) (contents b)); reflexivity.
Qed.

Lemma SearchFile_unknown_start r start k :
  ~ In start (ring_keys r) ->
  CircularLinkedList.SearchFile_WithMachine r start k = None.
Proof.
  intros Hnin. unfold CircularLinkedList.SearchFile_WithMachine.
  destruct (CircularLinkedList.nodes r); [reflexivity|].
  destruct (CircularLinkedList.routeToKey r start k) as [path| |] eqn:E;
    try reflexivity.
  apply routeToKey_start in E. destruct E as [_ E]. now rewrite (E Hnin).
Qed.

End FileOps.

Section PutDelete.

Variable order : Z.
Hypothesis Horder : 3 <= order.

(** ** What a put does *)

Lemma InsertFileToTree_spec r start k path :
  ring_inv order r -> In start (ring_keys r) ->
  let R := succ_pos r k in
  let b := CircularLinkedList.BTree_at r R in
  CircularLinkedList.InsertFileToTree r start k path order
  = if existsb (has_key k) (contents b)
    then (r, PutAlreadyExists (CircularLinkedList.key_at r R))
    else (CircularLinkedList.set_BTree r R
            (fst (BTree.insertHelper b (FileNode.mk k path) order)),
          PutStored (CircularLinkedList.key_at r R)).
Proof.
  intros Hinv Hin R b. pose proof (ring_inv_nonempty _ _ _ Hinv Hin) as Hn.
  pose proof Hinv as [Hsorted _ _ _].
  destruct (succ_pos_spec r Hn k) as [HR _]. fold R in HR.
  unfold CircularLinkedList.InsertFileToTree.
  destruct (CircularLinkedList.nodes r) as [|x0 l0] eqn:En; [simpl in Hn; lia|].
  rewrite <- En in *. clear En x0 l0.
  rewrite (proj2 (search_true_iff r start) Hin). cbn [negb].
  destruct (routeToKey_sound order r start k Hinv Hin) as (rp & E1 & E2 & E3).
  rewrite E1. destruct rp as [|a rp]; [congruence|]. rewrite E3. fold R.
  rewrite (findMachineById_key_at r Hsorted R HR). fold b.
  assert (Hb : BTree_inv order b) by now apply BTree_at_inv.
  now rewrite (searchFile_spec order Horder b k Hb).
Qed.

Lemma InsertFileToTree_rejected r start k path :
  (CircularLinkedList.nodes r = [] ->
   CircularLinkedList.InsertFileToTree r start k path order = (r, PutEmptyRing)) /\
  (CircularLinkedList.nodes r <> [] -> ~ In start (ring_keys r) ->
   CircularLinkedList.InsertFileToTree r start k path order
   = (r, PutNoSuchMachine)).
Proof.
  unfold CircularLinkedList.InsertFileToTree. split.
  - intros ->. reflexivity.
  - intros Hne Hnin.
    destruct (CircularLinkedList.nodes r) as [|x l]; [congruence|].
    destruct (CircularLinkedList.search r start) eqn:Es; [|reflexivity].
    apply search_true_iff in Es. contradiction.
Qed.

(** ** What a delete does *)

Lemma DeleteFileFromTree_spec r start k :
  ring_inv order r -> In start (ring_keys r) ->
  let R := succ_pos r k in
  let b := CircularLinkedList.BTree_at r R in
  CircularLinkedList.DeleteFileFromTree r start k
  = if existsb (has_key k) (contents b)
    then (CircularLinkedList.set_BTree r R (fst (BTree.deleteHelper b k)), true)
    else (r, false).
Proof.
  intros Hinv Hin R b. pose proof (ring_inv_nonempty _ _ _ Hinv Hin) as Hn.
  pose proof Hinv as [Hsorted _ _ _].
  destruct (succ_pos_spec r Hn k) as [HR _]. fold R in HR.
  unfold CircularLinkedList.DeleteFileFromTree.
  destruct (CircularLinkedList.nodes r) as [|x0 l0] eqn:En; [simpl in Hn; lia|].
  rewrite <- En in *. clear En x0 l0.
  destruct (routeToKey_sound order r start k Hinv Hin) as (rp & E1 & E2 & E3).
  rewrite E1. destruct rp as [|a rp]; [congruence|]. rewrite E3. fold R.
  rewrite (findMachineById_key_at r Hsorted R HR). fold b.
  assert (Hb : BTree_inv order b) by now apply BTree_at_inv.
  rewrite (findFile_find order Horder b k Hb), existsb_find.
  destruct (find (has_key k) (contents b)); reflexivity.
Qed.

Lemma DeleteFileFromTree_unknown_start r start k :
  ~ In start (ring_keys r) ->
  CircularLinkedList.DeleteFileFromTree r start k = (r, false).
Proof.
  intros Hnin. unfold CircularLinkedList.DeleteFileFromTree.
  destruct (CircularLinkedList.nodes r); [reflexivity|].
  destruct (CircularLinkedList.routeToKey r start k) as [path| |] eqn:E;
    try reflexivity.
  apply routeToKey_start in E. destruct E as [_ E]. now rewrite (E Hnin).
Qed.

End PutDelete.

(** ** Rebuilding the finger tables twice *)

Lemma with_RT_with_RT n a b :
  CircularNode.with_RT (CircularNode.with_RT n a) b = CircularNode.with_RT n b.
Proof. reflexivity. Qed.

Lemma updateRT_idempotent r :
  CircularLinkedList.updateRT (CircularLinkedList.updateRT r)
  = CircularLinkedList.updateRT r.
Proof.
  pose proof (ring_keys_updateRT r) as Hk.
  pose proof (identifierSpace_updateRT r) as Hs.
  set (r1 := CircularLinkedList.updateRT r) in *.
  unfold CircularLinkedList.updateRT at 1.
  transitivity
    (CircularLinkedList.with_nodes r1
       (map (fun current =>
               CircularNode.with_RT current
                 (CircularLinkedList.fill_fingers r (CircularNode.key current) 0
                    (DoublyLinkedList.initialize
                       (DoublyLinkedList.clear (CircularNode.RT current))
                       (CircularNode.key current)
                       (CircularLinkedList.identifierSpace r))))
            (CircularLinkedList.nodes r1))).
  { f_equal. apply map_ext. intros n.
    now rewrite (same_fill_fingers r r1 Hk Hs), Hs. }
  unfold r1, CircularLinkedList.updateRT, CircularLinkedList.with_nodes.
  cbn [CircularLinkedList.nodes CircularLinkedList.identifierSpace
       CircularLinkedList.bits CircularLinkedList.btreeOrder].
  f_equal. rewrite map_map. apply map_ext. intros n. reflexivity.
Qed.

(** * Where the records belong *)

(** ** Successors when an ID comes or goes *)

Lemma successor_unique K k a b :
  is_successor K k a -> is_successor K k b -> a = b.
Proof.
  intros [Ha [[Ha1 Ha2]|[Ha1 Ha2]]] [Hb [[Hb1 Hb2]|[Hb1 Hb2]]].
  - specialize (Ha2 b Hb Hb1). specialize (Hb2 a Ha Ha1). lia.
  - specialize (Hb1 a Ha). lia.
  - specialize (Ha1 b Hb). lia.
  - specialize (Ha2 b Hb). specialize (Hb2 a Ha). lia.
Qed.

Lemma in_interval_cases p n k :
  in_interval p n k <->
  (p < n /\ p < k <= n) \/ (n <= p /\ (p < k \/ k <= n)).
Proof.
  unfold in_interval. destruct (Z.ltb_spec p n); split; intros Hi; lia.
Qed.

Lemma in_interval_dec p n k : {in_interval p n k} + {~ in_interval p n k}.
Proof.
  destruct (CircularLinkedList.shouldMove p n k) eqn:E.
  - left. now apply shouldMove_iff.
  - right. intros H. apply shouldMove_iff in H. congruence.
Qed.

Section Joining.

(** [K'] is [K] with the new ID [id], whose neighbours among [K] are
    [pid] and [sid]. *)
Variables (K K' : list Z) (id pid sid : Z).
Hypothesis Hfresh : ~ In id K.
Hypothesis HK' : forall y, In y K' <-> y = id \/ In y K.
Hypothesis Hpid : is_predecessor K id pid.
Hypothesis Hsid : is_successor K id sid.

Lemma join_takes k : in_interval pid id k -> is_successor K' k id.
Proof.
  intros Hi. apply in_interval_cases in Hi.
  destruct Hpid as [Hp [[Hp1 Hp2]|[Hp1 Hp2]]].
  - destruct Hi as [[_ Hi]|[? _]]; [|lia].
    split; [apply HK'; now left|]. left. split; [lia|].
    intros y Hy Hky. apply HK' in Hy. destruct Hy as [->|Hy]; [lia|].
    destruct (Z.lt_ge_cases y id) as [Hlt|?]; [|lia].
    specialize (Hp2 y Hy Hlt). lia.
  - assert (Hlt : id < pid).
    { specialize (Hp1 pid Hp). destruct (Z.eq_dec id pid); [subst; contradiction|lia]. }
    destruct Hi as [[? _]|[_ Hi]]; [lia|].
    split; [apply HK'; now left|].
    destruct (Z.le_gt_cases k id) as [Hle|Hgt].
    + left. split; [assumption|]. intros y Hy _. apply HK' in Hy.
      destruct Hy as [->|Hy]; [lia|]. now apply Hp1.
    + right. split.
      * intros y Hy. apply HK' in Hy. destruct Hy as [->|Hy]; [lia|].
        specialize (Hp2 y Hy). lia.
      * intros y Hy. apply HK' in Hy. destruct Hy as [->|Hy]; [lia|]. now apply Hp1.
Qed.

Lemma join_keeps k x :
  is_successor K k x -> ~ in_interval pid id k -> is_successor K' k x.
Proof.
  intros [Hx Hs] Hni. rewrite in_interval_cases in Hni.
  assert (Hxid : x <> id) by (intros ->; contradiction).
  split; [apply HK'; now right|].
  destruct Hpid as [Hp [[Hp1 Hp2]|[Hp1 Hp2]]].
  - destruct Hs as [[Hs1 Hs2]|[Hs1 Hs2]].
    + left. split; [assumption|]. intros y Hy Hky. apply HK' in Hy.
      destruct Hy as [->|Hy]; [|now apply Hs2].
      destruct (Z.lt_ge_cases id x) as [Hlt|?]; [|lia].
      exfalso. apply Hni. left. split; [assumption|]. split; [|assumption].
      destruct (Z.lt_ge_cases pid k) as [?|Hge]; [assumption|].
      specialize (Hs2 pid Hp Hge). lia.
    + right. pose proof (Hs1 pid Hp) as Hpk.
      assert (Hidk : id < k).
      { destruct (Z.lt_ge_cases id k) as [?|Hge]; [assumption|].
        exfalso. apply Hni. left. lia. }
      split.
      * intros y Hy. apply HK' in Hy. destruct Hy as [->|Hy]; [assumption|auto].
      * intros y Hy. apply HK' in Hy. destruct Hy as [->|Hy]; [|auto].
        specialize (Hs2 pid Hp). lia.
  - assert (Hlt : id < pid).
    { specialize (Hp1 pid Hp). destruct (Z.eq_dec id pid); [subst; contradiction|lia]. }
    assert (Hxgt : id < x).
    { specialize (Hp1 x Hx). lia. }
    destruct Hs as [[Hs1 Hs2]|[Hs1 Hs2]].
    + left. split; [assumption|]. intros y Hy Hky. apply HK' in Hy.
      destruct Hy as [->|Hy]; [|now apply Hs2].
      exfalso. apply Hni. right. lia.
    + exfalso. apply Hni. right. specialize (Hs1 pid Hp). lia.
Qed.

Lemma join_from_successor k x :
  is_successor K k x -> in_interval pid id k -> x = sid.
Proof.
  intros [Hx Hs] Hi. apply in_interval_cases in Hi.
  apply (successor_unique K id); [|exact Hsid].
  assert (Hxid : x <> id) by (intros ->; contradiction).
  split; [assumption|].
  destruct Hpid as [Hp [[Hp1 Hp2]|[Hp1 Hp2]]].
  - destruct Hi as [[_ Hi]|[? _]]; [|lia].
    destruct Hs as [[Hs1 Hs2]|[Hs1 Hs2]].
    + left. assert (id < x).
      { destruct (Z.lt_ge_cases id x) as [?|Hge]; [assumption|].
        assert (x < id) by lia. specialize (Hp2 x Hx H). lia. }
      split; [lia|]. intros y Hy Hge. apply Hs2; [assumption|lia].
    + right. split; [|assumption]. intros y Hy. specialize (Hs1 y Hy). lia.
  - assert (Hlt : id < pid).
    { specialize (Hp1 pid Hp). destruct (Z.eq_dec id pid); [subst; contradiction|lia]. }
    destruct Hi as [[? _]|[_ Hi]]; [lia|].
    destruct Hs as [[Hs1 Hs2]|[Hs1 Hs2]].
    + destruct Hi as [Hi|Hi].
      * specialize (Hp2 x Hx). lia.
      * left. split; [specialize (Hp1 x Hx); lia|].
        intros y Hy Hge. apply Hs2; [assumption|lia].
    + left. split; [specialize (Hp1 x Hx); lia|]. intros y Hy _. now apply Hs2.
Qed.

End Joining.

Section Leaving.

(** [K'] is [K] without the ID [id], whose successor among [K'] is
    [sid]. *)
Variables (K K' : list Z) (id sid : Z).
Hypothesis HK' : forall y, In y K' <-> In y K /\ y <> id.
Hypothesis Hsid : is_successor K' id sid.

Lemma leave_keeps k x :
  is_successor K k x -> x <> id -> is_successor K' k x.
Proof.
  intros [Hx Hs] Hne. split; [apply HK'; tauto|].
  destruct Hs as [[Hs1 Hs2]|[Hs1 Hs2]].
  - left. split; [assumption|]. intros y Hy. apply HK' in Hy. now apply Hs2.
  - right. split; intros y Hy; apply HK' in Hy; [apply Hs1|apply Hs2]; tauto.
Qed.

Lemma leave_gives k : is_successor K k id -> is_successor K' k sid.
Proof.
  intros [Hid Hs]. destruct Hsid as [Hsin Hss]. split; [assumption|].
  destruct Hs as [[Hs1 Hs2]|[Hs1 Hs2]].
  - destruct Hss as [[Hss1 Hss2]|[Hss1 Hss2]].
    + left. split; [lia|]. intros y Hy Hky. apply Hss2; [assumption|].
      apply HK' in Hy. apply Hs2; tauto.
    + right. split; [|assumption]. intros y Hy.
      destruct (Z.lt_ge_cases y k) as [?|Hge]; [assumption|].
      pose proof (Hss1 y Hy). apply HK' in Hy. specialize (Hs2 y (proj1 Hy) Hge). lia.
  - right. split.
    + intros y Hy. apply HK' in Hy. apply Hs1. tauto.
    + destruct Hss as [[Hss1 Hss2]|[Hss1 Hss2]].
      * intros y Hy. apply Hss2; [assumption|]. apply HK' in Hy. apply Hs2. tauto.
      * specialize (Hss1 sid Hsin). apply HK' in Hsin.
        specialize (Hs2 sid (proj1 Hsin)). lia.
Qed.

End Leaving.

(** ** Removing one element of a list *)

Lemma nth_error_remove_at {A : Type} (l : list A) c q :
  nth_error (remove_at c l) q
  = if (q <? c)%nat then nth_error l q else nth_error l (S q).
Proof.
  unfold remove_at. destruct (Nat.ltb_spec q c) as [Hlt|Hge].
  - destruct (Nat.lt_ge_cases q (length (firstn c l))) as [H|H].
    + rewrite nth_error_app1 by assumption. rewrite nth_error_firstn.
      destruct (Nat.ltb_spec q c); [reflexivity|lia].
    + rewrite length_firstn in H.
      assert (length l <= q)%nat by lia.
      rewrite (proj2 (nth_error_None l q)) by assumption.
      apply nth_error_None. rewrite length_app, length_firstn, length_skipn. lia.
  - destruct (Nat.lt_ge_cases c (length l)) as [Hc|Hc].
    + rewrite nth_error_app2 by (rewrite length_firstn; lia).
      rewrite length_firstn, nth_error_skipn. f_equal. lia.
    + rewrite (proj2 (nth_error_None l (S q))) by lia.
      apply nth_error_None. rewrite length_app, length_firstn, length_skipn. lia.
Qed.

Lemma In_remove_at {A : Type} (l : list A) c x :
  In x (remove_at c l) <-> exists q, q <> c /\ nth_error l q = Some x.
Proof.
  split.
  - intros H. apply In_nth_error in H. destruct H as (q & Hq).
    rewrite nth_error_remove_at in Hq.
    destruct (Nat.ltb_spec q c); [exists q|exists (S q)]; split; auto; lia.
  - intros (q & Hq & E).
    destruct (Nat.lt_ge_cases q c) as [Hlt|Hge].
    + apply (nth_error_In _ q). rewrite nth_error_remove_at.
      destruct (Nat.ltb_spec q c); [assumption|lia].
    + destruct q as [|q]; [lia|].
      apply (nth_error_In _ q). rewrite nth_error_remove_at.
      destruct (Nat.ltb_spec q c); [lia|assumption].
Qed.

(** ** Neighbours in a sorted ring *)

Section Neighbours.

Variable r : CircularLinkedList.t.
Hypothesis Hsorted : StronglySorted Z.lt (ring_keys r).
Hypothesis Hn : (2 <= length (CircularLinkedList.nodes r))%nat.

Variable c : nat.
Hypothesis Hc : (c < length (CircularLinkedList.nodes r))%nat.

(** The other IDs of the ring. *)
Variable Krest : list Z.
Hypothesis HKrest :
  forall y, In y Krest <->
            In y (ring_keys r) /\ y <> CircularLinkedList.key_at r c.

Lemma predpos_lt :
  ((if (c =? 0)%nat then (length (CircularLinkedList.nodes r) - 1)%nat
    else (c - 1)%nat) < length (CircularLinkedList.nodes r))%nat.
Proof. destruct (Nat.eqb_spec c 0); lia. Qed.

Lemma ring_predecessor :
  is_predecessor Krest (CircularLinkedList.key_at r c)
    (CircularLinkedList.key_at r
       (if (c =? 0)%nat then (length (CircularLinkedList.nodes r) - 1)%nat
        else (c - 1)%nat)).
Proof.
  pose proof predpos_lt as Hp.
  set (pp := if (c =? 0)%nat then _ else _) in *.
  assert (Hne : pp <> c) by (unfold pp; destruct (Nat.eqb_spec c 0); lia).
  split.
  - apply HKrest. split; [now apply key_at_In|].
    intros E. apply Hne. now apply (key_at_inj r Hsorted).
  - destruct (Nat.eqb_spec c 0) as [E|E].
    + right. split; intros y Hy; apply HKrest in Hy; destruct Hy as [Hy _];
        destruct (In_key_at r y Hy) as (q & Hq & <-);
        apply key_at_le_iff; auto; unfold pp; lia.
    + left. split; [apply key_at_lt_iff; auto; unfold pp; lia|].
      intros y Hy Hlt. apply HKrest in Hy. destruct Hy as [Hy _].
      destruct (In_key_at r y Hy) as (q & Hq & <-).
      apply key_at_lt_iff in Hlt; auto.
      apply key_at_le_iff; auto. unfold pp. lia.
Qed.

Lemma ring_successor :
  is_successor Krest (CircularLinkedList.key_at r c)
    (CircularLinkedList.key_at r (CircularLinkedList.next r c)).
Proof.
  pose proof (next_lt r c Hc) as Hs.
  assert (Hne : CircularLinkedList.next r c <> c).
  { unfold CircularLinkedList.next.
    destruct (Nat.ltb_spec (S c) (length (CircularLinkedList.nodes r))); lia. }
  split.
  - apply HKrest. split; [now apply key_at_In|].
    intros E. apply Hne. now apply (key_at_inj r Hsorted).
  - unfold CircularLinkedList.next in *.
    destruct (Nat.ltb_spec (S c) (length (CircularLinkedList.nodes r))) as [Hlt|Hge].
    + left. split; [apply key_at_le_iff; auto; lia|].
      intros y Hy Hle. apply HKrest in Hy. destruct Hy as [Hy Hyc].
      destruct (In_key_at r y Hy) as (q & Hq & <-).
      apply key_at_le_iff in Hle; auto. apply key_at_le_iff; auto.
      assert (q <> c) by congruence. lia.
    + right. split; intros y Hy; apply HKrest in Hy; destruct Hy as [Hy Hyc];
        destruct (In_key_at r y Hy) as (q & Hq & <-).
      * apply key_at_lt_iff; auto. assert (q <> c) by congruence. lia.
      * apply key_at_le_iff; auto. lia.
Qed.

End Neighbours.

(** ** The placement, position by position *)

Lemma placed_positions r :
  placed r <->
  forall p f,
    (p < length (CircularLinkedList.nodes r))%nat ->
    In f (contents (CircularLinkedList.BTree_at r p)) ->
    is_successor (ring_keys r) (FileNode.key f) (CircularLinkedList.key_at r p).
Proof.
  unfold placed. split.
  - intros H p f Hp Hf.
    destruct (nth_error (CircularLinkedList.nodes r) p) as [node|] eqn:E.
    2:{ apply nth_error_None in E. lia. }
    rewrite (BTree_at_nth_error r p node E) in Hf.
    rewrite <- (nth_error_key_at r p node E).
    apply H; [eapply nth_error_In; eauto|assumption].
  - intros H node f Hin Hf. destruct (In_nth_error _ _ Hin) as (p & E).
    rewrite (nth_error_key_at r p node E).
    apply H.
    + apply nth_error_Some. congruence.
    + now rewrite (BTree_at_nth_error r p node E).
Qed.

Lemma stored_positions r f :
  stored r f <->
  exists p, (p < length (CircularLinkedList.nodes r))%nat /\
            In f (contents (CircularLinkedList.BTree_at r p)).
Proof.
  unfold stored. split.
  - intros (node & Hin & Hf). destruct (In_nth_error _ _ Hin) as (p & E).
    exists p. split; [apply nth_error_Some; congruence|].
    now rewrite (BTree_at_nth_error r p node E).
  - intros (p & Hp & Hf).
    destruct (nth_error (CircularLinkedList.nodes r) p) as [node|] eqn:E.
    2:{ apply nth_error_None in E. lia. }
    exists node. split; [eapply nth_error_In; eauto|].
    now rewrite <- (BTree_at_nth_error r p node E).
Qed.

(** Replacing one tree. *)
Lemma placed_set_BTree r p b :
  placed r -> (p < length (CircularLinkedList.nodes r))%nat ->
  (forall f, In f (contents b) ->
             is_successor (ring_keys r) (FileNode.key f)
                          (CircularLinkedList.key_at r p)) ->
  placed (CircularLinkedList.set_BTree r p b).
Proof.
  intros Hpl Hp Hb. apply placed_positions. intros q f Hq Hf.
  rewrite ring_keys_set_BTree.
  rewrite (same_key_at r _ (ring_keys_set_BTree r p b)).
  rewrite length_set_BTree in Hq.
  destruct (Nat.eq_dec q p) as [->|Hne].
  - rewrite BTree_at_set_BTree_eq in Hf by assumption. now apply Hb.
  - rewrite BTree_at_set_BTree_neq in Hf by assumption.
    now apply (proj1 (placed_positions r) Hpl).
Qed.

Lemma nodes_updateRT_In r node :
  In node (CircularLinkedList.nodes (CircularLinkedList.updateRT r)) ->
  exists node0, In node0 (CircularLinkedList.nodes r) /\
                CircularNode.key node = CircularNode.key node0 /\
                CircularNode.BTreeroot node = CircularNode.BTreeroot node0.
Proof.
  unfold CircularLinkedList.updateRT.
  cbn [CircularLinkedList.nodes CircularLinkedList.with_nodes].
  intros H. apply in_map_iff in H. destruct H as (node0 & <- & Hin).
  exists node0. auto.
Qed.

Lemma In_nodes_updateRT r node0 :
  In node0 (CircularLinkedList.nodes r) ->
  exists node, In node (CircularLinkedList.nodes (CircularLinkedList.updateRT r)) /\
               CircularNode.key node = CircularNode.key node0 /\
               CircularNode.BTreeroot node = CircularNode.BTreeroot node0.
Proof.
  intros Hin. unfold CircularLinkedList.updateRT.
  cbn [CircularLinkedList.nodes CircularLinkedList.with_nodes].
  eexists. split; [apply in_map; exact Hin|]. split; reflexivity.
Qed.

Lemma placed_updateRT r : placed r -> placed (CircularLinkedList.updateRT r).
Proof.
  intros H node f Hin Hf. rewrite ring_keys_updateRT.
  apply nodes_updateRT_In in Hin. destruct Hin as (node0 & Hin & Hk & Hb).
  rewrite Hk. apply H; [assumption|]. now rewrite <- Hb.
Qed.

Lemma stored_updateRT r f : stored (CircularLinkedList.updateRT r) f <-> stored r f.
Proof.
  unfold stored. split.
  - intros (node & Hin & Hf). apply nodes_updateRT_In in Hin.
    destruct Hin as (node0 & Hin & _ & Hb). exists node0. now rewrite <- Hb.
  - intros (node0 & Hin & Hf). destruct (In_nodes_updateRT r node0 Hin)
      as (node & Hin' & _ & Hb).
    exists node. now rewrite Hb.
Qed.

(** ** The operations keep the records in place *)

Lemma predpos_next r pp :
  (pp < length (CircularLinkedList.nodes r))%nat ->
  (if (CircularLinkedList.next r pp =? 0)%nat
   then (length (CircularLinkedList.nodes r) - 1)%nat
   else (CircularLinkedList.next r pp - 1)%nat) = pp.
Proof.
  intros Hp. unfold CircularLinkedList.next.
  destruct (Nat.ltb_spec (S pp) (length (CircularLinkedList.nodes r))).
  - destruct (Nat.eqb_spec (S pp) 0); lia.
  - destruct (Nat.eqb_spec 0 0); lia.
Qed.

Section PlacedOps.

Variable order : Z.
Hypothesis Horder : 3 <= order.

Lemma placed_InsertFileToTree r start k path :
  ring_inv order r -> placed r ->
  placed (fst (CircularLinkedList.InsertFileToTree r start k path order)).
Proof.
  intros Hinv Hpl.
  destruct (in_dec Z.eq_dec start (ring_keys r)) as [Hin|Hnin].
  - pose proof (ring_inv_nonempty _ _ _ Hinv Hin) as Hn.
    pose proof Hinv as [Hsorted _ _ _].
    destruct (succ_pos_spec r Hn k) as [HR _].
    rewrite (InsertFileToTree_spec order Horder r start k path Hinv Hin).
    cbv zeta. set (R := succ_pos r k) in *.
    set (b := CircularLinkedList.BTree_at r R).
    assert (Hb : BTree_inv order b) by now apply BTree_at_inv.
    destruct (existsb (has_key k) (contents b)) eqn:Ex; [assumption|].
    cbn [fst]. apply placed_set_BTree; auto.
    destruct (insertHelper_new order Horder b (FileNode.mk k path) Hb Ex)
      as [_ Hperm].
    intros f Hf. eapply Permutation_in in Hf; [|exact Hperm].
    destruct Hf as [<-|Hf].
    + cbn [FileNode.key]. now apply succ_is_successor.
    + now apply (proj1 (placed_positions r) Hpl).
  - destruct (InsertFileToTree_rejected order r start k path) as [H1 H2].
    destruct (CircularLinkedList.nodes r) as [|x l] eqn:En.
    + now rewrite H1.
    + rewrite H2; [assumption|discriminate|assumption].
Qed.

Lemma placed_DeleteFileFromTree r start k :
  ring_inv order r -> placed r ->
  placed (fst (CircularLinkedList.DeleteFileFromTree r start k)).
Proof.
  intros Hinv Hpl.
  destruct (in_dec Z.eq_dec start (ring_keys r)) as [Hin|Hnin].
  - pose proof (ring_inv_nonempty _ _ _ Hinv Hin) as Hn.
    destruct (succ_pos_spec r Hn k) as [HR _].
    rewrite (DeleteFileFromTree_spec order Horder r start k Hinv Hin).
    cbv zeta. set (R := succ_pos r k) in *.
    set (b := CircularLinkedList.BTree_at r R).
    assert (Hb : BTree_inv order b) by now apply BTree_at_inv.
    destruct (existsb (has_key k) (contents b)); [|assumption].
    cbn [fst]. apply placed_set_BTree; auto.
    destruct (deleteHelper_spec order Horder b k Hb) as [Hc _].
    intros f Hf. rewrite Hc in Hf. apply In_drop_key in Hf.
    apply (proj1 (placed_positions r) Hpl); tauto.
  - now rewrite DeleteFileFromTree_unknown_start.
Qed.

(** The neighbours of the machine that joined. *)
Lemma joined_neighbours r r' id pp :
  StronglySorted Z.lt (ring_keys r') ->
  Permutation (ring_keys r') (id :: ring_keys r) ->
  ~ In id (ring_keys r) -> CircularLinkedList.nodes r <> [] ->
  (pp < length (CircularLinkedList.nodes r'))%nat ->
  CircularLinkedList.key_at r' (CircularLinkedList.next r' pp) = id ->
  (forall y, In y (ring_keys r') <-> y = id \/ In y (ring_keys r)) /\
  is_predecessor (ring_keys r) id (CircularLinkedList.key_at r' pp) /\
  is_successor (ring_keys r) id
    (CircularLinkedList.key_at r'
       (CircularLinkedList.next r' (CircularLinkedList.next r' pp))).
Proof.
  intros Hs' Hperm Hfresh Hne Hpp Eid.
  assert (HK' : forall y, In y (ring_keys r') <-> y = id \/ In y (ring_keys r)).
  { intros y. split; intros H.
    - eapply Permutation_in in H; [|exact Hperm]. simpl in H.
      destruct H; [left; congruence|now right].
    - eapply Permutation_in; [symmetry; exact Hperm|]. simpl.
      destruct H; [left; congruence|now right]. }
  assert (Hn' : (2 <= length (CircularLinkedList.nodes r'))%nat).
  { rewrite <- (length_ring_keys r'), (Permutation_length Hperm). simpl.
    rewrite length_ring_keys.
    destruct (CircularLinkedList.nodes r); [congruence|simpl; lia]. }
  pose proof (next_lt r' pp Hpp) as Hnp.
  set (np := CircularLinkedList.next r' pp) in *.
  assert (HKrest : forall y, In y (ring_keys r) <->
                             In y (ring_keys r') /\
                             y <> CircularLinkedList.key_at r' np).
  { intros y. rewrite Eid, HK'. split.
    - intros H. split; [now right|]. intros ->. contradiction.
    - intros [[->|H] Hy]; [contradiction|assumption]. }
  split; [exact HK'|]. split.
  - pose proof (ring_predecessor r' Hs' Hn' np Hnp (ring_keys r) HKrest) as H.
    unfold np in H at 2 3. rewrite (predpos_next r' pp Hpp) in H.
    now rewrite Eid in H.
  - pose proof (ring_successor r' Hs' Hn' np Hnp (ring_keys r) HKrest) as H.
    now rewrite Eid in H.
Qed.

Lemma placed_insertAfter r id :
  ring_inv order r -> placed r ->
  placed (fst (CircularLinkedList.insertAfter r id order)).
Proof.
  intros Hinv Hpl.
  pose proof (insertAfter_inv order Horder r id Hinv) as Hinv'.
  pose proof Hinv as [Hs0 _ _ _]. pose proof Hinv' as [Hs' _ _ _].
  destruct (in_dec Z.eq_dec id (ring_keys r)) as [Hin|Hnin].
  { unfold CircularLinkedList.insertAfter.
    now rewrite (proj2 (search_true_iff r id) Hin). }
  destruct (Z_lt_ge_dec id 0) as [Hlo|Hlo].
  { unfold CircularLinkedList.insertAfter.
    destruct (CircularLinkedList.search r id); [assumption|].
    destruct (Z.ltb_spec id 0); [assumption|lia]. }
  destruct (Z_lt_ge_dec id (CircularLinkedList.identifierSpace r)) as [Hhi|Hhi].
  2:{ unfold CircularLinkedList.insertAfter.
      destruct (CircularLinkedList.search r id); [assumption|].
      destruct (Z.leb_spec (CircularLinkedList.identifierSpace r) id);
        [now rewrite orb_true_r|lia]. }
  destruct (CircularLinkedList.nodes r) as [|x0 l0] eqn:En.
  - (* the first machine *)
    unfold CircularLinkedList.insertAfter in *.
    destruct (CircularLinkedList.search r id) eqn:Es.
    { apply search_true_iff in Es. contradiction. }
    destruct (Z.ltb_spec id 0); [lia|].
    destruct (Z.leb_spec (CircularLinkedList.identifierSpace r) id); [lia|].
    cbn [orb fst] in *.
    set (r1 := CircularLinkedList.updateRT (CircularLinkedList.insert r id)) in *.
    assert (Hempty : forall node, In node (CircularLinkedList.nodes r1) ->
                                  contents (CircularNode.BTreeroot node) = []).
    { intros node Hnode. destruct (In_nth_error _ _ Hnode) as (q & Eq).
      destruct (updateRT_insert_node r id q node Eq)
        as [[_ ->]|(node0 & Hin0 & _)]; [reflexivity|].
      rewrite En in Hin0. destruct Hin0. }
    assert (Hl1 : length (CircularLinkedList.nodes r1) = 1%nat).
    { rewrite <- (length_ring_keys r1). unfold r1.
      rewrite ring_keys_updateRT,
        (Permutation_length (ring_keys_insert_perm r id)).
      simpl. rewrite length_ring_keys, En. reflexivity. }
    assert (Hpl1 : placed r1).
    { intros node f Hnode Hf. rewrite (Hempty node Hnode) in Hf. destruct Hf. }
    destruct (CircularLinkedList.SearchNewMachine r1 id); [|assumption].
    unfold CircularLinkedList.getMachineCount. rewrite Hl1. assumption.
  - assert (Hne : CircularLinkedList.nodes r <> []) by congruence.
    clear En x0 l0.
    destruct (insertAfter_handoff order Horder r id Hinv Hne ltac:(lia) Hnin)
      as (_ & Hperm & Hh).
    set (r' := fst (CircularLinkedList.insertAfter r id order)) in *.
    destruct Hh as (pp & Hpp & Eid & bs & Ebs & Hcn & Hcs & Hco).
    destruct (joined_neighbours r r' id pp Hs' Hperm Hnin Hne Hpp Eid)
      as (HK' & Hpid & Hsid).
    set (np := CircularLinkedList.next r' pp) in *.
    set (sp := CircularLinkedList.next r' np) in *.
    set (pid := CircularLinkedList.key_at r' pp) in *.
    set (sid := CircularLinkedList.key_at r' sp) in *.
    assert (Hold : forall x b f,
               BTree_of r x = Some b -> In f (contents b) ->
               is_successor (ring_keys r) (FileNode.key f) x).
    { intros x b f Eb Hf. apply BTree_of_Some in Eb.
      destruct Eb as (p0 & Hp0 & <- & <-).
      now apply (proj1 (placed_positions r) Hpl). }
    apply placed_positions. intros q f Hq Hf.
    destruct (Nat.eq_dec q np) as [->|Hqn].
    + apply Hcn in Hf. destruct Hf as [_ Hi]. rewrite Eid.
      exact (join_takes _ _ id pid sid Hnin HK' Hpid Hsid _ Hi).
    + destruct (Nat.eq_dec q sp) as [->|Hqs].
      * apply Hcs in Hf. destruct Hf as [Hf Hi].
        exact (join_keeps _ _ id pid sid Hnin HK' Hpid Hsid _ _ (Hold _ _ _ Ebs Hf) Hi).
      * pose proof (Hold _ _ _ (Hco q Hq Hqn Hqs) Hf) as Hsucc.
        apply (join_keeps _ _ id pid sid Hnin HK' Hpid Hsid _ _ Hsucc).
        intros Hi.
        pose proof (join_from_successor _ _ id pid sid Hnin HK' Hpid Hsid _ _ Hsucc Hi)
          as E.
        apply Hqs. apply (key_at_inj r' Hs'); auto.
        apply next_lt. now apply next_lt.
Qed.

End PlacedOps.

(** ** A machine leaves *)

Lemma deletekey_unknown r id order :
  ~ In id (ring_keys r) -> fst (CircularLinkedList.deletekey r id order) = r.
Proof.
  intros Hnin. unfold CircularLinkedList.deletekey.
  destruct (CircularLinkedList.nodes r) as [|x l] eqn:En; [reflexivity|].
  set (current := match CircularLinkedList.first_pos _ _ with
                  | Some p => p
                  | None => O
                  end).
  assert (Hcur : (current < length (CircularLinkedList.nodes r))%nat).
  { unfold current.
    destruct (CircularLinkedList.first_pos _ _) as [p|] eqn:E.
    - now apply first_pos_some in E.
    - rewrite En. simpl. lia. }
  destruct (Z.eqb_spec (CircularLinkedList.key_at r current) id) as [E|E].
  - exfalso. apply Hnin. rewrite <- E. now apply key_at_In.
  - reflexivity.
Qed.

(** The steps of [deletekey] on a live ID, at its position [c]. *)
Lemma deletekey_live r id order :
  In id (ring_keys r) ->
  exists c,
    (c < length (CircularLinkedList.nodes r))%nat /\
    CircularLinkedList.key_at r c = id /\
    fst (CircularLinkedList.deletekey r id order)
    = let successor := CircularLinkedList.next r c in
      let r1 := if negb (successor =? c)%nat
                then fst (CircularLinkedList.Traverse_delete r c successor order)
                else r in
      let r2 := CircularLinkedList.with_nodes r1
                  (remove_at c (CircularLinkedList.nodes r1)) in
      match CircularLinkedList.nodes r2 with
      | [] => r2
      | _ => CircularLinkedList.updateRT r2
      end.
Proof.
  intros Hin. destruct (first_pos_key r id Hin) as (c & E & Hc & Ek).
  exists c. split; [assumption|]. split; [assumption|].
  unfold CircularLinkedList.deletekey.
  destruct (CircularLinkedList.nodes r) as [|x l] eqn:En; [simpl in Hc; lia|].
  rewrite E, Ek, Z.eqb_refl. reflexivity.
Qed.

Lemma In_remove_at_sorted (K : list Z) c y :
  StronglySorted Z.lt K -> (c < length K)%nat ->
  In y (remove_at c K) <-> In y K /\ y <> nth c K (-1).
Proof.
  intros Hs Hc. rewrite In_remove_at. split.
  - intros (q & Hq & E). split; [eapply nth_error_In; eauto|].
    assert (Hlt : (q < length K)%nat) by (apply nth_error_Some; congruence).
    intros Ey. apply Hq. apply (sorted_nth_inj K (-1) Hs); auto.
    rewrite <- Ey. now apply nth_error_nth.
  - intros [Hy Hne]. destruct (In_nth_error _ _ Hy) as (q & E).
    exists q. split; [|assumption]. intros ->.
    apply Hne. symmetry. now apply nth_error_nth.
Qed.

Section Leave.

Variable order : Z.
Hypothesis Horder : 3 <= order.

(** [Traverse_delete], as a whole. *)
Lemma Traverse_delete_contents r source destination :
  ring_inv order r ->
  (destination < length (CircularLinkedList.nodes r))%nat ->
  let files := BTree.getAllFiles
                 (BTree.root (CircularLinkedList.BTree_at r source)) in
  let held f := existsb (has_key (FileNode.key f))
                        (contents (CircularLinkedList.BTree_at r destination)) in
  let res := CircularLinkedList.Traverse_delete r source destination order in
  snd res = filter held files /\
  Permutation (contents (CircularLinkedList.BTree_at (fst res) destination))
              (filter (fun f => negb (held f)) files
               ++ contents (CircularLinkedList.BTree_at r destination)) /\
  (forall q, q <> destination ->
             CircularLinkedList.BTree_at (fst res) q
             = CircularLinkedList.BTree_at r q) /\
  ring_keys (fst res) = ring_keys r.
Proof.
  intros Hinv Hd files held res.
  subst res. unfold CircularLinkedList.Traverse_delete.
  set (bsrc := CircularLinkedList.BTree_at r source) in *.
  assert (Hb : BTree_inv order bsrc) by now apply BTree_at_inv.
  assert (Hnd : NoDup (keys files)).
  { eapply Permutation_NoDup;
      [|apply sorted_NoDup_keys; exact (BTree_inv_sorted order bsrc Hb)].
    unfold keys. apply Permutation_map. symmetry.
    exact (getAllFiles_contents bsrc). }
  pose proof (Traverse_delete_fold order Horder destination files r [] Hnd Hinv Hd)
    as F.
  cbv zeta in F. fold held in F. unfold files in *.
  destruct (BTree.root bsrc) as [rootNode|]; [exact F|].
  cbn [BTree.getAllFiles filter fst snd app]. auto.
Qed.

(** The ring after the leave of the machine at position [c]: the
    machines that stay, with the trees that the hand-off left them. *)
Lemma deletekey_nodes r c :
  ring_inv order r -> (c < length (CircularLinkedList.nodes r))%nat ->
  let id := CircularLinkedList.key_at r c in
  let r' := fst (CircularLinkedList.deletekey r id order) in
  let s := CircularLinkedList.next r c in
  let r1 := if negb (s =? c)%nat
            then fst (CircularLinkedList.Traverse_delete r c s order)
            else r in
  ring_keys r' = remove_at c (ring_keys r) /\
  (forall node, In node (CircularLinkedList.nodes r') ->
                exists q, q <> c /\
                          (q < length (CircularLinkedList.nodes r))%nat /\
                          CircularNode.key node = CircularLinkedList.key_at r q /\
                          CircularNode.BTreeroot node
                          = CircularLinkedList.BTree_at r1 q) /\
  (forall q, q <> c -> (q < length (CircularLinkedList.nodes r))%nat ->
             exists node, In node (CircularLinkedList.nodes r') /\
                          CircularNode.key node = CircularLinkedList.key_at r q /\
                          CircularNode.BTreeroot node
                          = CircularLinkedList.BTree_at r1 q).
Proof.
  intros Hinv Hc id r' s r1.
  pose proof Hinv as [Hsorted _ _ _].
  assert (Hin : In id (ring_keys r)) by now apply key_at_In.
  destruct (deletekey_live r id order Hin) as (c' & Hc' & Ek & E).
  assert (c' = c) by (apply (key_at_inj r Hsorted); auto). subst c'.
  cbv zeta in E. fold s in E. fold r1 in E.
  assert (Hk1 : ring_keys r1 = ring_keys r).
  { unfold r1. destruct (negb (s =? c)%nat); [|reflexivity].
    apply (Traverse_delete_contents r c s Hinv). unfold s. now apply next_lt. }
  assert (Hl1 : length (CircularLinkedList.nodes r1)
                = length (CircularLinkedList.nodes r))
    by exact (same_length r r1 Hk1).
  assert (Hka : forall q, CircularLinkedList.key_at r1 q
                          = CircularLinkedList.key_at r q)
    by (intros q; exact (same_key_at r r1 Hk1 q)).
  set (r2 := CircularLinkedList.with_nodes r1
               (remove_at c (CircularLinkedList.nodes r1))) in *.
  assert (Hk2 : ring_keys r2 = remove_at c (ring_keys r)).
  { unfold r2, ring_keys.
    cbn [CircularLinkedList.nodes CircularLinkedList.with_nodes].
    rewrite map_remove_at. fold (ring_keys r1). now rewrite Hk1. }
  assert (Hn2 : forall node,
             In node (CircularLinkedList.nodes r2) <->
             exists q, q <> c /\
                       nth_error (CircularLinkedList.nodes r1) q = Some node).
  { intros node. unfold r2.
    cbn [CircularLinkedList.nodes CircularLinkedList.with_nodes].
    apply In_remove_at. }
  assert (Hfrom : forall q node,
             nth_error (CircularLinkedList.nodes r1) q = Some node ->
             (q < length (CircularLinkedList.nodes r))%nat /\
             CircularNode.key node = CircularLinkedList.key_at r q /\
             CircularNode.BTreeroot node = CircularLinkedList.BTree_at r1 q).
  { intros q node Eq. split; [|split].
    - rewrite <- Hl1. apply nth_error_Some. congruence.
    - rewrite <- Hka. exact (nth_error_key_at r1 q node Eq).
    - symmetry. exact (BTree_at_nth_error r1 q node Eq). }
  assert (Hr' : (r' = r2 /\ CircularLinkedList.nodes r2 = []) \/
                r' = CircularLinkedList.updateRT r2).
  { unfold r'. rewrite E.
    destruct (CircularLinkedList.nodes r2) eqn:E2; [left|right]; auto. }
  split; [|split].
  - destruct Hr' as [[-> _]| ->]; [exact Hk2|].
    now rewrite ring_keys_updateRT.
  - intros node Hnode.
    assert (Hnode2 : exists node2, In node2 (CircularLinkedList.nodes r2) /\
                                   CircularNode.key node = CircularNode.key node2 /\
                                   CircularNode.BTreeroot node
                                   = CircularNode.BTreeroot node2).
    { destruct Hr' as [[-> _]| ->].
      - exists node. auto.
      - now apply nodes_updateRT_In. }
    destruct Hnode2 as (node2 & Hin2 & Hkn & Hbn).
    apply Hn2 in Hin2. destruct Hin2 as (q & Hq & Eq).
    destruct (Hfrom q node2 Eq) as (H1 & H2 & H3).
    exists q. rewrite Hkn, Hbn. auto.
  - intros q Hq Hlt.
    destruct (nth_error (CircularLinkedList.nodes r1) q) as [node2|] eqn:Eq.
    2:{ apply nth_error_None in Eq. lia. }
    destruct (Hfrom q node2 Eq) as (_ & H2 & H3).
    assert (Hin2 : In node2 (CircularLinkedList.nodes r2))
      by (apply Hn2; eauto).
    destruct Hr' as [[-> E2]| ->].
    + rewrite E2 in Hin2. destruct Hin2.
    + destruct (In_nodes_updateRT r2 node2 Hin2) as (node & Hnode & Hkn & Hbn).
      exists node. rewrite Hkn, Hbn. auto.
Qed.

End Leave.

Section LeavePlaced.

Variable order : Z.
Hypothesis Horder : 3 <= order.

(** With two machines or more, the hand-off goes to the next machine,
    and the IDs that stay have the same successors but for the keys of
    the machine that left. *)
Lemma leaving_setup r c :
  ring_inv order r -> (c < length (CircularLinkedList.nodes r))%nat ->
  (2 <= length (CircularLinkedList.nodes r))%nat ->
  let id := CircularLinkedList.key_at r c in
  let s := CircularLinkedList.next r c in
  let r1 := fst (CircularLinkedList.Traverse_delete r c s order) in
  s <> c /\ (s < length (CircularLinkedList.nodes r))%nat /\
  (forall y, In y (remove_at c (ring_keys r)) <-> In y (ring_keys r) /\ y <> id) /\
  is_successor (remove_at c (ring_keys r)) id (CircularLinkedList.key_at r s) /\
  (forall f, In f (contents (CircularLinkedList.BTree_at r1 s)) ->
             In f (contents (CircularLinkedList.BTree_at r c)) \/
             In f (contents (CircularLinkedList.BTree_at r s))) /\
  (forall f, In f (contents (CircularLinkedList.BTree_at r s)) ->
             In f (contents (CircularLinkedList.BTree_at r1 s))) /\
  (forall f, In f (contents (CircularLinkedList.BTree_at r c)) ->
             ~ In (FileNode.key f)
                  (keys (contents (CircularLinkedList.BTree_at r s))) ->
             In f (contents (CircularLinkedList.BTree_at r1 s))) /\
  (forall q, q <> s -> CircularLinkedList.BTree_at r1 q
                       = CircularLinkedList.BTree_at r q).
Proof.
  intros Hinv Hc Hn id s r1. pose proof Hinv as [Hsorted _ _ _].
  assert (Hs : (s < length (CircularLinkedList.nodes r))%nat)
    by (unfold s; now apply next_lt).
  assert (Hsc : s <> c).
  { unfold s, CircularLinkedList.next.
    destruct (Nat.ltb_spec (S c) (length (CircularLinkedList.nodes r))); lia. }
  assert (HK : forall y, In y (remove_at c (ring_keys r)) <->
                         In y (ring_keys r) /\ y <> id).
  { intros y. rewrite In_remove_at_sorted; auto.
    - unfold id. now rewrite (key_at_nth r c (-1) Hc).
    - now rewrite length_ring_keys. }
  destruct (Traverse_delete_contents order Horder r c s Hinv Hs)
    as (_ & Hperm & Hother & _).
  fold r1 in Hperm, Hother.
  pose proof (getAllFiles_contents (CircularLinkedList.BTree_at r c)) as Hfiles.
  split; [exact Hsc|]. split; [exact Hs|]. split; [exact HK|]. split.
  { exact (ring_successor r Hsorted Hn c Hc _ HK). }
  split; [|split; [|split; [|exact Hother]]].
  - intros f Hf. eapply Permutation_in in Hf; [|exact Hperm].
    apply in_app_or in Hf. destruct Hf as [Hf|Hf]; [left|now right].
    apply filter_In in Hf. eapply Permutation_in; [exact Hfiles|tauto].
  - intros f Hf. eapply Permutation_in; [symmetry; exact Hperm|].
    apply in_or_app. now right.
  - intros f Hf Hnk. eapply Permutation_in; [symmetry; exact Hperm|].
    apply in_or_app. left. apply filter_In. split.
    + eapply Permutation_in; [symmetry; exact Hfiles|assumption].
    + destruct (existsb _ _) eqn:Ex; [|reflexivity].
      apply existsb_has_key in Ex. contradiction.
Qed.

Lemma placed_deletekey r id :
  ring_inv order r -> placed r ->
  placed (fst (CircularLinkedList.deletekey r id order)).
Proof.
  intros Hinv Hpl. pose proof Hinv as [Hsorted _ _ _].
  destruct (in_dec Z.eq_dec id (ring_keys r)) as [Hin|Hnin].
  2:{ now rewrite deletekey_unknown. }
  destruct (In_key_at r id Hin) as (c & Hc & Ek). subst id.
  destruct (deletekey_nodes order Horder r c Hinv Hc) as (Hk' & Hnodes & _).
  cbv zeta in Hnodes.
  set (r' := fst (CircularLinkedList.deletekey r (CircularLinkedList.key_at r c)
                                               order)) in *.
  pose proof (proj1 (placed_positions r) Hpl) as Hpos.
  intros node f Hnode Hf. rewrite Hk'.
  destruct (Hnodes node Hnode) as (q & Hq & Hlt & Hkn & Hbn).
  assert (Hn : (2 <= length (CircularLinkedList.nodes r))%nat) by lia.
  destruct (leaving_setup r c Hinv Hc Hn)
    as (Hsc & Hs & HK & Hsid & Hfrom & _ & _ & Hother).
  set (s := CircularLinkedList.next r c) in *.
  destruct (Nat.eqb_spec s c) as [?|_]; [contradiction|]. cbn [negb] in Hbn.
  rewrite Hkn. rewrite Hbn in Hf.
  assert (Hqid : CircularLinkedList.key_at r q <> CircularLinkedList.key_at r c).
  { intros E. apply Hq. now apply (key_at_inj r Hsorted). }
  destruct (Nat.eq_dec q s) as [->|Hqs].
  - apply Hfrom in Hf. destruct Hf as [Hf|Hf].
    + exact (leave_gives _ _ _ _ HK Hsid _ (Hpos c f Hc Hf)).
    + exact (leave_keeps _ _ _ HK _ _ (Hpos s f Hs Hf) Hqid).
  - rewrite Hother in Hf by assumption.
    exact (leave_keeps _ _ _ HK _ _ (Hpos q f Hlt Hf) Hqid).
Qed.

(** With two machines or more, a leave keeps every record. *)
Lemma stored_deletekey r id f :
  ring_inv order r -> placed r -> In id (ring_keys r) ->
  (2 <= length (CircularLinkedList.nodes r))%nat ->
  stored (fst (CircularLinkedList.deletekey r id order)) f <-> stored r f.
Proof.
  intros Hinv Hpl Hin Hn. pose proof Hinv as [Hsorted _ _ _].
  destruct (In_key_at r id Hin) as (c & Hc & Ek). subst id.
  destruct (deletekey_nodes order Horder r c Hinv Hc) as (_ & Hnodes & Hback).
  cbv zeta in Hnodes, Hback.
  set (r' := fst (CircularLinkedList.deletekey r (CircularLinkedList.key_at r c)
                                               order)) in *.
  pose proof (proj1 (placed_positions r) Hpl) as Hpos.
  destruct (leaving_setup r c Hinv Hc Hn)
    as (Hsc & Hs & HK & Hsid & Hfrom & Hkeep & Hmove & Hother).
  set (s := CircularLinkedList.next r c) in *.
  destruct (Nat.eqb_spec s c) as [?|_]; [contradiction|].
  cbn [negb] in Hnodes, Hback.
  split.
  - intros (node & Hnode & Hf).
    destruct (Hnodes node Hnode) as (q & Hq & Hlt & Hkn & Hbn).
    rewrite Hbn in Hf. apply stored_positions.
    destruct (Nat.eq_dec q s) as [->|Hqs].
    + apply Hfrom in Hf. destruct Hf as [Hf|Hf]; eauto.
    + rewrite Hother in Hf by assumption. eauto.
  - intros Hst. apply stored_positions in Hst. destruct Hst as (p & Hp & Hf).
    destruct (Nat.eq_dec p c) as [->|Hpc].
    + destruct (Hback s Hsc Hs) as (node & Hnode & _ & Hbn).
      exists node. split; [assumption|]. rewrite Hbn. apply Hmove; [assumption|].
      intros Hk. unfold keys in Hk. apply in_map_iff in Hk.
      destruct Hk as (g & Hg & Hgin).
      pose proof (Hpos c f Hc Hf) as S1. pose proof (Hpos s g Hs Hgin) as S2.
      rewrite Hg in S2.
      pose proof (successor_unique _ _ _ _ S1 S2) as E.
      apply Hsc. symmetry. now apply (key_at_inj r Hsorted).
    + destruct (Hback p Hpc Hp) as (node & Hnode & _ & Hbn).
      exists node. split; [assumption|]. rewrite Hbn.
      destruct (Nat.eq_dec p s) as [->|Hps]; [now apply Hkeep|].
      now rewrite Hother.
Qed.

Lemma deletekey_last r id :
  ring_inv order r -> In id (ring_keys r) ->
  length (CircularLinkedList.nodes r) = 1%nat ->
  CircularLinkedList.nodes (fst (CircularLinkedList.deletekey r id order)) = [].
Proof.
  intros Hinv Hin Hn.
  destruct (In_key_at r id Hin) as (c & Hc & Ek). subst id.
  destruct (deletekey_nodes order Horder r c Hinv Hc) as (_ & Hnodes & _).
  cbv zeta in Hnodes.
  destruct (CircularLinkedList.nodes (fst (CircularLinkedList.deletekey _ _ _)))
    as [|node l]; [reflexivity|].
  destruct (Hnodes node (or_introl eq_refl)) as (q & Hq & Hlt & _). lia.
Qed.

End LeavePlaced.

(** ** A machine joins: the records stay *)

Section JoinStored.

Variable order : Z.
Hypothesis Horder : 3 <= order.

(** The first machine of a ring starts with an empty tree. *)
Lemma insertAfter_first r id node :
  CircularLinkedList.nodes r = [] ->
  In node (CircularLinkedList.nodes
             (fst (CircularLinkedList.insertAfter r id order))) ->
  contents (CircularNode.BTreeroot node) = [].
Proof.
  intros En. unfold CircularLinkedList.insertAfter.
  destruct (CircularLinkedList.search r id); [cbn [fst]; rewrite En; intros []|].
  destruct (_ || _); [cbn [fst]; rewrite En; intros []|]. cbn [fst].
  set (r1 := CircularLinkedList.updateRT (CircularLinkedList.insert r id)).
  assert (Hempty : forall n1, In n1 (CircularLinkedList.nodes r1) ->
                              contents (CircularNode.BTreeroot n1) = []).
  { intros n1 Hn1. destruct (In_nth_error _ _ Hn1) as (q & Eq).
    destruct (updateRT_insert_node r id q n1 Eq)
      as [[_ ->]|(node0 & Hin0 & _)]; [reflexivity|].
    rewrite En in Hin0. destruct Hin0. }
  assert (Hl1 : length (CircularLinkedList.nodes r1) = 1%nat).
  { rewrite <- (length_ring_keys r1). unfold r1.
    rewrite ring_keys_updateRT,
      (Permutation_length (ring_keys_insert_perm r id)).
    simpl. rewrite length_ring_keys, En. reflexivity. }
  destruct (CircularLinkedList.SearchNewMachine r1 id); [|apply Hempty].
  unfold CircularLinkedList.getMachineCount. rewrite Hl1. apply Hempty.
Qed.

Lemma stored_insertAfter r id f :
  ring_inv order r ->
  stored (fst (CircularLinkedList.insertAfter r id order)) f <-> stored r f.
Proof.
  intros Hinv.
  pose proof (insertAfter_inv order Horder r id Hinv) as Hinv'.
  pose proof Hinv as [Hs0 _ _ _]. pose proof Hinv' as [Hs' _ _ _].
  destruct (in_dec Z.eq_dec id (ring_keys r)) as [Hin|Hnin].
  { unfold CircularLinkedList.insertAfter.
    now rewrite (proj2 (search_true_iff r id) Hin). }
  destruct (Z_lt_ge_dec id 0) as [Hlo|Hlo].
  { unfold CircularLinkedList.insertAfter.
    destruct (CircularLinkedList.search r id); [reflexivity|].
    destruct (Z.ltb_spec id 0); [reflexivity|lia]. }
  destruct (Z_lt_ge_dec id (CircularLinkedList.identifierSpace r)) as [Hhi|Hhi].
  2:{ unfold CircularLinkedList.insertAfter.
      destruct (CircularLinkedList.search r id); [reflexivity|].
      destruct (Z.leb_spec (CircularLinkedList.identifierSpace r) id);
        [now rewrite orb_true_r|lia]. }
  destruct (CircularLinkedList.nodes r) as [|x0 l0] eqn:En.
  - split.
    + intros (node & Hnode & Hf).
      rewrite (insertAfter_first r id node En Hnode) in Hf. destruct Hf.
    + intros (node & Hnode & _). rewrite En in Hnode. destruct Hnode.
  - assert (Hne : CircularLinkedList.nodes r <> []) by congruence.
    clear En x0 l0.
    destruct (insertAfter_handoff order Horder r id Hinv Hne ltac:(lia) Hnin)
      as (_ & Hperm & Hh).
    set (r' := fst (CircularLinkedList.insertAfter r id order)) in *.
    destruct Hh as (pp & Hpp & Eid & bs & Ebs & Hcn & Hcs & Hco).
    set (np := CircularLinkedList.next r' pp) in *.
    set (sp := CircularLinkedList.next r' np) in *.
    assert (Hnp : (np < length (CircularLinkedList.nodes r'))%nat)
      by now apply next_lt.
    assert (Hsp : (sp < length (CircularLinkedList.nodes r'))%nat)
      by now apply next_lt.
    assert (Hfrom : forall x b, BTree_of r x = Some b -> In f (contents b) ->
                                stored r f).
    { intros x b Eb Hf. apply BTree_of_Some in Eb.
      destruct Eb as (p0 & Hp0 & _ & <-). apply stored_positions. eauto. }
    split.
    + intros Hst. apply stored_positions in Hst. destruct Hst as (q & Hq & Hf).
      destruct (Nat.eq_dec q np) as [->|Hqn].
      { apply Hcn in Hf. apply (Hfrom _ _ Ebs). tauto. }
      destruct (Nat.eq_dec q sp) as [->|Hqs].
      { apply Hcs in Hf. apply (Hfrom _ _ Ebs). tauto. }
      exact (Hfrom _ _ (Hco q Hq Hqn Hqs) Hf).
    + intros Hst. apply stored_positions in Hst. destruct Hst as (p & Hp & Hf).
      assert (Hx : In (CircularLinkedList.key_at r p) (ring_keys r'))
        by (eapply Permutation_in; [symmetry; exact Hperm|];
            right; now apply key_at_In).
      destruct (In_key_at r' _ Hx) as (q & Hq & Eq).
      assert (Hqn : q <> np).
      { intros ->. apply Hnin. rewrite <- Eid, Eq. now apply key_at_In. }
      pose proof (BTree_of_key_at r p Hs0 Hp) as Ep. rewrite <- Eq in Ep.
      apply stored_positions.
      destruct (Nat.eq_dec q sp) as [->|Hqs].
      * rewrite Ebs in Ep.
        assert (Eb : CircularLinkedList.BTree_at r p = bs) by congruence.
        rewrite Eb in Hf.
        destruct (in_interval_dec (CircularLinkedList.key_at r' pp) id
                                  (FileNode.key f)) as [Hi|Hi].
        -- exists np. split; [assumption|]. apply Hcn. tauto.
        -- exists sp. split; [assumption|]. apply Hcs. tauto.
      * rewrite (Hco q Hq Hqn Hqs) in Ep.
        assert (Eb : CircularLinkedList.BTree_at r p
                     = CircularLinkedList.BTree_at r' q) by congruence.
        rewrite Eb in Hf. eauto.
Qed.

End JoinStored.

(** ** The set-up starts with empty trees *)

Lemma InsertMachines_fold_empty s ids :
  forall c skipped,
    (forall node, In node (CircularLinkedList.nodes c) ->
                  contents (CircularNode.BTreeroot node) = []) ->
    forall node,
      In node (CircularLinkedList.nodes
                 (fst (fold_left (fun '(c, skipped) id =>
                                    if IPFS.isValidMachineId s id
                                    then (CircularLinkedList.insert c id, skipped)
                                    else (c, skipped ++ [id]))
                                 ids (c, skipped)))) ->
      contents (CircularNode.BTreeroot node) = [].
Proof.
  induction ids as [|id ids IH]; intros c skipped Hc; [exact Hc|].
  cbn [fold_left]. destruct (IPFS.isValidMachineId s id); apply IH; auto.
  intros node Hnode.
  destruct (insert_nodes_perm c id) as (newNode & _ & Hb & Hp).
  eapply Permutation_in in Hnode; [|exact Hp].
  destruct Hnode as [<-|Hnode]; [now rewrite Hb|auto].
Qed.

Lemma InsertMachines_empty_trees s ids node :
  (forall n0, In n0 (CircularLinkedList.nodes (IPFS.C s)) ->
              contents (CircularNode.BTreeroot n0) = []) ->
  In node (CircularLinkedList.nodes (IPFS.C (fst (IPFS.InsertMachines s ids)))) ->
  contents (CircularNode.BTreeroot node) = [].
Proof.
  intros Hs. unfold IPFS.InsertMachines.
  pose proof (InsertMachines_fold_empty s ids (IPFS.C s) [] Hs) as H.
  destruct (fold_left _ ids (IPFS.C s, [])) as [c skipped].
  cbn [fst IPFS.C IPFS.with_C] in *. intros Hnode.
  apply nodes_updateRT_In in Hnode. destruct Hnode as (n0 & Hn0 & _ & Hb).
  rewrite Hb. now apply H.
Qed.

(** ** Every reachable state has its records in place *)

Lemma reachable_placed s : reachable s -> placed (IPFS.C s).
Proof.
  induction 1 as [nb bo Ho|nb bo ids Ho Hnd|s id Hr IH|s id Hr IH
                 |s start k path Hr IH|s start k Hr IH].
  - intros node f [].
  - intros node f Hnode Hf.
    rewrite (InsertMachines_empty_trees (IPFS.new nb bo) ids node) in Hf;
      [destruct Hf| |assumption].
    intros n0 [].
  - pose proof (reachable_inv s Hr) as [Ho _ _ _ Hring].
    unfold IPFS.InsertMachine. destruct (negb _); [assumption|].
    pose proof (placed_insertAfter (IPFS.order s) ltac:(lia) (IPFS.C s) id Hring IH)
      as H.
    destruct (CircularLinkedList.insertAfter _ _ _) as [c o]. exact H.
  - pose proof (reachable_inv s Hr) as [Ho _ _ _ Hring].
    unfold IPFS.DeleteMachine.
    pose proof (placed_deletekey (IPFS.order s) ltac:(lia) (IPFS.C s) id Hring IH)
      as H.
    destruct (CircularLinkedList.deletekey _ _ _) as [c o]. exact H.
  - pose proof (reachable_inv s Hr) as [Ho _ _ _ Hring].
    unfold IPFS.insertFile.
    pose proof (placed_InsertFileToTree (IPFS.order s) ltac:(lia) (IPFS.C s)
                                        start k path Hring IH) as H.
    destruct (CircularLinkedList.InsertFileToTree _ _ _ _ _) as [c o]. exact H.
  - pose proof (reachable_inv s Hr) as [Ho _ _ _ Hring].
    unfold IPFS.DeleteFile.
    pose proof (placed_DeleteFileFromTree (IPFS.order s) ltac:(lia) (IPFS.C s)
                                          start k Hring IH) as H.
    destruct (CircularLinkedList.DeleteFileFromTree _ _ _) as [c o]. exact H.
Qed.

(** A record in place is on one machine only, and no other record has its
    key. *)
Lemma placed_unique order r node1 node2 f g :
  3 <= order -> ring_inv order r -> placed r ->
  In node1 (CircularLinkedList.nodes r) -> In node2 (CircularLinkedList.nodes r) ->
  In f (contents (CircularNode.BTreeroot node1)) ->
  In g (contents (CircularNode.BTreeroot node2)) ->
  FileNode.key f = FileNode.key g ->
  node1 = node2 /\ f = g.
Proof.
  intros Ho Hinv Hpl H1 H2 Hf Hg Ek. pose proof Hinv as [Hs _ _ Htrees].
  pose proof (Hpl node1 f H1 Hf) as S1. pose proof (Hpl node2 g H2 Hg) as S2.
  rewrite Ek in S1. pose proof (successor_unique _ _ _ _ S1 S2) as E.
  assert (E12 : node1 = node2).
  { destruct (In_nth_error _ _ H1) as (p1 & E1).
    destruct (In_nth_error _ _ H2) as (p2 & E2).
    assert (p1 = p2).
    { apply (key_at_inj r Hs).
      - apply nth_error_Some. congruence.
      - apply nth_error_Some. congruence.
      - now rewrite <- (nth_error_key_at r p1 node1 E1),
          <- (nth_error_key_at r p2 node2 E2). }
    subst p2. congruence. }
  split; [assumption|]. subst node2.
  rewrite Forall_forall in Htrees. specialize (Htrees node1 H1).
  apply (sorted_key_inj (contents (CircularNode.BTreeroot node1))); auto.
  now apply (BTree_inv_sorted order).
Qed.

(** A stored record is found from every live machine. *)
Lemma stored_found order r start node f :
  3 <= order -> ring_inv order r -> placed r ->
  In start (ring_keys r) ->
  In node (CircularLinkedList.nodes r) ->
  In f (contents (CircularNode.BTreeroot node)) ->
  exists p,
    CircularLinkedList.SearchFile_WithMachine r start (FileNode.key f)
    = Some (p, Some f) /\
    nth_error (CircularLinkedList.nodes r) p = Some node.
Proof.
  intros Ho Hinv Hpl Hstart Hnode Hf. pose proof Hinv as [Hs _ _ Htrees].
  pose proof (ring_inv_nonempty _ _ _ Hinv Hstart) as Hn.
  set (k := FileNode.key f).
  destruct (succ_pos_spec r Hn k) as [HR _].
  pose proof (succ_is_successor r Hs Hn k) as S1.
  pose proof (Hpl node f Hnode Hf) as S2. fold k in S2.
  pose proof (successor_unique _ _ _ _ S1 S2) as E.
  destruct (In_nth_error _ _ Hnode) as (p & Ep).
  assert (Hp : (p < length (CircularLinkedList.nodes r))%nat)
    by (apply nth_error_Some; congruence).
  assert (p = succ_pos r k).
  { apply (key_at_inj r Hs); auto.
    now rewrite <- (nth_error_key_at r p node Ep). }
  subst p. exists (succ_pos r k). split; [|assumption].
  rewrite (SearchFile_spec order Ho r start k Hinv Hstart).
  rewrite (BTree_at_nth_error r _ node Ep).
  rewrite Forall_forall in Htrees. specialize (Htrees node Hnode).
  pose proof (BTree_inv_sorted order _ Htrees) as Hsort.
  destruct (find (has_key k) (contents (CircularNode.BTreeroot node))) as [g|] eqn:Eg.
  - apply find_some in Eg. destruct Eg as [Hg Hk]. unfold has_key in Hk.
    apply Z.eqb_eq in Hk. do 3 f_equal.
    apply (sorted_key_inj (contents (CircularNode.BTreeroot node))); auto.
  - apply (find_none _ _ Eg) in Hf. unfold has_key, k in Hf.
    rewrite Z.eqb_refl in Hf. discriminate.
Qed.

(** ** What a put and a delete change *)

Lemma stored_set_BTree r p b f :
  (p < length (CircularLinkedList.nodes r))%nat ->
  stored (CircularLinkedList.set_BTree r p b) f <->
  In f (contents b) \/
  exists q, q <> p /\ (q < length (CircularLinkedList.nodes r))%nat /\
            In f (contents (CircularLinkedList.BTree_at r q)).
Proof.
  intros Hp. rewrite stored_positions, length_set_BTree. split.
  - intros (q & Hq & Hf). destruct (Nat.eq_dec q p) as [->|Hne].
    + rewrite BTree_at_set_BTree_eq in Hf by assumption. now left.
    + rewrite BTree_at_set_BTree_neq in Hf by assumption. right. eauto.
  - intros [Hf|(q & Hne & Hq & Hf)].
    + exists p. split; [assumption|]. now rewrite BTree_at_set_BTree_eq.
    + exists q. split; [assumption|]. now rewrite BTree_at_set_BTree_neq.
Qed.

Section PutDeleteStored.

Variable order : Z.
Hypothesis Horder : 3 <= order.

Variable r : CircularLinkedList.t.
Hypothesis Hinv : ring_inv order r.
Hypothesis Hpl : placed r.

(** With the records in place, the responsible machine is the only one
    that can hold a key. *)
Lemma key_on_responsible k :
  (1 <= length (CircularLinkedList.nodes r))%nat ->
  existsb (has_key k)
          (contents (CircularLinkedList.BTree_at r (succ_pos r k))) = true
  <-> exists g, stored r g /\ FileNode.key g = k.
Proof.
  intros Hn. pose proof Hinv as [Hs _ _ _].
  destruct (succ_pos_spec r Hn k) as [HR _].
  rewrite existsb_exists. split.
  - intros (g & Hg & Hk). unfold has_key in Hk. apply Z.eqb_eq in Hk.
    exists g. split; [|assumption]. apply stored_positions. eauto.
  - intros (g & Hst & Hk). apply stored_positions in Hst.
    destruct Hst as (p & Hp & Hg).
    pose proof (proj1 (placed_positions r) Hpl p g Hp Hg) as S1.
    rewrite Hk in S1.
    pose proof (succ_is_successor r Hs Hn k) as S2.
    pose proof (successor_unique _ _ _ _ S1 S2) as E.
    apply (key_at_inj r Hs) in E; auto. subst p.
    exists g. split; [assumption|]. unfold has_key. now apply Z.eqb_eq.
Qed.

Lemma put_stored start k path :
  In start (ring_keys r) ->
  let res := CircularLinkedList.InsertFileToTree r start k path order in
  let m := CircularLinkedList.key_at r (succ_pos r k) in
  is_successor (ring_keys r) k m /\
  ((exists g, stored r g /\ FileNode.key g = k) ->
   res = (r, PutAlreadyExists m)) /\
  (~ (exists g, stored r g /\ FileNode.key g = k) ->
   snd res = PutStored m /\
   ring_keys (fst res) = ring_keys r /\
   (forall f, stored (fst res) f <-> f = FileNode.mk k path \/ stored r f) /\
   (forall id', id' <> m -> BTree_of (fst res) id' = BTree_of r id')).
Proof.
  intros Hin res m. pose proof (ring_inv_nonempty _ _ _ Hinv Hin) as Hn.
  pose proof Hinv as [Hs _ _ _].
  destruct (succ_pos_spec r Hn k) as [HR _].
  pose proof (key_on_responsible k Hn) as Hkey.
  subst res. rewrite (InsertFileToTree_spec order Horder r start k path Hinv Hin).
  cbv zeta. set (R := succ_pos r k) in *.
  set (b := CircularLinkedList.BTree_at r R) in *.
  assert (Hb : BTree_inv order b) by now apply BTree_at_inv.
  split; [now apply succ_is_successor|].
  destruct (existsb (has_key k) (contents b)) eqn:Ex.
  - split; [reflexivity|]. intros Hno. exfalso. apply Hno. now apply Hkey.
  - split.
    + intros Hyes. apply Hkey in Hyes. discriminate.
    + intros _. cbn [fst snd]. split; [reflexivity|].
      split; [apply ring_keys_set_BTree|]. split.
      * destruct (insertHelper_new order Horder b (FileNode.mk k path) Hb Ex)
          as [_ Hperm].
        intros f. rewrite stored_set_BTree by assumption. split.
        -- intros [Hf|(q & Hq & Hlt & Hf)].
           ++ eapply Permutation_in in Hf; [|exact Hperm].
              destruct Hf as [<-|Hf]; [now left|].
              right. apply stored_positions. eauto.
           ++ right. apply stored_positions. eauto.
        -- intros [->|Hst].
           ++ left. eapply Permutation_in; [symmetry; exact Hperm|now left].
           ++ apply stored_positions in Hst. destruct Hst as (q & Hq & Hf).
              destruct (Nat.eq_dec q R) as [->|Hne].
              ** left. eapply Permutation_in; [symmetry; exact Hperm|now right].
              ** right. eauto.
      * intros id' Hid'. rewrite BTree_of_set_BTree by assumption.
        destruct (Z.eqb_spec id' (CircularLinkedList.key_at r R));
          [contradiction|reflexivity].
Qed.

Lemma delete_stored start k :
  In start (ring_keys r) ->
  let res := CircularLinkedList.DeleteFileFromTree r start k in
  (snd res = true <-> exists g, stored r g /\ FileNode.key g = k) /\
  (snd res = false -> fst res = r) /\
  ring_keys (fst res) = ring_keys r /\
  (forall f, stored (fst res) f <-> stored r f /\ FileNode.key f <> k).
Proof.
  intros Hin res. pose proof (ring_inv_nonempty _ _ _ Hinv Hin) as Hn.
  pose proof Hinv as [Hs _ _ _].
  destruct (succ_pos_spec r Hn k) as [HR _].
  pose proof (key_on_responsible k Hn) as Hkey.
  subst res. rewrite (DeleteFileFromTree_spec order Horder r start k Hinv Hin).
  cbv zeta. set (R := succ_pos r k) in *.
  set (b := CircularLinkedList.BTree_at r R) in *.
  assert (Hb : BTree_inv order b) by now apply BTree_at_inv.
  destruct (existsb (has_key k) (contents b)) eqn:Ex; cbn [fst snd].
  - split; [split; [intros _; now apply Hkey|reflexivity]|].
    split; [discriminate|]. split; [apply ring_keys_set_BTree|].
    destruct (deleteHelper_spec order Horder b k Hb) as [Hc _].
    intros f. rewrite stored_set_BTree by assumption. rewrite Hc, In_drop_key.
    split.
    + intros [[Hf Hk]|(q & Hq & Hlt & Hf)].
      * split; [|assumption]. apply stored_positions. eauto.
      * split; [apply stored_positions; eauto|].
        intros Ek. apply Hq.
        pose proof (proj1 (placed_positions r) Hpl q f Hlt Hf) as S1.
        rewrite Ek in S1.
        pose proof (succ_is_successor r Hs Hn k) as S2.
        pose proof (successor_unique _ _ _ _ S1 S2) as E.
        now apply (key_at_inj r Hs) in E.
    + intros [Hst Hk]. apply stored_positions in Hst.
      destruct Hst as (q & Hq & Hf).
      destruct (Nat.eq_dec q R) as [->|Hne]; [left; tauto|right; eauto].
  - split; [split; [discriminate|]|].
    + intros Hyes. apply Hkey in Hyes. discriminate.
    + split; [reflexivity|]. split; [reflexivity|].
      intros f. split; [|tauto]. intros Hst. split; [assumption|].
      intros Ek.
      assert (Hyes : false = true) by (apply Hkey; eauto).
      discriminate.
Qed.

End PutDeleteStored.

(** * The range that [printBTree] prints *)

Lemma printBTree_unknown r machineKey :
  ~ In machineKey (ring_keys r) ->
  CircularLinkedListPrint.printBTree r machineKey = None.
Proof.
  intros Hnin. unfold CircularLinkedListPrint.printBTree.
  destruct (CircularLinkedList.findMachineById r machineKey) as [p|] eqn:E;
    [|reflexivity].
  apply first_pos_some in E. destruct E as (Hp & Ht & _).
  apply Z.eqb_eq in Ht. exfalso. apply Hnin. rewrite <- Ht. now apply key_at_In.
Qed.

Lemma printBTree_range order r b p :
  ring_inv order r -> 1 <= b <= 30 ->
  CircularLinkedList.identifierSpace r = 2 ^ b ->
  (p < length (CircularLinkedList.nodes r))%nat ->
  exists msg,
    CircularLinkedListPrint.printBTree r (CircularLinkedList.key_at r p)
    = Some (msg, length (contents (CircularLinkedList.BTree_at r p))) /\
    forall k, 0 <= k < 2 ^ b ->
              (in_range msg k <->
               CircularLinkedList.findResponsibleMachine r k = Some p).
Proof.
  intros Hinv Hb Hspace Hp. pose proof Hinv as [Hs Hrange _ _].
  assert (Hn : (1 <= length (CircularLinkedList.nodes r))%nat) by lia.
  pose proof (pow2_le_30 b ltac:(lia)) as Hpow.
  unfold CircularLinkedListPrint.printBTree.
  rewrite (findMachineById_key_at r Hs p Hp).
  rewrite (findPredecessor_key_at r Hs p Hp).
  rewrite countFiles_contents. rewrite Hspace.
  set (pp := if (p =? 0)%nat then _ else _).
  assert (Hpp : (pp < length (CircularLinkedList.nodes r))%nat)
    by (unfold pp; destruct (Nat.eqb_spec p 0); lia).
  assert (Hkp : 0 <= CircularLinkedList.key_at r p < 2 ^ b).
  { rewrite <- Hspace. rewrite Forall_forall in Hrange. apply Hrange.
    now apply key_at_In. }
  assert (Hkpp : 0 <= CircularLinkedList.key_at r pp < 2 ^ b).
  { rewrite <- Hspace. rewrite Forall_forall in Hrange. apply Hrange.
    now apply key_at_In. }
  rewrite wrap_int_small by lia.
  rewrite Z.rem_mod_nonneg by lia.
  assert (Hresp : forall k,
             CircularLinkedList.findResponsibleMachine r k = Some p <->
             CircularLinkedList.responsible_test r
               (CircularLinkedList.key_at r pp) (CircularLinkedList.key_at r p) k
             = true).
  { intros k. rewrite (findResponsibleMachine_succ r Hs k Hn). unfold pp.
    rewrite (responsible_iff r Hs Hn k p Hp). split; [congruence|].
    intros ->. reflexivity. }
  eexists. split; [reflexivity|]. intros k Hk. rewrite Hresp.
  unfold CircularLinkedList.responsible_test.
  destruct (Nat.eqb_spec (CircularLinkedList.getMachineCount r) 1) as [E1|E1].
  { cbn [in_range]. split; [reflexivity|]. intros _. lia. }
  unfold CircularLinkedList.getMachineCount in E1.
  assert (Hne : pp <> p) by (unfold pp; destruct (Nat.eqb_spec p 0); lia).
  assert (Hkne : CircularLinkedList.key_at r pp <> CircularLinkedList.key_at r p).
  { intros E. apply Hne. now apply (key_at_inj r Hs). }
  set (x := CircularLinkedList.key_at r p) in *.
  set (y := CircularLinkedList.key_at r pp) in *.
  destruct (Z.eq_dec (y + 1) (2 ^ b)) as [Etop|Etop].
  - rewrite Etop, Z.mod_same by lia.
    destruct (Z.leb_spec 0 x); [|lia]. cbn [in_range].
    destruct (Z.ltb_spec y x); [lia|].
    rewrite orb_true_iff, Z.ltb_lt, Z.leb_le. lia.
  - rewrite Z.mod_small by lia.
    destruct (Z.leb_spec (y + 1) x); destruct (Z.ltb_spec y x); try lia;
      cbn [in_range];
      rewrite ?andb_true_iff, ?orb_true_iff, Z.ltb_lt, Z.leb_le; lia.
Qed.

(** * The hash-based assignment of machine IDs *)

Lemma NoDup_map_on {A B : Type} (f : A -> B) (l : list A) :
  NoDup l ->
  (forall x y, In x l -> In y l -> f x = f y -> x = y) ->
  NoDup (map f l).
Proof.
  induction 1 as [|x l Hx Hnd IH]; intros Hinj; [constructor|].
  simpl. constructor.
  - intros Hin. apply in_map_iff in Hin. destruct Hin as (y & E & Hy).
    assert (y = x) by (apply Hinj; simpl; auto). subst y. contradiction.
  - apply IH. intros a b Ha Hb. apply Hinj; simpl; auto.
Qed.

Section Probe.

Variables (identifierSpace : Z) (machineIds : list Z).
Hypothesis Hspace : 0 < identifierSpace < 2 ^ 31.

Lemma circle_step orig j :
  0 <= orig -> 0 <= j ->
  Z.rem (wrap_int ((orig + j) mod identifierSpace + 1)) identifierSpace
  = (orig + (j + 1)) mod identifierSpace.
Proof.
  intros Ho Hj.
  pose proof (Z.mod_pos_bound (orig + j) identifierSpace ltac:(lia)) as Hb.
  rewrite wrap_int_small by lia.
  rewrite Z.rem_mod_nonneg by lia.
  rewrite Z.add_mod_idemp_l by lia. f_equal. lia.
Qed.

Lemma circle_inj orig i i' :
  0 <= i < identifierSpace -> 0 <= i' < identifierSpace ->
  (orig + i) mod identifierSpace = (orig + i') mod identifierSpace -> i = i'.
Proof.
  intros Hi Hi' E.
  pose proof (Z.div_mod (orig + i) identifierSpace ltac:(lia)) as D1.
  pose proof (Z.div_mod (orig + i') identifierSpace ltac:(lia)) as D2.
  rewrite E in D1.
  assert ((orig + i) / identifierSpace = (orig + i') / identifierSpace) by nia.
  nia.
Qed.

Lemma probe_spec orig fuel :
  0 <= orig < identifierSpace ->
  forall j,
    0 <= j < identifierSpace ->
    (forall i, 0 <= i < j -> In ((orig + i) mod identifierSpace) machineIds) ->
    (Z.to_nat (identifierSpace - j) <= fuel)%nat ->
    exists id flag,
      Main.probe fuel machineIds identifierSpace orig
                 ((orig + j) mod identifierSpace) = Ok (id, flag) /\
      0 <= id < identifierSpace /\
      (flag = false -> ~ In id machineIds) /\
      (flag = true ->
       forall i, 0 <= i < identifierSpace ->
                 In ((orig + i) mod identifierSpace) machineIds).
Proof.
  intros Ho. induction fuel as [|fuel IH]; intros j Hj Hseen Hfuel; [lia|].
  cbn [Main.probe].
  pose proof (Z.mod_pos_bound (orig + j) identifierSpace ltac:(lia)) as Hb.
  destruct (existsb (Z.eqb ((orig + j) mod identifierSpace)) machineIds) eqn:Ex.
  - apply existsb_Zeqb in Ex.
    rewrite circle_step by lia.
    pose proof (Z.mod_pos_bound (orig + (j + 1)) identifierSpace ltac:(lia)) as Hb'.
    destruct (Z.eqb_spec ((orig + (j + 1)) mod identifierSpace) orig) as [E|E].
    + assert (Hlast : j + 1 = identifierSpace).
      { destruct (Z.eq_dec (j + 1) identifierSpace) as [?|Hne]; [assumption|].
        exfalso. assert (E0 : (orig + 0) mod identifierSpace = orig)
          by (rewrite Z.add_0_r; apply Z.mod_small; lia).
        rewrite <- E0 in E at 2.
        apply circle_inj in E; lia. }
      exists ((orig + (j + 1)) mod identifierSpace), true.
      split; [reflexivity|]. split; [assumption|]. split; [discriminate|].
      intros _ i Hi. destruct (Z.eq_dec i j) as [->|Hne]; [assumption|].
      apply Hseen. lia.
    + assert (Hlt : j + 1 < identifierSpace).
      { destruct (Z.eq_dec (j + 1) identifierSpace) as [Elast|?]; [|lia].
        exfalso. apply E. rewrite Elast.
        replace (orig + identifierSpace) with (orig + 1 * identifierSpace) by lia.
        rewrite Z.mod_add by lia. apply Z.mod_small; lia. }
      apply IH; [lia| |lia].
      intros i Hi. destruct (Z.eq_dec i j) as [->|Hne]; [assumption|].
      apply Hseen. lia.
  - exists ((orig + j) mod identifierSpace), false.
    split; [reflexivity|]. split; [assumption|]. split; [|discriminate].
    intros _ Hin. apply existsb_Zeqb in Hin. congruence.
Qed.

(** When every ID of the circle is taken, there are at least as many
    IDs as the circle has. *)
Lemma circle_full orig :
  (forall i, 0 <= i < identifierSpace ->
             In ((orig + i) mod identifierSpace) machineIds) ->
  identifierSpace <= Z.of_nat (length machineIds).
Proof.
  intros Hall.
  set (f := fun i : nat => (orig + Z.of_nat i) mod identifierSpace).
  set (L := map f (seq 0 (Z.to_nat identifierSpace))).
  assert (Hnd : NoDup L).
  { unfold L. apply NoDup_map_on; [apply seq_NoDup|].
    intros x y Hx Hy E. apply in_seq in Hx, Hy. unfold f in E.
    apply circle_inj in E; lia. }
  assert (Hincl : incl L machineIds).
  { intros v Hv. unfold L in Hv. apply in_map_iff in Hv.
    destruct Hv as (i & <- & Hi). apply in_seq in Hi. apply Hall. lia. }
  pose proof (NoDup_incl_length Hnd Hincl) as Hlen.
  unfold L in Hlen. rewrite length_map, length_seq in Hlen. lia.
Qed.

End Probe.

Lemma assign_hashed_spec identifierSpace fuel hashes :
  0 < identifierSpace < 2 ^ 31 ->
  (Z.to_nat identifierSpace <= fuel)%nat ->
  forall machineIds,
    NoDup machineIds ->
    Forall (fun id => 0 <= id < identifierSpace) machineIds ->
    Forall (fun h => 0 <= h < identifierSpace) hashes ->
    Z.of_nat (length machineIds + length hashes) <= identifierSpace ->
    exists ids,
      Main.assign_hashed fuel identifierSpace machineIds hashes
      = Ok (ids, false) /\
      NoDup ids /\
      Forall (fun id => 0 <= id < identifierSpace) ids /\
      length ids = (length machineIds + length hashes)%nat /\
      exists added, ids = machineIds ++ added.
Proof.
  intros Hspace Hfuel. induction hashes as [|h hashes IH];
    intros machineIds Hnd Hr Hh Hlen.
  - exists machineIds. cbn [Main.assign_hashed]. split; [reflexivity|].
    split; [assumption|]. split; [assumption|]. split; [simpl; lia|].
    exists []. now rewrite app_nil_r.
  - inversion Hh as [|? ? Hh1 Hh2]; subst. cbn [Main.assign_hashed].
    destruct (probe_spec identifierSpace machineIds Hspace h fuel Hh1 0)
      as (id & flag & Ep & Hid & Hfresh & Hfull); [lia| |lia|].
    { intros i Hi. lia. }
    rewrite Z.add_0_r, Z.mod_small in Ep by lia. rewrite Ep.
    destruct flag.
    { exfalso. pose proof (circle_full identifierSpace machineIds Hspace h
                                       (Hfull eq_refl)) as Hc.
      simpl in Hlen. lia. }
    specialize (Hfresh eq_refl).
    destruct (IH (machineIds ++ [id])) as (ids & E & H1 & H2 & H3 & added & H4).
    + apply NoDup_app; auto.
      * repeat constructor. intros [].
      * intros x Hx [<-|[]]. contradiction.
    + apply Forall_app. split; [assumption|]. now repeat constructor.
    + assumption.
    + rewrite length_app. simpl in *. lia.
    + rewrite E. exists ids. cbn [orb]. split; [reflexivity|].
      split; [assumption|]. split; [assumption|].
      split; [rewrite H3, length_app; simpl; lia|].
      exists (id :: added). rewrite H4, <- app_assoc. reflexivity.
Qed.

(** * Queue.h *)

Section QueueFacts.

Context {T : Type}.
Implicit Types (q : Queue.t T) (x d : T).

Lemma Queue_wf_new : Queue.wf (@Queue.new T).
Proof. reflexivity. Qed.

Lemma Queue_enqueue_items x q :
  Queue.wf q ->
  Queue.items (Queue.enqueue x q) = Queue.items q ++ [x] /\
  Queue.count (Queue.enqueue x q) = S (Queue.count q).
Proof.
  unfold Queue.wf, Queue.enqueue, Queue.is_empty. intros Hwf.
  destruct (Nat.eqb_spec (Queue.count q) 0) as [E|E]; cbn; [|auto].
  rewrite E in Hwf. symmetry in Hwf. apply length_zero_iff_nil in Hwf.
  rewrite Hwf. auto.
Qed.

Lemma Queue_wf_enqueue x q : Queue.wf q -> Queue.wf (Queue.enqueue x q).
Proof.
  intros Hwf. destruct (Queue_enqueue_items x q Hwf) as [Ei Ec].
  unfold Queue.wf in *. rewrite Ei, Ec, length_app, Hwf. simpl. lia.
Qed.

Lemma Queue_enqueue_all xs :
  forall q,
    Queue.wf q ->
    let q' := fold_left (fun q x => Queue.enqueue x q) xs q in
    Queue.wf q' /\ Queue.items q' = Queue.items q ++ xs.
Proof.
  induction xs as [|x xs IH]; intros q Hwf; cbn.
  - split; [assumption|]. now rewrite app_nil_r.
  - destruct (IH (Queue.enqueue x q) (Queue_wf_enqueue x q Hwf)) as [Hw Hi].
    split; [exact Hw|]. cbn in Hi. rewrite Hi.
    destruct (Queue_enqueue_items x q Hwf) as [-> _].
    now rewrite <- app_assoc.
Qed.

Lemma Queue_dequeue_cons d q x rest :
  Queue.wf q -> Queue.items q = x :: rest ->
  Queue.dequeue d q = Ok (x, Queue.mk rest (length rest)).
Proof.
  unfold Queue.wf, Queue.dequeue, Queue.is_empty. intros Hwf Ei.
  rewrite Ei in *. simpl in Hwf. rewrite Hwf. cbn.
  now rewrite Nat.sub_0_r.
Qed.

Lemma Queue_peek_cons d q x rest :
  Queue.wf q -> Queue.items q = x :: rest -> Queue.peek d q = Ok x.
Proof.
  unfold Queue.wf, Queue.peek, Queue.is_empty. intros Hwf Ei.
  rewrite Ei in *. simpl in Hwf. rewrite Hwf. reflexivity.
Qed.

Lemma Queue_dequeue_nil d q :
  Queue.wf q -> Queue.items q = [] ->
  Queue.dequeue d q = Ok (d, q) /\ Queue.peek d q = Ok d.
Proof.
  unfold Queue.wf, Queue.dequeue, Queue.peek, Queue.is_empty. intros Hwf Ei.
  rewrite Ei in Hwf. simpl in Hwf. rewrite Hwf. auto.
Qed.

Lemma Queue_clear_loop d fuel :
  forall q,
    Queue.wf q -> (Queue.count q <= fuel)%nat ->
    Queue.clear_loop fuel d q = Ok (Queue.mk [] 0).
Proof.
  induction fuel as [|fuel IH]; intros [items count] Hwf Hfuel;
    unfold Queue.wf in Hwf; cbn in Hwf, Hfuel; subst count.
  - destruct items; [reflexivity|cbn in Hfuel; lia].
  - destruct items as [|x rest]; [reflexivity|].
    cbn [Queue.clear_loop]. unfold Queue.is_empty.
    cbn [Queue.count length Nat.eqb].
    rewrite (Queue_dequeue_cons d _ x rest) by reflexivity.
    apply IH; [reflexivity|cbn in *; lia].
Qed.

Lemma Queue_copy_wf q : Queue.wf q -> Queue.copy q = q.
Proof.
  intros Hwf. unfold Queue.copy.
  destruct (Queue_enqueue_all (Queue.items q) Queue.new Queue_wf_new)
    as [Hw Hi].
  cbn in Hi. revert Hw Hi.
  generalize (fold_left (fun q0 x => Queue.enqueue x q0) (Queue.items q)
                        Queue.new).
  intros [i c] Hw Hi. destruct q as [qi qc].
  unfold Queue.wf in *. cbn in *. subst. reflexivity.
Qed.

End QueueFacts.

(** * DoublyLL.h: [search] and [update] *)

Lemma DLL_search_iff rt n :
  DoublyLinkedListOps.search rt n = true <->
  exists e, In e rt /\ DoublyNode.filekey e = n.
Proof.
  induction rt as [|c rest IH]; cbn.
  - split; [discriminate|]. intros (e & [] & _).
  - destruct (Z.eqb_spec (DoublyNode.filekey c) n) as [E|E].
    + split; [|reflexivity]. intros _. exists c. auto.
    + rewrite IH. split.
      * intros (e & He & Ek). exists e. auto.
      * intros (e & [<-|He] & Ek); [contradiction|]. exists e. auto.
Qed.

Lemma DLL_update_absent rt old_file new_file :
  DoublyLinkedListOps.search rt old_file = false ->
  DoublyLinkedListOps.update rt old_file new_file = rt.
Proof.
  induction rt as [|c rest IH]; cbn; [reflexivity|].
  destruct (DoublyNode.filekey c =? old_file); [discriminate|].
  intros H. now rewrite IH.
Qed.

Lemma DLL_update_present rt old_file new_file :
  DoublyLinkedListOps.search rt old_file = true ->
  exists before e after,
    rt = before ++ e :: after /\
    DoublyNode.filekey e = old_file /\
    (forall x, In x before -> DoublyNode.filekey x <> old_file) /\
    DoublyLinkedListOps.update rt old_file new_file
    = before ++ DoublyNode.mk new_file (DoublyNode.machinekey e)
                              (DoublyNode.m e) :: after.
Proof.
  induction rt as [|c rest IH]; cbn; [discriminate|].
  destruct (Z.eqb_spec (DoublyNode.filekey c) old_file) as [E|E].
  - intros _. exists [], c, rest. cbn.
    split; [reflexivity|]. split; [assumption|]. split; [|reflexivity].
    intros x [].
  - intros H. destruct (IH H) as (b & e & a & -> & Ek & Hb & Eu).
    exists (c :: b), e, a. cbn. rewrite Eu.
    split; [reflexivity|]. split; [assumption|]. split; [|reflexivity].
    intros x [<-|Hx]; auto.
Qed.

Lemma DLL_initialize_search machine_key identifierSpace n :
  DoublyLinkedListOps.search
    (DoublyLinkedList.initialize [] machine_key identifierSpace) n = true <->
  exists i, (i < DoublyLinkedList.numEntries identifierSpace)%nat /\
            n = Z.rem (machine_key + 2 ^ Z.of_nat i) identifierSpace.
Proof.
  rewrite DLL_search_iff. unfold DoublyLinkedList.initialize. cbn [app].
  split.
  - intros (e & He & Ek). apply in_map_iff in He.
    destruct He as (i & <- & Hi). apply in_seq in Hi.
    exists i. split; [lia|]. rewrite <- Ek. cbn.
    rewrite Z.shiftl_1_l. reflexivity.
  - intros (i & Hi & ->). eexists. split.
    + apply in_map_iff. exists i. split; [reflexivity|]. apply in_seq. lia.
    + cbn. rewrite Z.shiftl_1_l. reflexivity.
Qed.

Lemma DLL_length_update rt old_file new_file :
  length (DoublyLinkedListOps.update rt old_file new_file) = length rt.
Proof.
  induction rt as [|c rest IH]; cbn; [reflexivity|].
  destruct (DoublyNode.filekey c =? old_file); cbn; [reflexivity|].
  now rewrite IH.
Qed.

(** * The set-up from hashed names *)

Lemma setup_all_valid s ids :
  Forall (fun id => 0 <= id < IPFS.identifierSpace s) ids ->
  CircularLinkedList.nodes (IPFS.C s) = [] ->
  snd (IPFS.InsertMachines s ids) = [] /\
  Permutation (ring_keys (IPFS.C (fst (IPFS.InsertMachines s ids)))) ids.
Proof.
  intros Hall Hempty. unfold IPFS.InsertMachines.
  pose proof (InsertMachines_fold_spec s ids (IPFS.C s) []) as H.
  cbv zeta in H. destruct (fold_left _ ids (IPFS.C s, [])) as [c skipped].
  cbn [fst snd IPFS.C IPFS.with_C] in *. destruct H as [H1 H2].
  assert (Hv : forall id, In id ids -> IPFS.isValidMachineId s id = true).
  { intros id Hid. rewrite Forall_forall in Hall. specialize (Hall id Hid).
    unfold IPFS.isValidMachineId.
    rewrite andb_true_iff, Z.leb_le, Z.ltb_lt. exact Hall. }
  assert (Ef : filter (IPFS.isValidMachineId s) ids = ids).
  { clear - Hv. induction ids as [|x l IH]; [reflexivity|]. cbn.
    rewrite (Hv x) by (simpl; auto). f_equal. apply IH.
    intros id Hid. apply Hv. simpl. auto. }
  assert (En : filter (fun id => negb (IPFS.isValidMachineId s id)) ids = []).
  { clear - Hv. induction ids as [|x l IH]; [reflexivity|]. cbn.
    rewrite (Hv x) by (simpl; auto). cbn. apply IH.
    intros id Hid. apply Hv. simpl. auto. }
  split.
  - now rewrite H1, En.
  - rewrite ring_keys_updateRT, H2, Ef. unfold ring_keys at 1.
    rewrite Hempty. cbn. now rewrite app_nil_r.
Qed.

(** * The facade in reachable states *)

Lemma reachable_sample_ring : reachable sample_ring.
Proof.
  apply reach_setup; [lia|]. repeat (constructor; [simpl; lia|]). constructor.
Qed.

Lemma reachable_sample_store : reachable sample_store.
Proof.
  unfold sample_store. cbv zeta. do 3 apply reach_put.
  apply reachable_sample_ring.
Qed.

(** Strictly ascending integers of a range are at most as many as the
    range has. *)
Lemma sorted_range_length (K : list Z) hi :
  StronglySorted Z.lt K ->
  forall lo, Forall (fun k => lo <= k < hi) K ->
             Z.of_nat (length K) <= Z.max 0 (hi - lo).
Proof.
  induction 1 as [|x K Hs IH Hx]; intros lo Hr; [simpl; lia|].
  inversion Hr as [|? ? Hx0 Hr']; subst.
  specialize (IH (x + 1)).
  assert (Hr1 : Forall (fun k => x + 1 <= k < hi) K).
  { apply Forall_forall. intros y Hy.
    rewrite Forall_forall in Hx, Hr'. specialize (Hx y Hy).
    specialize (Hr' y Hy). lia. }
  specialize (IH Hr1). cbn [length]. lia.
Qed.

Lemma next_predpos r c :
  (c < length (CircularLinkedList.nodes r))%nat ->
  CircularLinkedList.next r
    (if (c =? 0)%nat then (length (CircularLinkedList.nodes r) - 1)%nat
     else (c - 1)%nat) = c.
Proof.
  intros Hc. unfold CircularLinkedList.next.
  destruct (Nat.eqb_spec c 0);
    match goal with |- context [(?a <? ?b)%nat] =>
      destruct (Nat.ltb_spec a b) end; lia.
Qed.

Lemma In_remove_Z id (K : list Z) y :
  In y (remove Z.eq_dec id K) <-> In y K /\ y <> id.
Proof.
  split.
  - intros H. apply in_remove in H. exact H.
  - intros [H1 H2]. now apply in_in_remove.
Qed.

(** The position that holds a successor is the position of the
    successor. *)
Lemma successor_position r k p :
  StronglySorted Z.lt (ring_keys r) ->
  (p < length (CircularLinkedList.nodes r))%nat ->
  is_successor (ring_keys r) k (CircularLinkedList.key_at r p) <->
  CircularLinkedList.findResponsibleMachine r k = Some p.
Proof.
  intros Hs Hp.
  assert (Hn : (1 <= length (CircularLinkedList.nodes r))%nat) by lia.
  rewrite (findResponsibleMachine_succ r Hs k Hn).
  pose proof (succ_is_successor r Hs Hn k) as Hsucc.
  destruct (succ_pos_spec r Hn k) as [HR _].
  split.
  - intros H. f_equal.
    pose proof (successor_unique _ _ _ _ H Hsucc) as E.
    symmetry. now apply (key_at_inj r Hs).
  - intros E. injection E as <-. exact Hsucc.
Qed.

Section Facade.

Variable s : IPFS.t.
Hypothesis Hreach : reachable s.

Lemma reachable_order : 3 <= IPFS.order s.
Proof. pose proof (reachable_inv s Hreach) as [Ho _ _ _ _]. lia. Qed.

Lemma reachable_ring : ring_inv (IPFS.order s) (IPFS.C s).
Proof. now pose proof (reachable_inv s Hreach) as [_ _ _ _ Hring]. Qed.

Lemma DeleteMachine_live id :
  In id (ring_keys (IPFS.C s)) ->
  let res := IPFS.DeleteMachine s id (IPFS.order s) in
  snd res = LeaveRemoved /\
  (forall y, In y (ring_keys (IPFS.C (fst res))) <->
             In y (ring_keys (IPFS.C s)) /\ y <> id) /\
  ((2 <= length (CircularLinkedList.nodes (IPFS.C s)))%nat ->
   forall f, stored (IPFS.C (fst res)) f <-> stored (IPFS.C s) f) /\
  (length (CircularLinkedList.nodes (IPFS.C s)) = 1%nat ->
   CircularLinkedList.nodes (IPFS.C (fst res)) = []).
Proof.
  intros Hin res. pose proof reachable_order as Ho.
  pose proof reachable_ring as Hring.
  pose proof (reachable_placed s Hreach) as Hpl.
  pose proof (deletekey_outcome (IPFS.C s) id (IPFS.order s) Hin) as Hout.
  destruct (In_key_at _ _ Hin) as (c & Hc & Ek).
  pose proof (deletekey_nodes (IPFS.order s) Ho (IPFS.C s) c Hring Hc) as Hn.
  cbv zeta in Hn. rewrite Ek in Hn. destruct Hn as [Hkeys _].
  pose proof (stored_deletekey (IPFS.order s) Ho (IPFS.C s) id) as Hst.
  pose proof (deletekey_last (IPFS.order s) Ho (IPFS.C s) id Hring Hin) as Hlast.
  unfold res, IPFS.DeleteMachine.
  destruct (CircularLinkedList.deletekey (IPFS.C s) id (IPFS.order s))
    as [c' o].
  cbn [fst snd IPFS.C IPFS.with_C] in *.
  split; [exact Hout|]. split; [|split].
  - intros y. rewrite Hkeys.
    rewrite (In_remove_at_sorted (ring_keys (IPFS.C s)) c y);
      [|apply Hring|now rewrite length_ring_keys].
    rewrite <- (key_at_nth (IPFS.C s) c (-1) Hc), Ek. reflexivity.
  - intros H2 f. now apply Hst.
  - exact Hlast.
Qed.

End Facade.

(** * A fresh facade, and an empty ring *)

Lemma new_space numBits btreeOrder :
  numBits <= 30 ->
  let s := IPFS.new numBits btreeOrder in
  IPFS.bits s = Z.max 1 numBits /\
  IPFS.identifierSpace s = 2 ^ Z.max 1 numBits /\
  CircularLinkedList.identifierSpace (IPFS.C s) = 2 ^ Z.max 1 numBits /\
  CircularLinkedList.bits (IPFS.C s) = Z.max 1 numBits /\
  CircularLinkedList.nodes (IPFS.C s) = [].
Proof.
  intros Hb. unfold IPFS.new, CircularLinkedList.new. cbv zeta.
  cbn [IPFS.bits IPFS.identifierSpace IPFS.C CircularLinkedList.identifierSpace
       CircularLinkedList.bits CircularLinkedList.nodes].
  set (b := if 31 <? (if numBits <? 1 then 1 else numBits)
            then 31 else if numBits <? 1 then 1 else numBits).
  assert (Eb : b = Z.max 1 numBits).
  { unfold b. destruct (Z.ltb_spec numBits 1).
    - destruct (Z.ltb_spec 31 1); lia.
    - destruct (Z.ltb_spec 31 numBits); lia. }
  rewrite Eb, Z.shiftl_1_l.
  assert (Hr : 1 <= Z.max 1 numBits <= 30) by lia.
  pose proof (pow2_le_30 (Z.max 1 numBits) ltac:(lia)) as Hp.
  rewrite wrap_int_small by (change (2 ^ 31) with (2 * 2 ^ 30); lia).
  rewrite Z.log2_pow2 by lia. auto.
Qed.

Lemma insertAfter_added order r id :
  3 <= order -> ring_inv order r ->
  0 <= id < CircularLinkedList.identifierSpace r -> ~ In id (ring_keys r) ->
  snd (CircularLinkedList.insertAfter r id order) = JoinAdded /\
  Permutation (ring_keys (fst (CircularLinkedList.insertAfter r id order)))
              (id :: ring_keys r).
Proof.
  intros Ho Hinv Hid Hnin.
  destruct (CircularLinkedList.nodes r) as [|x l] eqn:En.
  - unfold CircularLinkedList.insertAfter.
    destruct (CircularLinkedList.search r id) eqn:Es.
    { apply search_true_iff in Es. contradiction. }
    destruct (Z.ltb_spec id 0) as [?|_]; [lia|].
    destruct (Z.leb_spec (CircularLinkedList.identifierSpace r) id) as [?|_];
      [lia|].
    cbn [orb fst snd]. split; [reflexivity|].
    set (r1 := CircularLinkedList.updateRT (CircularLinkedList.insert r id)).
    assert (Hp : Permutation (ring_keys r1) (id :: ring_keys r)).
    { unfold r1. rewrite ring_keys_updateRT. apply ring_keys_insert_perm. }
    assert (Hl1 : length (CircularLinkedList.nodes r1) = 1%nat).
    { rewrite <- (length_ring_keys r1), (Permutation_length Hp).
      simpl. rewrite length_ring_keys, En. reflexivity. }
    destruct (CircularLinkedList.SearchNewMachine r1 id); [|exact Hp].
    unfold CircularLinkedList.getMachineCount. rewrite Hl1. exact Hp.
  - assert (Hne : CircularLinkedList.nodes r <> []) by (rewrite En; discriminate).
    destruct (insertAfter_handoff order Ho r id Hinv Hne Hid Hnin)
      as (H1 & H2 & _).
    auto.
Qed.

Section EmptyRing.

Variable s : IPFS.t.
Hypothesis Hempty : CircularLinkedList.nodes (IPFS.C s) = [].

Lemma empty_put start k path order :
  IPFS.insertFile s start k path order = (s, PutEmptyRing).
Proof.
  unfold IPFS.insertFile, CircularLinkedList.InsertFileToTree.
  rewrite Hempty. apply f_equal2; [apply with_C_same|reflexivity].
Qed.

Lemma empty_delete start k : IPFS.DeleteFile s start k = (s, false).
Proof.
  unfold IPFS.DeleteFile, CircularLinkedList.DeleteFileFromTree.
  rewrite Hempty. apply f_equal2; [apply with_C_same|reflexivity].
Qed.

Lemma empty_get start k : IPFS.SearchFile s start k = None.
Proof.
  unfold IPFS.SearchFile, CircularLinkedList.SearchFile_WithMachine.
  now rewrite Hempty.
Qed.

Lemma empty_leave id order :
  IPFS.DeleteMachine s id order = (s, LeaveEmptyRing).
Proof.
  unfold IPFS.DeleteMachine, CircularLinkedList.deletekey.
  rewrite Hempty. apply f_equal2; [apply with_C_same|reflexivity].
Qed.

Lemma empty_route start k :
  CircularLinkedList.routeToKey (IPFS.C s) start k = Ok [].
Proof.
  unfold CircularLinkedList.routeToKey, CircularLinkedList.routeToKey_fuel.
  now rewrite Hempty.
Qed.

Lemma empty_responsible k :
  CircularLinkedList.findResponsibleMachine (IPFS.C s) k = None.
Proof.
  unfold CircularLinkedList.findResponsibleMachine. now rewrite Hempty.
Qed.

Lemma empty_no_key id : ~ In id (ring_keys (IPFS.C s)).
Proof. unfold ring_keys. rewrite Hempty. intros []. Qed.

End EmptyRing.

(** [InsertMachine] validates, then joins. *)
Lemma membership_rejected s id order :
  let res := IPFS.InsertMachine s id order in
  (id < 0 \/ IPFS.identifierSpace s <= id \/ In id (ring_keys (IPFS.C s)) ->
   CircularLinkedList.identifierSpace (IPFS.C s) = IPFS.identifierSpace s ->
   fst res = s /\ (snd res = JoinOutOfRange \/ snd res = JoinExists)) /\
  (0 <= id < IPFS.identifierSpace s ->
   res = (IPFS.with_C s (fst (CircularLinkedList.insertAfter (IPFS.C s) id order)),
          snd (CircularLinkedList.insertAfter (IPFS.C s) id order))).
Proof.
  intros res. unfold res, IPFS.InsertMachine, IPFS.isValidMachineId. split.
  - intros H Hsame.
    destruct (Z.leb_spec 0 id) as [H0|H0]; cbn [andb negb]; [|auto].
    destruct (Z.ltb_spec id (IPFS.identifierSpace s)) as [H1|H1];
      cbn [negb]; [|auto].
    destruct H as [H|[H|H]]; [lia|lia|].
    unfold CircularLinkedList.insertAfter.
    apply search_true_iff in H. rewrite H. cbn [fst snd].
    split; [apply with_C_same|auto].
  - intros [H0 H1].
    destruct (Z.leb_spec 0 id); [|lia].
    destruct (Z.ltb_spec id (IPFS.identifierSpace s)); [|lia]. cbn [andb negb].
    now destruct (CircularLinkedList.insertAfter (IPFS.C s) id order).
Qed.

(** * The height of a B-tree *)

Lemma list_sum_lower (K : Z) (l : list nat) :
  0 <= K -> Forall (fun x => K <= Z.of_nat x) l ->
  Z.of_nat (length l) * K <= Z.of_nat (list_sum l).
Proof.
  intros HK. induction 1 as [|x l Hx Hl IH]; [simpl; lia|].
  change (list_sum (x :: l)) with (x + list_sum l)%nat.
  cbn [length]. rewrite Nat2Z.inj_succ, Nat2Z.inj_add. nia.
Qed.

(** A subtree of height [h] whose nodes below the top hold at least [MN]
    records, with at least [c0] records in the top node, holds at least
    [(c0 + 1) * (MN + 1) ^ h - 1] records. *)
Lemma shape_count_lower MX MN h :
  0 <= MN ->
  forall n c0,
    shape MX MN h n -> 0 <= c0 <= Z.of_nat (count n) ->
    (c0 + 1) * (MN + 1) ^ Z.of_nat h - 1 <= Z.of_nat (BTree.countFiles_node n).
Proof.
  intros HMN. induction h as [|h IH]; intros n c0 Hs Hc;
    apply shape_unfold in Hs; destruct Hs as (_ & _ & Hlen & Hf);
    destruct n as [mx mn v cs]; unfold count in *;
    cbn [BTree.countFiles_node value child] in *.
  - change (Z.of_nat 0) with 0. rewrite Z.pow_0_r. lia.
  - set (K := (MN + 1) ^ Z.of_nat (S h) - 1).
    assert (HK : 0 <= K).
    { unfold K. pose proof (Z.pow_pos_nonneg (MN + 1) (Z.of_nat (S h))
                              ltac:(lia) ltac:(lia)). lia. }
    assert (Hsum : Z.of_nat (length cs) * K
                   <= Z.of_nat (list_sum
                        (map (fun c => match c with
                                       | Some c' => BTree.countFiles_node c'
                                       | None => O
                                       end) cs))).
    { rewrite <- (length_map (fun c => match c with
                                       | Some c' => BTree.countFiles_node c'
                                       | None => O
                                       end) cs).
      apply list_sum_lower; [exact HK|].
      apply Forall_map. eapply Forall_impl; [|exact Hf].
      intros [c|]; cbn [slot]; [|intros []].
      intros [Hsc Hcc]. unfold K.
      pose proof (IH c MN Hsc ltac:(lia)) as Hlow.
      replace (Z.of_nat (S h)) with (Z.of_nat h + 1) by lia.
      rewrite Z.pow_add_r, Z.pow_1_r by lia. lia. }
    rewrite Hlen, Nat2Z.inj_succ in Hsum. rewrite Nat2Z.inj_add.
    assert (HK1 : (MN + 1) ^ Z.of_nat (S h) = K + 1) by (unfold K; lia).
    rewrite HK1. nia.
Qed.

(** * Further properties of the code *)

(** X1 (search-tree order and balance).  In a tree built with an order of
    at least 3 by [insertHelper] and [deleteHelper], the in-order sequence
    of the records is strictly ascending in the keys, so no key occurs
    twice, and all leaves are at the same depth. *)
Theorem built_sorted_balanced t b :
  3 <= t -> built t b ->
  sorted (contents b) /\ NoDup (keys (contents b)) /\
  match BTree.root b with
  | Some rootNode => exists h, leaves_at h rootNode
  | None => True
  end.
Proof.
  intros Ht Hb. pose proof (built_inv t Ht b Hb) as [[h Hs] Hsort].
  split; [exact Hsort|]. split; [now apply sorted_NoDup_keys|].
  destruct (BTree.root b) as [rootNode|]; [|trivial].
  destruct h as [|h]; [discriminate|]. destruct Hs as [Hsh _].
  exists h. eapply shape_leaves_at; eauto.
Qed.

Lemma built_sorted_balanced_witness :
  3 <= 3 /\ built 3 sample_tree /\
  sorted (contents sample_tree) /\ NoDup (keys (contents sample_tree)) /\
  match BTree.root sample_tree with
  | Some rootNode => exists h, leaves_at h rootNode
  | None => True
  end.
Proof.
  assert (Ht : 3 <= 3) by lia.
  assert (Hb : built 3 sample_tree).
  { unfold sample_tree. cbn [fold_left]. repeat apply built_insert. apply built_new. }
  split; [exact Ht|]. split; [exact Hb|].
  exact (built_sorted_balanced 3 sample_tree Ht Hb).
Defined.

(** X2 (insert, then look up).  On a built tree, [insertHelper] of a
    record whose key is absent reports no duplicate and adds exactly that
    record: afterwards [searchFile] finds the key, [findFile] returns the
    record, the lookups of every other key answer as before, and
    [countFiles] is one more. *)
Theorem insert_then_lookup t b f :
  3 <= t -> built t b -> ~ In (FileNode.key f) (keys (contents b)) ->
  let b' := fst (BTree.insertHelper b f t) in
  snd (BTree.insertHelper b f t) = false /\
  Permutation (contents b') (f :: contents b) /\
  BTree.searchFile b' (FileNode.key f) = true /\
  BTree.findFile b' (FileNode.key f) = Some f /\
  (forall k, k <> FileNode.key f ->
             BTree.searchFile b' k = BTree.searchFile b k /\
             BTree.findFile b' k = BTree.findFile b k) /\
  BTree.countFiles (BTree.root b') = S (BTree.countFiles (BTree.root b)).
Proof.
  intros Ht Hb Hnin b'. pose proof (built_inv t Ht b Hb) as Hinv.
  assert (Hex : existsb (has_key (FileNode.key f)) (contents b) = false).
  { destruct (existsb (has_key (FileNode.key f)) (contents b)) eqn:E; [|reflexivity].
    apply existsb_has_key in E. contradiction. }
  destruct (insertHelper_new t Ht b f Hinv Hex) as [H1 H2].
  split; [exact H1|]. split; [exact H2|].
  exact (insertHelper_lookup t Ht b f Hinv Hex).
Qed.

Lemma insert_then_lookup_witness :
  3 <= 3 /\ built 3 sample_tree /\
  ~ In (FileNode.key fresh_record) (keys (contents sample_tree)) /\
  let b' := fst (BTree.insertHelper sample_tree fresh_record 3) in
  snd (BTree.insertHelper sample_tree fresh_record 3) = false /\
  Permutation (contents b') (fresh_record :: contents sample_tree) /\
  BTree.searchFile b' (FileNode.key fresh_record) = true /\
  BTree.findFile b' (FileNode.key fresh_record) = Some fresh_record /\
  (forall k, k <> FileNode.key fresh_record ->
             BTree.searchFile b' k = BTree.searchFile sample_tree k /\
             BTree.findFile b' k = BTree.findFile sample_tree k) /\
  BTree.countFiles (BTree.root b') = S (BTree.countFiles (BTree.root sample_tree)).
Proof.
  assert (Ht : 3 <= 3) by lia.
  assert (Hb : built 3 sample_tree).
  { unfold sample_tree. cbn [fold_left]. repeat apply built_insert. apply built_new. }
  assert (Hnin : ~ In (FileNode.key fresh_record) (keys (contents sample_tree)))
    by (vm_compute; lia).
  split; [exact Ht|]. split; [exact Hb|]. split; [exact Hnin|].
  exact (insert_then_lookup 3 sample_tree fresh_record Ht Hb Hnin).
Defined.



(** X4 (enumeration and count).  On a built tree, [getAllFiles] lists
    every record of the tree exactly once (in breadth-first, not key,
    order), [countFiles] is the length of that list, and a key is found by
    [searchFile] exactly when a listed record has it. *)
Theorem enumeration_complete t b :
  3 <= t -> built t b ->
  Permutation (BTree.getAllFiles (BTree.root b)) (contents b) /\
  NoDup (keys (BTree.getAllFiles (BTree.root b))) /\
  BTree.countFiles (BTree.root b) = length (BTree.getAllFiles (BTree.root b)) /\
  (forall k, BTree.searchFile b k = true <->
             In k (keys (BTree.getAllFiles (BTree.root b)))).
Proof.
  intros Ht Hb. pose proof (built_inv t Ht b Hb) as Hinv.
  pose proof (getAllFiles_contents b) as Hp.
  assert (Hpk : Permutation (keys (BTree.getAllFiles (BTree.root b)))
                            (keys (contents b)))
    by (unfold keys; now apply Permutation_map).
  split; [exact Hp|]. split; [|split].
  - eapply Permutation_NoDup; [symmetry; exact Hpk|].
    apply sorted_NoDup_keys. now apply (BTree_inv_sorted t).
  - rewrite countFiles_contents. symmetry. now apply Permutation_length.
  - intros k. rewrite (searchFile_spec t Ht b k Hinv), existsb_has_key.
    split; apply Permutation_in; [symmetry|]; exact Hpk.
Qed.

Lemma enumeration_complete_witness :
  3 <= 3 /\ built 3 sample_tree /\
  Permutation (BTree.getAllFiles (BTree.root sample_tree)) (contents sample_tree) /\
  NoDup (keys (BTree.getAllFiles (BTree.root sample_tree))) /\
  BTree.countFiles (BTree.root sample_tree)
  = length (BTree.getAllFiles (BTree.root sample_tree)) /\
  (forall k, BTree.searchFile sample_tree k = true <->
             In k (keys (BTree.getAllFiles (BTree.root sample_tree)))).
Proof.
  assert (Ht : 3 <= 3) by lia.
  assert (Hb : built 3 sample_tree).
  { unfold sample_tree. cbn [fold_left]. repeat apply built_insert. apply built_new. }
  split; [exact Ht|]. split; [exact Hb|].
  exact (enumeration_complete 3 sample_tree Ht Hb).
Defined.

(** X5 (insert and delete undo each other).  On a built tree, inserting a
    record of an absent key and then deleting that key gives back the
    records of the tree, and so does deleting the key of a stored record
    and then inserting the record again. *)
Theorem insert_delete_inverse t b f r :
  3 <= t -> built t b ->
  ~ In (FileNode.key f) (keys (contents b)) -> In r (contents b) ->
  contents (fst (BTree.deleteHelper (fst (BTree.insertHelper b f t))
                                    (FileNode.key f)))
  = contents b /\
  contents (fst (BTree.insertHelper (fst (BTree.deleteHelper b (FileNode.key r)))
                                    r t))
  = contents b.
Proof.
  intros Ht Hb Hnin Hin. pose proof (built_inv t Ht b Hb) as Hinv.
  split.
  - apply (insert_delete_contents t Ht b f Hinv).
    destruct (existsb (has_key (FileNode.key f)) (contents b)) eqn:E; [|reflexivity].
    apply existsb_has_key in E. contradiction.
  - now apply (delete_insert_contents t Ht).
Qed.

Lemma insert_delete_inverse_witness :
  3 <= 3 /\ built 3 sample_tree /\
  ~ In (FileNode.key fresh_record) (keys (contents sample_tree)) /\
  In stored_record (contents sample_tree) /\
  contents (fst (BTree.deleteHelper
                   (fst (BTree.insertHelper sample_tree fresh_record 3))
                   (FileNode.key fresh_record)))
  = contents sample_tree /\
  contents (fst (BTree.insertHelper
                   (fst (BTree.deleteHelper sample_tree
                                            (FileNode.key stored_record)))
                   stored_record 3))
  = contents sample_tree.
Proof.
  assert (Ht : 3 <= 3) by lia.
  assert (Hb : built 3 sample_tree).
  { unfold sample_tree. cbn [fold_left]. repeat apply built_insert. apply built_new. }
  assert (Hnin : ~ In (FileNode.key fresh_record) (keys (contents sample_tree)))
    by (vm_compute; lia).
  assert (Hin : In stored_record (contents sample_tree)) by (vm_compute; tauto).
  split; [exact Ht|]. split; [exact Hb|]. split; [exact Hnin|]. split; [exact Hin|].
  exact (insert_delete_inverse 3 sample_tree fresh_record stored_record
                               Ht Hb Hnin Hin).
Defined.

(** X6 (shape of a route).  In every reachable state [routeToKey] returns
    a path for every start ID and every key: the IDs on it are IDs of
    live machines, it begins with the start machine when that machine is
    live, and it is empty when no machine has the start ID. *)
Theorem route_path_shape s start key :
  reachable s ->
  exists path,
    CircularLinkedList.routeToKey (IPFS.C s) start key = Ok path /\
    incl path (ring_keys (IPFS.C s)) /\
    (In start (ring_keys (IPFS.C s)) -> hd_error path = Some start) /\
    (~ In start (ring_keys (IPFS.C s)) -> path = []).
Proof.
  intros Hr. pose proof (reachable_fingers_live s Hr) as Hlive.
  destruct (routeToKey_fuel_terminates (IPFS.C s) Hlive _ start key
                                       (Nat.le_refl _)) as (path & E & _ & Hi).
  exists path. split; [exact E|]. split; [exact Hi|].
  exact (routeToKey_start (IPFS.C s) start key path E).
Qed.

Lemma route_path_shape_witness :
  reachable sample_ring /\
  exists path,
    CircularLinkedList.routeToKey (IPFS.C sample_ring) 9 2 = Ok path /\
    incl path (ring_keys (IPFS.C sample_ring)) /\
    (In 9 (ring_keys (IPFS.C sample_ring)) -> hd_error path = Some 9) /\
    (~ In 9 (ring_keys (IPFS.C sample_ring)) -> path = []).
Proof.
  assert (Hr : reachable sample_ring) by exact reachable_sample_ring.
  split; [exact Hr|]. exact (route_path_shape sample_ring 9 2 Hr).
Defined.

(** X7 (outcomes of a put).  In a reachable state [insertFile] ends in one
    of four ways.  On an empty ring, and from a start ID that no machine
    has, it changes nothing and says so.  From a live start machine, when
    a record of the key is stored on some machine, it changes nothing and
    names the machine responsible for the key; otherwise it stores the
    record on the responsible machine: the machines are the same, the
    records of the ring are the new one and those there were, and the
    trees of the other machines are untouched. *)
Theorem put_outcomes s start fileKey path :
  reachable s ->
  let res := IPFS.insertFile s start fileKey path (IPFS.order s) in
  let held := exists g, stored (IPFS.C s) g /\ FileNode.key g = fileKey in
  (CircularLinkedList.nodes (IPFS.C s) = [] -> res = (s, PutEmptyRing)) /\
  (CircularLinkedList.nodes (IPFS.C s) <> [] ->
   ~ In start (ring_keys (IPFS.C s)) -> res = (s, PutNoSuchMachine)) /\
  (In start (ring_keys (IPFS.C s)) ->
   exists m,
     is_successor (ring_keys (IPFS.C s)) fileKey m /\
     (held -> res = (s, PutAlreadyExists m)) /\
     (~ held ->
      snd res = PutStored m /\
      ring_keys (IPFS.C (fst res)) = ring_keys (IPFS.C s) /\
      (forall f, stored (IPFS.C (fst res)) f <->
                 f = FileNode.mk fileKey path \/ stored (IPFS.C s) f) /\
      (forall id, id <> m ->
                  BTree_of (IPFS.C (fst res)) id = BTree_of (IPFS.C s) id))).
Proof.
  intros Hr res held. pose proof (reachable_order s Hr) as Ho.
  pose proof (reachable_ring s Hr) as Hring.
  pose proof (reachable_placed s Hr) as Hpl.
  destruct (InsertFileToTree_rejected (IPFS.order s) (IPFS.C s) start fileKey path)
    as [Hempty Hunknown].
  pose proof (put_stored (IPFS.order s) Ho (IPFS.C s) Hring Hpl start fileKey path)
    as Hput.
  unfold res, IPFS.insertFile. cbv zeta in Hput.
  destruct (CircularLinkedList.InsertFileToTree (IPFS.C s) start fileKey path
                                                (IPFS.order s)) as [c o].
  cbn [fst snd IPFS.C IPFS.with_C] in *.
  split; [|split].
  - intros E. specialize (Hempty E). injection Hempty as -> ->.
    now rewrite with_C_same.
  - intros E Hnin. specialize (Hunknown E Hnin). injection Hunknown as -> ->.
    now rewrite with_C_same.
  - intros Hin. destruct (Hput Hin) as (Hm & Hdup & Hnew).
    eexists. split; [exact Hm|]. split.
    + intros Hh. specialize (Hdup Hh). injection Hdup as -> ->.
      now rewrite with_C_same.
    + exact Hnew.
Qed.

Lemma put_outcomes_witness :
  reachable sample_store /\
  let res := IPFS.insertFile sample_store 4 6 SamplePaths.b
                             (IPFS.order sample_store) in
  let held := exists g, stored (IPFS.C sample_store) g /\ FileNode.key g = 6 in
  (CircularLinkedList.nodes (IPFS.C sample_store) = [] ->
   res = (sample_store, PutEmptyRing)) /\
  (CircularLinkedList.nodes (IPFS.C sample_store) <> [] ->
   ~ In 4 (ring_keys (IPFS.C sample_store)) ->
   res = (sample_store, PutNoSuchMachine)) /\
  (In 4 (ring_keys (IPFS.C sample_store)) ->
   exists m,
     is_successor (ring_keys (IPFS.C sample_store)) 6 m /\
     (held -> res = (sample_store, PutAlreadyExists m)) /\
     (~ held ->
      snd res = PutStored m /\
      ring_keys (IPFS.C (fst res)) = ring_keys (IPFS.C sample_store) /\
      (forall f, stored (IPFS.C (fst res)) f <->
                 f = FileNode.mk 6 SamplePaths.b \/
                 stored (IPFS.C sample_store) f) /\
      (forall id, id <> m ->
                  BTree_of (IPFS.C (fst res)) id
                  = BTree_of (IPFS.C sample_store) id))).
Proof.
  assert (Hr : reachable sample_store) by exact reachable_sample_store.
  split; [exact Hr|]. exact (put_outcomes sample_store 4 6 SamplePaths.b Hr).
Defined.

(** X8 (outcomes of a delete).  In a reachable state [DeleteFile] from a
    start ID that no machine has changes nothing and answers false.  From
    a live start machine it answers true exactly when a record of the key
    is stored on some machine; it removes that record and no other, keeps
    the machines, returns the state it was given when it answers false,
    and afterwards a get of the key finds nothing, from any start. *)
Theorem delete_outcomes s start fileKey :
  reachable s ->
  let res := IPFS.DeleteFile s start fileKey in
  (~ In start (ring_keys (IPFS.C s)) -> res = (s, false)) /\
  (In start (ring_keys (IPFS.C s)) ->
   (snd res = true <->
    exists g, stored (IPFS.C s) g /\ FileNode.key g = fileKey) /\
   (snd res = false -> fst res = s) /\
   ring_keys (IPFS.C (fst res)) = ring_keys (IPFS.C s) /\
   (forall f, stored (IPFS.C (fst res)) f <->
              stored (IPFS.C s) f /\ FileNode.key f <> fileKey) /\
   (forall start', IPFS.SearchFile (fst res) start' fileKey = None)).
Proof.
  intros Hr res. pose proof (reachable_order s Hr) as Ho.
  pose proof (reachable_ring s Hr) as Hring.
  pose proof (reachable_placed s Hr) as Hpl.
  pose proof (reach_del s start fileKey Hr) as Hr'.
  pose proof (reachable_ring _ Hr') as Hring'.
  pose proof (reachable_placed _ Hr') as Hpl'.
  pose proof (reachable_order _ Hr') as Ho'.
  fold res in Hr', Hring', Hpl', Ho'.
  pose proof (DeleteFileFromTree_unknown_start (IPFS.C s) start fileKey) as Hunk.
  pose proof (delete_stored (IPFS.order s) Ho (IPFS.C s) Hring Hpl start fileKey)
    as Hdel.
  cbv zeta in Hdel.
  assert (Eres : res = (IPFS.with_C s (fst (CircularLinkedList.DeleteFileFromTree
                                             (IPFS.C s) start fileKey)),
                        snd (CircularLinkedList.DeleteFileFromTree
                               (IPFS.C s) start fileKey))).
  { unfold res, IPFS.DeleteFile.
    now destruct (CircularLinkedList.DeleteFileFromTree (IPFS.C s) start fileKey). }
  split.
  - intros Hnin. rewrite Eres, (Hunk Hnin). cbn [fst snd].
    now rewrite with_C_same.
  - intros Hin. destruct (Hdel Hin) as (H1 & H2 & H3 & H4).
    assert (Hgone : forall f, stored (IPFS.C (fst res)) f <->
                              stored (IPFS.C s) f /\ FileNode.key f <> fileKey).
    { rewrite Eres. exact H4. }
    split; [|split; [|split; [|split]]].
    + rewrite Eres. exact H1.
    + rewrite Eres. cbn [fst snd]. intros E. rewrite (H2 E).
      apply with_C_same.
    + rewrite Eres. exact H3.
    + exact Hgone.
    + intros start'. unfold IPFS.SearchFile.
      destruct (in_dec Z.eq_dec start' (ring_keys (IPFS.C (fst res))))
        as [Hl|Hl]; [|now apply SearchFile_unknown_start].
      rewrite (SearchFile_spec _ Ho' _ start' fileKey Hring' Hl).
      destruct (find (has_key fileKey) _) as [g|] eqn:Ef; [|reflexivity].
      exfalso. apply find_some in Ef. destruct Ef as [Hg Hk].
      unfold has_key in Hk. apply Z.eqb_eq in Hk.
      pose proof (ring_inv_nonempty _ _ _ Hring' Hl) as Hn.
      destruct (succ_pos_spec _ Hn fileKey) as [HR _].
      assert (Hst : stored (IPFS.C (fst res)) g).
      { apply stored_positions. eauto. }
      apply Hgone in Hst. tauto.
Qed.

Lemma delete_outcomes_witness :
  reachable sample_store /\
  let res := IPFS.DeleteFile sample_store 1 13 in
  (~ In 1 (ring_keys (IPFS.C sample_store)) -> res = (sample_store, false)) /\
  (In 1 (ring_keys (IPFS.C sample_store)) ->
   (snd res = true <->
    exists g, stored (IPFS.C sample_store) g /\ FileNode.key g = 13) /\
   (snd res = false -> fst res = sample_store) /\
   ring_keys (IPFS.C (fst res)) = ring_keys (IPFS.C sample_store) /\
   (forall f, stored (IPFS.C (fst res)) f <->
              stored (IPFS.C sample_store) f /\ FileNode.key f <> 13) /\
   (forall start', IPFS.SearchFile (fst res) start' 13 = None)).
Proof.
  assert (Hr : reachable sample_store) by exact reachable_sample_store.
  split; [exact Hr|]. exact (delete_outcomes sample_store 1 13 Hr).
Defined.

(** X9 (outcomes of a get).  In a reachable state [SearchFile] from a
    start ID that no machine has finds nothing.  From a live start machine
    it finds every stored record under its key, on the machine responsible
    for the key, whichever machine the search starts from; and it finds
    nothing exactly when no machine stores a record of the key. *)
Theorem get_outcomes s start fileKey :
  reachable s ->
  (~ In start (ring_keys (IPFS.C s)) -> IPFS.SearchFile s start fileKey = None) /\
  (In start (ring_keys (IPFS.C s)) ->
   (forall f, stored (IPFS.C s) f -> FileNode.key f = fileKey ->
              exists p,
                IPFS.SearchFile s start fileKey = Some (p, Some f) /\
                is_successor (ring_keys (IPFS.C s)) fileKey
                             (CircularLinkedList.key_at (IPFS.C s) p)) /\
   (IPFS.SearchFile s start fileKey = None <->
    forall f, stored (IPFS.C s) f -> FileNode.key f <> fileKey)).
Proof.
  intros Hr. pose proof (reachable_order s Hr) as Ho.
  pose proof (reachable_ring s Hr) as Hring.
  pose proof (reachable_placed s Hr) as Hpl.
  unfold IPFS.SearchFile. split; [apply SearchFile_unknown_start|].
  intros Hin. pose proof (ring_inv_nonempty _ _ _ Hring Hin) as Hn.
  pose proof (SearchFile_spec _ Ho _ start fileKey Hring Hin) as Espec.
  assert (Hfound : forall f, stored (IPFS.C s) f -> FileNode.key f = fileKey ->
             CircularLinkedList.SearchFile_WithMachine (IPFS.C s) start fileKey
             = Some (succ_pos (IPFS.C s) fileKey, Some f)).
  { intros f (node & Hnode & Hf) <-.
    destruct (stored_found _ _ start node f Ho Hring Hpl Hin Hnode Hf)
      as (p & E & _).
    rewrite Espec in E |- *.
    destruct (find _ _) as [g|]; [|discriminate].
    injection E as _ ->. reflexivity. }
  split.
  - intros f Hst Hk. exists (succ_pos (IPFS.C s) fileKey).
    split; [now apply Hfound|]. apply succ_is_successor; [apply Hring|exact Hn].
  - split.
    + intros E f Hst Hk. rewrite (Hfound f Hst Hk) in E. discriminate.
    + intros Hnone. rewrite Espec.
      destruct (find (has_key fileKey) _) as [g|] eqn:Ef; [|reflexivity].
      exfalso. apply find_some in Ef. destruct Ef as [Hg Hk].
      unfold has_key in Hk. apply Z.eqb_eq in Hk.
      destruct (succ_pos_spec _ Hn fileKey) as [HR _].
      apply (Hnone g); [|exact Hk]. apply stored_positions. eauto.
Qed.

Lemma get_outcomes_witness :
  reachable sample_store /\
  (~ In 4 (ring_keys (IPFS.C sample_store)) ->
   IPFS.SearchFile sample_store 4 13 = None) /\
  (In 4 (ring_keys (IPFS.C sample_store)) ->
   (forall f, stored (IPFS.C sample_store) f -> FileNode.key f = 13 ->
              exists p,
                IPFS.SearchFile sample_store 4 13 = Some (p, Some f) /\
                is_successor (ring_keys (IPFS.C sample_store)) 13
                             (CircularLinkedList.key_at (IPFS.C sample_store) p)) /\
   (IPFS.SearchFile sample_store 4 13 = None <->
    forall f, stored (IPFS.C sample_store) f -> FileNode.key f <> 13)).
Proof.
  assert (Hr : reachable sample_store) by exact reachable_sample_store.
  split; [exact Hr|]. exact (get_outcomes sample_store 4 13 Hr).
Defined.

(** X10 (the empty ring).  While the ring has no machine, a put, a delete,
    a get and a leave change nothing and report, in turn, the empty ring,
    false, nothing found and the empty ring; a route is the empty path
    and no machine is responsible for any key.  In a reachable state with
    no machine, the join of any ID of the range [0, N) is carried out and
    gives a ring of that one machine, which has no record and is
    responsible for every key. *)
Theorem empty_ring_operations s :
  CircularLinkedList.nodes (IPFS.C s) = [] ->
  (forall start k path order,
      IPFS.insertFile s start k path order = (s, PutEmptyRing)) /\
  (forall start k, IPFS.DeleteFile s start k = (s, false)) /\
  (forall start k, IPFS.SearchFile s start k = None) /\
  (forall id order, IPFS.DeleteMachine s id order = (s, LeaveEmptyRing)) /\
  (forall start k, CircularLinkedList.routeToKey (IPFS.C s) start k = Ok []) /\
  (forall k, CircularLinkedList.findResponsibleMachine (IPFS.C s) k = None) /\
  (reachable s ->
   forall id, 0 <= id < IPFS.identifierSpace s ->
     let res := IPFS.InsertMachine s id (IPFS.order s) in
     snd res = JoinAdded /\
     ring_keys (IPFS.C (fst res)) = [id] /\
     (forall f, ~ stored (IPFS.C (fst res)) f) /\
     (forall k, exists p,
         CircularLinkedList.findResponsibleMachine (IPFS.C (fst res)) k = Some p /\
         CircularLinkedList.key_at (IPFS.C (fst res)) p = id)).
Proof.
  intros Hempty.
  split; [intros; now apply empty_put|].
  split; [intros; now apply empty_delete|].
  split; [intros; now apply empty_get|].
  split; [intros; now apply empty_leave|].
  split; [intros; now apply empty_route|].
  split; [intros; now apply empty_responsible|].
  intros Hr id Hid res.
  pose proof (reachable_inv s Hr) as [Ho _ _ Hsame Hring].
  pose proof (reach_join s id Hr) as Hr'. fold res in Hr'.
  pose proof (reachable_ring _ Hr') as Hring'.
  assert (Hnin : ~ In id (ring_keys (IPFS.C s))) by now apply empty_no_key.
  assert (Hid' : 0 <= id < CircularLinkedList.identifierSpace (IPFS.C s))
    by (rewrite Hsame; exact Hid).
  destruct (insertAfter_added (IPFS.order s) (IPFS.C s) id ltac:(lia) Hring
                              Hid' Hnin) as [Hout Hperm].
  pose proof (insertAfter_first (IPFS.order s) (IPFS.C s) id) as Hfirst.
  assert (Eres : res = (IPFS.with_C s (fst (CircularLinkedList.insertAfter
                                             (IPFS.C s) id (IPFS.order s))),
                        snd (CircularLinkedList.insertAfter
                               (IPFS.C s) id (IPFS.order s)))).
  { unfold res, IPFS.InsertMachine, IPFS.isValidMachineId.
    destruct (Z.leb_spec 0 id); [|lia].
    destruct (Z.ltb_spec id (IPFS.identifierSpace s)); [|lia]. cbn [andb negb].
    now destruct (CircularLinkedList.insertAfter (IPFS.C s) id (IPFS.order s)). }
  assert (Ekeys : ring_keys (IPFS.C (fst res)) = [id]).
  { rewrite Eres. cbn [fst IPFS.C IPFS.with_C].
    unfold ring_keys at 2 in Hperm. rewrite Hempty in Hperm.
    apply Permutation_sym, Permutation_length_1_inv in Hperm. exact Hperm. }
  split; [rewrite Eres; exact Hout|]. split; [exact Ekeys|]. split.
  - intros f (node & Hnode & Hf). rewrite Eres in Hnode.
    cbn [fst IPFS.C IPFS.with_C] in Hnode.
    rewrite (Hfirst node Hempty Hnode) in Hf. destruct Hf.
  - intros k.
    assert (Hn : (1 <= length (CircularLinkedList.nodes (IPFS.C (fst res))))%nat).
    { rewrite <- length_ring_keys, Ekeys. simpl. lia. }
    exists (succ_pos (IPFS.C (fst res)) k). split.
    + apply findResponsibleMachine_succ; [apply Hring'|exact Hn].
    + pose proof (succ_is_successor _ (ri_sorted _ _ Hring') Hn k) as [Hin _].
      rewrite Ekeys in Hin. destruct Hin as [E|[]]. now symmetry.
Qed.

Lemma empty_ring_operations_witness :
  CircularLinkedList.nodes (IPFS.C (IPFS.new 4 3)) = [] /\
  (forall start k path order,
      IPFS.insertFile (IPFS.new 4 3) start k path order
      = (IPFS.new 4 3, PutEmptyRing)) /\
  (forall start k, IPFS.DeleteFile (IPFS.new 4 3) start k = (IPFS.new 4 3, false)) /\
  (forall start k, IPFS.SearchFile (IPFS.new 4 3) start k = None) /\
  (forall id order,
      IPFS.DeleteMachine (IPFS.new 4 3) id order = (IPFS.new 4 3, LeaveEmptyRing)) /\
  (forall start k,
      CircularLinkedList.routeToKey (IPFS.C (IPFS.new 4 3)) start k = Ok []) /\
  (forall k,
      CircularLinkedList.findResponsibleMachine (IPFS.C (IPFS.new 4 3)) k = None) /\
  (reachable (IPFS.new 4 3) ->
   forall id, 0 <= id < IPFS.identifierSpace (IPFS.new 4 3) ->
     let res := IPFS.InsertMachine (IPFS.new 4 3) id (IPFS.order (IPFS.new 4 3)) in
     snd res = JoinAdded /\
     ring_keys (IPFS.C (fst res)) = [id] /\
     (forall f, ~ stored (IPFS.C (fst res)) f) /\
     (forall k, exists p,
         CircularLinkedList.findResponsibleMachine (IPFS.C (fst res)) k = Some p /\
         CircularLinkedList.key_at (IPFS.C (fst res)) p = id)).
Proof.
  assert (Hempty : CircularLinkedList.nodes (IPFS.C (IPFS.new 4 3)) = [])
    by reflexivity.
  split; [exact Hempty|]. exact (empty_ring_operations (IPFS.new 4 3) Hempty).
Defined.

(** X11 (the fresh system).  For a bit count of at most 30 the constructor
    of the facade clamps the count to at least 1, sets the identifier
    space to two to the power of the clamped count, without overflow, in
    the facade and in the ring alike, and starts with no machine; the
    valid machine IDs are then exactly those from 0 to the identifier
    space less one. *)
Theorem fresh_system numBits btreeOrder :
  numBits <= 30 ->
  let s := IPFS.new numBits btreeOrder in
  IPFS.bits s = Z.max 1 numBits /\
  IPFS.identifierSpace s = 2 ^ Z.max 1 numBits /\
  CircularLinkedList.identifierSpace (IPFS.C s) = IPFS.identifierSpace s /\
  CircularLinkedList.bits (IPFS.C s) = IPFS.bits s /\
  IPFSQueries.getMachineCount s = 0%nat /\
  (forall id, IPFSQueries.machineExists s id = false) /\
  (forall id, IPFS.isValidMachineId s id = true <-> 0 <= id < 2 ^ Z.max 1 numBits).
Proof.
  intros Hb s. destruct (new_space numBits btreeOrder Hb)
    as (H1 & H2 & H3 & H4 & H5). fold s in H1, H2, H3, H4, H5.
  split; [exact H1|]. split; [exact H2|]. split; [congruence|].
  split; [congruence|]. split; [|split].
  - unfold IPFSQueries.getMachineCount, CircularLinkedList.getMachineCount.
    now rewrite H5.
  - intros id. unfold IPFSQueries.machineExists.
    destruct (CircularLinkedList.search (IPFS.C s) id) eqn:E; [|reflexivity].
    apply search_true_iff in E. now apply empty_no_key in E.
  - intros id. unfold IPFS.isValidMachineId.
    rewrite andb_true_iff, Z.leb_le, Z.ltb_lt, H2. reflexivity.
Qed.

Lemma fresh_system_witness :
  0 <= 30 /\
  let s := IPFS.new 0 5 in
  IPFS.bits s = Z.max 1 0 /\
  IPFS.identifierSpace s = 2 ^ Z.max 1 0 /\
  CircularLinkedList.identifierSpace (IPFS.C s) = IPFS.identifierSpace s /\
  CircularLinkedList.bits (IPFS.C s) = IPFS.bits s /\
  IPFSQueries.getMachineCount s = 0%nat /\
  (forall id, IPFSQueries.machineExists s id = false) /\
  (forall id, IPFS.isValidMachineId s id = true <-> 0 <= id < 2 ^ Z.max 1 0).
Proof.
  assert (Hb : 0 <= 30) by lia.
  split; [exact Hb|]. exact (fresh_system 0 5 Hb).
Defined.

(** X12 (rebuilding the finger tables).  [updateRT] changes finger tables
    only: the machines, their order, their trees and the identifier space
    are as before; afterwards no finger points outside the ring, and a
    second rebuild changes nothing. *)
Theorem updateRT_frame r :
  ring_keys (CircularLinkedList.updateRT r) = ring_keys r /\
  map CircularNode.BTreeroot (CircularLinkedList.nodes (CircularLinkedList.updateRT r))
  = map CircularNode.BTreeroot (CircularLinkedList.nodes r) /\
  CircularLinkedList.identifierSpace (CircularLinkedList.updateRT r)
  = CircularLinkedList.identifierSpace r /\
  fingers_live (CircularLinkedList.updateRT r) /\
  CircularLinkedList.updateRT (CircularLinkedList.updateRT r)
  = CircularLinkedList.updateRT r.
Proof.
  split; [apply ring_keys_updateRT|]. split; [apply BTreeroot_updateRT|].
  split; [apply identifierSpace_updateRT|].
  split; [apply fingers_live_updateRT|apply updateRT_idempotent].
Qed.

(** X13 (invariant of the ring).  In every reachable state the machine IDs
    are strictly ascending from the head of the ring, hence pairwise
    distinct, and lie in the range [0, N); there are at most N machines;
    [machineExists] answers true exactly for the live IDs; and the tree
    of every machine is a search tree: its records are in strictly
    ascending key order. *)
Theorem reachable_ring_invariant s :
  reachable s ->
  StronglySorted Z.lt (ring_keys (IPFS.C s)) /\
  NoDup (ring_keys (IPFS.C s)) /\
  (forall id, In id (ring_keys (IPFS.C s)) -> 0 <= id < IPFS.identifierSpace s) /\
  Z.of_nat (IPFSQueries.getMachineCount s) <= Z.max 0 (IPFS.identifierSpace s) /\
  (forall id, IPFSQueries.machineExists s id = true <->
              In id (ring_keys (IPFS.C s))) /\
  (forall node, In node (CircularLinkedList.nodes (IPFS.C s)) ->
                sorted (contents (CircularNode.BTreeroot node))).
Proof.
  intros Hr. pose proof (reachable_inv s Hr) as [Ho _ _ Hsame Hring].
  destruct Hring as [Hs Hrange _ Htrees]. rewrite Hsame in Hrange.
  split; [exact Hs|]. split; [|split; [|split; [|split]]].
  - clear - Hs. induction Hs as [|x K HK IH Hx]; constructor; [|exact IH].
    intros Hin. rewrite Forall_forall in Hx. specialize (Hx x Hin). lia.
  - intros id Hin. rewrite Forall_forall in Hrange. now apply Hrange.
  - unfold IPFSQueries.getMachineCount, CircularLinkedList.getMachineCount.
    rewrite <- length_ring_keys.
    pose proof (sorted_range_length _ (IPFS.identifierSpace s) Hs 0 Hrange).
    now rewrite Z.sub_0_r in H.
  - intros id. apply search_true_iff.
  - intros node Hnode. rewrite Forall_forall in Htrees.
    apply (BTree_inv_sorted (IPFS.order s)). now apply Htrees.
Qed.

Lemma reachable_ring_invariant_witness :
  reachable sample_store /\
  StronglySorted Z.lt (ring_keys (IPFS.C sample_store)) /\
  NoDup (ring_keys (IPFS.C sample_store)) /\
  (forall id, In id (ring_keys (IPFS.C sample_store)) ->
              0 <= id < IPFS.identifierSpace sample_store) /\
  Z.of_nat (IPFSQueries.getMachineCount sample_store)
  <= Z.max 0 (IPFS.identifierSpace sample_store) /\
  (forall id, IPFSQueries.machineExists sample_store id = true <->
              In id (ring_keys (IPFS.C sample_store))) /\
  (forall node, In node (CircularLinkedList.nodes (IPFS.C sample_store)) ->
                sorted (contents (CircularNode.BTreeroot node))).
Proof.
  assert (Hr : reachable sample_store) by exact reachable_sample_store.
  split; [exact Hr|]. exact (reachable_ring_invariant sample_store Hr).
Defined.

(** X14 (records are where their keys belong).  In every reachable state
    every record is on the machine responsible for its key, that is on
    the successor of the key among the live IDs; and no key is stored
    twice in the ring: two stored records of one key are the same record
    on the same machine. *)
Theorem records_in_place s :
  reachable s ->
  placed (IPFS.C s) /\
  (forall node1 node2 f g,
      In node1 (CircularLinkedList.nodes (IPFS.C s)) ->
      In node2 (CircularLinkedList.nodes (IPFS.C s)) ->
      In f (contents (CircularNode.BTreeroot node1)) ->
      In g (contents (CircularNode.BTreeroot node2)) ->
      FileNode.key f = FileNode.key g ->
      node1 = node2 /\ f = g).
Proof.
  intros Hr. pose proof (reachable_placed s Hr) as Hpl.
  split; [exact Hpl|]. intros node1 node2 f g.
  exact (placed_unique (IPFS.order s) (IPFS.C s) node1 node2 f g
                       (reachable_order s Hr) (reachable_ring s Hr) Hpl).
Qed.

Lemma records_in_place_witness :
  reachable sample_store /\
  placed (IPFS.C sample_store) /\
  (forall node1 node2 f g,
      In node1 (CircularLinkedList.nodes (IPFS.C sample_store)) ->
      In node2 (CircularLinkedList.nodes (IPFS.C sample_store)) ->
      In f (contents (CircularNode.BTreeroot node1)) ->
      In g (contents (CircularNode.BTreeroot node2)) ->
      FileNode.key f = FileNode.key g ->
      node1 = node2 /\ f = g).
Proof.
  assert (Hr : reachable sample_store) by exact reachable_sample_store.
  split; [exact Hr|]. exact (records_in_place sample_store Hr).
Defined.

(** X15 (a join loses no record).  In a reachable state [InsertMachine]
    keeps the records of the ring, whatever it answers: a record is
    stored on some machine afterwards exactly when it was stored on some
    machine before.  The join is carried out exactly for the IDs of the
    range [0, N) that no machine has, and then the machines are the new
    one and those there were. *)
Theorem join_keeps_records s id :
  reachable s ->
  let res := IPFS.InsertMachine s id (IPFS.order s) in
  (forall f, stored (IPFS.C (fst res)) f <-> stored (IPFS.C s) f) /\
  (snd res = JoinAdded <->
   0 <= id < IPFS.identifierSpace s /\ ~ In id (ring_keys (IPFS.C s))) /\
  (snd res = JoinAdded ->
   Permutation (ring_keys (IPFS.C (fst res))) (id :: ring_keys (IPFS.C s)) /\
   IPFSQueries.getMachineCount (fst res) = S (IPFSQueries.getMachineCount s)).
Proof.
  intros Hr res. pose proof (reachable_inv s Hr) as [Ho _ _ Hsame Hring].
  assert (Ho3 : 3 <= IPFS.order s) by lia.
  pose proof (stored_insertAfter (IPFS.order s) Ho3 (IPFS.C s) id) as Hst.
  pose proof (insertAfter_added (IPFS.order s) (IPFS.C s) id Ho3 Hring) as Hadd.
  rewrite Hsame in Hadd.
  destruct membership_rejected with (s := s) (id := id) (order := IPFS.order s)
    as [Hrej Hacc].
  fold res in Hrej, Hacc.
  assert (Hrej' := fun c => Hrej c Hsame). clear Hrej.
  destruct (Z_le_gt_dec 0 id) as [H0|H0];
    [destruct (Z_lt_le_dec id (IPFS.identifierSpace s)) as [H1|H1];
     [destruct (in_dec Z.eq_dec id (ring_keys (IPFS.C s))) as [Hin|Hnin]|]|].
  - destruct Hrej' as (Es & Eo); [auto|]. rewrite Es. split; [reflexivity|].
    split; [split; [intros E; rewrite E in Eo; destruct Eo; discriminate|tauto]|].
    intros E. rewrite E in Eo. destruct Eo; discriminate.
  - destruct (Hadd ltac:(lia) Hnin) as [Hout Hperm].
    rewrite (Hacc ltac:(lia)). cbn [fst snd IPFS.C IPFS.with_C].
    split; [intros f; apply Hst; exact Hring|].
    split; [split; [intros _; split; [lia|exact Hnin]|intros _; exact Hout]|].
    intros _. split; [exact Hperm|].
    unfold IPFSQueries.getMachineCount, CircularLinkedList.getMachineCount.
    cbn [IPFS.C IPFS.with_C].
    rewrite <- !length_ring_keys, (Permutation_length Hperm). reflexivity.
  - destruct Hrej' as (Es & Eo); [auto|]. rewrite Es. split; [reflexivity|].
    split; [split; [intros E; rewrite E in Eo; destruct Eo; discriminate|lia]|].
    intros E. rewrite E in Eo. destruct Eo; discriminate.
  - destruct Hrej' as (Es & Eo); [left; lia|]. rewrite Es. split; [reflexivity|].
    split; [split; [intros E; rewrite E in Eo; destruct Eo; discriminate|lia]|].
    intros E. rewrite E in Eo. destruct Eo; discriminate.
Qed.

Lemma join_keeps_records_witness :
  reachable sample_store /\
  let res := IPFS.InsertMachine sample_store 12 (IPFS.order sample_store) in
  (forall f, stored (IPFS.C (fst res)) f <-> stored (IPFS.C sample_store) f) /\
  (snd res = JoinAdded <->
   0 <= 12 < IPFS.identifierSpace sample_store /\
   ~ In 12 (ring_keys (IPFS.C sample_store))) /\
  (snd res = JoinAdded ->
   Permutation (ring_keys (IPFS.C (fst res)))
               (12 :: ring_keys (IPFS.C sample_store)) /\
   IPFSQueries.getMachineCount (fst res)
   = S (IPFSQueries.getMachineCount sample_store)).
Proof.
  assert (Hr : reachable sample_store) by exact reachable_sample_store.
  split; [exact Hr|]. exact (join_keeps_records sample_store 12 Hr).
Defined.

(** X16 (a leave).  In a reachable state the leave of a live machine is
    carried out and removes that machine and no other.  When the ring has
    two machines or more no record is lost: a record is stored on some
    machine afterwards exactly when it was stored on some machine before.
    When the machine is the only one the ring is left empty, and its
    records go with it. *)
Theorem leave_outcomes s id :
  reachable s -> In id (ring_keys (IPFS.C s)) ->
  let res := IPFS.DeleteMachine s id (IPFS.order s) in
  snd res = LeaveRemoved /\
  (forall y, In y (ring_keys (IPFS.C (fst res))) <->
             In y (ring_keys (IPFS.C s)) /\ y <> id) /\
  ((2 <= IPFSQueries.getMachineCount s)%nat ->
   forall f, stored (IPFS.C (fst res)) f <-> stored (IPFS.C s) f) /\
  (IPFSQueries.getMachineCount s = 1%nat ->
   CircularLinkedList.nodes (IPFS.C (fst res)) = [] /\
   forall f, ~ stored (IPFS.C (fst res)) f).
Proof.
  intros Hr Hin res.
  destruct (DeleteMachine_live s Hr id Hin) as (H1 & H2 & H3 & H4).
  fold res in H1, H2, H3, H4.
  split; [exact H1|]. split; [exact H2|]. split; [exact H3|].
  intros Hone. specialize (H4 Hone). split; [exact H4|].
  intros f (node & Hnode & _). rewrite H4 in Hnode. destruct Hnode.
Qed.

Lemma leave_outcomes_witness :
  reachable sample_store /\ In 14 (ring_keys (IPFS.C sample_store)) /\
  let res := IPFS.DeleteMachine sample_store 14 (IPFS.order sample_store) in
  snd res = LeaveRemoved /\
  (forall y, In y (ring_keys (IPFS.C (fst res))) <->
             In y (ring_keys (IPFS.C sample_store)) /\ y <> 14) /\
  ((2 <= IPFSQueries.getMachineCount sample_store)%nat ->
   forall f, stored (IPFS.C (fst res)) f <-> stored (IPFS.C sample_store) f) /\
  (IPFSQueries.getMachineCount sample_store = 1%nat ->
   CircularLinkedList.nodes (IPFS.C (fst res)) = [] /\
   forall f, ~ stored (IPFS.C (fst res)) f).
Proof.
  assert (Hr : reachable sample_store) by exact reachable_sample_store.
  assert (Hin : In 14 (ring_keys (IPFS.C sample_store))) by (vm_compute; lia).
  split; [exact Hr|]. split; [exact Hin|].
  exact (leave_outcomes sample_store 14 Hr Hin).
Defined.

(** X17 (neighbours along the ring).  In a reachable state with two
    machines or more, for a live machine, [findPredecessor] returns the
    machine whose [next] is that machine, and it is its predecessor in
    the order of the IDs: the machine with the largest smaller ID, or the
    one with the largest ID of all when no ID is smaller.  The [next] of
    the machine is its successor in the order of the IDs likewise. *)
Theorem neighbours_in_id_order s id :
  reachable s -> In id (ring_keys (IPFS.C s)) ->
  (2 <= IPFSQueries.getMachineCount s)%nat ->
  let others := remove Z.eq_dec id (ring_keys (IPFS.C s)) in
  exists c p,
    CircularLinkedList.findMachineById (IPFS.C s) id = Some c /\
    CircularLinkedList.findPredecessor (IPFS.C s) id = Some p /\
    CircularLinkedList.next (IPFS.C s) p = c /\
    is_predecessor others id (CircularLinkedList.key_at (IPFS.C s) p) /\
    is_successor others id
      (CircularLinkedList.key_at (IPFS.C s) (CircularLinkedList.next (IPFS.C s) c)).
Proof.
  intros Hr Hin Hn others. pose proof (reachable_ring s Hr) as [Hs _ _ _].
  destruct (In_key_at _ _ Hin) as (c & Hc & Ek).
  assert (Hothers : forall y, In y others <->
            In y (ring_keys (IPFS.C s)) /\
            y <> CircularLinkedList.key_at (IPFS.C s) c).
  { intros y. rewrite Ek. apply In_remove_Z. }
  exists c, (if (c =? 0)%nat
             then (length (CircularLinkedList.nodes (IPFS.C s)) - 1)%nat
             else (c - 1)%nat).
  rewrite <- Ek at 1 2.
  split; [now apply findMachineById_key_at|].
  split; [now apply findPredecessor_key_at|].
  split; [now apply next_predpos|]. rewrite <- Ek. split.
  - now apply ring_predecessor.
  - now apply ring_successor.
Qed.

Lemma neighbours_in_id_order_witness :
  reachable sample_ring /\ In 1 (ring_keys (IPFS.C sample_ring)) /\
  (2 <= IPFSQueries.getMachineCount sample_ring)%nat /\
  let others := remove Z.eq_dec 1 (ring_keys (IPFS.C sample_ring)) in
  exists c p,
    CircularLinkedList.findMachineById (IPFS.C sample_ring) 1 = Some c /\
    CircularLinkedList.findPredecessor (IPFS.C sample_ring) 1 = Some p /\
    CircularLinkedList.next (IPFS.C sample_ring) p = c /\
    is_predecessor others 1 (CircularLinkedList.key_at (IPFS.C sample_ring) p) /\
    is_successor others 1
      (CircularLinkedList.key_at (IPFS.C sample_ring)
                                 (CircularLinkedList.next (IPFS.C sample_ring) c)).
Proof.
  assert (Hr : reachable sample_ring) by exact reachable_sample_ring.
  assert (Hin : In 1 (ring_keys (IPFS.C sample_ring))) by (vm_compute; lia).
  assert (Hn : (2 <= IPFSQueries.getMachineCount sample_ring)%nat)
    by (vm_compute; lia).
  split; [exact Hr|]. split; [exact Hin|]. split; [exact Hn|].
  exact (neighbours_in_id_order sample_ring 1 Hr Hin Hn).
Defined.

(** X18 (the printed range is the responsibility).  In a reachable state
    [printBTree] of an ID that no machine has prints the error only.  For
    a live machine the range line names exactly the keys of [0, N) that
    the machine is responsible for, that is those whose successor among
    the live IDs it is, and the count printed is the number of records of
    its tree. *)
Theorem printed_range_is_responsibility s machineKey :
  reachable s ->
  (~ In machineKey (ring_keys (IPFS.C s)) ->
   CircularLinkedListPrint.printBTree (IPFS.C s) machineKey = None) /\
  (In machineKey (ring_keys (IPFS.C s)) ->
   exists msg p,
     CircularLinkedList.findMachineById (IPFS.C s) machineKey = Some p /\
     CircularLinkedListPrint.printBTree (IPFS.C s) machineKey
     = Some (msg, length (contents (CircularLinkedList.BTree_at (IPFS.C s) p))) /\
     forall k, 0 <= k < IPFS.identifierSpace s ->
               (in_range msg k <->
                is_successor (ring_keys (IPFS.C s)) k machineKey)).
Proof.
  intros Hr. split; [apply printBTree_unknown|]. intros Hin.
  pose proof (reachable_inv s Hr) as Hinv.
  pose proof (reachable_ring s Hr) as Hring.
  destruct (In_key_at _ _ Hin) as (p & Hp & Ek).
  assert (Hne : CircularLinkedList.nodes (IPFS.C s) <> []).
  { intros E. rewrite E in Hp. simpl in Hp. lia. }
  destruct (ipfs_inv_space s Hinv Hne) as [Hb Hspace].
  destruct (printBTree_range (IPFS.order s) (IPFS.C s) (IPFS.bits s) p
                             Hring Hb Hspace Hp) as (msg & Eprint & Hrange).
  rewrite Ek in Eprint. exists msg, p.
  split; [rewrite <- Ek; apply findMachineById_key_at; [apply Hring|exact Hp]|].
  split; [exact Eprint|].
  intros k Hk. destruct Hinv as [_ _ _ Hsame _].
  rewrite <- Hsame, Hspace in Hk. rewrite (Hrange k Hk), <- Ek.
  symmetry. apply successor_position; [apply Hring|exact Hp].
Qed.

Lemma printed_range_is_responsibility_witness :
  reachable sample_store /\
  (~ In 1 (ring_keys (IPFS.C sample_store)) ->
   CircularLinkedListPrint.printBTree (IPFS.C sample_store) 1 = None) /\
  (In 1 (ring_keys (IPFS.C sample_store)) ->
   exists msg p,
     CircularLinkedList.findMachineById (IPFS.C sample_store) 1 = Some p /\
     CircularLinkedListPrint.printBTree (IPFS.C sample_store) 1
     = Some (msg, length (contents (CircularLinkedList.BTree_at
                                      (IPFS.C sample_store) p))) /\
     forall k, 0 <= k < IPFS.identifierSpace sample_store ->
               (in_range msg k <->
                is_successor (ring_keys (IPFS.C sample_store)) k 1)).
Proof.
  assert (Hr : reachable sample_store) by exact reachable_sample_store.
  split; [exact Hr|]. exact (printed_range_is_responsibility sample_store 1 Hr).
Defined.

(** X19 (IDs from hashed names).  In the set-up of [main] with IDs taken
    from the hashes of the machine names, for 1 to 30 bits, hashes in the
    range [0, N) and at most N names: the collision loop stops for every
    name within N steps, the message that no free ID is left is never
    printed, and the IDs assigned are as many as the names, pairwise
    distinct and in the range [0, N).  [InsertMachines] then skips none of
    them, the machines of the ring are exactly those IDs, and the state
    is a reachable one. *)
Theorem hashed_ids_unique numBits btreeOrder fuel hashes :
  1 <= numBits <= 30 -> 3 <= btreeOrder <= 100 ->
  Forall (fun h => 0 <= h < 2 ^ numBits) hashes ->
  Z.of_nat (length hashes) <= 2 ^ numBits ->
  (Z.to_nat (2 ^ numBits) <= fuel)%nat ->
  exists ids,
    Main.assign_hashed fuel (2 ^ numBits) [] hashes = Ok (ids, false) /\
    length ids = length hashes /\ NoDup ids /\
    Forall (fun id => 0 <= id < 2 ^ numBits) ids /\
    let s := IPFS.new numBits btreeOrder in
    snd (IPFS.InsertMachines s ids) = [] /\
    Permutation (ring_keys (IPFS.C (fst (IPFS.InsertMachines s ids)))) ids /\
    reachable (fst (IPFS.InsertMachines s ids)).
Proof.
  intros Hb Ho Hh Hlen Hfuel.
  pose proof (pow2_le_30 numBits ltac:(lia)) as Hp.
  assert (Hspace : 0 < 2 ^ numBits < 2 ^ 31)
    by (change (2 ^ 31) with (2 * 2 ^ 30); lia).
  destruct (assign_hashed_spec (2 ^ numBits) fuel hashes Hspace Hfuel []
                               (NoDup_nil _) (Forall_nil _) Hh Hlen)
    as (ids & E & Hnd & Hr & Hl & _).
  exists ids. split; [exact E|]. split; [exact Hl|]. split; [exact Hnd|].
  split; [exact Hr|]. intros s.
  destruct (new_space numBits btreeOrder ltac:(lia)) as (_ & H2 & _ & _ & H5).
  fold s in H2, H5. rewrite Z.max_r in H2 by lia.
  assert (Hr' : Forall (fun id => 0 <= id < IPFS.identifierSpace s) ids)
    by now rewrite H2.
  destruct (setup_all_valid s ids Hr' H5) as [H6 H7].
  split; [exact H6|]. split; [exact H7|]. now apply reach_setup.
Qed.

Lemma hashed_ids_unique_witness :
  1 <= 4 <= 30 /\ 3 <= 3 <= 100 /\
  Forall (fun h => 0 <= h < 2 ^ 4) [3; 3; 15; 15; 3] /\
  Z.of_nat (length [3; 3; 15; 15; 3]) <= 2 ^ 4 /\
  (Z.to_nat (2 ^ 4) <= 16)%nat /\
  exists ids,
    Main.assign_hashed 16 (2 ^ 4) [] [3; 3; 15; 15; 3] = Ok (ids, false) /\
    length ids = length [3; 3; 15; 15; 3] /\ NoDup ids /\
    Forall (fun id => 0 <= id < 2 ^ 4) ids /\
    let s := IPFS.new 4 3 in
    snd (IPFS.InsertMachines s ids) = [] /\
    Permutation (ring_keys (IPFS.C (fst (IPFS.InsertMachines s ids)))) ids /\
    reachable (fst (IPFS.InsertMachines s ids)).
Proof.
  assert (Hb : 1 <= 4 <= 30) by lia.
  assert (Ho : 3 <= 3 <= 100) by lia.
  assert (Hh : Forall (fun h => 0 <= h < 2 ^ 4) [3; 3; 15; 15; 3])
    by (repeat constructor; simpl; lia).
  assert (Hlen : Z.of_nat (length [3; 3; 15; 15; 3]) <= 2 ^ 4) by (simpl; lia).
  assert (Hfuel : (Z.to_nat (2 ^ 4) <= 16)%nat) by (simpl; lia).
  split; [exact Hb|]. split; [exact Ho|]. split; [exact Hh|].
  split; [exact Hlen|]. split; [exact Hfuel|].
  exact (hashed_ids_unique 4 3 16 [3; 3; 15; 15; 3] Hb Ho Hh Hlen Hfuel).
Defined.

(** X20 (search and update of a finger table).  [search] answers true
    exactly when an entry has the target asked for; after [initialize] on
    an empty table these are the targets [(machine_key + 2 ^ i) rem
    identifierSpace] of the entries [i] below the number of entries.
    [update] retargets the first entry of the old target and leaves the
    other entries, the machine IDs and the pointers as they are; when no
    entry has the old target it changes nothing; it never changes the
    number of entries. *)
Theorem finger_table_search_update rt old_file new_file :
  (DoublyLinkedListOps.search rt old_file = true <->
   exists e, In e rt /\ DoublyNode.filekey e = old_file) /\
  (DoublyLinkedListOps.search rt old_file = false ->
   DoublyLinkedListOps.update rt old_file new_file = rt) /\
  (DoublyLinkedListOps.search rt old_file = true ->
   DoublyLinkedListOps.search
     (DoublyLinkedListOps.update rt old_file new_file) new_file = true /\
   exists before e after,
     rt = before ++ e :: after /\
     DoublyNode.filekey e = old_file /\
     (forall x, In x before -> DoublyNode.filekey x <> old_file) /\
     DoublyLinkedListOps.update rt old_file new_file
     = before ++ DoublyNode.mk new_file (DoublyNode.machinekey e)
                               (DoublyNode.m e) :: after) /\
  length (DoublyLinkedListOps.update rt old_file new_file) = length rt /\
  (forall machine_key identifierSpace n,
      DoublyLinkedListOps.search
        (DoublyLinkedList.initialize [] machine_key identifierSpace) n = true <->
      exists i, (i < DoublyLinkedList.numEntries identifierSpace)%nat /\
                n = Z.rem (machine_key + 2 ^ Z.of_nat i) identifierSpace).
Proof.
  split; [apply DLL_search_iff|]. split; [apply DLL_update_absent|].
  split; [|split; [apply DLL_length_update|apply DLL_initialize_search]].
  intros Hs.
  destruct (DLL_update_present rt old_file new_file Hs)
    as (before & e & after & E1 & E2 & E3 & E4).
  split; [|now exists before, e, after].
  apply DLL_search_iff. eexists. split.
  - rewrite E4. apply in_elt.
  - reflexivity.
Qed.

(** X21 (the queue is first in, first out).  On a queue whose count is the
    number of its nodes, as [Queue()] builds it and the operations keep
    it, enqueueing items appends them in order and adds their number to
    the size; [peek] and [dequeue] then give the oldest item, and
    [dequeue] leaves the others in order; on an empty queue both return
    the default value and [dequeue] changes nothing. *)
Theorem queue_fifo (T : Type) (d : T) (q : Queue.t T) (xs : list T) :
  Queue.wf q ->
  let q' := fold_left (fun q x => Queue.enqueue x q) xs q in
  Queue.wf q' /\
  Queue.items q' = Queue.items q ++ xs /\
  Queue.size q' = (Queue.size q + length xs)%nat /\
  match Queue.items q ++ xs with
  | [] => Queue.is_empty q' = true /\
          Queue.dequeue d q' = Ok (d, q') /\ Queue.peek d q' = Ok d
  | x :: rest => Queue.is_empty q' = false /\
                 Queue.peek d q' = Ok x /\
                 exists q'', Queue.dequeue d q' = Ok (x, q'') /\
                             Queue.wf q'' /\ Queue.items q'' = rest
  end.
Proof.
  intros Hwf q'. destruct (Queue_enqueue_all xs q Hwf) as [Hw Hi].
  fold q' in Hw, Hi. split; [exact Hw|]. split; [exact Hi|].
  assert (Hc : Queue.count q' = length (Queue.items q ++ xs))
    by now rewrite <- Hi.
  split.
  - unfold Queue.size. rewrite Hc, length_app. now rewrite <- Hwf.
  - rewrite <- Hi. unfold Queue.is_empty. rewrite Hw.
    destruct (Queue.items q') as [|x rest] eqn:Ei.
    + split; [reflexivity|]. now apply Queue_dequeue_nil.
    + split; [reflexivity|]. split; [now apply (Queue_peek_cons d q' x rest)|].
      exists (Queue.mk rest (length rest)).
      split; [now apply Queue_dequeue_cons|]. split; reflexivity.
Qed.

Lemma queue_fifo_witness :
  Queue.wf (@Queue.new Z) /\
  let q' := fold_left (fun q x => Queue.enqueue x q) [7; 8; 9] (@Queue.new Z) in
  Queue.wf q' /\
  Queue.items q' = Queue.items (@Queue.new Z) ++ [7; 8; 9] /\
  Queue.size q' = (Queue.size (@Queue.new Z) + length [7; 8; 9])%nat /\
  match Queue.items (@Queue.new Z) ++ [7; 8; 9] with
  | [] => Queue.is_empty q' = true /\
          Queue.dequeue 0 q' = Ok (0, q') /\ Queue.peek 0 q' = Ok 0
  | x :: rest => Queue.is_empty q' = false /\
                 Queue.peek 0 q' = Ok x /\
                 exists q'', Queue.dequeue 0 q' = Ok (x, q'') /\
                             Queue.wf q'' /\ Queue.items q'' = rest
  end.
Proof.
  assert (Hwf : Queue.wf (@Queue.new Z)) by reflexivity.
  split; [exact Hwf|]. exact (queue_fifo Z 0 Queue.new [7; 8; 9] Hwf).
Defined.

(** X22 (copy and clear of a queue).  On a queue whose count is the number
    of its nodes, the copy constructor builds a queue with the same items
    in the same order and the same count, and [clear] stops and leaves
    the empty queue. *)
Theorem queue_copy_clear (T : Type) (d : T) (q : Queue.t T) :
  Queue.wf q ->
  Queue.copy q = q /\ Queue.clear d q = Ok Queue.new.
Proof.
  intros Hwf. split; [now apply Queue_copy_wf|].
  unfold Queue.clear. now apply Queue_clear_loop.
Qed.

Lemma queue_copy_clear_witness :
  Queue.wf (Queue.mk [7; 8; 9] 3) /\
  Queue.copy (Queue.mk [7; 8; 9] 3) = Queue.mk [7; 8; 9] 3 /\
  Queue.clear 0 (Queue.mk [7; 8; 9] 3) = Ok Queue.new.
Proof.
  assert (Hwf : Queue.wf (Queue.mk [7; 8; 9] 3)) by reflexivity.
  split; [exact Hwf|]. exact (queue_copy_clear Z 0 (Queue.mk [7; 8; 9] 3) Hwf).
Defined.

(** X23 (height of a tree).  In a non-empty tree built with an order [t]
    of at least 3, with the leaves [h] levels below the root, the number
    of records is at least [2 * ceil (t / 2) ^ h - 1], hence at least
    [2 ^ (h + 1) - 1]: the depth of the tree is logarithmic in the number
    of records. *)
Theorem height_logarithmic t b :
  3 <= t -> built t b ->
  match BTree.root b with
  | Some rootNode =>
      exists h,
        leaves_at h rootNode /\
        2 * ceil_half t ^ Z.of_nat h - 1
        <= Z.of_nat (BTree.countFiles (BTree.root b)) /\
        2 ^ (Z.of_nat h + 1) - 1 <= Z.of_nat (BTree.countFiles (BTree.root b))
  | None => True
  end.
Proof.
  intros Ht Hb. destruct (built_inv t Ht b Hb) as [[h Hs] _].
  destruct (BTree.root b) as [rootNode|]; [|trivial].
  destruct h as [|h]; [discriminate|]. destruct Hs as [Hsh Hc].
  pose proof (canonical_min_spec t Ht) as Hmin. unfold canonical_min in Hmin.
  assert (Hceil : 2 <= ceil_half t).
  { unfold ceil_half. pose proof (Z.div_mod t 2 ltac:(lia)).
    pose proof (Z.mod_pos_bound t 2 ltac:(lia)). lia. }
  pose proof (shape_count_lower (MAX_of_order t) (MIN_of_order t) h
                                ltac:(lia) rootNode 1 Hsh ltac:(lia)) as Hlow.
  replace (MIN_of_order t + 1) with (ceil_half t) in Hlow by lia.
  exists h. split; [eapply shape_leaves_at; eauto|].
  cbn [BTree.countFiles]. split; [lia|].
  pose proof (Z.pow_le_mono_l 2 (ceil_half t) (Z.of_nat h) ltac:(lia)) as Hpow.
  rewrite Z.pow_add_r, Z.pow_1_r by lia. lia.
Qed.

Lemma height_logarithmic_witness :
  3 <= 3 /\ built 3 sample_tree /\
  match BTree.root sample_tree with
  | Some rootNode =>
      exists h,
        leaves_at h rootNode /\
        2 * ceil_half 3 ^ Z.of_nat h - 1
        <= Z.of_nat (BTree.countFiles (BTree.root sample_tree)) /\
        2 ^ (Z.of_nat h + 1) - 1
        <= Z.of_nat (BTree.countFiles (BTree.root sample_tree))
  | None => True
  end.
Proof.
  assert (Ht : 3 <= 3) by lia.
  assert (Hb : built 3 sample_tree).
  { unfold sample_tree. cbn [fold_left]. repeat apply built_insert. apply built_new. }
  split; [exact Ht|]. split; [exact Hb|].
  exact (height_logarithmic 3 sample_tree Ht Hb).
Defined.
